(** * A shallow embedding of the mini-React runtime

    The development follows the layout of [packages/react/src]:
    - [Js]: the fragment of JavaScript values the runtime inspects
      ([typeof], [Object.is], [===], [String]);
    - [Equals]: [utils/equals.ts];
    - [Elements] and [ElementsDoc]: the two copies of [core/elements.ts];
    - [Dom]: [core/dom.ts] over an explicit DOM store;
    - [Hooks]: [core/hooks.ts] over the hook context;
    - [Reconciler]: [core/reconciler.ts];
    - [Render]: [core/render.ts] and [core/setup.ts].

    Definitions come first, the theorems about them afterwards. *)

From Stdlib Require Import ZArith Lia Ascii.
From stdpp Require Import gmap strings list pretty fin_maps.

Set Warnings "-register-all".

Local Open Scope string_scope.
Local Open Scope list_scope.

(* ===================================================================== *)
(** ** JavaScript values *)
(* ===================================================================== *)

Module Js.

(** Numbers.  The runtime never computes with numbers, it only compares and
    prints them, so a number is an integer, [NaN] or the negative zero. *)
Inductive Num := NInt (z : Z) | NNaN | NNegZero.

Inductive Prim :=
| PUndef
| PNull
| PBool (b : bool)
| PNum (n : Num)
| PStr (s : string).

(** A value is a primitive, a function (by identity) or an object (by
    reference). *)
Inductive Value :=
| VPrim (p : Prim)
| VFun (f : nat)
| VRef (r : nat).

(** The content of an object, one level deep. *)
Inductive JsObj :=
| OArr (elems : list Value)
| ORec (fields : list (string * Value)).

#[global] Instance Num_eq_dec : EqDecision Num.
Proof. solve_decision. Defined.
#[global] Instance Prim_eq_dec : EqDecision Prim.
Proof. solve_decision. Defined.
#[global] Instance Value_eq_dec : EqDecision Value.
Proof. solve_decision. Defined.

Inductive TypeTag := TyUndefined | TyObject | TyBoolean | TyNumber | TyString | TyFunction.

#[global] Instance TypeTag_eq_dec : EqDecision TypeTag.
Proof. solve_decision. Defined.

Definition typeof (v : Value) : TypeTag :=
  match v with
  | VPrim PUndef => TyUndefined
  | VPrim PNull => TyObject
  | VPrim (PBool _) => TyBoolean
  | VPrim (PNum _) => TyNumber
  | VPrim (PStr _) => TyString
  | VFun _ => TyFunction
  | VRef _ => TyObject
  end.

(** [Object.is]: same value; [NaN] is itself, the two zeros differ. *)
Definition Object_is (a b : Value) : bool := bool_decide (a = b).

Definition num_strict_eq (a b : Num) : bool :=
  match a, b with
  | NNaN, _ | _, NNaN => false
  | NInt x, NInt y => bool_decide (x = y)
  | NNegZero, NNegZero => true
  | NInt x, NNegZero | NNegZero, NInt x => bool_decide (x = 0%Z)
  end.

(** [a === b]. *)
Definition strict_eq (a b : Value) : bool :=
  match a, b with
  | VPrim (PNum x), VPrim (PNum y) => num_strict_eq x y
  | _, _ => bool_decide (a = b)
  end.

(** [v == null]. *)
Definition is_nullish (v : Value) : bool :=
  match v with
  | VPrim PUndef | VPrim PNull => true
  | _ => false
  end.

Definition num_to_string (n : Num) : string :=
  match n with
  | NInt z => pretty z
  | NNaN => "NaN"
  | NNegZero => "0"
  end.

(** [String(v)].  The text of a function and the rendering of an object are
    not modelled; they only ever reach the host renderer as attribute
    values. *)
Definition String_ (v : Value) : string :=
  match v with
  | VPrim PUndef => "undefined"
  | VPrim PNull => "null"
  | VPrim (PBool true) => "true"
  | VPrim (PBool false) => "false"
  | VPrim (PNum n) => num_to_string n
  | VPrim (PStr s) => s
  | VFun _ => "function"
  | VRef _ => "[object Object]"
  end.

(** Truthiness. *)
Definition truthy (v : Value) : bool :=
  match v with
  | VPrim PUndef | VPrim PNull => false
  | VPrim (PBool b) => b
  | VPrim (PNum (NInt z)) => negb (bool_decide (z = 0%Z))
  | VPrim (PNum _) => false
  | VPrim (PStr s) => negb (bool_decide (s = ""))
  | VFun _ | VRef _ => true
  end.

End Js.

(* ===================================================================== *)
(** ** core/constants.ts and the virtual-node type *)
(* ===================================================================== *)

(** Modelled from the spec: [core/constants.ts] and [core/types.ts] are not
    among the sources.  The spec's data model gives a node type as a host tag,
    the Fragment marker, the Text marker or a component function; the two
    markers are distinct constants that no tag or function equals.  A
    component function is its identity together with its [name] property. *)
Inductive NodeType :=
| THost (tag : string)
| TText
| TFragment
| TComponent (fid : nat) (name : string).

#[global] Instance NodeType_eq_dec : EqDecision NodeType.
Proof. solve_decision. Defined.

Definition Fragment : NodeType := TFragment.
Definition TEXT_ELEMENT : NodeType := TText.

Definition is_function (t : NodeType) : bool :=
  match t with TComponent _ _ => true | _ => false end.

(** [NodeTypes]: the kind of an instance. *)
Inductive NodeKind := HOST | TEXT | COMPONENT | FRAGMENT.

#[global] Instance NodeKind_eq_dec : EqDecision NodeKind.
Proof. solve_decision. Defined.

(** A virtual node [{ type, key, props }].  [props] may be [null]; its
    [children] are kept apart from the other properties, which every loop
    over the properties skips anyway, and are read as [props?.children ?? []]
    by [vchildren]. *)
Inductive VNode :=
| VN (vtype : NodeType) (vkey : option string)
     (vprops : option (list (string * Js.Value))) (props_children : list VNode).

Definition vtype (v : VNode) : NodeType := let 'VN t _ _ _ := v in t.
Definition vkey (v : VNode) : option string := let 'VN _ k _ _ := v in k.
Definition vprops (v : VNode) : option (list (string * Js.Value)) := let 'VN _ _ a _ := v in a.
(** [node.props?.children ?? []]. *)
Definition vchildren (v : VNode) : list VNode :=
  let 'VN _ _ a c := v in match a with Some _ => c | None => [] end.
(** [node.props ?? {}]. *)
Definition vattrs (v : VNode) : list (string * Js.Value) := default [] (vprops v).

(* ===================================================================== *)
(** ** utils/equals.ts *)
(* ===================================================================== *)

Module Equals.
Section WithObjects.

(** The objects a value may refer to.  User objects (dependency arrays,
    props, style objects) are not mutated by the runtime. *)
Variable objs : nat -> Js.JsObj.

Definition isArray (v : Js.Value) : bool :=
  match v with
  | Js.VRef r => match objs r with Js.OArr _ => true | _ => false end
  | _ => false
  end.

Definition elements (v : Js.Value) : list Js.Value :=
  match v with
  | Js.VRef r => match objs r with Js.OArr xs => xs | _ => [] end
  | _ => []
  end.

Definition fields (v : Js.Value) : list (string * Js.Value) :=
  match v with
  | Js.VRef r => match objs r with Js.ORec fs => fs | _ => [] end
  | _ => []
  end.

Definition hasOwnProperty (fs : list (string * Js.Value)) (k : string) : bool :=
  existsb (fun kv => bool_decide (kv.1 = k)) fs.

Definition getProperty (fs : list (string * Js.Value)) (k : string) : Js.Value :=
  match List.find (fun kv => bool_decide (kv.1 = k)) fs with
  | Some kv => kv.2
  | None => Js.VPrim Js.PUndef
  end.

(** The loop [for (i = 0; i < a.length; i += 1) if (!Object.is(a[i], b[i]))
    return false], run on two arrays of one length. *)
Fixpoint all_Object_is (a b : list Js.Value) : bool :=
  match a, b with
  | x :: a', y :: b' => if Js.Object_is x y then all_Object_is a' b' else false
  | _, _ => true
  end.

Definition shallowEquals (a b : Js.Value) : bool :=
  if Js.Object_is a b then true
  else if negb (bool_decide (Js.typeof a = Js.typeof b)) then false
  else if bool_decide (a = Js.VPrim Js.PNull) || bool_decide (b = Js.VPrim Js.PNull) then false
  else if isArray a || isArray b then
    if negb (isArray a) || negb (isArray b) then false
    else if negb (length (elements a) =? length (elements b))%nat then false
    else all_Object_is (elements a) (elements b)
  else if bool_decide (Js.typeof a = Js.TyObject) && bool_decide (Js.typeof b = Js.TyObject) then
    let aKeys := (fields a).*1 in
    let bKeys := (fields b).*1 in
    if negb (length aKeys =? length bKeys)%nat then false
    else forallb (fun key => hasOwnProperty (fields b) key
                          && Js.Object_is (getProperty (fields a) key) (getProperty (fields b) key))
                 aKeys
  else Js.Object_is a b.

End WithObjects.
End Equals.

(* ===================================================================== *)
(** ** core/elements.ts: normalizeNode and createElement *)
(* ===================================================================== *)

(** [normalizeNode] takes anything ([node: any]), and gives back a plain
    object, so this part works on raw values: objects are their own fields,
    in insertion order, and two results are equivalent when they are equal
    field by field. *)
Module Raw.

Inductive t :=
| Undefined
| Null
| Bool (b : bool)
| Num (n : Js.Num)
| Str (s : string)
| Sym (description : string)
| Fun (source : string)
| Arr (xs : list t)
| Obj (fields : list (string * t)).

(** Modelled from the spec: the two markers of [core/constants.ts], which is
    not among the sources, as two distinct symbols. *)
Definition Fragment : t := Sym "mini-react.fragment".
Definition TEXT_ELEMENT : t := Sym "mini-react.text".

Definition isArray (v : t) : bool := match v with Arr _ => true | _ => false end.

(** [typeof v === "object"]. *)
Definition typeof_object (v : t) : bool :=
  match v with Null | Arr _ | Obj _ => true | _ => false end.

(** [String(v)] on what is not an object. *)
Definition String_ (v : t) : string :=
  match v with
  | Undefined => "undefined"
  | Null => "null"
  | Bool true => "true"
  | Bool false => "false"
  | Num n => Js.num_to_string n
  | Str s => s
  | Sym d => "Symbol(" +:+ d +:+ ")"
  | Fun src => src
  | Arr _ | Obj _ => "[object Object]"
  end.

(** [o[k]] on the fields of an object. *)
Fixpoint get (fs : list (string * t)) (k : string) : t :=
  match fs with
  | [] => Undefined
  | (k', v) :: fs' => if bool_decide (k' = k) then v else get fs' k
  end.

(** [{ ...o, k: v }]: an own property keeps its place, a new one goes last. *)
Fixpoint set (fs : list (string * t)) (k : string) (v : t) : list (string * t) :=
  match fs with
  | [] => [(k, v)]
  | (k', v') :: fs' => if bool_decide (k' = k) then (k, v) :: fs' else (k', v') :: set fs' k v
  end.

Definition is_null (v : t) : bool := match v with Null => true | _ => false end.

(** [v ?? null]. *)
Definition or_null (v : t) : t := match v with Undefined => Null | _ => v end.

(** [xs.flat(Infinity)]. *)
Fixpoint flat (v : t) : list t :=
  match v with
  | Arr xs => flat_map flat xs
  | _ => [v]
  end.

Definition flat_all (xs : list t) : list t := flat_map flat xs.

End Raw.

Module Elements.

(** Modelled from the spec: [isEmptyValue] of [utils], which is not among the
    sources; the empty values are [null], [undefined] and the booleans. *)
Definition isEmptyValue (v : Raw.t) : bool :=
  match v with
  | Raw.Undefined | Raw.Null | Raw.Bool _ => true
  | _ => false
  end.

Definition createTextElement (node : Raw.t) : Raw.t :=
  Raw.Obj [("type", Raw.TEXT_ELEMENT);
           ("key", Raw.Null);
           ("props", Raw.Obj [("children", Raw.Arr []); ("nodeValue", Raw.Str (Raw.String_ node))])].

(** [createElement(type, originProps, ...rawChildren)], with the call to
    [normalizeNode] on each flattened child left open. *)
Definition createElement_with (normalizeNode : Raw.t -> Raw.t)
    (type : Raw.t) (originProps : option (list (string * Raw.t))) (rawChildren : list Raw.t) : Raw.t :=
  let origin := default [] originProps in
  let key := match Raw.get origin "key" with Raw.Undefined => Raw.Null | k => k end in
  let restProps := List.filter (fun kv => negb (bool_decide (kv.1 = "key"))) origin in
  let flatChildren := Raw.flat_all rawChildren in
  let children :=
    List.filter (fun node => negb (Raw.is_null node))
                (List.map normalizeNode flatChildren) in
  let props := match children with
               | [] => restProps
               | _ => Raw.set restProps "children" (Raw.Arr children)
               end in
  Raw.Obj [("type", type); ("key", key); ("props", Raw.Obj props)].

(** One unfolding of [normalizeNode]; [self] stands for the recursive call
    made by [createElement]. *)
Definition normalizeNode_body (self : Raw.t -> Raw.t) (node : Raw.t) : Raw.t :=
  if isEmptyValue node then Raw.Null
  else match node with
       | Raw.Arr xs => createElement_with self Raw.Fragment None xs
       | Raw.Obj fs =>
           Raw.Obj (Raw.set (Raw.set fs "props" (Raw.or_null (Raw.get fs "props")))
                            "key" (Raw.or_null (Raw.get fs "key")))
       | _ => createTextElement node
       end.

(** [createElement] flattens its children with [flat(Infinity)] before it
    normalizes them, so the call it makes never meets an array and recurses
    no further: two unfoldings are the whole function. *)
Definition normalizeNode : Raw.t -> Raw.t :=
  normalizeNode_body (normalizeNode_body (fun _ => Raw.Null)).

Definition createElement := createElement_with normalizeNode.

(** [createChildPath] as [packages/react/src/core/elements.ts] has it. *)
Definition join (parentPath token : string) : string :=
  if bool_decide (parentPath = "") then token else parentPath +:+ "." +:+ token.

Definition createChildPath (parentPath : string) (key : option string) (index : nat)
    (nodeType : option NodeType) (siblings : option (list VNode)) : string :=
  match key with
  | Some key => join parentPath ("k" +:+ key)
  | None =>
      let prevSiblings := take index (default [] siblings) in
      let target := if bool_decide (nodeType = Some Fragment) then Some Fragment else nodeType in
      let count :=
        length (List.filter
                  (fun sibling => bool_decide (Some (vtype sibling) = target)
                                  && bool_decide (vkey sibling = None))
                  prevSiblings) in
      let token := if bool_decide (nodeType = Some Fragment)
                   then "f" +:+ pretty count else pretty count in
      join parentPath token
  end.

End Elements.

(** The second copy of [elements.ts] ([src/unnamed/part_001]), whose
    [createChildPath] encodes the key and names the positional tokens. *)
Module ElementsDoc.

Definition is_unreserved (c : ascii) : bool :=
  let n := nat_of_ascii c in
  ((65 <=? n) && (n <=? 90) || (97 <=? n) && (n <=? 122) || (48 <=? n) && (n <=? 57)
   || bool_decide (n ∈ [45; 95; 46; 33; 126; 42; 39; 40; 41]))%nat.

Definition hex_digit (n : nat) : ascii :=
  if (n <? 10)%nat then ascii_of_nat (48 + n) else ascii_of_nat (55 + n).

Definition percent (c : ascii) : string :=
  let n := nat_of_ascii c in
  String "%" (String (hex_digit (n / 16)) (String (hex_digit (n mod 16)) "")).

(** [encodeURIComponent] on a well-formed string, read as its UTF-8 bytes:
    every byte is escaped but the letters, the digits and [- _ . ! ~ * ' ( )]. *)
Fixpoint encodeURIComponent (s : string) : string :=
  match s with
  | EmptyString => ""
  | String c rest => (if is_unreserved c then String c "" else percent c) +:+ encodeURIComponent rest
  end.

Definition join := Elements.join.

Definition createChildPath (parentPath : string) (key : option string) (index : nat)
    (nodeType : option NodeType) (siblings : option (list VNode)) : string :=
  match key with
  | Some key =>
      let encodedKey := encodeURIComponent key in
      join parentPath ("k" +:+ encodedKey)
  | None =>
      let prevSiblings := take index (default [] siblings) in
      let targetType := if bool_decide (nodeType = Some Fragment) then Some Fragment else nodeType in
      if bool_decide (nodeType = Some Fragment) then
        let count := length (List.filter
                               (fun sibling => bool_decide (vtype sibling = Fragment)
                                               && bool_decide (vkey sibling = None))
                               prevSiblings) in
        join parentPath ("f" +:+ pretty count)
      else match nodeType with
           | Some (TComponent fid name) =>
               let componentName := if bool_decide (name = "") then "Anonymous" else name in
               let count := length (List.filter
                                      (fun sibling => bool_decide (Some (vtype sibling) = targetType)
                                                      && bool_decide (vkey sibling = None))
                                      prevSiblings) in
               join parentPath ("c" +:+ componentName +:+ "_" +:+ pretty count)
           | _ => join parentPath ("i" +:+ pretty index)
           end
  end.

End ElementsDoc.

(* ===================================================================== *)
(** ** Stateful code: a state and exception monad *)
(* ===================================================================== *)

Inductive Error :=
| TypeError (what : string)
| NotFoundError
| UserError (message : string).

(** The outcome of running a piece of code on a state: it returns, it throws
    (the state reached so far stays), or the run was cut short. *)
Inductive Outcome (S A : Type) :=
| Ret (a : A) (s : S)
| Throw (e : Error) (s : S)
| Diverge.

Arguments Ret {S A} a s.
Arguments Throw {S A} e s.
Arguments Diverge {S A}.

Definition M (S A : Type) : Type := S -> Outcome S A.

Definition ret {S A} (a : A) : M S A := fun s => Ret a s.

Definition bind {S A B} (m : M S A) (k : A -> M S B) : M S B :=
  fun s => match m s with
           | Ret a s' => k a s'
           | Throw e s' => Throw e s'
           | Diverge => Diverge
           end.

Definition throw {S A} (e : Error) : M S A := fun s => Throw e s.
Definition get_state {S} : M S S := fun s => Ret s s.
Definition modify {S} (f : S -> S) : M S unit := fun s => Ret tt (f s).

(** [try { m } finally { f }]. *)
Definition finally {S A} (m : M S A) (f : S -> S) : M S A :=
  fun s => match m s with
           | Ret a s' => Ret a (f s')
           | Throw e s' => Throw e (f s')
           | Diverge => Diverge
           end.

(** Runs a computation on a part of the state. *)
Definition zoom {S T A} (proj : S -> T) (inj : T -> S -> S) (m : M T A) : M S A :=
  fun s => match m (proj s) with
           | Ret a t => Ret a (inj t s)
           | Throw e t => Throw e (inj t s)
           | Diverge => Diverge
           end.

Notation "'let*' x ':=' c 'in' k" := (bind c (fun x => k))
  (at level 10, x pattern, c at level 100, k at level 200).
Notation "c ';;' k" := (bind c (fun _ => k))
  (at level 100, k at level 200, right associativity).

(** [for (const x of xs) body(x)]. *)
Fixpoint for_each {S A} (xs : list A) (body : A -> M S unit) : M S unit :=
  match xs with
  | [] => ret tt
  | x :: xs' => body x ;; for_each xs' body
  end.

(* ===================================================================== *)
(** ** JavaScript's insertion-ordered [Map] *)
(* ===================================================================== *)

Module JsMap.
Section Ops.
Context {K V : Type} `{EqDecision K}.

Fixpoint get (m : list (K * V)) (k : K) : option V :=
  match m with
  | [] => None
  | (k', v) :: m' => if decide (k' = k) then Some v else get m' k
  end.

Definition has (m : list (K * V)) (k : K) : bool :=
  match get m k with Some _ => true | None => false end.

(** [m.set(k, v)]: a present key keeps its place. *)
Fixpoint set (m : list (K * V)) (k : K) (v : V) : list (K * V) :=
  match m with
  | [] => [(k, v)]
  | (k', v') :: m' => if decide (k' = k) then (k, v) :: m' else (k', v') :: set m' k v
  end.

(** [m.delete(k)]. *)
Definition delete (m : list (K * V)) (k : K) : list (K * V) :=
  List.filter (fun kv => negb (bool_decide (kv.1 = k))) m.

End Ops.
End JsMap.

(* ===================================================================== *)
(** ** core/context.ts and core/hooks.ts *)
(* ===================================================================== *)

Module Hooks.

(** Modelled from the spec: [withEnqueue] of [utils] is not among the
    sources.  The scheduler of section 4.6 marks a run as pending and, unless
    one is pending already, enqueues a single asynchronous run; the pending
    runs are the tasks below. *)
Inductive Task := RenderTask | FlushEffectsTask.

#[global] Instance Task_eq_dec : EqDecision Task.
Proof. solve_decision. Defined.

(** Modelled from the spec: [core/context.ts] is not among the sources.  The
    fields are the ones [hooks.ts], [reconciler.ts], [render.ts] and
    [setup.ts] use: the hook store [state] (a [Map] from a path to its hook
    array), the [cursor] table, the [visited] set, the component stack and
    the effect queue.  The JavaScript heap holds the hook arrays, the effect
    hook records and the objects of the user; [trace] lists the user
    functions called so far. *)
Record Ctx := mkCtx {
  heap : gmap nat Js.JsObj;
  nextRef : nat;
  state : list (string * nat);
  cursor : gmap string nat;
  visited : gset string;
  componentStack : list string;
  queue : list (string * nat);
  renderScheduled : bool;
  flushScheduled : bool;
  microtasks : list Task;
  trace : list nat;
}.

Definition with_heap h c := mkCtx h (nextRef c) (state c) (cursor c) (visited c)
  (componentStack c) (queue c) (renderScheduled c) (flushScheduled c) (microtasks c) (trace c).
Definition with_nextRef n c := mkCtx (heap c) n (state c) (cursor c) (visited c)
  (componentStack c) (queue c) (renderScheduled c) (flushScheduled c) (microtasks c) (trace c).
Definition with_state st c := mkCtx (heap c) (nextRef c) st (cursor c) (visited c)
  (componentStack c) (queue c) (renderScheduled c) (flushScheduled c) (microtasks c) (trace c).
Definition with_cursor cu c := mkCtx (heap c) (nextRef c) (state c) cu (visited c)
  (componentStack c) (queue c) (renderScheduled c) (flushScheduled c) (microtasks c) (trace c).
Definition with_visited v c := mkCtx (heap c) (nextRef c) (state c) (cursor c) v
  (componentStack c) (queue c) (renderScheduled c) (flushScheduled c) (microtasks c) (trace c).
Definition with_componentStack cs c := mkCtx (heap c) (nextRef c) (state c) (cursor c) (visited c)
  cs (queue c) (renderScheduled c) (flushScheduled c) (microtasks c) (trace c).
Definition with_queue q c := mkCtx (heap c) (nextRef c) (state c) (cursor c) (visited c)
  (componentStack c) q (renderScheduled c) (flushScheduled c) (microtasks c) (trace c).
Definition with_renderScheduled b c := mkCtx (heap c) (nextRef c) (state c) (cursor c) (visited c)
  (componentStack c) (queue c) b (flushScheduled c) (microtasks c) (trace c).
Definition with_flushScheduled b c := mkCtx (heap c) (nextRef c) (state c) (cursor c) (visited c)
  (componentStack c) (queue c) (renderScheduled c) b (microtasks c) (trace c).
Definition with_microtasks ts c := mkCtx (heap c) (nextRef c) (state c) (cursor c) (visited c)
  (componentStack c) (queue c) (renderScheduled c) (flushScheduled c) ts (trace c).
Definition with_trace t c := mkCtx (heap c) (nextRef c) (state c) (cursor c) (visited c)
  (componentStack c) (queue c) (renderScheduled c) (flushScheduled c) (microtasks c) t.

Definition empty : Ctx := mkCtx ∅ 0 [] ∅ ∅ [] [] false false [] [].

(** [context.hooks.clear()]. *)
Definition clear (c : Ctx) : Ctx :=
  with_componentStack [] (with_visited ∅ (with_state [] (with_cursor ∅ c))).

(** Modelled from the spec: the constant [HookTypes.EFFECT] of
    [core/constants.ts], the tag of an Effect-kind record. *)
Definition HookTypes_EFFECT : Js.Value := Js.VPrim (Js.PStr "effect").

Definition undefined : Js.Value := Js.VPrim Js.PUndef.
Definition null : Js.Value := Js.VPrim Js.PNull.

(** *** The heap *)

Definition objs (c : Ctx) : nat -> Js.JsObj :=
  fun r => default (Js.ORec []) (heap c !! r).

(** The elements of the array at [r]. *)
Definition array_at (c : Ctx) (r : nat) : list Js.Value :=
  match objs c r with Js.OArr xs => xs | Js.ORec _ => [] end.

(** [v.k], and [v?.k]: [undefined] on what has no such property. *)
Definition getProp (c : Ctx) (v : Js.Value) (k : string) : Js.Value :=
  Equals.getProperty (Equals.fields (objs c) v) k.

(** [new] object. *)
Definition alloc (o : Js.JsObj) : M Ctx nat :=
  fun c => Ret (nextRef c) (with_nextRef (S (nextRef c)) (with_heap (<[nextRef c := o]> (heap c)) c)).

(** [arr[i]]. *)
Definition array_get (xs : list Js.Value) (i : nat) : Js.Value := default undefined (xs !! i).

(** [arr[i] = v]: an index past the end leaves holes, which read as
    [undefined]. *)
Definition array_set (xs : list Js.Value) (i : nat) (v : Js.Value) : list Js.Value :=
  if (i <? length xs)%nat then <[i := v]> xs
  else xs ++ replicate (i - length xs) undefined ++ [v].

(** [o.k = v] on the record at [r]. *)
Fixpoint fields_set (fs : list (string * Js.Value)) (k : string) (v : Js.Value) :=
  match fs with
  | [] => [(k, v)]
  | (k', v') :: fs' => if bool_decide (k' = k) then (k, v) :: fs' else (k', v') :: fields_set fs' k v
  end.

Section WithFunctions.

(** What a user function returns on an argument.  Calling one is recorded
    in the trace and has no other effect on the context. *)
Variable funs : nat -> Js.Value -> Js.Value.

Definition call (f : nat) (arg : Js.Value) : M Ctx Js.Value :=
  fun c => Ret (funs f arg) (with_trace (trace c ++ [f]) c).

(** [f?.()]: nothing on [null] and [undefined], a [TypeError] on what is not
    a function. *)
Definition call_optional (f : Js.Value) : M Ctx unit :=
  if Js.is_nullish f then ret tt
  else match f with
       | Js.VFun g => call g undefined ;; ret tt
       | _ => throw (TypeError "not a function")
       end.

(** Modelled from the spec: the getter [currentPath] of the missing
    [context.ts] is the top of the component stack; a hook called outside a
    component has no path and fails. *)
Definition currentPath : M Ctx string :=
  fun c => match componentStack c with
           | path :: _ => Ret path c
           | [] => Throw (UserError "hooks are called inside a component") c
           end.

(** Modelled from the spec: the getter [currentCursor], the cursor of the
    current path, [0] before its first hook. *)
Definition currentCursor : M Ctx nat :=
  let* path := currentPath in
  fun c => Ret (default 0 (cursor c !! path)) c.

(** Modelled from the spec: the getter [currentHooks], the hook array of the
    current path, a new empty array when it has none. *)
Definition currentHooks : M Ctx nat :=
  let* path := currentPath in
  fun c => match JsMap.get (state c) path with
           | Some r => Ret r c
           | None => alloc (Js.OArr []) c
           end.

(** Modelled from the spec: [withEnqueue(fn)] runs [fn] once, later, however
    often it is called before that run. *)
Definition enqueueRender : M Ctx unit :=
  fun c => if renderScheduled c then Ret tt c
           else Ret tt (with_microtasks (microtasks c ++ [RenderTask]) (with_renderScheduled true c)).

Definition flushEffects : M Ctx unit :=
  fun c => if flushScheduled c then Ret tt c
           else Ret tt (with_microtasks (microtasks c ++ [FlushEffectsTask]) (with_flushScheduled true c)).

(** The body of [flushEffects], run by the scheduler: the loop over the
    queue. *)
Fixpoint flushEffects_loop (q : list (string * nat)) : M Ctx unit :=
  match q with
  | [] => ret tt
  | (path, cur) :: q' =>
      modify (with_queue q') ;;
      let* c := get_state in
      match JsMap.get (state c) path with
      | None => flushEffects_loop q'
      | Some hooksForPath =>
          let hook := array_get (array_at c hooksForPath) cur in
          if negb (Js.truthy hook) then flushEffects_loop q'
          else
            match getProp c hook "effect", hook with
            | Js.VFun e, Js.VRef h =>
                let* result := call e undefined in
                let cleanup := if bool_decide (Js.typeof result = Js.TyFunction) then result else null in
                modify (fun c => with_heap
                          (<[h := Js.ORec (fields_set (Equals.fields (objs c) hook) "cleanup" cleanup)]> (heap c)) c) ;;
                flushEffects_loop q'
            | _, _ => throw (TypeError "hook.effect is not a function")
            end
      end
  end.

Definition flushEffects_run : M Ctx unit :=
  let* c := get_state in
  finally (flushEffects_loop (queue c)) (with_flushScheduled false).

(** [hooks.forEach(hook => { if (hook?.kind === EFFECT) hook.cleanup?.() })]. *)
Definition cleanup_hook (hook : Js.Value) : M Ctx unit :=
  let* c := get_state in
  if Js.strict_eq (getProp c hook "kind") HookTypes_EFFECT
  then call_optional (getProp c hook "cleanup")
  else ret tt.

Definition cleanupUnusedHooks : M Ctx unit :=
  let* c0 := get_state in
  for_each (state c0) (fun '(path, hooks) =>
    let* c := get_state in
    if negb (bool_decide (path ∈ visited c)) then
      for_each (array_at c hooks) cleanup_hook ;;
      modify (fun c => with_state (JsMap.delete (state c) path) c) ;;
      modify (fun c => with_cursor (delete path (cursor c)) c)
    else ret tt) ;;
  modify (with_visited ∅) ;;
  modify (fun c => with_queue (List.filter (fun '(path, _) => JsMap.has (state c) path) (queue c)) c).

(** The hook array of the current path, [state.get(path) ?? currentHooks],
    entered in the store when the path has none. *)
Definition hooksForPath_of (path : string) : M Ctx nat :=
  let* c := get_state in
  let* hooksForPath := match JsMap.get (state c) path with
                       | Some r => ret r
                       | None => currentHooks
                       end in
  let* c := get_state in
  (if negb (JsMap.has (state c) path)
   then modify (fun c => with_state (JsMap.set (state c) path hooksForPath) c)
   else ret tt) ;;
  ret hooksForPath.

Definition advance (path : string) (hookIndex : nat) : M Ctx unit :=
  modify (fun c => with_cursor (<[path := S hookIndex]> (cursor c)) c) ;;
  modify (fun c => with_visited ({[path]} ∪ visited c) c).

(** A setter is the closure of [setState] over [hooksForPath] and
    [hookIndex]. *)
Record Setter := mkSetter { s_hooks : nat; s_index : nat }.

Definition useState (initialValue : Js.Value) : M Ctx (Js.Value * Setter) :=
  let* path := currentPath in
  let* hookIndex := currentCursor in
  let* hooksForPath := hooksForPath_of path in
  let* c := get_state in
  (if (length (array_at c hooksForPath) <=? hookIndex)%nat then
     let* value := match initialValue with
                   | Js.VFun f => call f undefined
                   | _ => ret initialValue
                   end in
     modify (fun c => with_heap
               (<[hooksForPath := Js.OArr (array_at c hooksForPath ++ [value])]> (heap c)) c)
   else ret tt) ;;
  let* c := get_state in
  let currentState := array_get (array_at c hooksForPath) hookIndex in
  advance path hookIndex ;;
  ret (currentState, mkSetter hooksForPath hookIndex).

Definition setState (setter : Setter) (nextValue : Js.Value) : M Ctx unit :=
  let* c := get_state in
  let prev := array_get (array_at c (s_hooks setter)) (s_index setter) in
  let* resolved := match nextValue with
                   | Js.VFun f => call f prev
                   | _ => ret nextValue
                   end in
  if Js.Object_is prev resolved then ret tt
  else
    modify (fun c => with_heap
              (<[s_hooks setter :=
                   Js.OArr (array_set (array_at c (s_hooks setter)) (s_index setter) resolved)]>
                 (heap c)) c) ;;
    enqueueRender.

Definition useEffect (effect : Js.Value) (deps : Js.Value) : M Ctx unit :=
  let* path := currentPath in
  let* hookIndex := currentCursor in
  let* hooksForPath := hooksForPath_of path in
  let* c := get_state in
  let prevHook := array_get (array_at c hooksForPath) hookIndex in
  let prevDeps := getProp c prevHook "deps" in
  let shouldRun := negb (Js.truthy deps) || negb (Js.truthy prevHook) || negb (Js.truthy prevDeps)
                   || negb (Equals.shallowEquals (objs c) prevDeps deps) in
  let cleanup := if Js.is_nullish (getProp c prevHook "cleanup") then null
                 else getProp c prevHook "cleanup" in
  (if shouldRun then
     call_optional cleanup ;;
     modify (fun c => with_queue (queue c ++ [(path, hookIndex)]) c) ;;
     flushEffects
   else ret tt) ;;
  let* hook := alloc (Js.ORec [("kind", HookTypes_EFFECT);
                               ("deps", if Js.is_nullish deps then null else deps);
                               ("cleanup", cleanup);
                               ("effect", effect)]) in
  modify (fun c => with_heap
            (<[hooksForPath := Js.OArr (array_set (array_at c hooksForPath) hookIndex (Js.VRef hook))]>
               (heap c)) c) ;;
  advance path hookIndex.

End WithFunctions.
End Hooks.

(* ===================================================================== *)
(** ** The DOM and core/dom.ts *)
(* ===================================================================== *)

(** An instance of [core/types.ts].  [i_ref] is the identity of the object:
    an instance is made once, by a mount, and updated in place after that,
    so the tree below carries the identity along with the fields.  The tree
    and the JavaScript object graph agree as long as no instance is reachable
    twice, which holds for the trees the reconciler builds from sibling lists
    without repeated keys. *)
Inductive Instance :=
| mkInstance (i_ref : nat) (kind : NodeKind) (dom : option nat) (node : VNode)
             (children : list (option Instance)) (key : option string) (path : string).

Definition i_ref (i : Instance) : nat := let 'mkInstance r _ _ _ _ _ _ := i in r.
Definition i_kind (i : Instance) : NodeKind := let 'mkInstance _ k _ _ _ _ _ := i in k.
Definition i_dom (i : Instance) : option nat := let 'mkInstance _ _ d _ _ _ _ := i in d.
Definition i_node (i : Instance) : VNode := let 'mkInstance _ _ _ n _ _ _ := i in n.
Definition i_children (i : Instance) : list (option Instance) :=
  let 'mkInstance _ _ _ _ cs _ _ := i in cs.
Definition i_key (i : Instance) : option string := let 'mkInstance _ _ _ _ _ k _ := i in k.
Definition i_path (i : Instance) : string := let 'mkInstance _ _ _ _ _ _ p := i in p.

(** In-place updates of an instance. *)
Definition set_node (n : VNode) (i : Instance) : Instance :=
  let 'mkInstance r k d _ cs key p := i in mkInstance r k d n cs key p.
Definition set_dom (d : option nat) (i : Instance) : Instance :=
  let 'mkInstance r k _ n cs key p := i in mkInstance r k d n cs key p.
Definition set_children (cs : list (option Instance)) (i : Instance) : Instance :=
  let 'mkInstance r k d n _ key p := i in mkInstance r k d n cs key p.

Module Dom.

(** The calls made to the host renderer. *)
Inductive Call :=
| CreateElement (n : nat) (tag : string)
| CreateTextNode (n : nat) (data : string)
| AppendChild (parent n : nat)
| InsertBefore (parent n anchor : nat)
| RemoveChild (parent n : nat)
| SetNodeValue (n : nat) (data : string)
| SetTextContent (n : nat) (data : string)
| SetStyle (n : nat) (name value : string)
| AddEventListener (n : nat) (event : string) (listener : Js.Value)
| RemoveEventListener (n : nat) (event : string) (listener : Js.Value)
| SetClassName (n : nat) (value : Js.Value)
| SetAttribute (n : nat) (name value : string)
| RemoveAttribute (n : nat) (name : string)
| SetProperty (n : nat) (name : string) (value : Js.Value).

(** The document: the child lists of the elements, the data of the text
    nodes, the tags of the elements and the calls made so far, the latest
    last.  A node is the child of [p] when it is in the child list of [p]. *)
Record t := mk {
  next : nat;
  kids : gmap nat (list nat);
  nodeValue : gmap nat string;
  tags : gmap nat string;
  calls : list Call;
}.

Definition empty : t := mk 0 ∅ ∅ ∅ [].

Definition with_kids ks d := mk (next d) ks (nodeValue d) (tags d) (calls d).
Definition with_nodeValue nv d := mk (next d) (kids d) nv (tags d) (calls d).
Definition log (c : Call) : M t unit :=
  fun d => Ret tt (mk (next d) (kids d) (nodeValue d) (tags d) (calls d ++ [c])).

Definition kidsOf (d : t) (p : nat) : list nat := default [] (kids d !! p).

(** [node.parentNode === parent]. *)
Definition isChildOf (d : t) (n p : nat) : bool := bool_decide (n ∈ kidsOf d p).

(** [node.nextSibling] among the children of its parent. *)
Fixpoint next_in (l : list nat) (n : nat) : option nat :=
  match l with
  | x :: l' => if decide (x = n) then head l' else next_in l' n
  | [] => None
  end.

Definition nextSibling (d : t) (p n : nat) : option nat := next_in (kidsOf d p) n.

(** A node that is inserted leaves the place it had. *)
Definition detach (n : nat) (ks : gmap nat (list nat)) : gmap nat (list nat) :=
  filter (λ x, x ≠ n) <$> ks.

Fixpoint insert_before (a n : nat) (l : list nat) : list nat :=
  match l with
  | [] => [n]
  | x :: l' => if decide (x = a) then n :: x :: l' else x :: insert_before a n l'
  end.

Definition createElement (tag : string) : M t nat :=
  fun d => Ret (next d)
               (mk (S (next d)) (<[next d := []]> (kids d)) (nodeValue d)
                   (<[next d := tag]> (tags d)) (calls d ++ [CreateElement (next d) tag])).

Definition createTextNode (data : string) : M t nat :=
  fun d => Ret (next d)
               (mk (S (next d)) (kids d) (<[next d := data]> (nodeValue d))
                   (tags d) (calls d ++ [CreateTextNode (next d) data])).

Definition appendChild (p n : nat) : M t unit :=
  log (AppendChild p n) ;;
  modify (fun d => let ks := detach n (kids d) in
                   with_kids (<[p := default [] (ks !! p) ++ [n]]> ks) d).

(** [parent.insertBefore(node, anchor)] with an anchor: a [NotFoundError]
    when the anchor is no child of the parent, nothing to move when the node
    is its own anchor. *)
Definition insertBefore (p n a : nat) : M t unit :=
  log (InsertBefore p n a) ;;
  let* d := get_state in
  if negb (isChildOf d a p) then throw NotFoundError
  else if bool_decide (n = a) then ret tt
  else modify (fun d => let ks := detach n (kids d) in
                        with_kids (<[p := insert_before a n (default [] (ks !! p))]> ks) d).

Definition removeChild (p n : nat) : M t unit :=
  log (RemoveChild p n) ;;
  let* d := get_state in
  if negb (isChildOf d n p) then throw NotFoundError
  else modify (fun d => with_kids (<[p := filter (λ x, x ≠ n) (kidsOf d p)]> (kids d)) d).

(** [node.nodeValue = data]. *)
Definition setNodeValue (n : nat) (data : string) : M t unit :=
  log (SetNodeValue n data) ;;
  modify (fun d => with_nodeValue (<[n := data]> (nodeValue d)) d).

(** [container.textContent = ""]: the container loses its children. *)
Definition clearTextContent (p : nat) : M t unit :=
  log (SetTextContent p "") ;;
  modify (fun d => with_kids (<[p := []]> (kids d)) d).

(** [node instanceof HTMLElement]. *)
Definition isHTMLElement (d : t) (n : nat) : bool :=
  match tags d !! n with Some _ => true | None => false end.

(** *** Reading an instance *)

Fixpoint getDomNodes_of (instance : Instance) : list nat :=
  let 'mkInstance _ kind dom _ children _ _ := instance in
  match kind with
  | HOST | TEXT => match dom with Some d => [d] | None => [] end
  | _ => flat_map (fun child => match child with
                                | Some c => getDomNodes_of c
                                | None => []
                                end) children
  end.

Definition getDomNodes (instance : option Instance) : list nat :=
  match instance with
  | None => []
  | Some i => getDomNodes_of i
  end.

Fixpoint getFirstDom_of (instance : Instance) : option nat :=
  let 'mkInstance _ kind dom _ children _ _ := instance in
  match (match kind with HOST | TEXT => dom | _ => None end) with
  | Some d => Some d
  | None =>
      (fix first (cs : list (option Instance)) : option nat :=
         match cs with
         | [] => None
         | child :: cs' =>
             match (match child with Some c => getFirstDom_of c | None => None end) with
             | Some found => Some found
             | None => first cs'
             end
         end) children
  end.

Definition getFirstDom (instance : option Instance) : option nat :=
  match instance with
  | None => None
  | Some i => getFirstDom_of i
  end.

Fixpoint getFirstDomFromChildren (children : list (option Instance)) : option nat :=
  match children with
  | [] => None
  | child :: rest =>
      match getFirstDom child with
      | Some dom => Some dom
      | None => getFirstDomFromChildren rest
      end
  end.

(** *** Moving an instance *)

Definition insertInstance (parentDom : nat) (instance : option Instance) (anchor : option nat)
  : M t unit :=
  match instance with
  | None => ret tt
  | Some _ =>
      for_each (getDomNodes instance) (fun node =>
        let* d := get_state in
        if isChildOf d node parentDom && bool_decide (nextSibling d parentDom node = anchor)
        then ret tt
        else match anchor with
             | Some a => insertBefore parentDom node a
             | None => appendChild parentDom node
             end)
  end.

Definition removeInstance (parentDom : nat) (instance : option Instance) : M t unit :=
  match instance with
  | None => ret tt
  | Some _ =>
      for_each (getDomNodes instance) (fun node =>
        let* d := get_state in
        if isChildOf d node parentDom then removeChild parentDom node else ret tt)
  end.

(** *** Properties *)

Section Props.

(** What the host knows of an element: whether [key in dom] holds for an
    element of a tag, and whether that property rejects assignment. *)
Variable has_prop : string -> string -> bool.
Variable read_only : string -> string -> bool.
(** The objects of the user, for the style objects among the props. *)
Variable objs : nat -> Js.JsObj.

Definition tagOf (d : t) (n : nat) : string := default "" (tags d !! n).

(** [key in dom]. *)
Definition in_dom (d : t) (n : nat) (key : string) : bool := has_prop (tagOf d n) key.

(** [dom[key] = value]. *)
Definition assign (n : nat) (key : string) (value : Js.Value) : M t unit :=
  let* d := get_state in
  if read_only (tagOf d n) key then throw (TypeError "read-only property")
  else log (SetProperty n key value).

(** [try { dom[key] = value } catch { }]. *)
Definition try_assign (n : nat) (key : string) (value : Js.Value) : M t unit :=
  let* d := get_state in
  if read_only (tagOf d n) key then ret tt
  else log (SetProperty n key value).

Definition startsWith (s p : string) : bool := String.prefix p s.

Definition lower (c : ascii) : ascii :=
  let n := nat_of_ascii c in
  if ((65 <=? n) && (n <=? 90))%nat then ascii_of_nat (n + 32) else c.

Fixpoint toLowerCase (s : string) : string :=
  match s with
  | EmptyString => EmptyString
  | String c s' => String (lower c) (toLowerCase s')
  end.

(** [key.slice(2).toLowerCase()]. *)
Definition eventName (key : string) : string :=
  toLowerCase (String.substring 2 (String.length key - 2) key).

(** [Object.entries(v)]. *)
Definition entries (v : Js.Value) : list (string * Js.Value) :=
  match v with
  | Js.VRef r => match objs r with
                 | Js.ORec fs => fs
                 | Js.OArr xs => imap (fun i x => (pretty i, x)) xs
                 end
  | Js.VPrim (Js.PStr s) =>
      imap (fun i c => (pretty i, Js.VPrim (Js.PStr (String c EmptyString))))
           (String.list_ascii_of_string s)
  | _ => []
  end.

Definition getProperty := Equals.getProperty.
Definition hasOwnProperty := Equals.hasOwnProperty.

(** [value ?? ""]. *)
Definition or_empty (v : Js.Value) : Js.Value :=
  if Js.is_nullish v then Js.VPrim (Js.PStr "") else v.

(** [value != null ? String(value) : ""]. *)
Definition style_text (v : Js.Value) : string :=
  if Js.is_nullish v then "" else Js.String_ v.

Definition is_boolean (v : Js.Value) : bool := bool_decide (Js.typeof v = Js.TyBoolean).
Definition is_fun (v : Js.Value) : bool := bool_decide (Js.typeof v = Js.TyFunction).

Definition setDomProps (dom : nat) (props : list (string * Js.Value)) : M t unit :=
  for_each props (fun '(key, value) =>
    if bool_decide (key = "children") then ret tt
    else if bool_decide (key = "style") && Js.truthy value
            && bool_decide (Js.typeof value = Js.TyObject) then
      for_each (entries value) (fun '(styleName, styleValue) =>
        log (SetStyle dom styleName (style_text styleValue)))
    else if startsWith key "on" && is_fun value then
      log (AddEventListener dom (eventName key) value)
    else if bool_decide (key = "className") then
      log (SetClassName dom (or_empty value))
    else if startsWith key "data-" then
      if negb (Js.is_nullish value) then log (SetAttribute dom key (Js.String_ value)) else ret tt
    else if is_boolean value then
      let* d := get_state in
      if in_dom d dom key then assign dom key value
      else if Js.truthy value then log (SetAttribute dom key "")
      else ret tt
    else if Js.is_nullish value then ret tt
    else
      let* d := get_state in
      if in_dom d dom key then assign dom key value
      else log (SetAttribute dom key (Js.String_ value))).

(** [new Set([...a, ...b])]: the first occurrence of each name stays. *)
Fixpoint dedup (seen l : list string) : list string :=
  match l with
  | [] => []
  | x :: l' => if bool_decide (x ∈ seen) then dedup seen l' else x :: dedup (x :: seen) l'
  end.

Definition updateDomProps (dom : nat) (prevProps nextProps : list (string * Js.Value)) : M t unit :=
  (* removed or changed props *)
  for_each prevProps (fun '(key, prevValue) =>
    if bool_decide (key = "children") || bool_decide (key = "style") then ret tt
    else
      let nextValue := getProperty nextProps key in
      let hasNext := hasOwnProperty nextProps key in
      let isUnchanged := hasNext && Js.strict_eq nextValue prevValue in
      if isUnchanged then ret tt
      else if startsWith key "on" && is_fun prevValue then
        log (RemoveEventListener dom (eventName key) prevValue)
      else if bool_decide (key = "className") then
        log (SetClassName dom (if hasNext then or_empty nextValue else Js.VPrim (Js.PStr "")))
      else if startsWith key "data-" then
        if negb hasNext || Js.is_nullish nextValue then log (RemoveAttribute dom key) else ret tt
      else if negb hasNext && is_boolean prevValue then
        let* d := get_state in
        (if in_dom d dom key then assign dom key (Js.VPrim (Js.PBool false)) else ret tt) ;;
        log (RemoveAttribute dom key)
      else if negb hasNext then
        let* d := get_state in
        (if in_dom d dom key then try_assign dom key (Js.VPrim (Js.PStr "")) else ret tt) ;;
        log (RemoveAttribute dom key)
      else ret tt) ;;
  (* the style object *)
  let prevStyle := entries (getProperty prevProps "style") in
  let nextStyle := entries (getProperty nextProps "style") in
  let allStyleKeys := dedup [] (prevStyle.*1 ++ nextStyle.*1) in
  for_each allStyleKeys (fun name =>
    let prevVal := getProperty prevStyle name in
    let nextVal := getProperty nextStyle name in
    if Js.strict_eq prevVal nextVal then ret tt
    else log (SetStyle dom name (style_text nextVal))) ;;
  (* added or changed props *)
  for_each nextProps (fun '(key, value) =>
    if bool_decide (key = "children") || bool_decide (key = "style") then ret tt
    else
      let prevValue := getProperty prevProps key in
      let isUnchanged := Js.strict_eq value prevValue in
      if startsWith key "on" && is_fun value then
        (if is_fun prevValue && negb (Js.strict_eq prevValue value)
         then log (RemoveEventListener dom (eventName key) prevValue) else ret tt) ;;
        log (AddEventListener dom (eventName key) value)
      else if startsWith key "on" && is_fun prevValue
              && (Js.is_nullish value || negb (is_fun value)) then
        log (RemoveEventListener dom (eventName key) prevValue)
      else if bool_decide (key = "className") then
        if negb isUnchanged then log (SetClassName dom (or_empty value)) else ret tt
      else if startsWith key "data-" then
        if Js.is_nullish value then log (RemoveAttribute dom key)
        else if negb isUnchanged then log (SetAttribute dom key (Js.String_ value))
        else ret tt
      else if is_boolean value then
        let* d := get_state in
        if in_dom d dom key then
          if negb isUnchanged then assign dom key value else ret tt
        else if Js.truthy value then log (SetAttribute dom key "")
        else log (RemoveAttribute dom key)
      else if Js.is_nullish value || isUnchanged then ret tt
      else
        let* d := get_state in
        if in_dom d dom key then assign dom key value
        else log (SetAttribute dom key (Js.String_ value))).

End Props.

End Dom.

(* ===================================================================== *)
(** ** core/reconciler.ts *)
(* ===================================================================== *)

Module Reconciler.

(** The state the reconciler runs on: the document, the hook context and
    the allocator of instance identities. *)
Record World := mkWorld {
  dm : Dom.t;
  hk : Hooks.Ctx;
  nextInstance : nat;
}.

Definition inDom {A} (m : M Dom.t A) : M World A :=
  zoom dm (fun d w => mkWorld d (hk w) (nextInstance w)) m.
Definition inHooks {A} (m : M Hooks.Ctx A) : M World A :=
  zoom hk (fun h w => mkWorld (dm w) h (nextInstance w)) m.

(** A new instance object. *)
Definition newInstance (kind : NodeKind) (dom : option nat) (node : VNode)
    (children : list (option Instance)) (key : option string) (path : string) : M World Instance :=
  fun w => Ret (mkInstance (nextInstance w) kind dom node children key path)
               (mkWorld (dm w) (hk w) (S (nextInstance w))).

Section WithEnvironment.

Variable has_prop : string -> string -> bool.
Variable read_only : string -> string -> bool.

(** The component functions: the function [fid], called on its props (the
    properties and the children), runs on the hook context and returns a
    node or [null]. *)
Variable comps : nat -> list (string * Js.Value) -> list VNode -> M Hooks.Ctx (option VNode).

(** [createChildPath] of [./elements]; the repository holds two copies of
    that file, and the reconciler is read over either. *)
Variable createChildPath :
  string -> option string -> nat -> option NodeType -> option (list VNode) -> string.

Definition setDomProps (dom : nat) (props : list (string * Js.Value)) : M World unit :=
  fun w => inDom (Dom.setDomProps has_prop read_only (Hooks.objs (hk w)) dom props) w.

Definition updateDomProps (dom : nat) (prev next : list (string * Js.Value)) : M World unit :=
  fun w => inDom (Dom.updateDomProps has_prop read_only (Hooks.objs (hk w)) dom prev next) w.

(** [node.props?.nodeValue ?? ""]. *)
Definition nodeValue_of (node : VNode) : Js.Value :=
  Dom.or_empty (Equals.getProperty (vattrs node) "nodeValue").

Section Body.

(** The recursive call to [reconcile]. *)
Variable reconcile :
  nat -> option Instance -> option VNode -> string -> M World (option Instance).

(** The loop [for (let i = 0; i < children.length; i++)] of a mount; [after]
    is what the loop does with each child instance before it is pushed. *)
Fixpoint mountChildren (parentDom : nat) (path : string) (children : list VNode)
    (after : option Instance -> M World unit) (i : nat) (rest : list VNode)
  : M World (list (option Instance)) :=
  match rest with
  | [] => ret []
  | child :: rest' =>
      let childPath := createChildPath path (vkey child) i (Some (vtype child)) (Some children) in
      let* childInstance := reconcile parentDom None (Some child) childPath in
      after childInstance ;;
      let* childInstances := mountChildren parentDom path children after (S i) rest' in
      ret (childInstance :: childInstances)
  end.

Definition enterComponent (path : string) : M World unit :=
  inHooks (modify (fun c => Hooks.with_componentStack (path :: Hooks.componentStack c) c) ;;
           modify (fun c => Hooks.with_cursor (<[path := 0]> (Hooks.cursor c)) c) ;;
           modify (fun c => Hooks.with_visited ({[path]} ∪ Hooks.visited c) c)).

(** [context.hooks.componentStack.pop()]. *)
Definition leaveComponent (w : World) : World :=
  mkWorld (dm w) (Hooks.with_componentStack (tail (Hooks.componentStack (hk w))) (hk w))
          (nextInstance w).

(** [component(props ?? {})]; what is no function cannot be called. *)
Definition callComponent (node : VNode) : M World (option VNode) :=
  match vtype node with
  | TComponent fid _ => inHooks (comps fid (vattrs node) (vchildren node))
  | _ => throw (TypeError "component is not a function")
  end.

Definition childPath_of (path : string) (childNode : option VNode) : string :=
  createChildPath path (childNode ≫= vkey) 0 (vtype <$> childNode)
                  (Some (match childNode with Some c => [c] | None => [] end)).

Definition mountComponent (parentDom : nat) (node : VNode) (path : string) : M World Instance :=
  enterComponent path ;;
  finally
    (let* childNode := callComponent node in
     let childPath := childPath_of path childNode in
     let* childInstance := reconcile parentDom None childNode childPath in
     newInstance COMPONENT (Dom.getFirstDom childInstance) node
                 (match childInstance with Some _ => [childInstance] | None => [] end)
                 (vkey node) path)
    leaveComponent.

Definition mountNode (parentDom : nat) (node : VNode) (path : string) : M World Instance :=
  match vtype node with
  | TText =>
      let* dom := inDom (Dom.createTextNode (Js.String_ (nodeValue_of node))) in
      let* instance := newInstance TEXT (Some dom) node [] (vkey node) path in
      inDom (Dom.appendChild parentDom dom) ;;
      ret instance
  | TFragment =>
      let children := vchildren node in
      let* childInstances := mountChildren parentDom path children (fun _ => ret tt) 0 children in
      newInstance FRAGMENT (Dom.getFirstDomFromChildren childInstances) node childInstances
                  (vkey node) path
  | TComponent _ _ => mountComponent parentDom node path
  | THost tag =>
      let* dom := inDom (Dom.createElement tag) in
      match vprops node with
      | None => throw (TypeError "Object.entries of null")
      | Some props =>
          setDomProps dom props ;;
          let children := vchildren node in
          let* childInstances :=
            mountChildren dom path children
              (fun childInstance => match childInstance with
                                    | Some _ => inDom (Dom.insertInstance dom childInstance None)
                                    | None => ret tt
                                    end)
              0 children in
          inDom (Dom.appendChild parentDom dom) ;;
          newInstance HOST (Some dom) node childInstances (vkey node) path
      end
  end.

(** The first pass of [reconcileChildren]: the key map and the keyless old
    children. *)
Fixpoint keyMap_of (oldChildren : list (option Instance)) (keyMap : list (string * Instance))
  : list (string * Instance) :=
  match oldChildren with
  | [] => keyMap
  | None :: rest => keyMap_of rest keyMap
  | Some oldChild :: rest =>
      match i_key oldChild with
      | Some k => keyMap_of rest (JsMap.set keyMap k oldChild)
      | None => keyMap_of rest keyMap
      end
  end.

Definition keyless_of (oldChildren : list (option Instance)) : list Instance :=
  omap (fun oldChild => match oldChild with
                        | Some c => match i_key c with None => Some c | Some _ => None end
                        | None => None
                        end) oldChildren.

(** [usedOldInstances.has(oldChild)]: a set of instances holds them by
    identity. *)
Definition used_has (used : list nat) (i : Instance) : bool := bool_decide (i_ref i ∈ used).

(** The scan of the keyless old children for the first unused one of the
    type of the new child. *)
Definition scan (keyless : list Instance) (used : list nat) (newChild : VNode) : option Instance :=
  List.find (fun oldChild => negb (used_has used oldChild)
                             && bool_decide (vtype (i_node oldChild) = vtype newChild)) keyless.

(** The second pass: each new child against its match. *)
Fixpoint matchChildren (parentDom : nat) (path : string)
    (keyMap : list (string * Instance)) (keyless : list Instance) (newChildren : list VNode)
    (i : nat) (rest : list VNode) (used : list nat)
  : M World (list (option Instance) * list nat) :=
  match rest with
  | [] => ret ([], used)
  | newChild :: rest' =>
      let childPath :=
        createChildPath path (vkey newChild) i (Some (vtype newChild)) (Some newChildren) in
      let byKey := match vkey newChild with
                   | Some k => JsMap.get keyMap k
                   | None => None
                   end in
      let matchedInstance := match byKey with
                             | Some m => Some m
                             | None => scan keyless used newChild
                             end in
      let used' := match matchedInstance with
                   | Some m => i_ref m :: used
                   | None => used
                   end in
      let* newChildInstance := reconcile parentDom matchedInstance (Some newChild) childPath in
      let* matched := matchChildren parentDom path keyMap keyless newChildren (S i) rest' used' in
      ret (newChildInstance :: matched.1, matched.2)
  end.

(** The last pass, from the last new child to the first: [children] is the
    list reversed. *)
Fixpoint placeChildren (parentDom : nat) (children : list (option Instance)) (anchor : option nat)
  : M Dom.t unit :=
  match children with
  | [] => ret tt
  | newChildInstance :: rest =>
      match newChildInstance, Dom.getFirstDom newChildInstance with
      | Some _, Some firstDom =>
          Dom.insertInstance parentDom newChildInstance anchor ;;
          placeChildren parentDom rest (Some firstDom)
      | _, _ => placeChildren parentDom rest anchor
      end
  end.

Definition reconcileChildren (parentDom : nat) (instance : Instance) (node : VNode) (path : string)
  : M World Instance :=
  let oldChildren := i_children instance in
  let newChildren := vchildren node in
  let keyMap := keyMap_of oldChildren [] in
  let keylessOldChildren := keyless_of oldChildren in
  let* matched :=
    matchChildren parentDom path keyMap keylessOldChildren newChildren 0 newChildren [] in
  let newChildInstances := matched.1 in
  let usedOldInstances := matched.2 in
  for_each oldChildren (fun oldChild =>
    match oldChild with
    | Some c => if negb (used_has usedOldInstances c)
                then inDom (Dom.removeInstance parentDom oldChild)
                else ret tt
    | None => ret tt
    end) ;;
  inDom (placeChildren parentDom (rev newChildInstances) None) ;;
  ret (set_children newChildInstances instance).

Definition updateComponent (parentDom : nat) (instance : Instance) (node : VNode) (path : string)
  : M World Instance :=
  enterComponent path ;;
  finally
    (let* childNode := callComponent node in
     let oldChildInstance := default None (head (i_children instance)) in
     let childPath := childPath_of path childNode in
     let* newChildInstance := reconcile parentDom oldChildInstance childNode childPath in
     ret (set_node node
           (set_children (match newChildInstance with Some _ => [newChildInstance] | None => [] end)
             (set_dom (Dom.getFirstDom newChildInstance) instance))))
    leaveComponent.

Definition updateInstance (parentDom : nat) (instance : Instance) (node : VNode) (path : string)
  : M World Instance :=
  match i_kind instance with
  | TEXT =>
      let newValue := nodeValue_of node in
      (match i_dom instance with
       | Some dom =>
           let* w := get_state in
           if bool_decide (Js.VPrim ∘ Js.PStr <$> Dom.nodeValue (dm w) !! dom = Some newValue)
           then ret tt
           else inDom (Dom.setNodeValue dom (Js.String_ newValue))
       | None => ret tt
       end) ;;
      ret (set_node node instance)
  | FRAGMENT =>
      let* instance := reconcileChildren parentDom instance node path in
      ret (set_node node (set_dom (Dom.getFirstDomFromChildren (i_children instance)) instance))
  | COMPONENT => updateComponent parentDom instance node path
  | HOST =>
      match i_dom instance with
      | None => throw (TypeError "instance.dom is null")
      | Some dom =>
          updateDomProps dom (vattrs (i_node instance)) (vattrs node) ;;
          let* instance := reconcileChildren dom instance node path in
          ret (set_node node instance)
      end
  end.

Definition reconcile_body (parentDom : nat) (instance : option Instance) (node : option VNode)
    (path : string) : M World (option Instance) :=
  match node with
  | None =>
      (match instance with
       | Some _ => inDom (Dom.removeInstance parentDom instance)
       | None => ret tt
       end) ;;
      ret None
  | Some node =>
      match instance with
      | None => let* i := mountNode parentDom node path in ret (Some i)
      | Some inst =>
          if negb (bool_decide (vtype (i_node inst) = vtype node))
             || negb (bool_decide (i_key inst = vkey node))
          then
            inDom (Dom.removeInstance parentDom instance) ;;
            let* i := mountNode parentDom node path in ret (Some i)
          else
            let* i := updateInstance parentDom inst node path in ret (Some i)
      end
  end.

End Body.

(** [reconcile], cut off after [fuel] nested calls: a component may render
    itself for ever. *)
Fixpoint reconcile (fuel : nat) (parentDom : nat) (instance : option Instance)
    (node : option VNode) (path : string) : M World (option Instance) :=
  match fuel with
  | 0 => fun _ => Diverge
  | S fuel' => reconcile_body (reconcile fuel') parentDom instance node path
  end.

End WithEnvironment.
End Reconciler.

(* ===================================================================== *)
(** ** core/render.ts and core/setup.ts *)
(* ===================================================================== *)

Module Render.
Import Reconciler.

(** Modelled from the spec: [context.root] of the missing [context.ts], the
    container, the root node and the root instance; [reset] stores a
    container and a node and forgets the instance. *)
Record Root := mkRoot {
  container : option nat;
  node : option VNode;
  instance : option Instance;
}.

Record App := mkApp {
  world : World;
  root : Root;
}.

Definition inWorld {A} (m : M World A) : M App A :=
  zoom world (fun w a => mkApp w (root a)) m.
Definition inCtx {A} (m : M Hooks.Ctx A) : M App A := inWorld (inHooks m).

Definition reset (container : nat) (node : VNode) : M App unit :=
  modify (fun a => mkApp (world a) (mkRoot (Some container) (Some node) None)).

(** What [setup] may be handed as its container. *)
Inductive ContainerArg :=
| NoContainer
| NotANode
| Node (n : nat).

Section WithEnvironment.

Variable has_prop : string -> string -> bool.
Variable read_only : string -> string -> bool.
Variable comps : nat -> list (string * Js.Value) -> list VNode -> M Hooks.Ctx (option VNode).
Variable createChildPath :
  string -> option string -> nat -> option NodeType -> option (list VNode) -> string.
Variable funs : nat -> Js.Value -> Js.Value.

Definition render (fuel : nat) : M App unit :=
  inCtx (modify (Hooks.with_visited ∅) ;;
         modify (Hooks.with_cursor ∅)) ;;
  let* a := get_state in
  match container (root a), node (root a) with
  | Some container, Some node =>
      let* newInstance :=
        inWorld (reconcile has_prop read_only comps createChildPath fuel
                           container (instance (root a)) (Some node) "0") in
      modify (fun a => mkApp (world a) (mkRoot (Render.container (root a)) (Render.node (root a))
                                               newInstance)) ;;
      (match newInstance with
       | Some _ =>
           let* a := get_state in
           if existsb (fun n => negb (Dom.isChildOf (dm (world a)) n container))
                      (Dom.getDomNodes newInstance)
           then inWorld (inDom (Dom.insertInstance container newInstance None))
           else ret tt
       | None => ret tt
       end) ;;
      inCtx (Hooks.cleanupUnusedHooks funs)
  | _, _ => ret tt
  end.

Definition setup (fuel : nat) (rootNode : option VNode) (container : ContainerArg) : M App unit :=
  let* a := get_state in
  match container with
  | NoContainer | NotANode => throw (UserError "Container is required")
  | Node c =>
      if negb (Dom.isHTMLElement (dm (world a)) c) then throw (UserError "Container is required")
      else match rootNode with
           | None => throw (UserError "Cannot render null root element")
           | Some rootNode =>
               (match instance (root a) with
                | Some _ => inWorld (inDom (Dom.removeInstance c (instance (root a))))
                | None => ret tt
                end) ;;
               inWorld (inDom (Dom.clearTextContent c)) ;;
               inCtx (Hooks.cleanupUnusedHooks funs) ;;
               reset c rootNode ;;
               inCtx (modify Hooks.clear) ;;
               inCtx (modify (Hooks.with_queue [])) ;;
               render fuel
           end
  end.

End WithEnvironment.
End Render.

(* ===================================================================== *)
(** ** The child path, in the words of the specification *)
(* ===================================================================== *)

(** Section 4.2 of the specification, kept apart from the code so that the
    two can be compared: the token of a child is made from its key, or from
    the number of keyless siblings of its type before it, or from its
    index. *)
Module PathSpec.

(** The number of siblings before [index] that carry no key and whose type
    passes [same]. *)
Definition keyless_before (same : NodeType -> bool) (index : nat) (siblings : list VNode) : nat :=
  length (List.filter
            (fun j => match siblings !! j with
                      | Some s => same (vtype s) && bool_decide (vkey s = None)
                      | None => false
                      end)
            (seq 0 index)).

Definition componentName (name : string) : string :=
  if bool_decide (name = "") then "Anonymous" else name.

(** The token with the key encoded by [encode], the component token
    ["c" + name + "_" + N] and the positional token ["i" + index]. *)
Definition token (encode : string -> string) (key : option string) (index : nat)
    (nodeType : option NodeType) (siblings : list VNode) : string :=
  match key, nodeType with
  | Some k, _ => "k" +:+ encode k
  | None, Some TFragment =>
      "f" +:+ pretty (keyless_before (fun t => bool_decide (t = TFragment)) index siblings)
  | None, Some (TComponent fid name) =>
      "c" +:+ componentName name +:+ "_"
          +:+ pretty (keyless_before (fun t => bool_decide (t = TComponent fid name)) index siblings)
  | None, _ => "i" +:+ pretty index
  end.

(** The token of the copy of [elements.ts] that the reconciler sits beside:
    the key as it is, and for every type but the Fragment the bare count of
    the keyless siblings of that type before the child. *)
Definition plain_token (key : option string) (index : nat)
    (nodeType : option NodeType) (siblings : list VNode) : string :=
  match key, nodeType with
  | Some k, _ => "k" +:+ k
  | None, Some TFragment =>
      "f" +:+ pretty (keyless_before (fun t => bool_decide (t = TFragment)) index siblings)
  | None, Some t =>
      pretty (keyless_before (fun t' => bool_decide (t' = t)) index siblings)
  | None, None => "0"
  end.

(** A path is the parent path, a dot and the token; a root token stands
    alone. *)
Definition path (parentPath token : string) : string :=
  match parentPath with
  | EmptyString => token
  | _ => parentPath +:+ "." +:+ token
  end.

End PathSpec.

(* ===================================================================== *)
(** ** The hook store, in the words of the specification *)
(* ===================================================================== *)

(** What sections 4.5 and 8 of the specification say of the hooks, kept
    apart from the code: the value a setter resolves, the cleanups a render
    pass owes, and when the dependencies of an effect count as unchanged. *)
Module HookSpec.
Import Hooks.

Section WithFunctions.
Variable funs : nat -> Js.Value -> Js.Value.

(** The value [setter(next)] resolves: [next], or [next(previous)]. *)
Definition resolve (nextValue prev : Js.Value) : Js.Value :=
  match nextValue with
  | Js.VFun f => funs f prev
  | _ => nextValue
  end.

(** The user function a state hook calls on the way, if any. *)
Definition calls_of (v : Js.Value) : list nat :=
  match v with
  | Js.VFun f => [f]
  | _ => []
  end.

(** The initial value, or the result of the initializer. *)
Definition init_value (initialValue : Js.Value) : Js.Value :=
  match initialValue with
  | Js.VFun f => funs f undefined
  | _ => initialValue
  end.

End WithFunctions.

(** The context once a hook at [path] and [index] is done: the cursor of the
    path is one further and the path counts as visited. *)
Definition advanced (path : string) (index : nat) (c : Ctx) : Ctx :=
  with_visited ({[path]} ∪ visited c) (with_cursor (<[path := S index]> (cursor c)) c).

(** The context of a component function entered at [path]: its path on the
    stack, its cursor at [0]. *)
Definition entered (path : string) (c : Ctx) : Ctx :=
  with_visited ({[path]} ∪ visited c)
    (with_cursor (<[path := 0]> (cursor c))
       (with_componentStack (path :: componentStack c) c)).

(** [value ?? null]. *)
Definition or_null (v : Js.Value) : Js.Value := if Js.is_nullish v then null else v.

(** The hook record is of the Effect kind. *)
Definition is_effect (c : Ctx) (hook : Js.Value) : bool :=
  Js.strict_eq (getProp c hook "kind") HookTypes_EFFECT.

(** The cleanup an Effect-kind record holds. *)
Definition cleanup_of (c : Ctx) (hook : Js.Value) : option nat :=
  if is_effect c hook
  then match getProp c hook "cleanup" with
       | Js.VFun f => Some f
       | _ => None
       end
  else None.

(** The cleanup of an Effect-kind record is a function, [null] or
    [undefined], as its type has it. *)
Definition cleanup_typed (c : Ctx) (hook : Js.Value) : bool :=
  negb (is_effect c hook)
  || Js.is_nullish (getProp c hook "cleanup")
  || bool_decide (Js.typeof (getProp c hook "cleanup") = Js.TyFunction).

(** The paths of the entries [es] that the pass did not visit. *)
Definition unvisited (vis : gset string) (es : list (string * nat)) : list string :=
  List.filter (fun p => negb (bool_decide (p ∈ vis))) es.*1.

(** The paths with storage that the pass did not visit. *)
Definition stale (c : Ctx) (path : string) : bool :=
  JsMap.has (state c) path && negb (bool_decide (path ∈ visited c)).

(** The cleanups a finished pass owes: one for each Effect-kind record that
    holds one, at each path the pass did not visit. *)
Definition due_cleanups (c : Ctx) : list nat :=
  flat_map (fun entry => if bool_decide (entry.1 ∈ visited c) then []
                         else omap (cleanup_of c) (array_at c entry.2))
           (state c).

(** The dependencies of the effect at a slot are unchanged: an array is
    passed, the slot holds a record whose stored dependencies are an array
    of the same length, and the elements are the same one by one. *)
Definition unchanged_deps (c : Ctx) (slot : Js.Value) (deps : Js.Value) : Prop :=
  ∃ d xs h fs d0 ys,
    deps = Js.VRef d ∧ heap c !! d = Some (Js.OArr xs)
    ∧ slot = Js.VRef h ∧ heap c !! h = Some (Js.ORec fs)
    ∧ Equals.getProperty fs "deps" = Js.VRef d0 ∧ heap c !! d0 = Some (Js.OArr ys)
    ∧ length xs = length ys
    ∧ Forall2 (fun y x => Js.Object_is y x = true) ys xs.

(** The dependency argument is what its type says: absent, or an array. *)
Definition deps_typed (c : Ctx) (deps : Js.Value) : Prop :=
  deps = undefined ∨ ∃ d xs, deps = Js.VRef d ∧ heap c !! d = Some (Js.OArr xs).

End HookSpec.

(* ===================================================================== *)
(** ** Concrete inputs *)
(* ===================================================================== *)

(** Small contexts and trees on which the theorems below are run. *)
Module Examples.
Import Hooks.

(** Every user function returns its argument. *)
Definition funs : nat -> Js.Value -> Js.Value := fun _ v => v.

Definition one : Js.Value := Js.VPrim (Js.PNum (Js.NInt 1)).
Definition two : Js.Value := Js.VPrim (Js.PNum (Js.NInt 2)).

(** A component entered at the root path, before its first hook. *)
Definition entered0 : Ctx := HookSpec.entered "0" Hooks.empty.

(** The store of a component at ["0"] whose only hook is an effect with the
    dependencies [[1]], the cleanup [7] and the effect [8]; the arrays [[1]]
    and [[2]] are at hand as new dependencies. *)
Definition effect_store : Ctx :=
  mkCtx {[ 0 := Js.OArr [Js.VRef 1];
           1 := Js.ORec [("kind", HookTypes_EFFECT); ("deps", Js.VRef 2);
                         ("cleanup", Js.VFun 7); ("effect", Js.VFun 8)];
           2 := Js.OArr [one];
           3 := Js.OArr [one];
           4 := Js.OArr [two] ]}
        5 [("0", 0)] {[ "0" := 0 ]} {[ "0" ]} ["0"] [] false false [] [].

(** The same store after a pass that did not visit the component. *)
Definition stale_store : Ctx := with_componentStack [] (with_visited ∅ effect_store).

Definition has_prop (tag key : string) : bool := false.
Definition read_only (tag key : string) : bool := false.

(** No component function is used: every one renders nothing. *)
Definition no_comps (fid : nat) (props : list (string * Js.Value)) (children : list VNode)
  : M Hooks.Ctx (option VNode) := ret None.

(** An application that was never set up, on an empty document. *)
Definition fresh_app : Render.App :=
  Render.mkApp (Reconciler.mkWorld Dom.empty Hooks.empty 0) (Render.mkRoot None None None).

(** Nodes as JSX gives them. *)
Definition text (s : string) : VNode :=
  VN TText None (Some [("nodeValue", Js.VPrim (Js.PStr s))]) [].
Definition el (tag : string) (key : option string) (attrs : list (string * Js.Value))
    (children : list VNode) : VNode :=
  VN (THost tag) key (Some attrs) children.
Definition frag (children : list VNode) : VNode := VN TFragment None (Some []) children.

(** A document that holds one empty [div], the container, and the world
    over it before the first render. *)
Definition page : Dom.t := Dom.mk 1 {[ 0 := [] ]} ∅ {[ 0 := "div" ]} [].
Definition world0 : Reconciler.World := Reconciler.mkWorld page Hooks.empty 0.

Definition reconcile :=
  Reconciler.reconcile has_prop read_only no_comps ElementsDoc.createChildPath 20.

(** The first render of [v] into the container, at the root path. *)
Definition mount0 (v : VNode) : Outcome Reconciler.World (option Instance) :=
  reconcile 0 None (Some v) "0" world0.

Definition instance_of (o : Outcome Reconciler.World (option Instance)) : Instance :=
  match o with
  | Ret (Some i) _ => i
  | _ => mkInstance 0 TEXT None (text "") [] None ""
  end.

Definition world_of (o : Outcome Reconciler.World (option Instance)) : Reconciler.World :=
  match o with
  | Ret _ w | Throw _ w => w
  | Diverge => world0
  end.

(** [<p>a</p>], rendered first, and what it leaves. *)
Definition paragraph : VNode := el "p" None [] [text "a"].
Definition old_paragraph : Instance := instance_of (mount0 paragraph).
Definition world_paragraph : Reconciler.World := world_of (mount0 paragraph).

(** [<div onClick={f} />]. *)
Definition button : VNode := el "div" None [("onClick", Js.VFun 7)] [].
(** [<div><>{"a"}{"b"}</>{"c"}</div>]. *)
Definition grouped : VNode := el "div" None [] [frag [text "a"; text "b"]; text "c"].
(** [<div>a<p id="x">b</p></div>]. *)
Definition plain : VNode :=
  el "div" None [] [text "a"; el "p" None [("id", Js.VPrim (Js.PStr "x"))] [text "b"]].

(** [<div><span key="x">A</span><span key="y">B</span></div>], rendered
    first, and the same children in the other order, the text of one
    changed. *)
Definition keyed_before : VNode :=
  el "div" None [] [el "span" (Some "x") [] [text "A"]; el "span" (Some "y") [] [text "B"]].
Definition keyed_after : VNode :=
  el "div" None [] [el "span" (Some "y") [] [text "B2"]; el "span" (Some "x") [] [text "A"]].
Definition old_keyed : Instance := instance_of (mount0 keyed_before).
Definition world_keyed : Reconciler.World := world_of (mount0 keyed_before).
Definition keyed_olds : list Instance := omap id (i_children old_keyed).

Definition result_of (o : Outcome Reconciler.World (option Instance)) : option Instance :=
  match o with
  | Ret r _ => r
  | _ => None
  end.

(** The render of [keyed_after] over the first render. *)
Definition keyed_rerender : Outcome Reconciler.World (option Instance) :=
  reconcile 0 (Some old_keyed) (Some keyed_after) "0" world_keyed.

(** The calls of the next render are counted from an empty log. *)
Definition forget_calls (w : Reconciler.World) : Reconciler.World :=
  let d := Reconciler.dm w in
  Reconciler.mkWorld (Dom.mk (Dom.next d) (Dom.kids d) (Dom.nodeValue d) (Dom.tags d) [])
                     (Reconciler.hk w) (Reconciler.nextInstance w).

(** The calls to the host of a render of [b] over the first render of [a]. *)
Definition rerender_calls (a b : VNode) : option (list Dom.Call) :=
  match reconcile 0 (Some (instance_of (mount0 a))) (Some b) "0"
                  (forget_calls (world_of (mount0 a))) with
  | Ret _ w => Some (Dom.calls (Reconciler.dm w))
  | _ => None
  end.

End Examples.

(** * What a mount adds *)

(** [m] takes a state only to states that [R] relates to it. *)
Definition keeps {S A} (R : S → S → Prop) (m : M S A) : Prop :=
  ∀ s a s', m s = Ret a s' → R s s'.

Module MountSpec.
Import Reconciler.
Local Open Scope nat_scope.

(** The nodes and their places are those of [d]. *)
Definition same_tree (d d' : Dom.t) : Prop :=
  Dom.next d' = Dom.next d ∧ Dom.kids d' = Dom.kids d.

(** The children of every parent in [d'] were its children in [d] or are
    nodes numbered from [bound] on. *)
Definition adds_from (bound : nat) (d d' : Dom.t) : Prop :=
  ∀ q m, m ∈ Dom.kidsOf d' q → m ∈ Dom.kidsOf d q ∨ bound ≤ m.

(** A step of a mount that started when the document had [bound] nodes. *)
Record step (bound : nat) (w w' : World) : Prop := mkStep {
  step_next : Dom.next (dm w) ≤ Dom.next (dm w');
  step_refs : nextInstance w ≤ nextInstance w';
  step_adds : adds_from bound (dm w) (dm w');
}.

(** [i] is an instance made for [node] at [path] on the way from [w] to
    [w']: a new object, all of whose surface nodes are new. *)
Record mounted (w : World) (node : VNode) (path : string) (i : Instance) (w' : World)
  : Prop := mkMounted {
  mounted_node : i_node i = node;
  mounted_path : i_path i = path;
  mounted_key : i_key i = vkey node;
  mounted_ref : nextInstance w ≤ i_ref i < nextInstance w';
  mounted_doms : ∀ m, m ∈ Dom.getDomNodes_of i → Dom.next (dm w) ≤ m;
  mounted_step : step (Dom.next (dm w)) w w';
}.

(** What [reconcile] does without an old instance. *)
Definition mounts
    (reconcile : nat → option Instance → option VNode → string → M World (option Instance))
  : Prop :=
  ∀ parentDom node path w r w',
    reconcile parentDom None node path w = Ret r w' →
    match node, r with
    | Some n, Some i => mounted w n path i w'
    | None, None => w' = w
    | _, _ => False
    end.

End MountSpec.

(** * The instance tree and the document *)

Module TreeSpec.
Import Reconciler.
Local Open Scope nat_scope.

(** What an instance tree holds by identity: instance objects and surface
    nodes. *)
Inductive Id :=
| Obj (r : nat)
| Node (n : nat).

#[global] Instance Id_eq_dec : EqDecision Id.
Proof. solve_decision. Defined.

(** The surface node an instance owns itself. *)
Definition own_node (kind : NodeKind) (dom : option nat) : list nat :=
  match kind with
  | HOST | TEXT => match dom with Some d => [d] | None => [] end
  | _ => []
  end.

(** All the objects and all the surface nodes below an instance. *)
Fixpoint ids (i : Instance) : list Id :=
  let 'mkInstance r kind dom _ children _ _ := i in
  Obj r :: (Node <$> own_node kind dom)
        ++ flat_map (fun child => match child with
                                  | None => []
                                  | Some c => ids c
                                  end) children.

Definition opt_ids (i : option Instance) : list Id :=
  match i with
  | None => []
  | Some c => ids c
  end.

Definition ids_of (children : list (option Instance)) : list Id := flat_map opt_ids children.

(** The surface nodes of a list of children, in the order of the list. *)
Definition nodes_of (children : list (option Instance)) : list nat :=
  flat_map Dom.getDomNodes children.

(** A host or text instance has its node, everywhere in the tree. *)
Fixpoint shaped (i : Instance) : Prop :=
  let 'mkInstance _ kind dom _ children _ _ := i in
  match kind, dom with
  | (HOST | TEXT), None => False
  | _, _ => True
  end
  ∧ (fix all (cs : list (option Instance)) : Prop :=
       match cs with
       | [] => True
       | child :: cs' => match child with
                         | None => True
                         | Some c => shaped c
                         end ∧ all cs'
       end) children.

Definition opt_shaped (i : option Instance) : Prop :=
  match i with
  | None => True
  | Some c => shaped c
  end.

(** Made before [w]. *)
Definition bounded (w : World) (x : Id) : Prop :=
  match x with
  | Obj r => r < nextInstance w
  | Node n => n < Dom.next (dm w)
  end.

(** Not made before [w]. *)
Definition fresh (w : World) (x : Id) : Prop :=
  match x with
  | Obj r => nextInstance w ≤ r
  | Node n => Dom.next (dm w) ≤ n
  end.

(** An instance tree as a mount leaves it: no object and no node twice, all
    of them made before [w]. *)
Record wf (w : World) (i : Instance) : Prop := mkWf {
  wf_shaped : shaped i;
  wf_nodup : NoDup (ids i);
  wf_bounded : Forall (bounded w) (ids i);
}.

Definition opt_wf (w : World) (i : option Instance) : Prop :=
  match i with
  | None => True
  | Some c => wf w c
  end.

(** No parent holds a child twice. *)
Definition dom_wf (d : Dom.t) : Prop := ∀ p, NoDup (Dom.kidsOf d p).

(** The host parent of the children of an instance: the node of a host
    instance, and for any other instance its own host parent. *)
Definition children_host (hostParent : nat) (i : Instance) : nat :=
  match i_kind i, i_dom i with
  | HOST, Some dom => dom
  | _, _ => hostParent
  end.

(** No sibling list of the tree, as the reconciler reads it, repeats a key. *)
Fixpoint keys_ok (v : VNode) : Prop :=
  let 'VN _ _ props children := v in
  match props with
  | None => True
  | Some _ =>
      NoDup (omap vkey children)
      ∧ (fix all (cs : list VNode) : Prop :=
           match cs with
           | [] => True
           | c :: cs' => keys_ok c ∧ all cs'
           end) children
  end.

Definition opt_keys_ok (v : option VNode) : Prop :=
  match v with
  | None => True
  | Some n => keys_ok n
  end.

(** The components return such trees when their children are such trees. *)
Definition comps_keys_ok
    (comps : nat → list (string * Js.Value) → list VNode → M Hooks.Ctx (option VNode)) : Prop :=
  ∀ fid attrs children h v h',
    Forall keys_ok children → comps fid attrs children h = Ret v h' → opt_keys_ok v.

Record grows (w w' : World) : Prop := mkGrows {
  grows_next : Dom.next (dm w) ≤ Dom.next (dm w');
  grows_refs : nextInstance w ≤ nextInstance w';
}.

(** A step on the document, and a step on the world, that keep the child
    lists free of repetitions and take no identity back. *)
Definition dom_keeps (d d' : Dom.t) : Prop :=
  Dom.next d ≤ Dom.next d' ∧ (dom_wf d → dom_wf d').

Definition world_keeps (w w' : World) : Prop :=
  grows w w' ∧ (dom_wf (dm w) → dom_wf (dm w')).

(** What a call of [reconcile] on [old] and [node] leaves: a tree as above
    that holds, besides what it made, only what [old] held, and that is the
    object [old] when the two agree in type and key. *)
Record updated (w : World) (old : option Instance) (node : option VNode)
    (r : option Instance) (w' : World) : Prop := mkUpdated {
  upd_grows : grows w w';
  upd_dom : dom_wf (dm w');
  upd_wf : opt_wf w' r;
  upd_ids : ∀ x, x ∈ opt_ids r → x ∈ opt_ids old ∨ fresh w x;
  upd_none : node = None → r = None;
  upd_some : ∀ n, node = Some n →
    ∃ i, r = Some i ∧ i_node i = n ∧ i_key i = vkey n
         ∧ ∀ o, old = Some o → vtype (i_node o) = vtype n → i_key o = vkey n →
                i_ref i = i_ref o;
}.

Definition updates
    (reconcile : nat → option Instance → option VNode → string → M World (option Instance))
  : Prop :=
  ∀ parentDom old node path w r w',
    dom_wf (dm w) → opt_wf w old → opt_keys_ok node →
    reconcile parentDom old node path w = Ret r w' →
    updated w old node r w'.

End TreeSpec.

(** * utils/equals.ts: deepEquals *)

Module DeepEquals.
Section WithObjects.

Variable objs : nat -> Js.JsObj.

(** [deepEquals], cut off after [fuel] nested calls: on objects that
    contain themselves the recursion of the source does not end.  [None]
    is a run that needs more nesting than [fuel]. *)
Fixpoint deepEquals (fuel : nat) (a b : Js.Value) : option bool :=
  match fuel with
  | 0 => None
  | S fuel' =>
      if Js.Object_is a b then Some true
      else if negb (bool_decide (Js.typeof a = Js.typeof b)) then Some false
      else if bool_decide (a = Js.VPrim Js.PNull) || bool_decide (b = Js.VPrim Js.PNull)
      then Some false
      else if Equals.isArray objs a || Equals.isArray objs b then
        if negb (Equals.isArray objs a) || negb (Equals.isArray objs b) then Some false
        else if negb (length (Equals.elements objs a) =? length (Equals.elements objs b))%nat
        then Some false
        else
          (* for (i = 0; i < a.length; i += 1) if (!deepEquals(a[i], b[i])) return false *)
          (fix loop (xs ys : list Js.Value) : option bool :=
             match xs, ys with
             | x :: xs', y :: ys' =>
                 match deepEquals fuel' x y with
                 | Some true => loop xs' ys'
                 | other => other
                 end
             | _, _ => Some true
             end) (Equals.elements objs a) (Equals.elements objs b)
      else if bool_decide (Js.typeof a = Js.TyObject) && bool_decide (Js.typeof b = Js.TyObject)
      then
        let aKeys := (Equals.fields objs a).*1 in
        let bKeys := (Equals.fields objs b).*1 in
        if negb (length aKeys =? length bKeys)%nat then Some false
        else
          (* for (const key of aKeys) { if (!hasOwn(b, key)) return false;
                                        if (!deepEquals(a[key], b[key])) return false } *)
          (fix loop (keys : list string) : option bool :=
             match keys with
             | [] => Some true
             | key :: keys' =>
                 if negb (Equals.hasOwnProperty (Equals.fields objs b) key) then Some false
                 else match deepEquals fuel' (Equals.getProperty (Equals.fields objs a) key)
                                             (Equals.getProperty (Equals.fields objs b) key) with
                      | Some true => loop keys'
                      | other => other
                      end
             end) aKeys
      else Some (Js.Object_is a b)
  end.

End WithObjects.
End DeepEquals.

(** What [shallowEquals] accepts of two objects that are no arrays: as many
    keys, and every key of the first in the second with the same value. *)
Module EqualsSpec.
Definition same_fields (fa fb : list (string * Js.Value)) : Prop :=
  length fa.*1 = length fb.*1
  ∧ ∀ k, k ∈ fa.*1 → k ∈ fb.*1 ∧ Equals.getProperty fa k = Equals.getProperty fb k.
End EqualsSpec.

(** Objects to compare: two arrays with the same element, two arrays that
    hold them, two arrays that hold themselves, and one-field records. *)
Module EqualsExamples.
Definition objs (r : nat) : Js.JsObj :=
  match r with
  | 0 | 1 => Js.OArr [Examples.one]
  | 2 => Js.OArr [Js.VRef 0]
  | 3 => Js.OArr [Js.VRef 1]
  | 4 => Js.OArr [Js.VRef 4]
  | 5 => Js.OArr [Js.VRef 5]
  | _ => Js.ORec [("a", Examples.one)]
  end.
End EqualsExamples.

(** What tells the components of a sibling list apart: two keyless
    components that show the same name are the same function. *)
Module PathFacts.
Definition named_apart (siblings : list VNode) : Prop :=
  ∀ v v' fid fid' name name',
    v ∈ siblings → v' ∈ siblings → vkey v = None → vkey v' = None →
    vtype v = TComponent fid name → vtype v' = TComponent fid' name' →
    PathSpec.componentName name = PathSpec.componentName name' →
    TComponent fid name = TComponent fid' name'.

(** The path the reconciler gives the child at [index]. *)
Definition child_path
    (createChildPath : string → option string → nat → option NodeType → option (list VNode)
                       → string)
    (parentPath : string) (siblings : list VNode) (index : nat) (child : VNode) : string :=
  createChildPath parentPath (vkey child) index (Some (vtype child)) (Some siblings).
End PathFacts.

(** Children to tell apart: a keyed item, a plain item, one component
    twice, another component and a Fragment. *)
Module PathExamples.
Definition comp (fid : nat) (name : string) : VNode :=
  VN (TComponent fid name) None (Some []) [].
Definition mixed : list VNode :=
  [Examples.el "li" (Some "a") [] []; Examples.el "li" None [] [];
   comp 1 "Item"; comp 1 "Item"; comp 2 "Badge"; Examples.frag []].
End PathExamples.

(** What [createElement] keeps among its children: objects whose [key] and
    [props] are set, to [null] where they were absent. *)
Module ElementsSpec.
Definition is_node (c : Raw.t) : Prop :=
  ∃ fs, c = Raw.Obj fs ∧ Raw.get fs "key" ≠ Raw.Undefined ∧ Raw.get fs "props" ≠ Raw.Undefined.

(** The children that leave a trace: whatever is left of the arguments, the
    arrays among them opened, the empty values dropped. *)
Definition rendered (rawChildren : list Raw.t) : list Raw.t :=
  List.filter (fun c => negb (Elements.isEmptyValue c)) (Raw.flat_all rawChildren).
End ElementsSpec.

(** What the loop of [flushEffects] meets: the hook a queued entry points
    at, the effect it runs for the entry, and the cleanup it keeps of the
    result. *)
Module EffectSpec.
Import Hooks.

(** [state.get(path)?.[cursor]]. *)
Definition queued_hook (c : Ctx) (e : string * nat) : Js.Value :=
  match JsMap.get (state c) e.1 with
  | Some hooksForPath => array_get (array_at c hooksForPath) e.2
  | None => undefined
  end.

Definition due_effect (c : Ctx) (e : string * nat) : option nat :=
  match getProp c (queued_hook c e) "effect" with
  | Js.VFun f => Some f
  | _ => None
  end.

(** An entry whose hook is there points at a record with an effect to call. *)
Definition runnable (c : Ctx) (e : string * nat) : Prop :=
  Js.truthy (queued_hook c e) = true → is_Some (due_effect c e).

(** [typeof result === "function" ? result : null]. *)
Definition cleanup_from (result : Js.Value) : Js.Value :=
  if bool_decide (Js.typeof result = Js.TyFunction) then result else null.

(** The context after the effect [f] of the record [h] ran: the call is in
    the trace, the cleanup in the record. *)
Definition ran (funs : nat -> Js.Value -> Js.Value) (h f : nat) (c : Ctx) : Ctx :=
  with_heap (<[h := Js.ORec (fields_set (Equals.fields (objs c) (Js.VRef h)) "cleanup"
                                        (cleanup_from (funs f undefined)))]> (heap c))
            (with_trace (trace c ++ [f]) c).

End EffectSpec.

(** A store with three queued effects: one of the hook of ["0"], one of a
    path that is gone and one of a slot that ["0"] does not have; every user
    function returns another function. *)
Module EffectExamples.
Import Hooks.
Definition funs : nat -> Js.Value -> Js.Value := fun f _ => Js.VFun (S f).
Definition queued_store : Ctx :=
  with_flushScheduled true
    (with_queue [("0", 0); ("gone", 0); ("0", 1)] Examples.effect_store).

(** The same store with a state value in the second slot of ["0"], and an
    effect queued for that slot. *)
Definition bad_store : Ctx :=
  with_queue [("0", 0); ("0", 1); ("gone", 0)]
    (with_heap (<[0 := Js.OArr [Js.VRef 1; Examples.one]]> (heap Examples.effect_store))
       Examples.effect_store).
End EffectExamples.

(** What [updateDomProps] still does for a property that did not change:
    a listener is added again, a [data-*] attribute without a value and a
    boolean that is no property of the element are written again. *)
Module DomSpec.
Section Props.
Variable has_prop : string -> string -> bool.

Definition repeated (d : Dom.t) (dom : nat) (kv : string * Js.Value) : list Dom.Call :=
  let '(key, value) := kv in
  if bool_decide (key = "children") || bool_decide (key = "style") then []
  else if Dom.startsWith key "on" && Dom.is_fun value then
    [Dom.AddEventListener dom (Dom.eventName key) value]
  else if bool_decide (key = "className") then []
  else if Dom.startsWith key "data-" then
    if Js.is_nullish value then [Dom.RemoveAttribute dom key] else []
  else if Dom.is_boolean value then
    if Dom.in_dom has_prop d dom key then []
    else if Js.truthy value then [Dom.SetAttribute dom key ""]
    else [Dom.RemoveAttribute dom key]
  else [].

(** No value is [NaN], the one value that differs from itself. *)
Definition no_NaN (fs : list (string * Js.Value)) : Prop :=
  Forall (fun kv => Js.strict_eq kv.2 kv.2 = true) fs.
End Props.

(** An element's properties: a plain one, a listener, a [data-*] attribute
    without a value and a boolean; no object is around. *)
Definition sample_props : list (string * Js.Value) :=
  [("id", Js.VPrim (Js.PStr "a")); ("onClick", Js.VFun 3);
   ("data-x", Js.VPrim Js.PNull); ("hidden", Js.VPrim (Js.PBool true))].
Definition no_objs (r : nat) : Js.JsObj := Js.ORec [].
End DomSpec.

(** * The document mirrors the instance tree *)

Module SyncSpec.
Import Reconciler.
Local Open Scope nat_scope.

(** A document as the host keeps it: no parent holds a child twice, every
    child was made, and no node has two parents. *)
Record doc_ok (d : Dom.t) : Prop := mkDocOk {
  ok_nodup : ∀ q, NoDup (Dom.kidsOf d q);
  ok_bounded : ∀ q m, m ∈ Dom.kidsOf d q → m < Dom.next d;
  ok_parent : ∀ q q' m, m ∈ Dom.kidsOf d q → m ∈ Dom.kidsOf d q' → q = q';
}.

(** The children of the node of every host instance of the tree are the
    surface nodes of its child instances, in their order. *)
Fixpoint synced (d : Dom.t) (i : Instance) : Prop :=
  let 'mkInstance _ kind dom _ children _ _ := i in
  match kind, dom with
  | HOST, Some n => Dom.kidsOf d n = TreeSpec.nodes_of children
  | _, _ => True
  end
  ∧ (fix all (cs : list (option Instance)) : Prop :=
       match cs with
       | [] => True
       | child :: cs' => match child with
                         | None => True
                         | Some c => synced d c
                         end ∧ all cs'
       end) children.

Definition opt_synced (d : Dom.t) (i : option Instance) : Prop :=
  match i with
  | None => True
  | Some c => synced d c
  end.

(** The nodes of the host instances of a tree, at any depth. *)
Fixpoint hosts (i : Instance) : list nat :=
  let 'mkInstance _ kind dom _ children _ _ := i in
  match kind, dom with
  | HOST, Some n => [n]
  | _, _ => []
  end
  ++ flat_map (fun child => match child with
                            | None => []
                            | Some c => hosts c
                            end) children.

Definition opt_hosts (i : option Instance) : list nat :=
  match i with
  | None => []
  | Some c => hosts c
  end.

(** What a mount under [parentDom] leaves: its surface nodes are the last
    children of [parentDom], after the children it had; no other node that
    existed has other children than before; the document mirrors the new
    tree. *)
Record appended (parentDom : nat) (w : World) (r : option Instance) (w' : World) : Prop :=
  mkAppended {
  app_ok : doc_ok (dm w');
  app_next : Dom.next (dm w) ≤ Dom.next (dm w');
  app_kids : Dom.kidsOf (dm w') parentDom = Dom.kidsOf (dm w) parentDom ++ Dom.getDomNodes r;
  app_frame : ∀ q, q ≠ parentDom → q < Dom.next (dm w) →
                   Dom.kidsOf (dm w') q = Dom.kidsOf (dm w) q;
  app_fresh : ∀ q m, m ∈ Dom.kidsOf (dm w') q →
                     m ∈ Dom.kidsOf (dm w) q ∨ Dom.next (dm w) ≤ m;
  app_synced : opt_synced (dm w') r;
  app_hosts : ∀ n, n ∈ opt_hosts r → Dom.next (dm w) ≤ n < Dom.next (dm w');
}.

Definition appends
    (reconcile : nat → option Instance → option VNode → string → M World (option Instance))
  : Prop :=
  ∀ parentDom node path w r w',
    doc_ok (dm w) → parentDom < Dom.next (dm w) →
    reconcile parentDom None node path w = Ret r w' →
    appended parentDom w r w'.

End SyncSpec.

(** * Trees that a mount cannot fail on *)

Module TotalSpec.

(** A tree without components whose host elements have props: mounting it
    calls no user code, and [Object.entries(node.props)] meets no [null]. *)
Fixpoint mountable (v : VNode) : bool :=
  let 'VN t _ props cs := v in
  match t, props with
  | TComponent _ _, _ => false
  | THost _, None => false
  | TText, _ => true
  | _, None => true
  | _, Some _ => forallb mountable cs
  end.

(** The number of nested calls of [reconcile] that a mount of the tree
    makes. *)
Fixpoint depth (v : VNode) : nat :=
  let 'VN _ _ _ cs := v in S (list_max (List.map depth cs)).

End TotalSpec.

(** * An update keeps the document in step with the tree *)

Module UpdateSpec.
Import Reconciler.
Local Open Scope nat_scope.

(** A component instance has one child at most, everywhere in the tree. *)
Fixpoint single (i : Instance) : Prop :=
  let 'mkInstance _ kind _ _ children _ _ := i in
  match kind with
  | COMPONENT => length children ≤ 1
  | _ => True
  end
  ∧ (fix all (cs : list (option Instance)) : Prop :=
       match cs with
       | [] => True
       | child :: cs' => match child with
                         | None => True
                         | Some c => single c
                         end ∧ all cs'
       end) children.

Definition opt_single (i : option Instance) : Prop :=
  match i with
  | None => True
  | Some c => single c
  end.

Definition singles
    (reconcile : nat → option Instance → option VNode → string → M World (option Instance))
  : Prop :=
  ∀ parentDom old node path w r w',
    opt_single old → reconcile parentDom old node path w = Ret r w' → opt_single r.

(** What a call of [reconcile] under [parentDom] leaves of a document that
    mirrored the old tree: a document that mirrors the new tree; the surface
    nodes of the new tree under [parentDom], with the children it had
    beside those of the old tree and with nothing else; every other child
    list outside the old tree as it was. *)
Record kept (parentDom : nat) (w : World) (old r : option Instance) (w' : World) : Prop :=
  mkKept {
  kept_ok : SyncSpec.doc_ok (dm w');
  kept_synced : SyncSpec.opt_synced (dm w') r;
  kept_located : ∀ m, m ∈ Dom.getDomNodes r → m ∈ Dom.kidsOf (dm w') parentDom;
  kept_closed : ∀ m, m ∈ Dom.kidsOf (dm w') parentDom →
                     m ∈ Dom.getDomNodes r
                     ∨ (m ∈ Dom.kidsOf (dm w) parentDom ∧ m ∉ Dom.getDomNodes old);
  kept_rest : ∀ m, m ∈ Dom.kidsOf (dm w) parentDom → m ∉ Dom.getDomNodes old →
                   m ∈ Dom.kidsOf (dm w') parentDom;
  kept_frame : ∀ q, q ≠ parentDom → q < Dom.next (dm w) →
                    TreeSpec.Node q ∉ TreeSpec.opt_ids old →
                    Dom.kidsOf (dm w') q = Dom.kidsOf (dm w) q;
}.

Definition syncs
    (reconcile : nat → option Instance → option VNode → string → M World (option Instance))
  : Prop :=
  ∀ parentDom old node path w r w',
    SyncSpec.doc_ok (dm w) → TreeSpec.opt_wf w old → TreeSpec.opt_keys_ok node →
    opt_single old → SyncSpec.opt_synced (dm w) old →
    (∀ m, m ∈ Dom.getDomNodes old → m ∈ Dom.kidsOf (dm w) parentDom) →
    parentDom < Dom.next (dm w) → TreeSpec.Node parentDom ∉ TreeSpec.opt_ids old →
    reconcile parentDom old node path w = Ret r w' →
    kept parentDom w old r w'.

End UpdateSpec.

(* ===================================================================== *)
(** * Theorems *)
(* ===================================================================== *)

(* --------------------------------------------------------------------- *)
(** ** normalizeNode *)
(* --------------------------------------------------------------------- *)

Section RawObjects.
Implicit Types (fs : list (string * Raw.t)) (k : string) (v : Raw.t).

Lemma Raw_get_set_eq fs k v : Raw.get (Raw.set fs k v) k = v.
Proof.
  induction fs as [|[k' v'] fs IH]; simpl.
  - by rewrite bool_decide_eq_true_2.
  - destruct (bool_decide (k' = k)) eqn:E; simpl.
    + by rewrite bool_decide_eq_true_2.
    + by rewrite E.
Qed.

Lemma Raw_get_set_ne fs k k' v : k ≠ k' → Raw.get (Raw.set fs k v) k' = Raw.get fs k'.
Proof.
  intros Hne. induction fs as [|[k0 v0] fs IH]; simpl.
  - by rewrite bool_decide_eq_false_2.
  - destruct (bool_decide (k0 = k)) eqn:E; simpl.
    + apply bool_decide_eq_true_1 in E. subst k0.
      by rewrite !bool_decide_eq_false_2.
    + by rewrite IH.
Qed.

Lemma Raw_set_set_eq fs k v : Raw.set (Raw.set fs k v) k v = Raw.set fs k v.
Proof.
  induction fs as [|[k' v'] fs IH]; simpl.
  - by rewrite bool_decide_eq_true_2.
  - destruct (bool_decide (k' = k)) eqn:E; simpl.
    + by rewrite bool_decide_eq_true_2.
    + by rewrite E, IH.
Qed.

(** Writing a property again after another one was written changes
    nothing: the property is there already, with that value. *)
Lemma Raw_set_over fs k k' v v' :
  k ≠ k' → Raw.set (Raw.set (Raw.set fs k v) k' v') k v = Raw.set (Raw.set fs k v) k' v'.
Proof.
  intros Hne. induction fs as [|[k0 v0] fs IH]; simpl.
  - rewrite (bool_decide_eq_false_2 (k = k')) by done. simpl.
    by rewrite bool_decide_eq_true_2.
  - destruct (bool_decide (k0 = k)) eqn:E; simpl.
    + rewrite (bool_decide_eq_false_2 (k = k')) by done. simpl.
      by rewrite bool_decide_eq_true_2.
    + destruct (bool_decide (k0 = k')) eqn:E'; simpl.
      * rewrite (bool_decide_eq_false_2 (k' = k)) by done.
        apply bool_decide_eq_true_1 in E'. subst k0.
        f_equal. apply Raw_set_set_eq.
      * by rewrite E, IH.
Qed.

Lemma or_null_idem v : Raw.or_null (Raw.or_null v) = Raw.or_null v.
Proof. by destruct v. Qed.

End RawObjects.

Lemma normalizeNode_Obj fs :
  Elements.normalizeNode (Raw.Obj fs) =
  Raw.Obj (Raw.set (Raw.set fs "props" (Raw.or_null (Raw.get fs "props")))
                   "key" (Raw.or_null (Raw.get fs "key"))).
Proof. reflexivity. Qed.

(** The inner call of [normalizeNode], the one [createElement] makes on a
    flattened child, never reaches the cut-off: a flattened child is no
    array. *)
Lemma flat_no_array : ∀ (x y : Raw.t), y ∈ Raw.flat x → Raw.isArray y = false.
Proof.
  fix IH 1. intros x y.
  destruct x as [| |b|n|s|d|src|xs|fs]; simpl;
    try (intros H; apply list_elem_of_singleton in H; by subst y).
  induction xs as [|x' xs' IHxs]; simpl.
  - intros H. by apply elem_of_nil in H.
  - intros H. apply elem_of_app in H as [H|H]; [by apply (IH x')|by apply IHxs].
Qed.

Lemma normalizeNode_body_no_array (f g : Raw.t → Raw.t) (x : Raw.t) :
  Raw.isArray x = false → Elements.normalizeNode_body f x = Elements.normalizeNode_body g x.
Proof. by destruct x. Qed.

(** C7.  [normalizeNode] is idempotent: normalizing what it returned gives
    the same node again, field by field.  The empty values ([null],
    [undefined], the booleans) become [null], and [null] stays [null]; a
    primitive becomes a Text node and an array a Fragment node, and either
    passes through a second time unchanged; an object shaped as a node
    passes through with [props] and [key] set, to [null] where they were
    absent. *)
Theorem normalizeNode_idempotent (x : Raw.t) :
  Elements.normalizeNode (Elements.normalizeNode x) = Elements.normalizeNode x
  ∧ Elements.normalizeNode Raw.Null = Raw.Null
  ∧ Elements.normalizeNode Raw.Undefined = Raw.Null
  ∧ (∀ b, Elements.normalizeNode (Raw.Bool b) = Raw.Null)
  ∧ (∀ s, Elements.normalizeNode (Raw.Str s) = Elements.createTextElement (Raw.Str s)
          ∧ Elements.normalizeNode (Elements.createTextElement (Raw.Str s))
            = Elements.createTextElement (Raw.Str s))
  ∧ (∀ n, Elements.normalizeNode (Raw.Num n) = Elements.createTextElement (Raw.Num n)
          ∧ Raw.get (match Elements.createTextElement (Raw.Num n) with
                     | Raw.Obj fs => fs | _ => [] end) "type" = Raw.TEXT_ELEMENT)
  ∧ (∀ xs, Elements.normalizeNode (Raw.Arr xs) = Elements.createElement Raw.Fragment None xs
           ∧ Elements.normalizeNode (Elements.createElement Raw.Fragment None xs)
             = Elements.createElement Raw.Fragment None xs)
  ∧ (∀ fs, ∃ fs', Elements.normalizeNode (Raw.Obj fs) = Raw.Obj fs'
           ∧ Raw.get fs' "props" = Raw.or_null (Raw.get fs "props")
           ∧ Raw.get fs' "key" = Raw.or_null (Raw.get fs "key")
           ∧ ∀ k, k ≠ "props" → k ≠ "key" → Raw.get fs' k = Raw.get fs k).
Proof.
  assert (Hobj : ∀ fs, Elements.normalizeNode (Elements.normalizeNode (Raw.Obj fs))
                       = Elements.normalizeNode (Raw.Obj fs)).
  { intros fs. rewrite !normalizeNode_Obj. f_equal.
    rewrite Raw_get_set_eq.
    rewrite (Raw_get_set_ne _ "key" "props") by done.
    rewrite Raw_get_set_eq, !or_null_idem.
    rewrite (Raw_set_over fs "props" "key") by done.
    apply Raw_set_set_eq. }
  assert (Harr : ∀ xs, Elements.normalizeNode (Raw.Arr xs)
                       = Elements.createElement Raw.Fragment None xs).
  { intros xs. unfold Elements.normalizeNode at 1, Elements.normalizeNode_body at 1. simpl.
    unfold Elements.createElement, Elements.createElement_with. simpl.
    assert (Hmap : List.map (Elements.normalizeNode_body (λ _, Raw.Null)) (Raw.flat_all xs)
                   = List.map Elements.normalizeNode (Raw.flat_all xs)).
    { apply List.map_ext_in. intros y Hy. apply normalizeNode_body_no_array.
      unfold Raw.flat_all in Hy. apply in_flat_map in Hy as (x' & _ & Hy).
      apply (flat_no_array x'). by apply list_elem_of_In. }
    by rewrite Hmap. }
  split_and!; try done.
  - destruct x as [| |b|n|s|d|src|xs|fs]; try reflexivity. apply Hobj.
  - intros fs. eexists. split; [apply normalizeNode_Obj|].
    split; [|split].
    + by rewrite (Raw_get_set_ne _ "key" "props"), Raw_get_set_eq.
    + by rewrite Raw_get_set_eq.
    + intros k Hp Hk. by rewrite !Raw_get_set_ne.
Qed.

(* --------------------------------------------------------------------- *)
(** ** createChildPath *)
(* --------------------------------------------------------------------- *)

(** Counting over a slice, as the code does, is counting over the indices
    before the slice's end. *)
Lemma count_take_seq {A} (f : A → bool) (l : list A) (n : nat) :
  length (List.filter f (take n l)) =
  length (List.filter (fun j => match l !! j with Some s => f s | None => false end) (seq 0 n)).
Proof.
  induction n as [|n IH]; [by rewrite take_0|].
  rewrite seq_S, List.filter_app, length_app. simpl.
  destruct (l !! n) as [x|] eqn:E.
  - rewrite (take_S_r _ _ x) by done.
    rewrite List.filter_app, length_app, IH. simpl. by destruct (f x).
  - apply lookup_ge_None in E.
    rewrite !take_ge in * by lia. simpl. rewrite IH. lia.
Qed.

Lemma code_count (P : VNode → bool) (same : NodeType → bool) n l :
  (∀ s, P s = same (vtype s) && bool_decide (vkey s = None)) →
  length (List.filter P (take n l)) = PathSpec.keyless_before same n l.
Proof.
  intros H. rewrite count_take_seq. unfold PathSpec.keyless_before. f_equal.
  apply List.filter_ext. intros j. by destruct (l !! j).
Qed.

Ltac same_type :=
  intros ?; unfold Fragment;
  first [reflexivity | f_equal; apply bool_decide_ext; split; congruence].

Lemma join_path p t : Elements.join p t = PathSpec.path p t.
Proof. unfold Elements.join. by destruct p. Qed.

Lemma createChildPath_doc_token parentPath key index nodeType siblings :
  ElementsDoc.createChildPath parentPath key index nodeType siblings =
  PathSpec.path parentPath
    (PathSpec.token ElementsDoc.encodeURIComponent key index nodeType (default [] siblings)).
Proof.
  unfold ElementsDoc.createChildPath, ElementsDoc.join. rewrite <- join_path.
  destruct key as [k|]; [done|].
  destruct nodeType as [[tag| | |fid name]|]; simpl; try done.
  - rewrite (code_count _ (fun t => bool_decide (t = TFragment))); [done | same_type].
  - rewrite (code_count _ (fun t => bool_decide (t = TComponent fid name))); [done | same_type].
Qed.

Lemma createChildPath_plain_token parentPath key index nodeType siblings :
  Elements.createChildPath parentPath key index nodeType siblings =
  PathSpec.path parentPath (PathSpec.plain_token key index nodeType (default [] siblings)).
Proof.
  unfold Elements.createChildPath. rewrite <- join_path.
  destruct key as [k|]; [done|].
  destruct nodeType as [[tag| | |fid name]|]; simpl.
  - rewrite (code_count _ (fun t => bool_decide (t = THost tag))); [done | same_type].
  - rewrite (code_count _ (fun t => bool_decide (t = TText))); [done | same_type].
  - rewrite (code_count _ (fun t => bool_decide (t = TFragment))); [done | same_type].
  - rewrite (code_count _ (fun t => bool_decide (t = TComponent fid name))); [done | same_type].
  - f_equal. induction (take index (default [] siblings)) as [|x l IH]; [done | exact IH].
Qed.

(** A key token opens with [k], a positional token with [f], [c] or [i]. *)
Lemma key_token_not_positional encode k index nodeType siblings index' nodeType' siblings' :
  bool_decide (PathSpec.token encode (Some k) index nodeType siblings =
               PathSpec.token encode None index' nodeType' siblings') = false.
Proof.
  apply bool_decide_eq_false_2. simpl.
  destruct nodeType' as [[| | |]|]; simpl; discriminate.
Qed.



(* --------------------------------------------------------------------- *)
(** ** The hook store *)
(* --------------------------------------------------------------------- *)

Section HookFacts.
Import Hooks HookSpec.
Variable funs : nat -> Js.Value -> Js.Value.

Lemma array_at_lookup c r xs : heap c !! r = Some (Js.OArr xs) → array_at c r = xs.
Proof. intros H. unfold array_at, objs. by rewrite H. Qed.

Ltac fields :=
  cbn [heap nextRef state cursor visited componentStack queue renderScheduled flushScheduled
       microtasks trace with_heap with_nextRef with_state with_cursor with_visited
       with_componentStack with_queue with_renderScheduled with_flushScheduled with_microtasks
       with_trace advanced entered] in *.

Ltac heap_arr :=
  repeat (erewrite array_at_lookup; [|simpl; by rewrite ?lookup_insert_eq]); simpl.

Lemma with_trace_id c : with_trace (trace c ++ []) c = c.
Proof. destruct c. unfold with_trace. simpl. by rewrite app_nil_r. Qed.

Lemma JsMap_get_set_eq {V} (m : list (string * V)) k v : JsMap.get (JsMap.set m k v) k = Some v.
Proof.
  induction m as [|[k' v'] m IH]; simpl.
  - by rewrite decide_True.
  - destruct (decide (k' = k)); simpl; [by rewrite decide_True|by rewrite decide_False].
Qed.

Lemma JsMap_get_delete_eq {V} (m : list (string * V)) k : JsMap.get (JsMap.delete m k) k = None.
Proof.
  unfold JsMap.delete. induction m as [|[k' v'] m IH]; simpl; [done|].
  case_bool_decide; simpl; [done|]. by rewrite decide_False.
Qed.

Lemma JsMap_get_delete_ne {V} (m : list (string * V)) k k' :
  k ≠ k' → JsMap.get (JsMap.delete m k) k' = JsMap.get m k'.
Proof.
  intros Hne. unfold JsMap.delete. induction m as [|[k0 v0] m IH]; simpl; [done|].
  case_bool_decide; simpl in *.
  - subst k0. by rewrite decide_False.
  - by rewrite IH.
Qed.

Lemma array_get_set xs i v : array_get (array_set xs i v) i = v.
Proof.
  unfold array_get, array_set. destruct (i <? length xs)%nat eqn:E.
  - apply Nat.ltb_lt in E. by rewrite list_lookup_insert_eq.
  - apply Nat.ltb_ge in E.
    rewrite lookup_app_r by done.
    rewrite lookup_app_r; rewrite length_replicate; [|done].
    by rewrite Nat.sub_diag.
Qed.

Lemma array_set_length xs i v : (i < length (array_set xs i v))%nat.
Proof.
  unfold array_set. destruct (i <? length xs)%nat eqn:E.
  - apply Nat.ltb_lt in E. by rewrite length_insert.
  - apply Nat.ltb_ge in E. rewrite !length_app, length_replicate. simpl. lia.
Qed.

Lemma enqueueRender_spec c :
  ∃ c', enqueueRender c = Ret tt c'
        ∧ renderScheduled c' = true
        ∧ microtasks c' = (if renderScheduled c then microtasks c else microtasks c ++ [RenderTask])
        ∧ heap c' = heap c ∧ state c' = state c ∧ cursor c' = cursor c ∧ visited c' = visited c
        ∧ componentStack c' = componentStack c ∧ queue c' = queue c ∧ trace c' = trace c
        ∧ nextRef c' = nextRef c ∧ flushScheduled c' = flushScheduled c.
Proof.
  unfold enqueueRender. destruct (renderScheduled c) eqn:E; eexists; split; try reflexivity;
    simpl; by rewrite ?E.
Qed.

Lemma setState_same st next c :
  Js.Object_is (array_get (array_at c (s_hooks st)) (s_index st))
               (resolve funs next (array_get (array_at c (s_hooks st)) (s_index st))) = true →
  setState funs st next c = Ret tt (with_trace (trace c ++ calls_of next) c).
Proof.
  intros H. unfold resolve in H.
  destruct next as [p|f|r]; cbv [setState bind get_state ret call calls_of];
    rewrite H; [by rewrite with_trace_id|done|by rewrite with_trace_id].
Qed.

Lemma setState_changed st next c :
  let prev := array_get (array_at c (s_hooks st)) (s_index st) in
  Js.Object_is prev (resolve funs next prev) = false →
  ∃ c', setState funs st next c = Ret tt c'
        ∧ array_at c' (s_hooks st)
          = array_set (array_at c (s_hooks st)) (s_index st) (resolve funs next prev)
        ∧ (∀ r, r ≠ s_hooks st → heap c' !! r = heap c !! r)
        ∧ state c' = state c
        ∧ trace c' = trace c ++ calls_of next
        ∧ renderScheduled c' = true
        ∧ microtasks c' = (if renderScheduled c then microtasks c else microtasks c ++ [RenderTask]).
Proof.
  intros prev H. unfold resolve in *. subst prev.
  set (xs := array_set (array_at c (s_hooks st)) (s_index st)
               (match next with
                | Js.VFun f => funs f (array_get (array_at c (s_hooks st)) (s_index st))
                | _ => next
                end)).
  destruct (enqueueRender_spec
              (with_heap (<[s_hooks st := Js.OArr xs]> (heap c))
                         (with_trace (trace c ++ calls_of next) c)))
    as (c' & Hq & Hr & Hm & Hh & Hs & _ & _ & _ & _ & Ht & _).
  exists c'. split.
  { rewrite <- Hq. subst xs.
    destruct next as [p|f|r]; cbv [setState bind get_state ret call calls_of modify];
      rewrite H; try done; by rewrite with_trace_id. }
  split_and!; try done.
  - unfold array_at, objs. rewrite Hh. simpl. by rewrite lookup_insert_eq.
  - intros r Hne. rewrite Hh. simpl. by rewrite lookup_insert_ne.
Qed.

Lemma useState_read init c path rest loc :
  componentStack c = path :: rest →
  JsMap.get (state c) path = Some loc →
  (default 0 (cursor c !! path) < length (array_at c loc))%nat →
  useState funs init c =
    Ret (array_get (array_at c loc) (default 0 (cursor c !! path)),
         mkSetter loc (default 0 (cursor c !! path)))
        (advanced path (default 0 (cursor c !! path)) c).
Proof.
  intros Hs Hg Hlt. apply Nat.leb_gt in Hlt.
  cbv [useState bind currentPath currentCursor hooksForPath_of get_state ret modify advance
       JsMap.has].
  repeat (progress (rewrite ?Hs, ?Hg, ?Hlt; cbn beta iota zeta; cbn [negb])).
  reflexivity.
Qed.

Lemma useState_mount init c path rest :
  componentStack c = path :: rest →
  JsMap.get (state c) path = None →
  cursor c !! path = Some 0 →
  ∃ st c', useState funs init c = Ret (init_value funs init, st) c'
           ∧ JsMap.get (state c') path = Some (s_hooks st)
           ∧ s_index st = 0
           ∧ array_at c' (s_hooks st) = [init_value funs init].
Proof.
  intros Hs Hg Hc.
  cbv [useState bind currentPath currentCursor currentHooks hooksForPath_of get_state ret modify
       advance alloc JsMap.has].
  repeat (progress (rewrite ?Hs, ?Hg, ?Hc; simpl)).
  heap_arr.
  destruct init as [p|f|r]; cbv [call]; simpl; heap_arr;
    (eexists; eexists; split; [reflexivity|]); simpl;
    rewrite JsMap_get_set_eq; split_and!; try done; by heap_arr.
Qed.

(** What [useState] says of the slot it returns a setter for. *)
Lemma useState_slot init c0 v0 st c1 :
  useState funs init c0 = Ret (v0, st) c1 →
  ∃ path, head (componentStack c0) = Some path
          ∧ s_index st = default 0 (cursor c0 !! path)
          ∧ JsMap.get (state c1) path = Some (s_hooks st)
          ∧ v0 = array_get (array_at c1 (s_hooks st)) (s_index st).
Proof.
  cbv [useState bind currentPath currentCursor currentHooks hooksForPath_of get_state ret modify
       advance alloc JsMap.has].
  destruct (componentStack c0) as [|path rest] eqn:Hs; [done|].
  destruct (JsMap.get (state c0) path) as [loc|] eqn:Hg.
  - destruct (length (array_at c0 loc) <=? default 0 (cursor c0 !! path))%nat eqn:E;
      repeat (progress (rewrite ?Hs, ?Hg, ?E; simpl)).
    + destruct init as [p|f|r]; cbv [call]; simpl; intros ?; simplify_eq; exists path; simpl;
        rewrite Hg; split_and!; try done; by heap_arr.
    + intros ?; simplify_eq. exists path. simpl. by rewrite Hg.
  - repeat (progress (rewrite ?Hs, ?Hg; simpl)). heap_arr.
    destruct init as [p|f|r]; cbv [call]; simpl; intros ?; simplify_eq; exists path; simpl;
      rewrite JsMap_get_set_eq; split_and!; try done; by heap_arr.
Qed.


(** C3.  The setter [useState] returns for the slot at a path and a cursor:
    called with a value, or an updater whose result, that [Object.is] finds
    equal to the stored one, it leaves the context as it is, the record of
    the updater's call apart: the hook storage is unchanged and no render is
    scheduled.  Called with another value it stores that value in the hook
    array, at the index of the slot, and marks a render as pending, which
    enqueues the render pass unless one was pending already; the next
    [useState] at that path and cursor, reading the same array, returns the
    new value. *)
Theorem useState_setter init c0 v0 st c1 :
  useState funs init c0 = Ret (v0, st) c1 →
  ∃ path,
    head (componentStack c0) = Some path
    ∧ s_index st = default 0 (cursor c0 !! path)
    ∧ JsMap.get (state c1) path = Some (s_hooks st)
    ∧ ∀ c next,
        let prev := array_get (array_at c (s_hooks st)) (s_index st) in
        let resolved := resolve funs next prev in
        (Js.Object_is prev resolved = true →
         setState funs st next c = Ret tt (with_trace (trace c ++ calls_of next) c))
        ∧ (Js.Object_is prev resolved = false →
           ∃ c', setState funs st next c = Ret tt c'
                 ∧ array_at c' (s_hooks st)
                   = array_set (array_at c (s_hooks st)) (s_index st) resolved
                 ∧ (∀ r, r ≠ s_hooks st → heap c' !! r = heap c !! r)
                 ∧ state c' = state c
                 ∧ renderScheduled c' = true
                 ∧ microtasks c'
                   = (if renderScheduled c then microtasks c else microtasks c ++ [RenderTask])
                 ∧ ∀ c2 rest init2,
                     componentStack c2 = path :: rest →
                     default 0 (cursor c2 !! path) = s_index st →
                     JsMap.get (state c2) path = Some (s_hooks st) →
                     array_at c2 (s_hooks st) = array_at c' (s_hooks st) →
                     useState funs init2 c2
                     = Ret (resolved, st) (advanced path (s_index st) c2)).
Proof.
  intros Hu. destruct (useState_slot _ _ _ _ _ Hu) as (path & Hp & Hi & Hg & _).
  exists path. split_and!; try done.
  intros c next prev resolved. split.
  - apply setState_same.
  - intros Hne. destruct (setState_changed st next c Hne)
      as (c' & Hset & Harr & Hheap & Hst & _ & Hr & Hm).
    exists c'. split_and!; try done.
    intros c2 rest init2 Hs2 Hc2 Hg2 Ha2.
    rewrite (useState_read init2 c2 path rest (s_hooks st)); try done.
    + rewrite Hc2, Ha2, Harr, array_get_set. by destruct st.
    + rewrite Hc2, Ha2, Harr. apply array_set_length.
Qed.


(** *** cleanupUnusedHooks *)

Lemma getProp_heap c1 c2 v k : heap c1 = heap c2 → getProp c1 v k = getProp c2 v k.
Proof. intros H. unfold getProp, objs. by rewrite H. Qed.

Lemma array_at_heap c1 c2 r : heap c1 = heap c2 → array_at c1 r = array_at c2 r.
Proof. intros H. unfold array_at, objs. by rewrite H. Qed.

Lemma cleanup_of_heap c1 c2 v : heap c1 = heap c2 → cleanup_of c1 v = cleanup_of c2 v.
Proof.
  intros H. unfold cleanup_of, is_effect.
  by rewrite (getProp_heap c1 c2 _ "kind"), (getProp_heap c1 c2 _ "cleanup").
Qed.

Lemma cleanup_typed_heap c1 c2 v : heap c1 = heap c2 → cleanup_typed c1 v = cleanup_typed c2 v.
Proof.
  intros H. unfold cleanup_typed, is_effect.
  by rewrite (getProp_heap c1 c2 _ "kind"), (getProp_heap c1 c2 _ "cleanup").
Qed.

Lemma omap_ext_all {A B} (f g : A → option B) (l : list A) : (∀ x, f x = g x) → omap f l = omap g l.
Proof. intros H. induction l as [|x l IH]; csimpl; [done|]. by rewrite H, IH. Qed.

Lemma forallb_ext_all {A} (f g : A → bool) (l : list A) : (∀ x, f x = g x) → forallb f l = forallb g l.
Proof. intros H. induction l as [|x l IH]; simpl; [done|]. by rewrite H, IH. Qed.

Lemma cleanup_typed_heap_all c1 c2 l :
  heap c1 = heap c2 → forallb (cleanup_typed c1) l = forallb (cleanup_typed c2) l.
Proof. intros H. apply forallb_ext_all. intros. by apply cleanup_typed_heap. Qed.

(** The loop over the hooks of one path: the cleanups of its Effect-kind
    records are called in order, and nothing else changes. *)
Lemma cleanup_hooks_run hooks c :
  match for_each hooks (cleanup_hook funs) c with
  | Ret _ c' => c' = with_trace (trace c ++ omap (cleanup_of c) hooks) c
  | Throw _ _ => forallb (cleanup_typed c) hooks = false
  | Diverge => False
  end.
Proof.
  revert c. induction hooks as [|h hooks IH]; intros c; simpl.
  - by rewrite with_trace_id.
  - unfold bind at 1, cleanup_hook at 1, bind at 1, get_state at 1.
    unfold cleanup_of at 1, cleanup_typed at 1, is_effect.
    destruct (Js.strict_eq (getProp c h "kind") HookTypes_EFFECT) eqn:Ek; simpl.
    + unfold call_optional.
      destruct (getProp c h "cleanup") as [[| |b|n|str]|g|r] eqn:Ec; simpl.
      all: try (specialize (IH c); by destruct (for_each hooks (cleanup_hook funs) c)).
      all: try done.
      specialize (IH (with_trace (trace c ++ [g]) c)).
      destruct (for_each hooks (cleanup_hook funs) (with_trace (trace c ++ [g]) c)); try done.
      subst s. unfold with_trace. simpl. by rewrite <- app_assoc.
    + specialize (IH c). by destruct (for_each hooks (cleanup_hook funs) c).
Qed.

Lemma filter_delete (st : list (string * nat)) path l :
  List.filter (λ e, negb (bool_decide (e.1 ∈ l))) (JsMap.delete st path)
  = List.filter (λ e, negb (bool_decide (e.1 ∈ path :: l))) st.
Proof.
  unfold JsMap.delete. induction st as [|e st IH]; simpl; [done|].
  destruct (bool_decide (e.1 = path)) eqn:E; simpl.
  - apply bool_decide_eq_true_1 in E. rewrite E.
    rewrite (bool_decide_eq_true_2 (path ∈ path :: l)) by (apply elem_of_cons; by left).
    simpl. exact IH.
  - rewrite IH. apply bool_decide_eq_false_1 in E.
    assert (bool_decide (e.1 ∈ path :: l) = bool_decide (e.1 ∈ l)) as ->; [|done].
    apply bool_decide_ext. rewrite elem_of_cons. split; [by intros [?|?]|by right].
Qed.


Lemma sweep_run es c :
  match for_each es (fun '(path, hooks) =>
          let* c := get_state in
          if negb (bool_decide (path ∈ visited c)) then
            for_each (array_at c hooks) (cleanup_hook funs) ;;
            modify (fun c => with_state (JsMap.delete (state c) path) c) ;;
            modify (fun c => with_cursor (delete path (cursor c)) c)
          else ret tt) c with
  | Ret _ c' =>
      c' = mkCtx (heap c) (nextRef c)
                 (List.filter (fun e => negb (bool_decide (e.1 ∈ unvisited (visited c) es))) (state c))
                 (foldl (fun cu p => delete p cu) (cursor c) (unvisited (visited c) es))
                 (visited c) (componentStack c) (queue c) (renderScheduled c) (flushScheduled c)
                 (microtasks c)
                 (trace c ++ flat_map (fun e => if bool_decide (e.1 ∈ visited c) then []
                                                else omap (cleanup_of c) (array_at c e.2)) es)
  | Throw _ _ =>
      existsb (fun e => negb (bool_decide (e.1 ∈ visited c))
                        && negb (forallb (cleanup_typed c) (array_at c e.2))) es = true
  | Diverge => False
  end.
Proof.
  revert c. induction es as [|[path loc] es IH]; intros c.
  - simpl. unfold ret. destruct c; simpl. f_equal.
    + induction state0 as [|e st IHst]; simpl; [done|]. by rewrite <- IHst.
    + by rewrite app_nil_r.
  - cbn [for_each]. unfold bind at 1, bind at 1, get_state at 1.
    unfold unvisited. cbn [fmap list_fmap fst List.filter existsb flat_map snd].
    destruct (bool_decide (path ∈ visited c)) eqn:Ev; cbn [negb andb].
    + unfold ret at 1. specialize (IH c).
      match goal with |- match ?m with _ => _ end => destruct m end; done.
    + pose proof (cleanup_hooks_run (array_at c loc) c) as Hin.
      unfold bind at 1.
      destruct (for_each (array_at c loc) (cleanup_hook funs) c) as [[] c1|e c1|]; [|by rewrite Hin|done].
      subst c1. unfold bind at 1, modify at 1. unfold modify at 1.
      set (c2 := with_cursor _ _).
      specialize (IH c2).
      match goal with |- match ?m with _ => _ end => destruct m end; try done.
      * subst s. subst c2.
        cbn [heap nextRef state cursor visited componentStack queue renderScheduled
             flushScheduled microtasks trace with_cursor with_state with_trace].
        rewrite filter_delete, <- app_assoc. reflexivity.
      * apply orb_true_intro. right. exact IH.
Qed.


Lemma JsMap_get_filter_visited {V} (vis : gset string) (m : list (string * V)) k :
  JsMap.get (List.filter (λ e, bool_decide (e.1 ∈ vis)) m) k
  = if bool_decide (k ∈ vis) then JsMap.get m k else None.
Proof.
  induction m as [|[k' v] m IH]; simpl; [by destruct (bool_decide (k ∈ vis))|].
  destruct (bool_decide (k' ∈ vis)) eqn:E; simpl.
  - destruct (decide (k' = k)) as [->|]; [by rewrite E|done].
  - rewrite IH. destruct (decide (k' = k)) as [->|]; [by rewrite E|done].
Qed.

Lemma JsMap_get_elem {V} (m : list (string * V)) k v : JsMap.get m k = Some v → k ∈ m.*1.
Proof.
  induction m as [|[k' v'] m IH]; simpl; [done|].
  destruct (decide (k' = k)) as [->|]; intros H; [apply elem_of_cons; by left|].
  apply elem_of_cons. right. by apply IH.
Qed.

Lemma foldl_delete_lookup (cu : gmap string nat) (l : list string) k :
  foldl (λ cu p, delete p cu) cu l !! k = if bool_decide (k ∈ l) then None else cu !! k.
Proof.
  revert cu. induction l as [|p l IH]; intros cu; simpl; [done|].
  rewrite IH. destruct (decide (k = p)) as [->|Hne].
  - rewrite lookup_delete_eq.
    rewrite (bool_decide_eq_true_2 (p ∈ p :: l)) by (apply elem_of_cons; by left).
    by destruct (bool_decide (p ∈ l)).
  - rewrite lookup_delete_ne by done.
    assert (bool_decide (k ∈ p :: l) = bool_decide (k ∈ l)) as ->; [|done].
    apply bool_decide_ext. rewrite elem_of_cons. split; [by intros [?|?]|by right].
Qed.

Lemma elem_of_unvisited vis (es : list (string * nat)) p :
  p ∈ unvisited vis es ↔ p ∈ es.*1 ∧ p ∉ vis.
Proof.
  unfold unvisited. rewrite list_elem_of_In, filter_In, <- list_elem_of_In.
  rewrite negb_true_iff, bool_decide_eq_false. done.
Qed.

Lemma stale_unvisited c path : stale c path = true ↔ path ∈ unvisited (visited c) (state c).
Proof.
  unfold stale. rewrite elem_of_unvisited, andb_true_iff, negb_true_iff, bool_decide_eq_false.
  unfold JsMap.has. split; intros [H1 H2]; split; try done.
  - destruct (JsMap.get (state c) path) eqn:E; [|done]. by eapply JsMap_get_elem.
  - destruct (JsMap.get (state c) path) eqn:E; [done|]. exfalso.
    clear H2. induction (state c) as [|[k v] m IH]; simpl in *; [by apply elem_of_nil in H1|].
    destruct (decide (k = path)); [done|]. apply elem_of_cons in H1 as [?|?]; [congruence|by apply IH].
Qed.

(** The whole of [cleanupUnusedHooks]. *)
Lemma cleanupUnusedHooks_run c :
  match cleanupUnusedHooks funs c with
  | Ret _ c' =>
      let st := List.filter (fun e => bool_decide (e.1 ∈ visited c)) (state c) in
      c' = mkCtx (heap c) (nextRef c) st
                 (foldl (fun cu p => delete p cu) (cursor c) (unvisited (visited c) (state c)))
                 ∅ (componentStack c)
                 (List.filter (fun e => JsMap.has st e.1) (queue c))
                 (renderScheduled c) (flushScheduled c) (microtasks c)
                 (trace c ++ due_cleanups c)
  | Throw _ _ =>
      existsb (fun e => negb (bool_decide (e.1 ∈ visited c))
                        && negb (forallb (cleanup_typed c) (array_at c e.2))) (state c) = true
  | Diverge => False
  end.
Proof.
  unfold cleanupUnusedHooks. unfold bind at 1, get_state at 1. unfold bind at 1.
  pose proof (sweep_run (state c) c) as H.
  match type of H with match ?m with _ => _ end =>
    match goal with |- context [match ?m' with _ => _ end] => change m' with m end;
    destruct m as [[] c1|e c1|] end; try done.
  subst c1. cbv [bind modify]. cbn. unfold due_cleanups.
  assert (List.filter (λ e, negb (bool_decide (e.1 ∈ unvisited (visited c) (state c)))) (state c)
          = List.filter (λ e, bool_decide (e.1 ∈ visited c)) (state c)) as Hf.
  2: { rewrite Hf. unfold with_queue, with_visited. cbn. f_equal.
       apply List.filter_ext. by intros [??]. }
  apply List.filter_ext_in. intros e He. apply list_elem_of_In in He.
  destruct (bool_decide (e.1 ∈ visited c)) eqn:E.
  - apply negb_true_iff, bool_decide_eq_false. rewrite elem_of_unvisited.
    apply bool_decide_eq_true_1 in E. tauto.
  - apply negb_false_iff, bool_decide_eq_true. rewrite elem_of_unvisited.
    apply bool_decide_eq_false_1 in E. split; [|done]. apply list_elem_of_fmap. by exists e.
Qed.


(** C5.  When a pass is over, [cleanupUnusedHooks] calls the cleanup of
    every Effect-kind record at every path with storage that the pass did
    not visit, once for each record and in the order of the store; it deletes
    the storage and the cursor of those paths, and drops from the effect
    queue the entries whose path has no storage left.  The storage of the
    visited paths, and every hook array, stays as it was.  A component
    mounted again at a deleted path starts from its initial value. *)
Theorem cleanupUnusedHooks_sweeps c :
  (∀ path loc hook, (path, loc) ∈ state c → path ∉ visited c → hook ∈ array_at c loc →
                    cleanup_typed c hook = true) →
  ∃ c', cleanupUnusedHooks funs c = Ret tt c'
        ∧ trace c' = trace c ++ due_cleanups c
        ∧ heap c' = heap c
        ∧ state c' = List.filter (fun e => bool_decide (e.1 ∈ visited c)) (state c)
        ∧ (∀ path, stale c path = true →
                   JsMap.get (state c') path = None ∧ cursor c' !! path = None)
        ∧ (∀ path, path ∈ visited c →
                   JsMap.get (state c') path = JsMap.get (state c) path
                   ∧ cursor c' !! path = cursor c !! path)
        ∧ queue c' = List.filter (fun e => JsMap.has (state c') e.1) (queue c)
        ∧ visited c' = ∅
        ∧ (∀ path init, stale c path = true →
             ∃ st c'', useState funs init (entered path c') = Ret (init_value funs init, st) c''
                       ∧ array_at c'' (s_hooks st) = [init_value funs init]).
Proof.
  intros Htyped. pose proof (cleanupUnusedHooks_run c) as Hrun.
  destruct (cleanupUnusedHooks funs c) as [[] c'|e c'|]; [| |done].
  2: { exfalso. apply existsb_exists in Hrun as ([path loc] & Hin & Hbad).
       apply andb_true_iff in Hbad as [Hv Hbad]. simpl in *.
       apply negb_true_iff, bool_decide_eq_false in Hv.
       apply negb_true_iff in Hbad. apply not_true_iff_false in Hbad. apply Hbad.
       apply forallb_forall. intros hook Hh. eapply Htyped; try done; by apply list_elem_of_In. }
  cbn zeta in Hrun. exists c'. subst c'. fields. split_and!; try done.
  - intros path Hst. rewrite JsMap_get_filter_visited.
    rewrite foldl_delete_lookup.
    pose proof (proj1 (stale_unvisited c path) Hst) as Hu.
    rewrite (bool_decide_eq_true_2 _ Hu).
    apply elem_of_unvisited in Hu as [_ Hu]. by rewrite bool_decide_eq_false_2.
  - intros path Hv. rewrite JsMap_get_filter_visited.
    rewrite foldl_delete_lookup, bool_decide_eq_true_2 by done.
    rewrite bool_decide_eq_false_2; [done|]. rewrite elem_of_unvisited. tauto.
  - intros path init Hst.
    pose proof (proj1 (stale_unvisited c path) Hst) as Hu.
    apply elem_of_unvisited in Hu as [_ Hu].
    match goal with |- ∃ st c'', useState _ _ ?c0 = _ ∧ _ =>
      destruct (useState_mount init c0 path (componentStack c)) as (st & c'' & H1 & _ & _ & H2)
    end; fields; try done.
    + rewrite JsMap_get_filter_visited. by rewrite bool_decide_eq_false_2.
    + by rewrite lookup_insert_eq.
    + by exists st, c''.
Qed.

(** C10.  A setter outlives the storage of its component: once
    [cleanupUnusedHooks] has deleted the storage of the path, the setter
    still writes a changed value into the hook array it captured, which the
    store no longer reaches, and still marks a render as pending. *)
Theorem setter_outlives_storage init c0 v0 st c1 path c c2 next :
  useState funs init c0 = Ret (v0, st) c1 →
  head (componentStack c0) = Some path →
  JsMap.get (state c) path = Some (s_hooks st) →
  path ∉ visited c →
  cleanupUnusedHooks funs c = Ret tt c2 →
  Js.Object_is (array_get (array_at c2 (s_hooks st)) (s_index st))
               (resolve funs next (array_get (array_at c2 (s_hooks st)) (s_index st))) = false →
  JsMap.get (state c2) path = None
  ∧ array_at c2 (s_hooks st) = array_at c (s_hooks st)
  ∧ ∃ c3, setState funs st next c2 = Ret tt c3
          ∧ array_at c3 (s_hooks st)
            = array_set (array_at c (s_hooks st)) (s_index st)
                (resolve funs next (array_get (array_at c (s_hooks st)) (s_index st)))
          ∧ JsMap.get (state c3) path = None
          ∧ renderScheduled c3 = true
          ∧ microtasks c3
            = (if renderScheduled c2 then microtasks c2 else microtasks c2 ++ [RenderTask]).
Proof.
  intros _ _ Hg Hv Hrun Hne.
  pose proof (cleanupUnusedHooks_run c) as Hc. rewrite Hrun in Hc. cbn zeta in Hc.
  assert (Hheap : heap c2 = heap c) by (by subst c2).
  assert (Harr : array_at c2 (s_hooks st) = array_at c (s_hooks st)) by (by apply array_at_heap).
  assert (Hget : JsMap.get (state c2) path = None).
  { subst c2. fields. rewrite JsMap_get_filter_visited.
    by rewrite bool_decide_eq_false_2. }
  split_and!; try done.
  destruct (setState_changed st next c2 Hne) as (c3 & Hset & Ha3 & _ & Hs3 & _ & Hr3 & Hm3).
  exists c3. split_and!; try done.
  - by rewrite Ha3, Harr.
  - by rewrite Hs3.
Qed.

(** *** useEffect *)

Lemma Object_is_refl v : Js.Object_is v v = true.
Proof. by apply bool_decide_eq_true_2. Qed.

Lemma all_Object_is_Forall2 (a b : list Js.Value) :
  length a = length b →
  Equals.all_Object_is a b = true ↔ Forall2 (fun x y => Js.Object_is x y = true) a b.
Proof.
  revert b. induction a as [|x a IH]; intros [|y b] Hlen; simpl in *; try done.
  injection Hlen as Hlen. destruct (Js.Object_is x y) eqn:E.
  - rewrite IH by done. split; [by constructor|]. by inversion 1.
  - split; [done|]. inversion 1; congruence.
Qed.

Lemma objs_array c r xs : objs c r = Js.OArr xs ↔ heap c !! r = Some (Js.OArr xs).
Proof.
  unfold objs. destruct (heap c !! r) as [o|]; simpl; [|done]. split; congruence.
Qed.

Lemma getProp_defined c slot k :
  getProp c slot k ≠ undefined →
  ∃ h fs, slot = Js.VRef h ∧ heap c !! h = Some (Js.ORec fs) ∧ getProp c slot k = Equals.getProperty fs k.
Proof.
  unfold getProp, Equals.fields, objs.
  destruct slot as [p|f|h]; try done.
  destruct (heap c !! h) as [[xs|fs]|] eqn:E; simpl; try done.
  intros _. by exists h, fs.
Qed.

Lemma getProp_record c h fs k :
  heap c !! h = Some (Js.ORec fs) → getProp c (Js.VRef h) k = Equals.getProperty fs k.
Proof. intros H. unfold getProp, Equals.fields, objs. by rewrite H. Qed.

(** [shallowEquals] on two arrays compares them element by element. *)
Lemma shallowEquals_arrays c d0 ys d xs :
  heap c !! d0 = Some (Js.OArr ys) → heap c !! d = Some (Js.OArr xs) →
  Equals.shallowEquals (objs c) (Js.VRef d0) (Js.VRef d) = true
  ↔ length xs = length ys ∧ Forall2 (fun y x => Js.Object_is y x = true) ys xs.
Proof.
  intros H0 H. unfold Equals.shallowEquals.
  destruct (Js.Object_is (Js.VRef d0) (Js.VRef d)) eqn:E.
  - apply bool_decide_eq_true_1 in E. simplify_eq. split; [intros _|done].
    split; [done|]. apply Forall2_same_length_lookup. split; [done|].
    intros i x y ??. simplify_eq. apply Object_is_refl.
  - simpl. unfold Equals.isArray, Equals.elements.
    rewrite (proj2 (objs_array c d0 ys) H0), (proj2 (objs_array c d xs) H). simpl.
    destruct (Nat.eqb_spec (length ys) (length xs)) as [Hlen|Hlen]; simpl.
    + rewrite all_Object_is_Forall2 by done. split; [by split|by intros [_ ?]].
    + split; [done|]. intros [? _]. congruence.
Qed.

Lemma shouldRun_false_iff c slot deps :
  deps_typed c deps →
  negb (Js.truthy deps) || negb (Js.truthy slot) || negb (Js.truthy (getProp c slot "deps"))
    || negb (Equals.shallowEquals (objs c) (getProp c slot "deps") deps) = false
  ↔ unchanged_deps c slot deps.
Proof.
  intros Hty. rewrite !orb_false_iff, !negb_false_iff. split.
  - intros [[[Hd Hs] Hp] He].
    destruct Hty as [->|(d & xs & -> & Hxs)]; [done|].
    destruct (getProp_defined c slot "deps") as (h & fs & -> & Hh & Hget).
    { intros Hu. by rewrite Hu in Hp. }
    rewrite Hget in *.
    destruct (Equals.getProperty fs "deps") as [p|f|d0] eqn:Eg.
    + exfalso. destruct p as [| |b|n|s]; by vm_compute in He.
    + exfalso. by vm_compute in He.
    + destruct (heap c !! d0) as [[ys|fs0]|] eqn:E0.
      * apply (shallowEquals_arrays c d0 ys d xs E0 Hxs) in He as [Hlen Hall].
        by exists d, xs, h, fs, d0, ys.
      * exfalso. unfold Equals.shallowEquals in He.
        destruct (Js.Object_is (Js.VRef d0) (Js.VRef d)) eqn:E.
        { apply bool_decide_eq_true_1 in E. simplify_eq. }
        simpl in He. unfold Equals.isArray in He.
        rewrite (proj2 (objs_array c d xs) Hxs) in He.
        unfold objs at 1 2 in He. rewrite E0 in He. simpl in He. done.
      * exfalso. unfold Equals.shallowEquals in He.
        destruct (Js.Object_is (Js.VRef d0) (Js.VRef d)) eqn:E.
        { apply bool_decide_eq_true_1 in E. simplify_eq. }
        simpl in He. unfold Equals.isArray in He.
        rewrite (proj2 (objs_array c d xs) Hxs) in He.
        unfold objs at 1 2 in He. rewrite E0 in He. simpl in He. done.
  - intros (d & xs & h & fs & d0 & ys & -> & Hxs & -> & Hh & Hg & Hys & Hlen & Hall).
    rewrite (getProp_record c h fs) by done. rewrite Hg. simpl. split; [done|].
    by apply (shallowEquals_arrays c d0 ys d xs Hys Hxs).
Qed.


(** C4.  [useEffect] run again at the path and cursor of a slot.  When a
    dependency array is passed and the slot holds a record whose stored
    dependencies are an array of the same length with the same elements,
    one by one under [Object.is], the effect is not queued and the previous
    cleanup is not called.  In every other case the previous cleanup, when
    there is one, is called at once, and then the entry of the slot is put
    at the end of the effect queue and a flush is requested: the effect
    itself is not called by [useEffect], so the cleanup runs before it. *)
Theorem useEffect_dependencies effect deps c path rest loc :
  componentStack c = path :: rest →
  JsMap.get (state c) path = Some loc →
  deps_typed c deps →
  (Js.is_nullish (getProp c (array_get (array_at c loc) (default 0 (cursor c !! path))) "cleanup")
   = true
   ∨ Js.typeof (getProp c (array_get (array_at c loc) (default 0 (cursor c !! path))) "cleanup")
     = Js.TyFunction) →
  let idx := default 0 (cursor c !! path) in
  let slot := array_get (array_at c loc) idx in
  let cleanup := getProp c slot "cleanup" in
  ∃ c', useEffect funs effect deps c = Ret tt c'
        ∧ (unchanged_deps c slot deps →
           queue c' = queue c ∧ trace c' = trace c
           ∧ microtasks c' = microtasks c ∧ flushScheduled c' = flushScheduled c)
        ∧ (¬ unchanged_deps c slot deps →
           trace c' = trace c ++ calls_of cleanup
           ∧ queue c' = queue c ++ [(path, idx)]
           ∧ flushScheduled c' = true
           ∧ microtasks c'
             = (if flushScheduled c then microtasks c else microtasks c ++ [FlushEffectsTask]))
        ∧ (loc ≠ nextRef c →
           array_get (array_at c' loc) idx = Js.VRef (nextRef c)
           ∧ heap c' !! nextRef c
             = Some (Js.ORec [("kind", HookTypes_EFFECT); ("deps", or_null deps);
                              ("cleanup", or_null cleanup); ("effect", effect)])).
Proof.
  intros Hs Hg Hty Hcl idx slot cleanup.
  pose proof (shouldRun_false_iff c slot deps Hty) as Hrun.
  cbv [useEffect bind currentPath currentCursor hooksForPath_of get_state ret modify advance
       JsMap.has alloc].
  repeat (progress (rewrite ?Hs, ?Hg; cbn beta iota zeta; cbn [negb])).
  subst cleanup slot idx.
  set (idx := default 0 (cursor c !! path)) in *.
  set (slot := array_get (array_at c loc) idx) in *.
  destruct (negb (Js.truthy deps) || negb (Js.truthy slot)
            || negb (Js.truthy (getProp c slot "deps"))
            || negb (Equals.shallowEquals (objs c) (getProp c slot "deps") deps)) eqn:Erun.
  - assert (Hnot : ¬ unchanged_deps c slot deps).
    { intros H. apply Hrun in H. congruence. }
    clear Hrun. unfold call_optional, flushEffects, or_null.
    destruct (getProp c slot "cleanup") as [[| |b|n|str]|g|r] eqn:Ec;
      try (by destruct Hcl); cbn -[array_at array_set];
      (destruct (flushScheduled c) eqn:Ef;
       (eexists; split; [reflexivity|]); fields;
       (split; [by intros ?|]; split; [intros _; by rewrite ?Ef, ?app_nil_r|]);
       intros Hne;
       (split;
        [ unfold array_at, objs; fields; rewrite lookup_insert_eq; apply array_get_set
        | fields; rewrite lookup_insert_ne, lookup_insert_eq by done; done ])).
  - assert (Hyes : unchanged_deps c slot deps) by (by apply Hrun).
    unfold or_null. eexists; split; [reflexivity|]. fields.
    split; [done|]. split; [by intros ?|].
    intros Hne; split;
       [ unfold array_at at 1, objs at 1; fields; rewrite lookup_insert_eq; apply array_get_set
       | rewrite lookup_insert_ne, lookup_insert_eq by done; done ].
Qed.

End HookFacts.

(* --------------------------------------------------------------------- *)
(** ** setup *)
(* --------------------------------------------------------------------- *)

Section SetupFacts.
Import Render.
Variable has_prop : string -> string -> bool.
Variable read_only : string -> string -> bool.
Variable comps : nat -> list (string * Js.Value) -> list VNode -> M Hooks.Ctx (option VNode).
Variable createChildPath :
  string -> option string -> nat -> option NodeType -> option (list VNode) -> string.
Variable funs : nat -> Js.Value -> Js.Value.

(** C9.  [setup] fails fast: with no container, with a container that is no
    host element, or with a [null] root node, it throws to its caller, and
    the state it throws from is the state it was called on: the root
    context, the hook store and the effect queue are untouched, and so is
    the document. *)
Theorem setup_fails_fast fuel rootNode container a :
  match container with
  | Node c => Dom.isHTMLElement (Reconciler.dm (world a)) c = false ∨ rootNode = None
  | NoContainer | NotANode => True
  end →
  ∃ message,
    setup has_prop read_only comps createChildPath funs fuel rootNode container a
    = Throw (UserError message) a.
Proof.
  intros H. unfold setup, bind, get_state.
  destruct container as [| |c]; [by eexists|by eexists|].
  destruct (Dom.isHTMLElement (Reconciler.dm (world a)) c) eqn:E; simpl; [|by eexists].
  destruct H as [H|H]; [done|]. subst rootNode. by eexists.
Qed.

End SetupFacts.

(* --------------------------------------------------------------------- *)
(** ** The theorems at concrete inputs *)
(* --------------------------------------------------------------------- *)

Section Witnesses.
Import Hooks HookSpec Examples.

(** A state hook at the root path: setting the value it holds changes
    nothing, setting another one stores it and schedules the render that
    reads it back. *)
Lemma useState_setter_witness :
  ∃ v0 st c1,
    useState funs one entered0 = Ret (v0, st) c1
    ∧ setState funs st one c1 = Ret tt c1
    ∧ ∃ c', setState funs st two c1 = Ret tt c'
            ∧ array_at c' (s_hooks st) = [two]
            ∧ renderScheduled c' = true
            ∧ microtasks c' = [RenderTask]
            ∧ useState funs one (entered "0" (with_componentStack [] c'))
              = Ret (two, st) (advanced "0" 0 (entered "0" (with_componentStack [] c'))).
Proof.
  eexists _, _, _. split; [vm_compute; reflexivity|].
  destruct (useState_setter funs one entered0 _ _ _ eq_refl) as (path & Hp & Hi & Hg & Hset).
  injection Hp as <-.
  split.
  - match goal with |- setState _ _ _ ?c = _ => destruct (Hset c one) as [Hsame _] end.
    etrans; [apply Hsame; reflexivity|]. vm_compute. reflexivity.
  - match goal with |- ∃ _, setState _ _ _ ?c = _ ∧ _ => destruct (Hset c two) as [_ Hch] end.
    destruct Hch as (c' & Hs & Ha & Hh & Hst & Hr & Hm & Hnext); [reflexivity|].
    exists c'. split; [exact Hs|]. split; [exact Ha|]. split; [exact Hr|]. split; [exact Hm|].
    apply (Hnext _ []); try reflexivity.
    + simpl. by rewrite lookup_insert_eq.
    + simpl. by rewrite Hst.
Defined.

Lemma effect_store_unchanged :
  unchanged_deps effect_store (Js.VRef 1) (Js.VRef 3).
Proof.
  exists 3, [one], 1, [("kind", HookTypes_EFFECT); ("deps", Js.VRef 2);
                       ("cleanup", Js.VFun 7); ("effect", Js.VFun 8)], 2, [one].
  split_and!; try reflexivity. by constructor.
Qed.

Lemma effect_store_changed :
  ¬ unchanged_deps effect_store (Js.VRef 1) (Js.VRef 4).
Proof.
  intros (d & xs & h & fs & d0 & ys & Hd & Hxs & Hh & Hfs & Hg & Hys & Hlen & Hall).
  simplify_eq. vm_compute in Hxs. vm_compute in Hfs. simplify_eq.
  vm_compute in Hg. simplify_eq. vm_compute in Hys. simplify_eq.
  inversion Hall as [|???? Hbad]; subst. by vm_compute in Hbad.
Qed.

(** An effect run again with the dependencies it had is not queued and its
    cleanup is not called; run with other dependencies, its cleanup is
    called and its slot is queued. *)
Lemma useEffect_dependencies_witness :
  (∃ c', useEffect funs (Js.VFun 9) (Js.VRef 3) effect_store = Ret tt c'
         ∧ queue c' = [] ∧ trace c' = [] ∧ microtasks c' = [])
  ∧ (∃ c', useEffect funs (Js.VFun 9) (Js.VRef 4) effect_store = Ret tt c'
           ∧ trace c' = [7] ∧ queue c' = [("0", 0)] ∧ microtasks c' = [FlushEffectsTask]).
Proof.
  split.
  - destruct (useEffect_dependencies funs (Js.VFun 9) (Js.VRef 3) effect_store "0" [] 0)
      as (c' & Hrun & Hskip & _); try reflexivity.
    + right. by exists 3, [one].
    + by right.
    + exists c'. split; [exact Hrun|].
      destruct (Hskip effect_store_unchanged) as (Hq & Ht & Hm & _). by rewrite Hq, Ht, Hm.
  - destruct (useEffect_dependencies funs (Js.VFun 9) (Js.VRef 4) effect_store "0" [] 0)
      as (c' & Hrun & _ & Hchg & _); try reflexivity.
    + right. by exists 4, [two].
    + by right.
    + exists c'. split; [exact Hrun|].
      destruct (Hchg effect_store_changed) as (Ht & Hq & _ & Hm). by rewrite Hq, Ht, Hm.
Defined.

(** The pass that did not visit the component calls its cleanup once and
    deletes its storage; a state hook mounted there again starts anew. *)
Lemma cleanupUnusedHooks_sweeps_witness :
  ∃ c', cleanupUnusedHooks funs stale_store = Ret tt c'
        ∧ trace c' = [7] ∧ state c' = [] ∧ cursor c' !! "0" = None
        ∧ ∃ st c'', useState funs two (entered "0" c') = Ret (two, st) c''.
Proof.
  destruct (cleanupUnusedHooks_sweeps funs stale_store)
    as (c' & Hrun & Ht & _ & Hs & Hstale & _ & _ & _ & Hmount).
  - intros path loc hook Hin _ Hh. apply list_elem_of_singleton in Hin. simplify_eq.
    change (hook ∈ [Js.VRef 1]) in Hh. apply list_elem_of_singleton in Hh. by subst hook.
  - exists c'. split; [exact Hrun|]. split; [by rewrite Ht|]. split; [by rewrite Hs|].
    split; [by apply Hstale|].
    destruct (Hmount "0" two eq_refl) as (st & c'' & Hu & _). by exists st, c''.
Defined.

(** The setter of a state hook whose storage a later pass deleted still
    writes into the array it holds and still schedules a render. *)
Lemma setter_outlives_storage_witness :
  ∃ v0 st c1,
    useState funs one entered0 = Ret (v0, st) c1
    ∧ ∃ c2, cleanupUnusedHooks funs (with_componentStack [] (with_visited ∅ c1)) = Ret tt c2
            ∧ JsMap.get (state c2) "0" = None
            ∧ ∃ c3, setState funs st two c2 = Ret tt c3
                    ∧ array_at c3 (s_hooks st) = [two]
                    ∧ JsMap.get (state c3) "0" = None
                    ∧ renderScheduled c3 = true.
Proof.
  eexists _, _, _. split; [vm_compute; reflexivity|].
  eexists. split; [vm_compute; reflexivity|].
  match goal with |- JsMap.get (state ?c2) _ = _ ∧ ∃ _, setState _ ?st _ _ = _ ∧ _ =>
    destruct (setter_outlives_storage funs one entered0 one st
                (advanced "0" 0 (with_heap {[0 := Js.OArr [one]]}
                                   (with_nextRef 1 (with_state [("0", 0)] entered0))))
                "0" (with_componentStack [] (with_visited ∅
                       (advanced "0" 0 (with_heap {[0 := Js.OArr [one]]}
                                   (with_nextRef 1 (with_state [("0", 0)] entered0))))))
                c2 two)
      as (Hget & _ & c3 & Hset & Harr & Hg3 & Hr3 & _)
  end; try (vm_compute; reflexivity).
  - vm_compute. set_solver.
  - split; [exact Hget|]. exists c3. by split_and!.
Defined.

(** [setup] on a container that is no element of the document. *)
Lemma setup_fails_fast_witness :
  ∃ message,
    Render.setup has_prop read_only no_comps Elements.createChildPath funs 3
                 (Some (VN (THost "div") None (Some []) [])) (Render.Node 0) fresh_app
    = Throw (UserError message) fresh_app.
Proof. apply setup_fails_fast. left. reflexivity. Defined.

End Witnesses.

(* --------------------------------------------------------------------- *)
(** ** Running monadic code backwards *)
(* --------------------------------------------------------------------- *)

Lemma bind_Ret {S A B} (m : M S A) (k : A → M S B) s b s' :
  bind m k s = Ret b s' ↔ ∃ a s1, m s = Ret a s1 ∧ k a s1 = Ret b s'.
Proof.
  unfold bind. destruct (m s) as [a s1|e s1|]; split; try done; try (by intros (?&?&?&?)).
  - intros H. by exists a, s1.
  - intros (a' & s1' & H1 & H2). by simplify_eq.
Qed.

Lemma ret_Ret {S A} (a b : A) (s s' : S) : ret a s = Ret b s' ↔ a = b ∧ s = s'.
Proof. unfold ret. split; [by intros [= -> ->]|by intros [-> ->]]. Qed.

Lemma modify_Ret {S} (f : S → S) s u s' : modify f s = Ret u s' ↔ s' = f s.
Proof. unfold modify. destruct u. split; [by intros [= <-]|by intros ->]. Qed.

Lemma get_state_Ret {S} (s a s' : S) : get_state s = Ret a s' ↔ a = s ∧ s' = s.
Proof. unfold get_state. split; [by intros [= <- <-]|by intros [-> ->]]. Qed.

Lemma finally_Ret {S A} (m : M S A) (f : S → S) s a s' :
  finally m f s = Ret a s' ↔ ∃ s1, m s = Ret a s1 ∧ s' = f s1.
Proof.
  unfold finally. destruct (m s) as [a1 s1|e s1|]; split; try done; try (by intros (?&?&?)).
  - intros [= <- <-]. by exists s1.
  - intros (s1' & H1 & ->). by simplify_eq.
Qed.

Lemma zoom_Ret {S T A} (proj : S → T) (inj : T → S → S) (m : M T A) s a s' :
  zoom proj inj m s = Ret a s' ↔ ∃ t, m (proj s) = Ret a t ∧ s' = inj t s.
Proof.
  unfold zoom. destruct (m (proj s)) as [a1 t|e t|]; split; try done; try (by intros (?&?&?)).
  - intros [= <- <-]. by exists t.
  - intros (t' & H1 & ->). by simplify_eq.
Qed.

(** Takes a run [H : m s = Ret a s'] apart, step by step. *)
Ltac msimple H :=
  lazymatch type of H with
  | ret _ _ = Ret _ _ => apply ret_Ret in H as [? ?]; subst
  | modify _ _ = Ret _ _ => apply modify_Ret in H; subst
  | get_state _ = Ret _ _ => apply get_state_Ret in H as [? ?]; subst
  | _ => idtac
  end.

Ltac minv H :=
  repeat match type of H with
  | bind _ _ _ = Ret _ _ =>
      let a := fresh "a" in let s := fresh "s" in let H1 := fresh H in
      apply bind_Ret in H as (a & s & H1 & H); msimple H1
  | ret _ _ = Ret _ _ => apply ret_Ret in H as [? ?]; subst
  | modify _ _ = Ret _ _ => apply modify_Ret in H; subst
  | get_state _ = Ret _ _ => apply get_state_Ret in H as [? ?]; subst
  end.

(** A loop keeps what each of its rounds keeps. *)
Lemma for_each_keeps {S A} (R : S → S → Prop) (xs : list A) (body : A → M S unit) :
  (∀ s, R s s) → (∀ s1 s2 s3, R s1 s2 → R s2 s3 → R s1 s3) →
  (∀ x s u s', x ∈ xs → body x s = Ret u s' → R s s') →
  ∀ s u s', for_each xs body s = Ret u s' → R s s'.
Proof.
  intros Hrefl Htrans. induction xs as [|x xs IH]; intros Hbody s u s' H; simpl in H.
  - apply ret_Ret in H as [_ <-]. apply Hrefl.
  - apply bind_Ret in H as (u1 & s1 & H1 & H).
    eapply Htrans.
    + eapply Hbody; [|exact H1]. apply elem_of_cons. by left.
    + eapply IH; [|exact H]. intros. eapply Hbody; [|done]. apply elem_of_cons. by right.
Qed.

(* --------------------------------------------------------------------- *)
(** ** The document under the host calls *)
(* --------------------------------------------------------------------- *)

Section DomFacts.
Import Dom.
Local Open Scope nat_scope.

Lemma detach_lookup n ks q :
  default [] (detach n ks !! q) = filter (λ x, x ≠ n) (default [] (ks !! q)).
Proof. unfold detach. rewrite lookup_fmap. by destruct (ks !! q). Qed.

Lemma log_Ret c d u d' :
  log c d = Ret u d' ↔ d' = mk (next d) (kids d) (nodeValue d) (tags d) (calls d ++ [c]).
Proof. unfold log. destruct u. split; [by intros [= <-]|by intros ->]. Qed.

Lemma appendChild_Ret p n d u d' :
  appendChild p n d = Ret u d' →
  next d' = next d ∧ nodeValue d' = nodeValue d ∧ tags d' = tags d ∧
  calls d' = calls d ++ [AppendChild p n] ∧
  kidsOf d' p = filter (λ x, x ≠ n) (kidsOf d p) ++ [n] ∧
  ∀ q, q ≠ p → kidsOf d' q = filter (λ x, x ≠ n) (kidsOf d q).
Proof.
  unfold appendChild. intros H. minv H. apply log_Ret in H0 as ->.
  split_and!; try done.
  - unfold kidsOf; simpl. by rewrite lookup_insert_eq, detach_lookup.
  - intros q Hq. unfold kidsOf; simpl. by rewrite lookup_insert_ne, detach_lookup.
Qed.

Lemma elem_of_insert_before a n l x :
  x ∈ insert_before a n l ↔ x = n ∨ x ∈ l.
Proof.
  induction l as [|y l IH]; simpl.
  - rewrite list_elem_of_singleton, elem_of_nil. tauto.
  - destruct (decide (y = a)); rewrite !elem_of_cons; [tauto|]. rewrite IH. tauto.
Qed.

Lemma insertBefore_Ret p n a d u d' :
  insertBefore p n a d = Ret u d' →
  a ∈ kidsOf d p ∧
  next d' = next d ∧ nodeValue d' = nodeValue d ∧ tags d' = tags d ∧
  calls d' = calls d ++ [InsertBefore p n a] ∧
  if decide (n = a) then kids d' = kids d
  else kidsOf d' p = insert_before a n (filter (λ x, x ≠ n) (kidsOf d p)) ∧
       ∀ q, q ≠ p → kidsOf d' q = filter (λ x, x ≠ n) (kidsOf d q).
Proof.
  unfold insertBefore. intros H. minv H. apply log_Ret in H0 as ->.
  unfold isChildOf in H. case_bool_decide as Ha; simpl in H; [|done].
  split; [exact Ha|].
  case_bool_decide as Hn; minv H.
  - rewrite decide_True by done. done.
  - rewrite decide_False by done. split_and!; try done.
    + unfold kidsOf; simpl. by rewrite lookup_insert_eq, detach_lookup.
    + intros q Hq. unfold kidsOf; simpl. by rewrite lookup_insert_ne, detach_lookup.
Qed.

Lemma removeChild_Ret p n d u d' :
  removeChild p n d = Ret u d' →
  n ∈ kidsOf d p ∧
  next d' = next d ∧ nodeValue d' = nodeValue d ∧ tags d' = tags d ∧
  calls d' = calls d ++ [RemoveChild p n] ∧
  kidsOf d' p = filter (λ x, x ≠ n) (kidsOf d p) ∧
  ∀ q, q ≠ p → kidsOf d' q = kidsOf d q.
Proof.
  unfold removeChild. intros H. minv H. apply log_Ret in H0 as ->.
  unfold isChildOf in H. case_bool_decide as Ha; simpl in H; [|done].
  minv H. split_and!; try done.
  - unfold kidsOf; simpl. by rewrite lookup_insert_eq.
  - intros q Hq. unfold kidsOf; simpl. by rewrite lookup_insert_ne.
Qed.

Lemma createElement_Ret tag d n d' :
  createElement tag d = Ret n d' →
  n = next d ∧ next d' = S (next d) ∧ nodeValue d' = nodeValue d ∧
  tags d' = <[n := tag]> (tags d) ∧ calls d' = calls d ++ [CreateElement n tag] ∧
  kidsOf d' n = [] ∧ ∀ q, q ≠ n → kidsOf d' q = kidsOf d q.
Proof.
  unfold createElement. intros [= <- <-]. split_and!; try done.
  - unfold kidsOf; simpl. by rewrite lookup_insert_eq.
  - intros q Hq. unfold kidsOf; simpl. by rewrite lookup_insert_ne.
Qed.

Lemma createTextNode_Ret data d n d' :
  createTextNode data d = Ret n d' →
  n = next d ∧ next d' = S (next d) ∧ nodeValue d' = <[n := data]> (nodeValue d) ∧
  tags d' = tags d ∧ calls d' = calls d ++ [CreateTextNode n data] ∧ kids d' = kids d.
Proof. unfold createTextNode. by intros [= <- <-]. Qed.

End DomFacts.

(* --------------------------------------------------------------------- *)
(** ** What a computation keeps *)
(* --------------------------------------------------------------------- *)

Section Keeps.
Context {S : Type} (R : S → S → Prop).
Hypothesis R_refl : ∀ s, R s s.
Hypothesis R_trans : ∀ s1 s2 s3, R s1 s2 → R s2 s3 → R s1 s3.

Lemma keeps_ret {A} (a : A) : keeps R (ret a).
Proof. intros s b s' H. apply ret_Ret in H as [_ <-]. apply R_refl. Qed.

Lemma keeps_throw {A} e : keeps R (throw e : M S A).
Proof. by intros s b s' H. Qed.

Lemma keeps_bind {A B} (m : M S A) (k : A → M S B) :
  keeps R m → (∀ a, keeps R (k a)) → keeps R (bind m k).
Proof.
  intros Hm Hk s b s' H. apply bind_Ret in H as (a & s1 & H1 & H2).
  eapply R_trans; [eapply Hm|eapply Hk]; done.
Qed.

Lemma keeps_get_state {B} (k : S → M S B) :
  (∀ s, keeps R (k s)) → keeps R (bind get_state k).
Proof. intros Hk. apply keeps_bind; [|done]. intros s a s' H. minv H. apply R_refl. Qed.

Lemma keeps_for_each {A} (xs : list A) (body : A → M S unit) :
  (∀ x, x ∈ xs → keeps R (body x)) → keeps R (for_each xs body).
Proof.
  intros Hbody s u s' H. eapply for_each_keeps; [done..| |exact H].
  intros x s1 u1 s2 Hx. by apply Hbody.
Qed.

End Keeps.

Lemma keeps_impl {S A} (R R' : S → S → Prop) (m : M S A) :
  (∀ s s', R s s' → R' s s') → keeps R m → keeps R' m.
Proof. intros HR Hm s a s' H. apply HR. by eapply Hm. Qed.

(* --------------------------------------------------------------------- *)
(** ** Properties are written without moving a node *)
(* --------------------------------------------------------------------- *)

Section PropsFacts.
Import Dom MountSpec.
Variable has_prop : string → string → bool.
Variable read_only : string → string → bool.
Variable objs : nat → Js.JsObj.

Lemma same_tree_refl d : same_tree d d.
Proof. done. Qed.

Lemma same_tree_trans d1 d2 d3 : same_tree d1 d2 → same_tree d2 d3 → same_tree d1 d3.
Proof. intros [? ?] [? ?]. split; congruence. Qed.

Lemma keeps_log c : keeps same_tree (log c).
Proof. intros d u d' H. apply log_Ret in H as ->. done. Qed.

(** Splits a computation on the properties into its calls. *)
Ltac keeps_tree :=
  repeat match goal with
  | |- keeps _ (log _) => apply keeps_log
  | |- keeps _ (ret _) => apply (keeps_ret same_tree same_tree_refl)
  | |- keeps _ (throw _) => apply (keeps_throw same_tree)
  | |- keeps _ (bind get_state _) =>
      apply (keeps_get_state same_tree same_tree_refl same_tree_trans); intros ?
  | |- keeps _ (bind _ _) => apply (keeps_bind same_tree same_tree_trans); [|intros ?]
  | |- keeps _ (for_each _ _) =>
      let x := fresh "x" in
      apply (keeps_for_each same_tree same_tree_refl same_tree_trans); intros x _;
      lazymatch type of x with
      | (_ * _)%type => destruct x
      | _ => idtac
      end
  | |- keeps _ (if ?b then _ else _) => destruct b
  | |- keeps _ (let _ := _ in _) => cbv zeta
  end.

Lemma keeps_assign n key value : keeps same_tree (assign read_only n key value).
Proof. unfold assign. keeps_tree. Qed.

Lemma keeps_try_assign n key value : keeps same_tree (try_assign read_only n key value).
Proof. unfold try_assign. keeps_tree. Qed.

Lemma keeps_setDomProps dom props :
  keeps same_tree (setDomProps has_prop read_only objs dom props).
Proof.
  unfold setDomProps.
  repeat first [apply keeps_assign | progress keeps_tree].
Qed.

Lemma keeps_updateDomProps dom prevProps nextProps :
  keeps same_tree (updateDomProps has_prop read_only objs dom prevProps nextProps).
Proof.
  unfold updateDomProps.
  repeat first [apply keeps_assign | apply keeps_try_assign | progress keeps_tree].
Qed.

Lemma keeps_setNodeValue n data : keeps same_tree (setNodeValue n data).
Proof. unfold setNodeValue. intros d u d' H. minv H. apply log_Ret in H0 as ->. done. Qed.

End PropsFacts.

(* --------------------------------------------------------------------- *)
(** ** Mounting adds new nodes and moves no old one *)
(* --------------------------------------------------------------------- *)

Section MountFacts.
Import Dom Reconciler MountSpec.
Local Open Scope nat_scope.

Lemma adds_from_refl B d : adds_from B d d.
Proof. intros q m Hm. by left. Qed.

Lemma adds_from_trans B d1 d2 d3 : adds_from B d1 d2 → adds_from B d2 d3 → adds_from B d1 d3.
Proof.
  intros H12 H23 q m Hm. destruct (H23 q m Hm) as [Hm2|?]; [|by right]. by apply H12.
Qed.

Lemma adds_from_weaken B B' d d' : B ≤ B' → adds_from B' d d' → adds_from B d d'.
Proof. intros HB H q m Hm. destruct (H q m Hm); [by left|right; lia]. Qed.

Lemma same_tree_adds B d d' : same_tree d d' → adds_from B d d'.
Proof. intros [_ Hk] q m Hm. left. unfold kidsOf in *. by rewrite <- Hk. Qed.

(** The relation a node inserted under [p] leaves between the documents. *)
Lemma appendChild_adds B p n d u d' :
  B ≤ n → appendChild p n d = Ret u d' → next d' = next d ∧ adds_from B d d'.
Proof.
  intros HB H. apply appendChild_Ret in H as (Hn & _ & _ & _ & Hp & Hq).
  split; [done|]. intros q m Hm. destruct (decide (q = p)) as [->|Hne].
  - rewrite Hp, elem_of_app, list_elem_of_filter, list_elem_of_singleton in Hm.
    destruct Hm as [[_ ?]| ->]; [by left|by right].
  - rewrite Hq, list_elem_of_filter in Hm by done. left. tauto.
Qed.

Lemma insertBefore_adds B p n a d u d' :
  B ≤ n → insertBefore p n a d = Ret u d' → next d' = next d ∧ adds_from B d d'.
Proof.
  intros HB H. apply insertBefore_Ret in H as (_ & Hn & _ & _ & _ & H).
  split; [done|]. destruct (decide (n = a)) as [->|Hna].
  - apply same_tree_adds. done.
  - destruct H as [Hp Hq]. intros q m Hm. destruct (decide (q = p)) as [->|Hne].
    + rewrite Hp, elem_of_insert_before, list_elem_of_filter in Hm.
      destruct Hm as [->|[_ ?]]; [by right|by left].
    + rewrite Hq, list_elem_of_filter in Hm by done. left. tauto.
Qed.

Lemma insertInstance_adds B p instance anchor :
  (∀ m, m ∈ getDomNodes instance → B ≤ m) →
  keeps (λ d d', next d' = next d ∧ adds_from B d d') (insertInstance p instance anchor).
Proof.
  intros HB. unfold insertInstance.
  assert (Hrefl : ∀ d, next d = next d ∧ adds_from B d d) by (split; [done|apply adds_from_refl]).
  assert (Htrans : ∀ d1 d2 d3 : Dom.t,
             next d2 = next d1 ∧ adds_from B d1 d2 → next d3 = next d2 ∧ adds_from B d2 d3 →
             next d3 = next d1 ∧ adds_from B d1 d3).
  { intros d1 d2 d3 [? ?] [? ?]. split; [congruence|by eapply adds_from_trans]. }
  destruct instance as [i|]; [|by apply keeps_ret].
  apply keeps_for_each; [done..|]. intros n Hn.
  apply keeps_get_state; [done..|]. intros d.
  destruct (_ && _); [by apply keeps_ret|].
  destruct anchor as [a|]; intros d1 u d2 H.
  - eapply insertBefore_adds; [|done]. by apply HB.
  - eapply appendChild_adds; [|done]. by apply HB.
Qed.

(** Removal returns, since a node is removed only from under its parent;
    it takes nodes away, and only from under [p]. *)
Lemma remove_node_Ret p n d :
  ∃ d', (let* d := get_state in
         if isChildOf d n p then removeChild p n else ret tt) d = Ret tt d'
        ∧ next d' = next d
        ∧ (∀ q m, m ∈ kidsOf d' q → m ∈ kidsOf d q)
        ∧ n ∉ kidsOf d' p.
Proof.
  unfold bind, get_state, isChildOf. case_bool_decide as Hc.
  - unfold removeChild, bind, log, get_state, isChildOf, modify. simpl.
    rewrite bool_decide_true by done. simpl. eexists. split; [done|].
    split; [done|]. split.
    + intros q m. unfold kidsOf at 1; simpl. destruct (decide (q = p)) as [->|Hne].
      * rewrite lookup_insert_eq. simpl. rewrite list_elem_of_filter. tauto.
      * by rewrite lookup_insert_ne.
    + unfold kidsOf at 1; simpl. rewrite lookup_insert_eq. simpl.
      rewrite list_elem_of_filter. tauto.
  - exists d. done.
Qed.

Lemma remove_nodes_Ret p (nodes : list nat) d :
  ∃ d', for_each nodes (λ node,
          (let* d := get_state in
           if isChildOf d node p then removeChild p node else ret tt)) d = Ret tt d'
        ∧ next d' = next d
        ∧ (∀ q m, m ∈ kidsOf d' q → m ∈ kidsOf d q)
        ∧ ∀ m, m ∈ nodes → m ∉ kidsOf d' p.
Proof.
  revert d. induction nodes as [|n nodes IH]; intros d; simpl.
  - exists d. split_and!; try done. intros m Hm. by apply elem_of_nil in Hm.
  - destruct (remove_node_Ret p n d) as (d1 & H1 & Hn1 & Hk1 & Hgone).
    destruct (IH d1) as (d' & H2 & Hn2 & Hk2 & Hrest).
    exists d'. split_and!.
    + apply bind_Ret. by exists tt, d1.
    + congruence.
    + intros q m Hm. by apply Hk1, Hk2.
    + intros m Hm. apply elem_of_cons in Hm as [->|Hm]; [|by apply Hrest].
      intros Hin. by apply Hgone, Hk2.
Qed.

Lemma removeInstance_Ret p instance d :
  ∃ d', removeInstance p instance d = Ret tt d' ∧ next d' = next d ∧
        (∀ q m, m ∈ kidsOf d' q → m ∈ kidsOf d q) ∧
        ∀ m, m ∈ getDomNodes instance → m ∉ kidsOf d' p.
Proof.
  destruct instance as [i|].
  - apply remove_nodes_Ret.
  - exists d. split_and!; try done. intros m Hm. by apply elem_of_nil in Hm.
Qed.

End MountFacts.

(* --------------------------------------------------------------------- *)
(** ** A mount makes a new instance over new nodes *)
(* --------------------------------------------------------------------- *)

Section Mounting.
Import Dom Reconciler MountSpec.
Local Open Scope nat_scope.

Variable has_prop : string → string → bool.
Variable read_only : string → string → bool.
Variable comps : nat → list (string * Js.Value) → list VNode → M Hooks.Ctx (option VNode).
Variable createChildPath :
  string → option string → nat → option NodeType → option (list VNode) → string.

Lemma inDom_Ret {A} (m : M Dom.t A) w a w' :
  inDom m w = Ret a w' ↔ ∃ d', m (dm w) = Ret a d' ∧ w' = mkWorld d' (hk w) (nextInstance w).
Proof. apply (zoom_Ret dm (λ d w, mkWorld d (hk w) (nextInstance w))). Qed.

Lemma inHooks_Ret {A} (m : M Hooks.Ctx A) w a w' :
  inHooks m w = Ret a w' ↔ ∃ h', m (hk w) = Ret a h' ∧ w' = mkWorld (dm w) h' (nextInstance w).
Proof. apply (zoom_Ret hk (λ h w, mkWorld (dm w) h (nextInstance w))). Qed.

Lemma newInstance_Ret kind dom node children key path w i w' :
  newInstance kind dom node children key path w = Ret i w' ↔
  i = mkInstance (nextInstance w) kind dom node children key path
  ∧ w' = mkWorld (dm w) (hk w) (S (nextInstance w)).
Proof. unfold newInstance. split; [by intros [= <- <-]|by intros [-> ->]]. Qed.

Lemma step_refl B w : step B w w.
Proof. split; [done..|apply adds_from_refl]. Qed.

Lemma step_trans B w1 w2 w3 : step B w1 w2 → step B w2 w3 → step B w1 w3.
Proof. intros [? ? ?] [? ? ?]. split; [lia..|by eapply adds_from_trans]. Qed.

Lemma step_weaken B B' w w' : B ≤ B' → step B' w w' → step B w w'.
Proof. intros ? [? ? ?]. split; [done..|by eapply adds_from_weaken]. Qed.

Lemma step_inHooks B {A} (m : M Hooks.Ctx A) : keeps (step B) (inHooks m).
Proof.
  intros w a w' H. apply inHooks_Ret in H as (h' & _ & ->).
  split; simpl; [done..|apply adds_from_refl].
Qed.

Lemma step_inDom B {A} (m : M Dom.t A) :
  keeps (λ d d', next d' = next d ∧ adds_from B d d') m → keeps (step B) (inDom m).
Proof.
  intros Hm w a w' H. apply inDom_Ret in H as (d' & H & ->).
  apply Hm in H as [Hn Ha]. split; simpl; [lia|done|done].
Qed.

Lemma step_same_tree B {A} (m : M Dom.t A) : keeps same_tree m → keeps (step B) (inDom m).
Proof.
  intros Hm. apply step_inDom. intros d a d' H. apply Hm in H.
  split; [apply H|by apply same_tree_adds].
Qed.

Lemma step_setDomProps B dom props :
  keeps (step B) (Reconciler.setDomProps has_prop read_only dom props).
Proof.
  intros w u w' H. unfold Reconciler.setDomProps in H.
  eapply step_same_tree; [apply keeps_setDomProps|exact H].
Qed.

Lemma step_newInstance B kind dom node children key path :
  keeps (step B) (newInstance kind dom node children key path).
Proof.
  intros w i w' H. apply newInstance_Ret in H as [-> ->].
  split; simpl; [done|lia|apply adds_from_refl].
Qed.

Lemma elem_of_getDomNodes_children (cs : list (option Instance)) m :
  m ∈ flat_map (λ child, match child with Some c => getDomNodes_of c | None => [] end) cs ↔
  ∃ c, Some c ∈ cs ∧ m ∈ getDomNodes_of c.
Proof.
  rewrite list_elem_of_In, in_flat_map. split.
  - intros ([c|] & Hc & Hm); [|done]. exists c. by rewrite !list_elem_of_In.
  - intros (c & Hc & Hm). exists (Some c). by rewrite <- !list_elem_of_In.
Qed.

Section WithReconcile.
Variable reconcile :
  nat → option Instance → option VNode → string → M World (option Instance).
Hypothesis reconcile_mounts : mounts reconcile.

Lemma mountChildren_step B p path children after :
  (∀ ci, (∀ m, m ∈ getDomNodes ci → B ≤ m) → keeps (step B) (after ci)) →
  ∀ rest i w cis w',
    B ≤ next (dm w) →
    mountChildren createChildPath reconcile p path children after i rest w = Ret cis w' →
    step B w w' ∧ ∀ c m, Some c ∈ cis → m ∈ getDomNodes_of c → B ≤ m.
Proof.
  intros Hafter. induction rest as [|child rest IH]; intros i w cis w' HB H; simpl in H.
  - minv H. split; [apply step_refl|]. intros c m Hc. by apply elem_of_nil in Hc.
  - minv H.
    apply reconcile_mounts in H0. destruct a as [ci|]; [|done].
    destruct H0 as [_ _ _ _ Hdoms Hstep].
    assert (Hci : ∀ m, m ∈ getDomNodes (Some ci) → B ≤ m).
    { intros m Hm. apply Hdoms in Hm. lia. }
    apply (Hafter _ Hci) in H1.
    apply (step_weaken B) in Hstep; [|done].
    assert (HB' : B ≤ next (dm s0)).
    { destruct Hstep, H1. lia. }
    destruct (IH _ _ _ _ HB' H2) as [Hrest Hcs].
    split; [eauto using step_trans|].
    intros c m Hc Hm. apply elem_of_cons in Hc as [[= ->]|Hc]; [by apply Hci|by eapply Hcs].
Qed.

Lemma step_createElement tag w dom w' :
  inDom (createElement tag) w = Ret dom w' →
  dom = next (dm w) ∧ next (dm w') = S (next (dm w)) ∧ step (next (dm w)) w w'.
Proof.
  intros H. apply inDom_Ret in H as (d' & H & ->).
  apply createElement_Ret in H as (-> & Hn & _ & _ & _ & Hnew & Hold).
  split; [done|]. split; [done|]. split; simpl; [lia|done|].
  intros q m Hm. destruct (decide (q = next (dm w))) as [->|Hne].
  - rewrite Hnew in Hm. by apply elem_of_nil in Hm.
  - rewrite Hold in Hm by done. by left.
Qed.

Lemma step_createTextNode data w dom w' :
  inDom (createTextNode data) w = Ret dom w' →
  dom = next (dm w) ∧ next (dm w') = S (next (dm w)) ∧ step (next (dm w)) w w'.
Proof.
  intros H. apply inDom_Ret in H as (d' & H & ->).
  apply createTextNode_Ret in H as (-> & Hn & _ & _ & _ & Hk).
  split; [done|]. split; [done|]. split; simpl; [lia|done|].
  intros q m Hm. left. unfold kidsOf in *. by rewrite <- Hk.
Qed.

Lemma step_appendChild B p n : B ≤ n → keeps (step B) (inDom (appendChild p n)).
Proof. intros HB. apply step_inDom. intros d u d' H. by eapply appendChild_adds. Qed.

Lemma step_leaveComponent B w : step B w (leaveComponent w).
Proof. split; simpl; [done..|apply adds_from_refl]. Qed.

Lemma mountNode_mounted p node path w i w' :
  mountNode has_prop read_only comps createChildPath reconcile p node path w = Ret i w' →
  mounted w node path i w'.
Proof.
  intros H. unfold mountNode in H.
  destruct (vtype node) as [tag| | |fid name] eqn:Ht.
  - (* a host element *)
    minv H. destruct (vprops node) as [props|] eqn:Hprops; [|done]. minv H.
    apply step_createElement in H0 as (-> & Hnext & S0).
    set (B := next (dm w)) in *.
    apply (step_setDomProps B) in H1 as S1.
    apply (mountChildren_step B) in H2 as [S2 _].
    2:{ intros [ci|] Hci; [|apply keeps_ret, step_refl].
        by apply step_inDom, insertInstance_adds. }
    2:{ destruct S1. lia. }
    apply (step_appendChild B) in H3 as S3; [|done].
    apply newInstance_Ret in H as Hi. destruct Hi as [-> _].
    apply (step_newInstance B) in H as S4.
    pose proof (step_trans _ _ _ _ S0 (step_trans _ _ _ _ S1 (step_trans _ _ _ _ S2 S3))) as S03.
    split; simpl; try done.
    + apply newInstance_Ret in H as [_ ->]. simpl. destruct S03. lia.
    + intros m Hm. apply list_elem_of_singleton in Hm as ->. done.
    + by eapply step_trans.
  - (* a text *)
    minv H.
    apply step_createTextNode in H0 as (-> & Hnext & S0).
    set (B := next (dm w)) in *.
    apply newInstance_Ret in H1 as Hi. destruct Hi as [-> Hs0].
    apply (step_newInstance B) in H1 as S1.
    apply (step_appendChild B) in H2 as S2; [|done].
    split; simpl; try done.
    + subst s0. destruct S0, S2. simpl in *. lia.
    + intros m Hm. apply list_elem_of_singleton in Hm as ->. done.
    + eauto using step_trans.
  - (* a fragment *)
    minv H.
    apply (mountChildren_step (next (dm w))) in H0 as [S0 Hdoms]; [| |done].
    2:{ intros ci _. apply keeps_ret, step_refl. }
    apply newInstance_Ret in H as Hi. destruct Hi as [-> Hw'].
    apply (step_newInstance (next (dm w))) in H as S1.
    split; simpl; try done.
    + subst w'. destruct S0. simpl. lia.
    + intros m Hm. apply elem_of_getDomNodes_children in Hm as (c & Hc & Hm). by eapply Hdoms.
    + by eapply step_trans.
  - (* a component *)
    unfold mountComponent in H. minv H.
    apply finally_Ret in H as (s1 & H & ->). minv H.
    set (B := next (dm w)).
    apply (step_inHooks B) in H0 as S0.
    unfold callComponent in H1. rewrite Ht in H1. apply (step_inHooks B) in H1 as S1.
    apply reconcile_mounts in H2.
    apply newInstance_Ret in H as Hi. destruct Hi as [-> Hs1].
    apply (step_newInstance B) in H as S3.
    assert (S2 : step B s0 s2 ∧ ∀ m, m ∈ getDomNodes a1 → B ≤ m) .
    { destruct a0 as [n|], a1 as [ci|]; try done.
      - destruct H2 as [_ _ _ _ Hdoms Hstep]. split.
        + eapply step_weaken; [|done]. destruct S0, S1. unfold B. lia.
        + intros m Hm. apply Hdoms in Hm. destruct S0, S1. unfold B. lia.
      - subst s2. split; [apply step_refl|]. intros m Hm. by apply elem_of_nil in Hm. }
    destruct S2 as [S2 Hdoms].
    pose proof (step_trans _ _ _ _ S0 (step_trans _ _ _ _ S1 S2)) as S02.
    split; simpl; try done.
    + subst s1. destruct S02. simpl. lia.
    + intros m Hm. destruct a1 as [ci|]; simpl in Hm.
      * rewrite app_nil_r in Hm. by apply Hdoms.
      * by apply elem_of_nil in Hm.
    + eapply step_trans; [|apply step_leaveComponent]. by eapply step_trans.
Qed.

End WithReconcile.
Lemma reconcile_mounts fuel :
  mounts (reconcile has_prop read_only comps createChildPath fuel).
Proof.
  induction fuel as [|fuel IH]; intros p node path w r w' H; [done|].
  simpl in H. unfold reconcile_body in H. destruct node as [n|]; minv H.
  - by apply (mountNode_mounted _ IH) in H0.
  - done.
Qed.


End Mounting.

(* --------------------------------------------------------------------- *)
(** ** Renders of concrete trees *)
(* --------------------------------------------------------------------- *)

Section TreeWitnesses.
Import Dom Reconciler Examples.
Local Open Scope nat_scope.

(** C8: a second render of an unchanged tree without keys and without
    components does call the host.  Over [<div onClick={f} />] the listener
    is registered again; over [<div><>{"a"}{"b"}</>{"c"}</div>] the two
    texts of the fragment and the text after it, all in place, are inserted
    again.  Over [<div>a<p id="x">b</p></div>], a tree of elements and texts
    with plain attributes, no call is made. *)
Theorem rerender_unchanged_calls :
  rerender_calls button button = Some [AddEventListener 1 "click" (Js.VFun 7)]
  ∧ rerender_calls grouped grouped
    = Some [AppendChild 1 3; InsertBefore 1 2 3; AppendChild 1 4;
            InsertBefore 1 2 4; InsertBefore 1 3 4]
  ∧ rerender_calls plain plain = Some [].
Proof. vm_compute. done. Qed.


End TreeWitnesses.

(* --------------------------------------------------------------------- *)
(** ** No parent comes to hold a child twice *)
(* --------------------------------------------------------------------- *)

Section DomKeeps.
Import Dom Reconciler MountSpec TreeSpec.
Local Open Scope nat_scope.

Lemma dom_keeps_refl d : dom_keeps d d.
Proof. by split. Qed.

Lemma dom_keeps_trans d1 d2 d3 : dom_keeps d1 d2 → dom_keeps d2 d3 → dom_keeps d1 d3.
Proof. intros [? ?] [? ?]. split; [lia|auto]. Qed.

Lemma same_tree_keeps d d' : same_tree d d' → dom_keeps d d'.
Proof.
  intros [Hn Hk]. split; [lia|]. intros Hwf p. unfold kidsOf. rewrite Hk. apply Hwf.
Qed.

Lemma NoDup_insert_before a n l : NoDup l → n ∉ l → NoDup (insert_before a n l).
Proof.
  induction l as [|x l IH]; simpl; intros Hl Hn.
  - apply NoDup_singleton.
  - destruct (decide (x = a)).
    + by apply NoDup_cons.
    + apply NoDup_cons in Hl as [Hx Hl]. apply not_elem_of_cons in Hn as [Hnx Hn].
      apply NoDup_cons. split; [|by apply IH].
      rewrite elem_of_insert_before. intros [->|?]; done.
Qed.

Lemma NoDup_filter_ne (n : nat) (l : list nat) : NoDup l → NoDup (filter (λ x, x ≠ n) l).
Proof. apply NoDup_filter. Qed.

Lemma not_elem_of_filter_ne (n : nat) (l : list nat) : n ∉ filter (λ x, x ≠ n) l.
Proof. rewrite list_elem_of_filter. tauto. Qed.

Lemma appendChild_keeps p n : keeps dom_keeps (appendChild p n).
Proof.
  intros d u d' H. apply appendChild_Ret in H as (Hn & _ & _ & _ & Hp & Hq).
  split; [lia|]. intros Hwf q. destruct (decide (q = p)) as [->|Hne].
  - rewrite Hp. apply NoDup_app. split_and!.
    + by apply NoDup_filter_ne.
    + intros x Hx Hx'. apply list_elem_of_singleton in Hx' as ->.
      by apply not_elem_of_filter_ne in Hx.
    + apply NoDup_singleton.
  - rewrite Hq by done. by apply NoDup_filter_ne.
Qed.

Lemma insertBefore_keeps p n a : keeps dom_keeps (insertBefore p n a).
Proof.
  intros d u d' H. apply insertBefore_Ret in H as (_ & Hn & _ & _ & _ & H).
  split; [lia|]. intros Hwf q. destruct (decide (n = a)) as [->|Hna].
  - unfold kidsOf. rewrite H. apply Hwf.
  - destruct H as [Hp Hq]. destruct (decide (q = p)) as [->|Hne].
    + rewrite Hp. apply NoDup_insert_before; [by apply NoDup_filter_ne|].
      apply not_elem_of_filter_ne.
    + rewrite Hq by done. by apply NoDup_filter_ne.
Qed.

Lemma removeChild_keeps p n : keeps dom_keeps (removeChild p n).
Proof.
  intros d u d' H. apply removeChild_Ret in H as (_ & Hn & _ & _ & _ & Hp & Hq).
  split; [lia|]. intros Hwf q. destruct (decide (q = p)) as [->|Hne].
  - rewrite Hp. by apply NoDup_filter_ne.
  - by rewrite Hq.
Qed.

Lemma createElement_keeps tag : keeps dom_keeps (createElement tag).
Proof.
  intros d n d' H. apply createElement_Ret in H as (-> & Hn & _ & _ & _ & Hnew & Hold).
  split; [lia|]. intros Hwf q. destruct (decide (q = next d)) as [->|Hne].
  - rewrite Hnew. apply NoDup_nil_2.
  - by rewrite Hold.
Qed.

Lemma createTextNode_keeps data : keeps dom_keeps (createTextNode data).
Proof.
  intros d n d' H. apply createTextNode_Ret in H as (-> & Hn & _ & _ & _ & Hk).
  split; [lia|]. intros Hwf q. unfold kidsOf. rewrite Hk. apply Hwf.
Qed.

Lemma insertInstance_keeps p instance anchor :
  keeps dom_keeps (insertInstance p instance anchor).
Proof.
  unfold insertInstance. destruct instance as [i|]; [|apply keeps_ret, dom_keeps_refl].
  apply keeps_for_each; [apply dom_keeps_refl|apply dom_keeps_trans|]. intros n _.
  apply keeps_get_state; [apply dom_keeps_refl|apply dom_keeps_trans|]. intros d.
  destruct (_ && _); [apply keeps_ret, dom_keeps_refl|].
  destruct anchor as [a|]; [apply insertBefore_keeps|apply appendChild_keeps].
Qed.

Lemma removeInstance_keeps p instance : keeps dom_keeps (removeInstance p instance).
Proof.
  unfold removeInstance. destruct instance as [i|]; [|apply keeps_ret, dom_keeps_refl].
  apply keeps_for_each; [apply dom_keeps_refl|apply dom_keeps_trans|]. intros n _.
  apply keeps_get_state; [apply dom_keeps_refl|apply dom_keeps_trans|]. intros d.
  destruct (isChildOf d n p); [apply removeChild_keeps|apply keeps_ret, dom_keeps_refl].
Qed.

Lemma placeChildren_keeps p children anchor :
  keeps dom_keeps (placeChildren p children anchor).
Proof.
  revert anchor. induction children as [|c children IH]; intros anchor; simpl.
  - apply keeps_ret, dom_keeps_refl.
  - destruct c as [c|]; [|apply IH].
    destruct (getFirstDom_of c); [|apply IH].
    apply keeps_bind; [apply dom_keeps_trans|apply insertInstance_keeps|]. intros _. apply IH.
Qed.

(** The same on the world. *)
Lemma world_keeps_refl w : world_keeps w w.
Proof. by split. Qed.

Lemma world_keeps_trans w1 w2 w3 : world_keeps w1 w2 → world_keeps w2 w3 → world_keeps w1 w3.
Proof. intros [[? ?] ?] [[? ?] ?]. split; [split; lia|auto]. Qed.

Lemma world_keeps_inDom {A} (m : M Dom.t A) : keeps dom_keeps m → keeps world_keeps (inDom m).
Proof.
  intros Hm w a w' H. apply zoom_Ret in H as (d' & H & ->).
  apply Hm in H as [Hn Hwf]. split; [split; simpl; lia|done].
Qed.

Lemma world_keeps_inHooks {A} (m : M Hooks.Ctx A) : keeps world_keeps (inHooks m).
Proof. intros w a w' H. apply zoom_Ret in H as (h' & _ & ->). by split. Qed.

Lemma world_keeps_newInstance kind dom node children key path :
  keeps world_keeps (newInstance kind dom node children key path).
Proof.
  intros w i w' H. unfold newInstance in H. injection H as <- <-.
  split; [split; simpl; lia|done].
Qed.

End DomKeeps.

(* --------------------------------------------------------------------- *)
(** ** Instance trees *)
(* --------------------------------------------------------------------- *)

Section TreeFacts.
Import Dom Reconciler TreeSpec.
Local Open Scope nat_scope.

(** Induction on an instance with its children at hand. *)
Lemma Instance_children_ind (P : Instance → Prop) :
  (∀ r kind dom node children key path,
     Forall (λ c, match c with Some c' => P c' | None => True end) children →
     P (mkInstance r kind dom node children key path)) →
  ∀ i, P i.
Proof.
  intros step. fix IH 1. intros [r kind dom node children key path].
  apply step. induction children as [|[c|] children IHc]; constructor; auto.
Qed.

Lemma elem_of_flat_map {A B} (f : A → list B) (l : list A) (y : B) :
  y ∈ flat_map f l ↔ ∃ x, x ∈ l ∧ y ∈ f x.
Proof.
  rewrite list_elem_of_In, in_flat_map. split; intros (x & Hx & Hy); exists x.
  - by rewrite !list_elem_of_In.
  - by rewrite <- !list_elem_of_In.
Qed.

Lemma ids_eq i :
  ids i = Obj (i_ref i) :: (Node <$> own_node (i_kind i) (i_dom i)) ++ ids_of (i_children i).
Proof. by destruct i. Qed.

Lemma ids_of_cons c cs : ids_of (c :: cs) = opt_ids c ++ ids_of cs.
Proof. done. Qed.

Lemma nodes_of_cons c cs : nodes_of (c :: cs) = getDomNodes c ++ nodes_of cs.
Proof. done. Qed.

Lemma ids_of_app cs1 cs2 : ids_of (cs1 ++ cs2) = ids_of cs1 ++ ids_of cs2.
Proof. unfold ids_of. apply flat_map_app. Qed.

Lemma nodes_of_app cs1 cs2 : nodes_of (cs1 ++ cs2) = nodes_of cs1 ++ nodes_of cs2.
Proof. unfold nodes_of. apply flat_map_app. Qed.

Lemma elem_of_ids_of cs x : x ∈ ids_of cs ↔ ∃ c, Some c ∈ cs ∧ x ∈ ids c.
Proof.
  unfold ids_of. rewrite elem_of_flat_map. split.
  - intros ([c|] & Hc & Hx); [by exists c|by apply elem_of_nil in Hx].
  - intros (c & Hc & Hx). by exists (Some c).
Qed.

Lemma elem_of_nodes_of cs m : m ∈ nodes_of cs ↔ ∃ c, Some c ∈ cs ∧ m ∈ getDomNodes_of c.
Proof.
  unfold nodes_of. rewrite elem_of_flat_map. split.
  - intros ([c|] & Hc & Hx); [by exists c|by apply elem_of_nil in Hx].
  - intros (c & Hc & Hx). by exists (Some c).
Qed.

Lemma getDomNodes_of_eq i :
  getDomNodes_of i = match i_kind i with
                     | HOST | TEXT => own_node (i_kind i) (i_dom i)
                     | _ => nodes_of (i_children i)
                     end.
Proof. by destruct i as [r [] dom node children key path]. Qed.

Lemma shaped_eq i :
  shaped i ↔ match i_kind i, i_dom i with
             | (HOST | TEXT), None => False
             | _, _ => True
             end ∧ Forall opt_shaped (i_children i).
Proof.
  destruct i as [r kind dom node children key path]. simpl.
  apply and_iff_compat_l.
  induction children as [|c children IH].
  - split; [constructor|done].
  - rewrite Forall_cons, IH. done.
Qed.

Lemma keys_ok_children v :
  keys_ok v → NoDup (omap vkey (vchildren v)) ∧ Forall keys_ok (vchildren v).
Proof.
  destruct v as [t k [props|] children]; simpl.
  - intros [Hk Hall]. split; [done|]. clear Hk.
    induction children as [|c children IH]; constructor; [apply Hall|apply IH, Hall].
  - intros _. split; constructor.
Qed.

Lemma obj_in_ids i : Obj (i_ref i) ∈ ids i.
Proof. rewrite ids_eq. apply elem_of_cons. by left. Qed.

(** The surface nodes of an instance are among what it holds. *)
Lemma getDomNodes_ids i m : m ∈ getDomNodes_of i → Node m ∈ ids i.
Proof.
  revert m. induction i as [r kind dom node children key path IH] using Instance_children_ind.
  intros m Hm. rewrite getDomNodes_of_eq in Hm. rewrite ids_eq. simpl in *.
  apply elem_of_cons. right. apply elem_of_app.
  destruct kind; try (left; by apply list_elem_of_fmap_2).
  - right. apply elem_of_nodes_of in Hm as (c & Hc & Hm). apply elem_of_ids_of. exists c.
    split; [done|]. rewrite Forall_forall in IH. by apply (IH (Some c)).
  - right. apply elem_of_nodes_of in Hm as (c & Hc & Hm). apply elem_of_ids_of. exists c.
    split; [done|]. rewrite Forall_forall in IH. by apply (IH (Some c)).
Qed.

Lemma nodes_of_ids cs m : m ∈ nodes_of cs → Node m ∈ ids_of cs.
Proof.
  rewrite elem_of_nodes_of, elem_of_ids_of. intros (c & Hc & Hm). exists c.
  split; [done|]. by apply getDomNodes_ids.
Qed.

(** Holding nothing twice, an instance has no surface node twice. *)
Lemma NoDup_nodes_of cs :
  Forall (λ c, match c with
               | Some c' => NoDup (ids c') → NoDup (getDomNodes_of c')
               | None => True
               end) cs →
  NoDup (ids_of cs) → NoDup (nodes_of cs).
Proof.
  induction 1 as [|c cs Hc Hcs IH]; intros Hnd; [constructor|].
  rewrite ids_of_cons in Hnd. apply NoDup_app in Hnd as (H1 & H12 & H2).
  rewrite nodes_of_cons. apply NoDup_app. split_and!.
  - destruct c as [c|]; [by apply Hc|constructor].
  - intros m Hm Hm'. apply nodes_of_ids in Hm'. destruct c as [c|]; [|by apply elem_of_nil in Hm].
    apply getDomNodes_ids in Hm. by apply (H12 (Node m)).
  - by apply IH.
Qed.

Lemma NoDup_getDomNodes i : NoDup (ids i) → NoDup (getDomNodes_of i).
Proof.
  induction i as [r kind dom node children key path IH] using Instance_children_ind.
  rewrite ids_eq, getDomNodes_of_eq. simpl. intros Hnd.
  apply NoDup_cons in Hnd as [_ Hnd]. apply NoDup_app in Hnd as (Hown & _ & Hcs).
  destruct kind.
  - destruct dom; simpl; [apply NoDup_singleton|constructor].
  - destruct dom; simpl; [apply NoDup_singleton|constructor].
  - by apply NoDup_nodes_of.
  - by apply NoDup_nodes_of.
Qed.

Lemma NoDup_nodes_of_ids cs : NoDup (ids_of cs) → NoDup (nodes_of cs).
Proof.
  apply NoDup_nodes_of. apply Forall_forall. intros [c|] _; [apply NoDup_getDomNodes|done].
Qed.

(** Two children of a list that holds nothing twice share nothing. *)
Lemma ids_of_disjoint cs c c' x :
  NoDup (ids_of cs) → Some c ∈ cs → Some c' ∈ cs → x ∈ ids c → x ∈ ids c' → c = c'.
Proof.
  induction cs as [|c0 cs IH]; intros Hnd Hc Hc' Hx Hx'; [by apply elem_of_nil in Hc|].
  rewrite ids_of_cons in Hnd. apply NoDup_app in Hnd as (H1 & H12 & H2).
  apply elem_of_cons in Hc as [Hc|Hc], Hc' as [Hc'|Hc'].
  - congruence.
  - subst c0. exfalso. apply (H12 x Hx). apply elem_of_ids_of. by exists c'.
  - subst c0. exfalso. apply (H12 x Hx'). apply elem_of_ids_of. by exists c.
  - by apply IH.
Qed.

Lemma ids_of_same_ref cs c c' :
  NoDup (ids_of cs) → Some c ∈ cs → Some c' ∈ cs → i_ref c = i_ref c' → c = c'.
Proof.
  intros Hnd Hc Hc' Href. apply (ids_of_disjoint cs c c' (Obj (i_ref c))); try done.
  - apply obj_in_ids.
  - rewrite Href. apply obj_in_ids.
Qed.

(** The first surface node of a shaped instance is the head of its nodes. *)
Lemma head_app_cases {A} (l1 l2 : list A) :
  head (l1 ++ l2) = match head l1 with Some x => Some x | None => head l2 end.
Proof. by destruct l1. Qed.

Lemma getFirstDom_of_head i : shaped i → getFirstDom_of i = head (getDomNodes_of i).
Proof.
  induction i as [r kind dom node children key path IH] using Instance_children_ind.
  intros Hs. apply shaped_eq in Hs as [Hown Hcs]. simpl in Hown, Hcs.
  assert (Hfirst :
    (fix first (cs : list (option Instance)) : option nat :=
       match cs with
       | [] => None
       | child :: cs' =>
           match (match child with Some c => getFirstDom_of c | None => None end) with
           | Some found => Some found
           | None => first cs'
           end
       end) children = head (nodes_of children)).
  { clear Hown. induction children as [|c children IHc]; [done|].
    apply Forall_cons in IH as [IHhd IHtl]. apply Forall_cons in Hcs as [Hc Hcs].
    rewrite nodes_of_cons, head_app_cases, IHc by done.
    destruct c as [c|]; [|done]. simpl. by rewrite IHhd. }
  rewrite getDomNodes_of_eq. simpl.
  destruct kind; simpl; try (by destruct dom); by rewrite Hfirst.
Qed.

Lemma getFirstDom_head c : opt_shaped c → getFirstDom c = head (getDomNodes c).
Proof. destruct c as [c|]; [apply getFirstDom_of_head|done]. Qed.

Lemma getFirstDomFromChildren_head cs :
  Forall opt_shaped cs → getFirstDomFromChildren cs = head (nodes_of cs).
Proof.
  induction 1 as [|c cs Hc Hcs IH]; [done|].
  rewrite nodes_of_cons, head_app_cases, <- IH, <- (getFirstDom_head c) by done. done.
Qed.

(** Identities stay made. *)
Lemma grows_refl w : grows w w.
Proof. by split. Qed.

Lemma grows_trans w1 w2 w3 : grows w1 w2 → grows w2 w3 → grows w1 w3.
Proof. intros [? ?] [? ?]. split; lia. Qed.

Lemma bounded_grows w w' x : grows w w' → bounded w x → bounded w' x.
Proof. intros [? ?]. destruct x; simpl; lia. Qed.

Lemma fresh_grows w w' x : grows w w' → fresh w' x → fresh w x.
Proof. intros [? ?]. destruct x; simpl; lia. Qed.

Lemma bounded_not_fresh w x : bounded w x → fresh w x → False.
Proof. destruct x; simpl; lia. Qed.

Lemma wf_grows w w' i : grows w w' → wf w i → wf w' i.
Proof.
  intros Hg [Hs Hn Hb]. split; [done..|].
  eapply Forall_impl; [exact Hb|]. intros x. by apply bounded_grows.
Qed.

Lemma opt_wf_grows w w' i : grows w w' → opt_wf w i → opt_wf w' i.
Proof. destruct i; [apply wf_grows|done]. Qed.

(** The children of a tree are trees. *)
Lemma wf_children w i c : wf w i → Some c ∈ i_children i → wf w c.
Proof.
  intros [Hs Hn Hb] Hc. apply shaped_eq in Hs as [_ Hcs].
  rewrite ids_eq in Hn, Hb.
  apply NoDup_cons in Hn as [_ Hn]. apply NoDup_app in Hn as (_ & _ & Hn).
  apply Forall_cons in Hb as [_ Hb]. apply Forall_app in Hb as [_ Hb].
  split.
  - rewrite Forall_forall in Hcs. by apply (Hcs (Some c)).
  - clear Hb Hcs. induction (i_children i) as [|c0 cs IH]; [by apply elem_of_nil in Hc|].
    rewrite ids_of_cons in Hn. apply NoDup_app in Hn as (H1 & _ & H2).
    apply elem_of_cons in Hc as [<-|Hc]; [done|by apply IH].
  - rewrite Forall_forall in Hb |- *. intros x Hx. apply Hb, elem_of_ids_of. by exists c.
Qed.

End TreeFacts.

(* --------------------------------------------------------------------- *)
(** ** The matching of the old children *)
(* --------------------------------------------------------------------- *)

Section Matching.
Import Dom Reconciler TreeSpec.
Local Open Scope nat_scope.

Lemma JsMap_get_set_ne {V} (m : list (string * V)) k k' v :
  k ≠ k' → JsMap.get (JsMap.set m k v) k' = JsMap.get m k'.
Proof.
  intros Hne. induction m as [|[k0 v0] m IH]; simpl.
  - by rewrite decide_False.
  - destruct (decide (k0 = k)) as [->|Hk0]; simpl.
    + by rewrite !decide_False.
    + destruct (decide (k0 = k')); [done|apply IH].
Qed.

(** The key map holds old children under their keys. *)
Lemma keyMap_of_get olds acc k o :
  JsMap.get (keyMap_of olds acc) k = Some o →
  (Some o ∈ olds ∧ i_key o = Some k) ∨ JsMap.get acc k = Some o.
Proof.
  revert acc. induction olds as [|[c|] olds IH]; intros acc H; simpl in H.
  - by right.
  - destruct (i_key c) as [kc|] eqn:Hkc.
    + apply IH in H as [[Ho Hk]|H].
      * left. split; [by apply elem_of_cons; right|done].
      * destruct (decide (kc = k)) as [->|Hne].
        -- rewrite JsMap_get_set_eq in H. injection H as <-. left.
           split; [by apply elem_of_cons; left|done].
        -- rewrite JsMap_get_set_ne in H by done. by right.
    + apply IH in H as [[Ho Hk]|H]; [left|by right].
      split; [by apply elem_of_cons; right|done].
  - apply IH in H as [[Ho Hk]|H]; [left|by right].
    split; [by apply elem_of_cons; right|done].
Qed.

(** Every old child with a key has its key in the map. *)
Lemma keyMap_of_keeps olds acc k :
  is_Some (JsMap.get acc k) → is_Some (JsMap.get (keyMap_of olds acc) k).
Proof.
  revert acc. induction olds as [|[c|] olds IH]; intros acc H; simpl; [done| |by apply IH].
  destruct (i_key c) as [kc|]; [|by apply IH]. apply IH.
  destruct (decide (kc = k)) as [->|Hne].
  - by rewrite JsMap_get_set_eq.
  - by rewrite JsMap_get_set_ne.
Qed.

Lemma keyMap_of_has olds acc o k :
  Some o ∈ olds → i_key o = Some k → is_Some (JsMap.get (keyMap_of olds acc) k).
Proof.
  revert acc. induction olds as [|c olds IH]; intros acc Ho Hk; [by apply elem_of_nil in Ho|].
  apply elem_of_cons in Ho as [<-|Ho]; simpl.
  - rewrite Hk. apply keyMap_of_keeps. by rewrite JsMap_get_set_eq.
  - destruct c as [c|]; [|by apply IH]. destruct (i_key c); by apply IH.
Qed.

Lemma elem_of_keyless_of olds o :
  o ∈ keyless_of olds ↔ Some o ∈ olds ∧ i_key o = None.
Proof.
  unfold keyless_of. rewrite list_elem_of_omap. split.
  - intros ([c|] & Hc & H); [|done]. destruct (i_key c) eqn:Hk; [done|].
    injection H as ->. done.
  - intros [Ho Hk]. exists (Some o). by rewrite Hk.
Qed.

Lemma scan_Some keyless used v o :
  scan keyless used v = Some o →
  o ∈ keyless ∧ (i_ref o ∉ used) ∧ vtype (i_node o) = vtype v.
Proof.
  unfold scan. intros H. apply find_some in H as [Hin H].
  apply andb_prop in H as [Hu Ht]. unfold used_has in Hu.
  apply negb_true_iff, bool_decide_eq_false in Hu. apply bool_decide_eq_true in Ht.
  by rewrite list_elem_of_In.
Qed.

End Matching.

(* --------------------------------------------------------------------- *)
(** ** Every call of [reconcile] leaves a tree *)
(* --------------------------------------------------------------------- *)

Section Updating.
Import Dom Reconciler MountSpec TreeSpec.
Local Open Scope nat_scope.

Variable has_prop : string → string → bool.
Variable read_only : string → string → bool.
Variable comps : nat → list (string * Js.Value) → list VNode → M Hooks.Ctx (option VNode).
Variable createChildPath :
  string → option string → nat → option NodeType → option (list VNode) → string.
Hypothesis comps_ok : comps_keys_ok comps.

(** Facts on the allocators, from the steps at hand. *)
Ltac grow :=
  repeat match goal with
  | H : grows _ _ |- _ => destruct H
  | H : world_keeps _ _ |- _ => destruct H
  | H : bounded _ (Obj _) |- _ => simpl in H
  | H : bounded _ (Node _) |- _ => simpl in H
  | H : fresh _ (Obj _) |- _ => simpl in H
  | H : fresh _ (Node _) |- _ => simpl in H
  end;
  simpl in *; first [lia | split; simpl; lia | idtac].

Lemma wf_bounded_in w i x : wf w i → x ∈ ids i → bounded w x.
Proof. intros [_ _ Hb] Hx. rewrite Forall_forall in Hb. by apply Hb. Qed.

Lemma opt_wf_bounded_in w c x : opt_wf w c → x ∈ opt_ids c → bounded w x.
Proof. destruct c; [apply wf_bounded_in|]. intros _ Hx. by apply elem_of_nil in Hx. Qed.

Lemma ids_of_bounded w cs x : Forall (opt_wf w) cs → x ∈ ids_of cs → bounded w x.
Proof.
  intros Hcs Hx. apply elem_of_ids_of in Hx as (c & Hc & Hx).
  rewrite Forall_forall in Hcs. apply (wf_bounded_in w c); [|done]. by apply (Hcs (Some c)).
Qed.

(** An instance over children that are trees is a tree. *)
Lemma wf_mkInstance w r kind dom node cs key path :
  r < nextInstance w →
  match kind, dom with (HOST | TEXT), None => False | _, _ => True end →
  (∀ d, d ∈ own_node kind dom → d < next (dm w) ∧ Node d ∉ ids_of cs) →
  Obj r ∉ ids_of cs →
  Forall (opt_wf w) cs → NoDup (ids_of cs) →
  wf w (mkInstance r kind dom node cs key path).
Proof.
  intros Hr Hshape Hown Hobj Hcs Hnd. split.
  - apply shaped_eq. simpl. split; [by destruct kind, dom|]. eapply Forall_impl; [exact Hcs|].
    intros [c|]; [apply wf_shaped|done].
  - rewrite ids_eq. simpl. apply NoDup_cons. split.
    + rewrite elem_of_app. intros [H|H]; [|done].
      apply list_elem_of_fmap in H as (d & ? & _). done.
    + apply NoDup_app. split_and!; [|intros x Hx|done].
      * apply NoDup_fmap; [by intros ? ? [=]|].
        destruct kind, dom; simpl; try apply NoDup_singleton; constructor.
      * apply list_elem_of_fmap in Hx as (d & -> & Hd). by apply Hown.
  - rewrite ids_eq. simpl. constructor; [done|]. apply Forall_app. split.
    + apply Forall_forall. intros x Hx. apply list_elem_of_fmap in Hx as (d & -> & Hd).
      simpl. by apply Hown.
    + apply Forall_forall. intros x Hx. by eapply ids_of_bounded.
Qed.

Lemma wf_children_all w i :
  wf w i → NoDup (ids_of (i_children i)) ∧ Forall (opt_wf w) (i_children i).
Proof.
  intros Hwf. split.
  - destruct Hwf as [_ Hn _]. rewrite ids_eq in Hn.
    apply NoDup_cons in Hn as [_ Hn]. by apply NoDup_app in Hn as (_ & _ & Hn).
  - apply Forall_forall. intros [c|] Hc; [by eapply wf_children|done].
Qed.

Lemma ids_set_node n i : ids (set_node n i) = ids i.
Proof. by destruct i. Qed.

Lemma wf_set_node w n i : wf w i → wf w (set_node n i).
Proof.
  intros [Hs Hn Hb]. split; rewrite ?ids_set_node; try done.
  destruct i. exact Hs.
Qed.

Lemma ids_set_dom d i : i_kind i = FRAGMENT ∨ i_kind i = COMPONENT → ids (set_dom d i) = ids i.
Proof. destruct i as [r kind dom node cs key path]. simpl. by intros [->| ->]. Qed.

Lemma wf_set_dom w d i :
  i_kind i = FRAGMENT ∨ i_kind i = COMPONENT → wf w i → wf w (set_dom d i).
Proof.
  intros Hkind [Hs Hn Hb]. split; rewrite ?ids_set_dom; try done.
  destruct i as [r kind dom node cs key path]. simpl in *.
  destruct Hkind as [->| ->]; split; try done; apply Hs.
Qed.

(** New children in the place of the old ones: what they hold is new or
    was held by the old ones. *)
Lemma wf_set_children w w' inst rs :
  wf w inst → grows w w' →
  Forall (opt_wf w') rs → NoDup (ids_of rs) →
  (∀ x, x ∈ ids_of rs → x ∈ ids_of (i_children inst) ∨ fresh w x) →
  wf w' (set_children rs inst)
  ∧ ∀ x, x ∈ ids (set_children rs inst) → x ∈ ids inst ∨ fresh w x.
Proof.
  intros [Hs Hn Hb] Hg Hrs Hnd Hids.
  destruct inst as [r kind dom node cs key path]. simpl in *.
  apply NoDup_cons in Hn as [Hr Hn]. apply NoDup_app in Hn as (_ & Hown & _).
  apply Forall_cons in Hb as [Hbr Hb]. apply Forall_app in Hb as [Hbown _].
  rewrite Forall_forall in Hbown. fold opt_ids in *. fold (ids_of cs) in *.
  split.
  - apply wf_mkInstance.
    + apply (bounded_grows _ _ (Obj r) Hg Hbr).
    + destruct Hs as [Hs _]. by destruct kind, dom.
    + intros d Hd. assert (Hin : Node d ∈ Node <$> own_node kind dom) by by apply list_elem_of_fmap_2.
      split; [apply (bounded_grows _ _ (Node d) Hg), Hbown, Hin|].
      intros Hx. destruct (Hids _ Hx) as [Hold|Hf].
      * by apply (Hown (Node d)).
      * eapply bounded_not_fresh; [|exact Hf]. by apply Hbown.
    + intros Hx. destruct (Hids _ Hx) as [Hold|Hf].
      * apply Hr. apply elem_of_app. by right.
      * by eapply bounded_not_fresh.
    + done.
    + done.
  - intros x Hx. apply elem_of_cons in Hx as [->|Hx]; [left; by apply elem_of_cons; left|].
    apply elem_of_app in Hx as [Hx|Hx].
    + left. apply elem_of_cons. right. apply elem_of_app. by left.
    + destruct (Hids _ Hx) as [Hold|Hf]; [|by right].
      left. apply elem_of_cons. right. apply elem_of_app. by right.
Qed.

Section WithReconcile.
Variable reconcile :
  nat → option Instance → option VNode → string → M World (option Instance).
Hypothesis reconcile_updates : updates reconcile.

Lemma mountChildren_updated p path children after :
  (∀ ci, keeps world_keeps (after ci)) →
  ∀ rest i w cis w',
    dom_wf (dm w) → Forall keys_ok rest →
    mountChildren createChildPath reconcile p path children after i rest w = Ret cis w' →
    grows w w' ∧ dom_wf (dm w') ∧ Forall (opt_wf w') cis ∧ NoDup (ids_of cis)
    ∧ ∀ x, x ∈ ids_of cis → fresh w x.
Proof.
  intros Hafter. induction rest as [|child rest IH]; intros i w cis w' Hd Hk H; simpl in H.
  - minv H. split_and!; [apply grows_refl|done|constructor|constructor|].
    intros x Hx. by apply elem_of_nil in Hx.
  - minv H. apply Forall_cons in Hk as [Hkc Hkr].
    apply reconcile_updates in H0 as [Hg1 Hd1 Hwf1 Hids1 _ _]; [|done..].
    apply Hafter in H1 as [Hg2 Hd2]. specialize (Hd2 Hd1).
    destruct (IH _ _ _ _ Hd2 Hkr H2) as (Hg3 & Hd3 & Hwf3 & Hnd3 & Hfr3).
    pose proof (grows_trans _ _ _ Hg1 Hg2) as Hg12.
    pose proof (grows_trans _ _ _ Hg12 Hg3) as Hg13.
    split_and!; [done|done| | |].
    + constructor; [|done]. eapply opt_wf_grows; [|done]. by eapply grows_trans.
    + rewrite ids_of_cons. apply NoDup_app. split_and!; [|intros x Hx Hx'|done].
      * destruct a as [c|]; [apply Hwf1|constructor].
      * apply Hfr3 in Hx'. apply (opt_wf_bounded_in _ _ _ Hwf1) in Hx.
        eapply bounded_not_fresh; [|exact Hx']. eapply bounded_grows; [exact Hg2|exact Hx].
    + intros x Hx. rewrite ids_of_cons in Hx. apply elem_of_app in Hx as [Hx|Hx].
      * destruct (Hids1 x Hx) as [Hn|?]; [by apply elem_of_nil in Hn|done].
      * eapply fresh_grows; [exact Hg12|by apply Hfr3].
Qed.

Lemma world_keeps_setDomProps dom props :
  keeps world_keeps (Reconciler.setDomProps has_prop read_only dom props).
Proof.
  intros w u w' H. unfold Reconciler.setDomProps in H.
  eapply world_keeps_inDom; [|exact H].
  eapply keeps_impl; [apply same_tree_keeps|apply keeps_setDomProps].
Qed.

Lemma world_keeps_updateDomProps dom prev next :
  keeps world_keeps (Reconciler.updateDomProps has_prop read_only dom prev next).
Proof.
  intros w u w' H. unfold Reconciler.updateDomProps in H.
  eapply world_keeps_inDom; [|exact H].
  eapply keeps_impl; [apply same_tree_keeps|apply keeps_updateDomProps].
Qed.

Lemma ids_of_single (r : option Instance) :
  ids_of (match r with Some _ => [r] | None => [] end) = opt_ids r.
Proof. destruct r; simpl; [apply app_nil_r|done]. Qed.

Lemma mountNode_updated p node path w i w' :
  dom_wf (dm w) → keys_ok node →
  mountNode has_prop read_only comps createChildPath reconcile p node path w = Ret i w' →
  grows w w' ∧ dom_wf (dm w') ∧ wf w' i ∧ (∀ x, x ∈ ids i → fresh w x)
  ∧ i_node i = node ∧ i_key i = vkey node.
Proof.
  intros Hd Hk H. apply keys_ok_children in Hk as [_ Hk]. unfold mountNode in H.
  destruct (vtype node) as [tag| | |fid name] eqn:Ht.
  - (* a host element *)
    minv H. destruct (vprops node) as [props|] eqn:Hprops; [|done]. minv H.
    pose proof (world_keeps_inDom _ (createElement_keeps tag) _ _ _ H0) as [G0 D0].
    apply step_createElement in H0 as (-> & Hnext & _).
    apply world_keeps_setDomProps in H1 as [G1 D1].
    apply mountChildren_updated in H2 as (G2 & D2 & Hwf & Hnd & Hfr); [| |by auto|done].
    2:{ intros [ci|]; [|apply keeps_ret, world_keeps_refl].
        apply world_keeps_inDom, insertInstance_keeps. }
    pose proof (world_keeps_inDom _ (appendChild_keeps p _) _ _ _ H3) as [G3 D3].
    apply newInstance_Ret in H as [-> ->]. simpl.
    split_and!; [grow|by auto| |intros x Hx|done|done].
    + apply wf_mkInstance; simpl.
      * lia.
      * done.
      * intros d Hd'. apply list_elem_of_singleton in Hd' as ->. split; [grow|].
        intros Hin. apply Hfr in Hin. grow.
      * intros Hin. apply (ids_of_bounded _ _ _ Hwf) in Hin. grow.
      * eapply Forall_impl; [exact Hwf|]. intros c. apply opt_wf_grows. grow.
      * done.
    + simpl in Hx.
      apply elem_of_cons in Hx as [->|Hx]; [grow|].
      apply elem_of_cons in Hx as [->|Hx]; [grow|].
      apply Hfr in Hx. eapply fresh_grows; [|exact Hx]. grow.
  - (* a text *)
    minv H.
    pose proof (world_keeps_inDom _ (createTextNode_keeps _) _ _ _ H0) as [G0 D0].
    apply step_createTextNode in H0 as (-> & Hnext & _).
    apply newInstance_Ret in H1 as [-> ->].
    pose proof (world_keeps_inDom _ (appendChild_keeps p _) _ _ _ H2) as [G2 D2].
    split_and!; [grow|by auto| |intros x Hx|done|done].
    + apply wf_mkInstance; simpl.
      * grow.
      * done.
      * intros d Hd'. apply list_elem_of_singleton in Hd' as ->. split; [grow|].
        intros Hin. by apply elem_of_nil in Hin.
      * intros Hin. by apply elem_of_nil in Hin.
      * constructor.
      * constructor.
    + simpl in Hx.
      apply elem_of_cons in Hx as [->|Hx]; [grow|].
      apply elem_of_cons in Hx as [->|Hx]; [grow|].
      by apply elem_of_nil in Hx.
  - (* a fragment *)
    minv H.
    apply mountChildren_updated in H0 as (G0 & D0 & Hwf & Hnd & Hfr); [| |done|done].
    2:{ intros ci. apply keeps_ret, world_keeps_refl. }
    apply newInstance_Ret in H as [-> ->]. simpl.
    split_and!; [grow|done| |intros x Hx|done|done].
    + apply wf_mkInstance; simpl.
      * lia.
      * done.
      * intros d Hd'. by apply elem_of_nil in Hd'.
      * intros Hin. apply (ids_of_bounded _ _ _ Hwf) in Hin. grow.
      * eapply Forall_impl; [exact Hwf|]. intros c. apply opt_wf_grows. split; simpl; lia.
      * done.
    + simpl in Hx.
      apply elem_of_cons in Hx as [->|Hx]; [grow|]. by apply Hfr.
  - (* a component *)
    unfold mountComponent in H. minv H.
    apply finally_Ret in H as (s1 & H & ->). minv H.
    apply world_keeps_inHooks in H0 as [G0 D0].
    unfold callComponent in H1. rewrite Ht in H1.
    pose proof (world_keeps_inHooks _ _ _ _ H1) as [G1 D1].
    apply zoom_Ret in H1 as (h' & Hcall & _). apply comps_ok in Hcall; [|done].
    apply reconcile_updates in H2 as [G2 D2 Hwf Hids _ _]; [|by auto|done|done].
    apply newInstance_Ret in H as [-> ->]. simpl.
    split_and!; [grow|done| |intros x Hx|done|done].
    + apply wf_mkInstance; simpl.
      * lia.
      * done.
      * intros d Hd'. by apply elem_of_nil in Hd'.
      * rewrite ids_of_single. intros Hin. apply (opt_wf_bounded_in _ _ _ Hwf) in Hin. grow.
      * destruct a1 as [c|]; [|constructor]. constructor; [|constructor].
        eapply wf_grows; [|exact Hwf]. split; simpl; lia.
      * rewrite ids_of_single. destruct a1 as [c|]; [apply Hwf|constructor].
    + simpl in Hx. fold opt_ids in Hx. fold (ids_of (match a1 with Some _ => [a1] | None => [] end)) in Hx.
      rewrite ids_of_single in Hx.
      apply elem_of_cons in Hx as [->|Hx]; [grow|].
      destruct (Hids x Hx) as [Hn|Hf]; [by apply elem_of_nil in Hn|].
      eapply fresh_grows; [|exact Hf]. grow.
Qed.

Lemma matchChildren_updated p path keyMap keyless newChildren olds :
  NoDup (ids_of olds) →
  (∀ k o, JsMap.get keyMap k = Some o → Some o ∈ olds ∧ i_key o = Some k) →
  (∀ o, o ∈ keyless → Some o ∈ olds ∧ i_key o = None) →
  ∀ rest i used w res w',
    dom_wf (dm w) → Forall (opt_wf w) olds →
    Forall keys_ok rest → NoDup (omap vkey rest) →
    (∀ v k o, v ∈ rest → vkey v = Some k → JsMap.get keyMap k = Some o → i_ref o ∉ used) →
    matchChildren createChildPath reconcile p path keyMap keyless newChildren i rest used w
    = Ret res w' →
    grows w w' ∧ dom_wf (dm w') ∧ Forall (opt_wf w') res.1 ∧ NoDup (ids_of res.1)
    ∧ (∀ x, x ∈ ids_of res.1 →
            (∃ o, Some o ∈ olds ∧ (i_ref o ∉ used) ∧ x ∈ ids o) ∨ fresh w x)
    ∧ (∀ r, r ∈ used → r ∈ res.2)
    ∧ Forall2 (λ v r, ∃ i', r = Some i' ∧ i_node i' = v ∧ i_key i' = vkey v
                 ∧ ∀ k o, vkey v = Some k → JsMap.get keyMap k = Some o →
                     i_ref o ∈ res.2 ∧ (vtype (i_node o) = vtype v → i_ref i' = i_ref o))
              rest res.1.
Proof.
  intros Holds HK HL.
  induction rest as [|v rest IH]; intros i used w res w' Hd Hwfo Hk Hnk Hfree H; simpl in H.
  - minv H. simpl. split_and!; [apply grows_refl|done|constructor|constructor| |done|constructor].
    intros x Hx. by apply elem_of_nil in Hx.
  - set (m := match match vkey v with Some k => JsMap.get keyMap k | None => None end with
              | Some m => Some m
              | None => scan keyless used v
              end) in H.
    set (used1 := match m with Some m => i_ref m :: used | None => used end) in H.
    minv H. cbn [fst snd].
    apply Forall_cons in Hk as [Hkv Hkr].
    (* the match is an unused old child, under the key of the new child or under none *)
    assert (Hm : ∀ o, m = Some o →
              Some o ∈ olds ∧ (i_ref o ∉ used) ∧ (i_key o = vkey v ∨ i_key o = None)).
    { intros o Ho. unfold m in Ho. destruct (vkey v) as [k|] eqn:Hvk.
      - destruct (JsMap.get keyMap k) as [o'|] eqn:Hget.
        + injection Ho as ->. destruct (HK _ _ Hget) as [Hin Hkey].
          split_and!; [done| |by left]. eapply Hfree; [by apply elem_of_cons; left|done..].
        + apply scan_Some in Ho as (Hin & Hu & _). destruct (HL _ Hin). by split_and!; [| |right].
      - apply scan_Some in Ho as (Hin & Hu & _). destruct (HL _ Hin). by split_and!; [| |right]. }
    assert (Hbykey : ∀ k o, vkey v = Some k → JsMap.get keyMap k = Some o → m = Some o).
    { intros k o Hvk Hget. unfold m. by rewrite Hvk, Hget. }
    assert (Hused1 : ∀ r, r ∈ used → r ∈ used1).
    { intros r Hr. unfold used1. destruct m; [by apply elem_of_cons; right|done]. }
    assert (Hwfm : opt_wf w m).
    { destruct m as [o|] eqn:Hmo; [|done]. destruct (Hm o eq_refl) as (Hin & _).
      rewrite Forall_forall in Hwfo. by apply (Hwfo (Some o)). }
    apply reconcile_updates in H0 as [G1 D1 Hwf1 Hids1 _ Hsome]; [|done..].
    apply IH in H1 as (G2 & D2 & Hwf2 & Hnd2 & Hids2 & Hused2 & Hall2); [|done| |done| |].
    2:{ eapply Forall_impl; [exact Hwfo|]. intros c. by apply opt_wf_grows. }
    2:{ simpl in Hnk. destruct (vkey v); [by apply NoDup_cons in Hnk as [_ ?]|done]. }
    2:{ intros v' k' o' Hv' Hvk' Hget' Hin.
        assert (Hfree' : i_ref o' ∉ used).
        { eapply Hfree; [by apply elem_of_cons; right|done..]. }
        unfold used1 in Hin. destruct m as [o|] eqn:Hmo; [|done].
        apply elem_of_cons in Hin as [Href|Hin]; [|done].
        destruct (Hm o eq_refl) as (Hino & _ & Hkey).
        destruct (HK _ _ Hget') as [Hino' Hkey'].
        assert (o' = o) as -> by (by eapply ids_of_same_ref).
        rewrite Hkey' in Hkey. destruct Hkey as [Hkey|Hkey]; [|done].
        simpl in Hnk. rewrite <- Hkey in Hnk. apply NoDup_cons in Hnk as [Hnotin _].
        apply Hnotin. apply list_elem_of_omap. by exists v'. }
    split_and!.
    + by eapply grows_trans.
    + done.
    + constructor; [|done]. by eapply opt_wf_grows.
    + rewrite ids_of_cons. apply NoDup_app. split_and!; [|intros x Hx Hx'|done].
      * destruct a as [c|]; [apply Hwf1|constructor].
      * destruct (Hids2 x Hx') as [(o' & Hino' & Hu' & Hxo')|Hf].
        -- destruct (Hids1 x Hx) as [Hxm|Hf].
           ++ destruct m as [o|] eqn:Hmo; [|by apply elem_of_nil in Hxm].
              destruct (Hm o eq_refl) as (Hino & _).
              assert (o = o') as -> by (by apply (ids_of_disjoint olds o o' x)).
              apply Hu'. unfold used1. apply elem_of_cons. by left.
           ++ eapply bounded_not_fresh; [|exact Hf].
              rewrite Forall_forall in Hwfo. apply (wf_bounded_in w o'); [|done].
              by apply (Hwfo (Some o')).
        -- eapply bounded_not_fresh; [|exact Hf]. by eapply opt_wf_bounded_in.
    + intros x Hx. rewrite ids_of_cons in Hx. apply elem_of_app in Hx as [Hx|Hx].
      * destruct (Hids1 x Hx) as [Hxm|Hf]; [|by right].
        destruct m as [o|] eqn:Hmo; [|by apply elem_of_nil in Hxm].
        destruct (Hm o eq_refl) as (Hino & Hu & _). left. by exists o.
      * destruct (Hids2 x Hx) as [(o' & Hino' & Hu' & Hxo')|Hf].
        -- left. exists o'. split_and!; [done| |done]. intros Hin. by apply Hu', Hused1.
        -- right. by eapply fresh_grows.
    + intros r Hr. by apply Hused2, Hused1.
    + constructor; [|done].
      destruct (Hsome v eq_refl) as (i' & -> & Hnode & Hkey & Hsame).
      exists i'. split_and!; try done. intros k o Hvk Hget.
      pose proof (Hbykey _ _ Hvk Hget) as Hmo. split.
      * apply Hused2. unfold used1. rewrite Hmo. apply elem_of_cons. by left.
      * intros Htype. apply Hsame; [done..|]. destruct (HK _ _ Hget) as [_ ->]. done.
Qed.

Lemma removal_keeps p (olds : list (option Instance)) used :
  keeps world_keeps
    (for_each olds (λ oldChild,
       match oldChild with
       | Some c => if negb (used_has used c)
                   then inDom (removeInstance p oldChild)
                   else ret tt
       | None => ret tt
       end)).
Proof.
  apply keeps_for_each; [apply world_keeps_refl|apply world_keeps_trans|].
  intros [c|] _; [|apply keeps_ret, world_keeps_refl].
  destruct (negb _); [|apply keeps_ret, world_keeps_refl].
  apply world_keeps_inDom, removeInstance_keeps.
Qed.

Lemma reconcileChildren_updated p inst node path w inst' w' :
  dom_wf (dm w) → wf w inst → keys_ok node →
  reconcileChildren createChildPath reconcile p inst node path w = Ret inst' w' →
  ∃ rs, inst' = set_children rs inst ∧ grows w w' ∧ dom_wf (dm w')
        ∧ Forall (opt_wf w') rs ∧ NoDup (ids_of rs)
        ∧ ∀ x, x ∈ ids_of rs → x ∈ ids_of (i_children inst) ∨ fresh w x.
Proof.
  intros Hd Hwf Hk H. unfold reconcileChildren in H. minv H.
  destruct (wf_children_all _ _ Hwf) as [Hnd Hcs].
  apply keys_ok_children in Hk as [Hnk Hk].
  apply (matchChildren_updated _ _ _ _ _ (i_children inst)) in H0
    as (G0 & D0 & Hwf0 & Hnd0 & Hids0 & _ & _); try done.
  2:{ intros k o Hget. apply keyMap_of_get in Hget as [?|?]; done. }
  2:{ intros o Ho. by apply elem_of_keyless_of. }
  2:{ intros v k o _ _ _ Hin. by apply elem_of_nil in Hin. }
  apply removal_keeps in H1 as [G1 D1].
  pose proof (world_keeps_inDom _ (placeChildren_keeps p _ None) _ _ _ H2) as [G2 D2].
  exists a.1. split_and!.
  - done.
  - eauto using grows_trans.
  - auto.
  - eapply Forall_impl; [exact Hwf0|]. intros c. apply opt_wf_grows. eauto using grows_trans.
  - done.
  - intros x Hx. destruct (Hids0 x Hx) as [(o & Ho & _ & Hxo)|Hf]; [left|by right].
    apply elem_of_ids_of. by exists o.
Qed.

Lemma updateInstance_updated p inst node path w i' w' :
  dom_wf (dm w) → wf w inst → keys_ok node →
  updateInstance has_prop read_only comps createChildPath reconcile p inst node path w
  = Ret i' w' →
  grows w w' ∧ dom_wf (dm w') ∧ wf w' i'
  ∧ (∀ x, x ∈ ids i' → x ∈ ids inst ∨ fresh w x)
  ∧ i_ref i' = i_ref inst ∧ i_node i' = node ∧ i_key i' = i_key inst.
Proof.
  intros Hd Hwf Hk H. unfold updateInstance in H.
  destruct (i_kind inst) eqn:Hkind.
  - (* a host element *)
    destruct (i_dom inst) as [dom|]; [|done]. minv H.
    apply world_keeps_updateDomProps in H0 as [G0 D0].
    apply reconcileChildren_updated in H1 as (rs & -> & G1 & D1 & Hrs & Hnd & Hids);
      [|by auto|by eapply wf_grows|done].
    destruct (wf_set_children w w' inst rs) as [Hwf' Hids']; try done.
    { by eapply grows_trans. }
    { intros x Hx. destruct (Hids x Hx) as [?|Hf]; [by left|right]. by eapply fresh_grows. }
    split_and!.
    + by eapply grows_trans.
    + done.
    + by apply wf_set_node.
    + intros x. rewrite ids_set_node. apply Hids'.
    + by destruct inst.
    + by destruct inst.
    + by destruct inst.
  - (* a text *)
    minv H.
    assert (world_keeps w w') as [G0 D0].
    { destruct (i_dom inst) as [dom|]; minv H0; [|apply world_keeps_refl].
      destruct (bool_decide _); minv H0; [apply world_keeps_refl|].
      eapply world_keeps_inDom; [|exact H0].
      eapply keeps_impl; [apply same_tree_keeps|apply keeps_setNodeValue]. }
    split_and!.
    + done.
    + auto.
    + apply wf_set_node. by eapply wf_grows.
    + intros x. rewrite ids_set_node. by left.
    + by destruct inst.
    + by destruct inst.
    + by destruct inst.
  - (* a component *)
    unfold updateComponent in H. minv H.
    apply finally_Ret in H as (s1 & H & ->). minv H.
    apply world_keeps_inHooks in H0 as [G0 D0].
    unfold callComponent in H1. destruct (vtype node) as [| | |fid name] eqn:Ht; try done.
    pose proof (world_keeps_inHooks _ _ _ _ H1) as [G1 D1].
    apply zoom_Ret in H1 as (h' & Hcall & _).
    apply keys_ok_children in Hk as [_ Hk]. apply comps_ok in Hcall; [|done].
    destruct (wf_children_all _ _ Hwf) as [Hnd Hcs].
    assert (Hold : opt_wf w (default None (head (i_children inst)))
                   ∧ ∀ x, x ∈ opt_ids (default None (head (i_children inst))) →
                          x ∈ ids_of (i_children inst)).
    { destruct (i_children inst) as [|c cs]; [split; [done|]|split].
      - intros x Hx. by apply elem_of_nil in Hx.
      - by apply Forall_cons in Hcs as [? _].
      - intros x Hx. rewrite ids_of_cons. apply elem_of_app. by left. }
    destruct Hold as [Hwfold Hidsold].
    apply reconcile_updates in H2 as [G2 D2 Hwf2 Hids2 _ _]; [|by auto| |done].
    2:{ eapply opt_wf_grows; [|exact Hwfold]. exact (grows_trans _ _ _ G0 G1). }
    assert (G : grows w s1) by eauto using grows_trans.
    destruct (wf_set_children w s1 (set_dom (getFirstDom a1) inst)
                (match a1 with Some _ => [a1] | None => [] end)) as [Hwf' Hids'].
    { apply wf_set_dom; [by right|done]. }
    { done. }
    { destruct a1 as [c|]; constructor; [done|constructor]. }
    { rewrite ids_of_single. destruct a1 as [c|]; [apply Hwf2|constructor]. }
    { intros x Hx. rewrite ids_of_single in Hx.
      destruct (Hids2 x Hx) as [Hin|Hf].
      - left. apply Hidsold in Hin. by destruct inst.
      - right. eapply fresh_grows; [|exact Hf]. exact (grows_trans _ _ _ G0 G1). }
    split_and!.
    + destruct G. by split.
    + exact D2.
    + apply wf_set_node.
      destruct Hwf' as [Hs' Hn' Hb']. split; [done|done|exact Hb'].
    + intros x. rewrite ids_set_node. intros Hx. apply Hids' in Hx as [Hx|?]; [left|by right].
      by rewrite ids_set_dom in Hx by (by right).
    + by destruct inst.
    + by destruct inst.
    + by destruct inst.
  - (* a fragment *)
    minv H.
    apply reconcileChildren_updated in H0 as (rs & -> & G1 & D1 & Hrs & Hnd & Hids); try done.
    destruct (wf_set_children w w' inst rs) as [Hwf' Hids']; try done.
    split_and!.
    + done.
    + done.
    + apply wf_set_node, wf_set_dom; [left; by destruct inst|done].
    + intros x. rewrite ids_set_node, ids_set_dom by (left; by destruct inst). apply Hids'.
    + by destruct inst.
    + by destruct inst.
    + by destruct inst.
Qed.

Lemma reconcile_body_updates :
  updates (reconcile_body has_prop read_only comps createChildPath reconcile).
Proof.
  intros p old node path w r w' Hd Hwf Hk H. unfold reconcile_body in H.
  destruct node as [n|].
  - destruct old as [inst|].
    + destruct (negb (bool_decide (vtype (i_node inst) = vtype n))
                || negb (bool_decide (i_key inst = vkey n))) eqn:Hdiff.
      * minv H.
        pose proof (world_keeps_inDom _ (removeInstance_keeps p _) _ _ _ H0) as [G0 D0].
        apply mountNode_updated in H1 as (G1 & D1 & Hwf1 & Hfr & Hnode & Hkey); [|by auto|done].
        split.
        -- by eapply grows_trans.
        -- done.
        -- done.
        -- intros x Hx. right. eapply fresh_grows; [exact G0|by apply Hfr].
        -- done.
        -- intros n' [= <-]. exists a0. split_and!; try done.
           intros o [= <-] Htype Hkey'.
           rewrite (bool_decide_true _ Htype), (bool_decide_true _ Hkey') in Hdiff. done.
      * minv H.
        apply updateInstance_updated in H0 as (G & D & Hwf' & Hids & Href & Hnode & Hkey);
          try done.
        apply orb_false_elim in Hdiff as [_ Hsame].
        apply negb_false_iff, bool_decide_eq_true in Hsame.
        split; try done.
        intros n' [= <-]. exists a. split_and!; try done; [congruence|].
        by intros o [= <-] _ _.
    + minv H.
      apply mountNode_updated in H0 as (G1 & D1 & Hwf1 & Hfr & Hnode & Hkey); try done.
      split; try done.
      * intros x Hx. right. by apply Hfr.
      * intros n' [= <-]. exists a. by split_and!.
  - minv H.
    assert (world_keeps w w') as [G D].
    { destruct old as [inst|]; minv H0; [|apply world_keeps_refl].
      apply (world_keeps_inDom _ (removeInstance_keeps p _) _ _ _ H0). }
    split; try done.
    + auto.
    + intros x Hx. by apply elem_of_nil in Hx.
Qed.

End WithReconcile.

Lemma reconcile_updates fuel :
  updates (reconcile has_prop read_only comps createChildPath fuel).
Proof.
  induction fuel as [|fuel IH]; [by intros p old node path w r w' _ _ _ H|].
  by apply reconcile_body_updates.
Qed.

End Updating.

(* --------------------------------------------------------------------- *)
(** ** The order the last pass leaves *)
(* --------------------------------------------------------------------- *)

Section Placing.
Import Dom Reconciler TreeSpec.
Local Open Scope nat_scope.

Lemma filter_ne_notin (n : nat) (l : list nat) : n ∉ l → filter (λ x, x ≠ n) l = l.
Proof.
  induction l as [|x l IH]; intros Hn; [done|].
  apply not_elem_of_cons in Hn as [Hne Hn].
  rewrite filter_cons_True by done. by rewrite IH.
Qed.

Lemma filter_ne_app_end (n : nat) (l : list nat) :
  n ∉ l → filter (λ x, x ≠ n) (l ++ [n]) = l.
Proof.
  intros Hn. rewrite filter_app, filter_ne_notin by done.
  rewrite filter_cons_False by (intros ?; done). by rewrite filter_nil, app_nil_r.
Qed.

Lemma filter_notin_nil (l : list nat) : filter (λ x, x ∉ []) l = l.
Proof.
  induction l as [|x l IH]; [done|].
  rewrite filter_cons, IH. destruct (decide (x ∉ [])) as [|Hx]; [done|].
  exfalso. apply Hx, not_elem_of_nil.
Qed.

Lemma insert_before_app a n (Q T : list nat) :
  a ∉ Q → insert_before a n (Q ++ a :: T) = Q ++ n :: a :: T.
Proof.
  induction Q as [|x Q IH]; intros Ha; simpl.
  - by rewrite decide_True.
  - apply not_elem_of_cons in Ha as [Hne Ha].
    rewrite decide_False by done. by rewrite IH.
Qed.

Lemma next_in_split n (P1 R : list nat) :
  n ∉ P1 → next_in (P1 ++ n :: R) n = head R.
Proof.
  induction P1 as [|x P1 IH]; intros Hn; simpl.
  - by rewrite decide_True.
  - apply not_elem_of_cons in Hn as [Hne Hn].
    rewrite decide_False by done. by apply IH.
Qed.

(** One node of an instance, put before the anchor [head T] or at the end. *)
Lemma place_node p n anchor (P T : list nat) d u d' :
  kidsOf d p = P ++ T → NoDup (P ++ T) → n ∉ T → anchor = head T →
  (let* d := get_state in
   if isChildOf d n p && bool_decide (nextSibling d p n = anchor)
   then ret tt
   else match anchor with
        | Some a => insertBefore p n a
        | None => appendChild p n
        end) d = Ret u d' →
  kidsOf d' p = filter (λ x, x ≠ n) P ++ n :: T.
Proof.
  intros Hkids Hnd HnT -> H. minv H.
  destruct (isChildOf d n p && bool_decide (nextSibling d p n = head T)) eqn:Hfast.
  - (* in place *)
    minv H. apply andb_prop in Hfast as [Hin Hnext].
    unfold isChildOf in Hin. apply bool_decide_eq_true in Hin, Hnext.
    unfold nextSibling in Hnext. rewrite Hkids in Hin, Hnext.
    apply elem_of_app in Hin as [Hin|Hin]; [|done].
    apply list_elem_of_split in Hin as (P1 & P2 & ->).
    apply NoDup_app in Hnd as (HndP & Hdisj & HndT).
    apply NoDup_app in HndP as (_ & Hdisj1 & HndP2).
    assert (Hn1 : n ∉ P1).
    { intros Hin. apply (Hdisj1 n Hin). apply elem_of_cons. by left. }
    rewrite <- app_assoc in Hnext. simpl in Hnext. rewrite next_in_split in Hnext by done.
    destruct P2 as [|y P2].
    + rewrite Hkids, filter_ne_app_end by done. by rewrite <- app_assoc.
    + exfalso. simpl in Hnext. destruct T as [|t T]; [done|]. injection Hnext as ->.
      apply (Hdisj t).
      * apply elem_of_app. right. apply elem_of_cons. right. apply elem_of_cons. by left.
      * apply elem_of_cons. by left.
  - destruct T as [|a T]; simpl in H.
    + (* at the end *)
      apply appendChild_Ret in H as (_ & _ & _ & _ & Hp & _).
      rewrite Hp, Hkids, !app_nil_r. done.
    + (* before the anchor *)
      apply insertBefore_Ret in H as (_ & _ & _ & _ & _ & H).
      rewrite decide_False in H.
      2:{ intros ->. apply HnT. apply elem_of_cons. by left. }
      destruct H as [Hp _]. rewrite Hp, Hkids, filter_app.
      rewrite (filter_ne_notin n (a :: T)) by done.
      apply insert_before_app. rewrite list_elem_of_filter. intros [_ Ha].
      apply NoDup_app in Hnd as (_ & Hdisj & _). apply (Hdisj a Ha).
      apply elem_of_cons. by left.
Qed.

Lemma place_step_keeps p n anchor :
  keeps dom_keeps
    (let* d := get_state in
     if isChildOf d n p && bool_decide (nextSibling d p n = anchor)
     then ret tt
     else match anchor with
          | Some a => insertBefore p n a
          | None => appendChild p n
          end).
Proof.
  apply keeps_get_state; [apply dom_keeps_refl|apply dom_keeps_trans|]. intros d.
  destruct (_ && _); [apply keeps_ret, dom_keeps_refl|].
  destruct anchor as [a|]; [apply insertBefore_keeps|apply appendChild_keeps].
Qed.

(** All the nodes of an instance, one after the other. *)
Lemma place_nodes p anchor (T ns : list nat) :
  NoDup ns → (∀ n, n ∈ ns → n ∉ T) → anchor = head T →
  ∀ (P : list nat) d u d',
    dom_wf d → kidsOf d p = P ++ T →
    for_each ns (λ node,
      (let* d := get_state in
       if isChildOf d node p && bool_decide (nextSibling d p node = anchor)
       then ret tt
       else match anchor with
            | Some a => insertBefore p node a
            | None => appendChild p node
            end)) d = Ret u d' →
    dom_wf d' ∧ kidsOf d' p = filter (λ x, x ∉ ns) P ++ ns ++ T.
Proof.
  intros Hnd HT Hanchor. induction ns as [|n ns IH]; intros P d u d' Hwf Hkids H; simpl in H.
  - minv H. split; [done|]. rewrite Hkids. f_equal. symmetry. apply filter_notin_nil.
  - apply bind_Ret in H as (u1 & d1 & H1 & H).
    apply NoDup_cons in Hnd as [Hn Hnd].
    assert (Hwf1 : dom_wf d1).
    { destruct (place_step_keeps p n anchor _ _ _ H1) as [_ Hd1]. by apply Hd1. }
    apply (place_node p n anchor P T) in H1; try done.
    2:{ rewrite <- Hkids. apply Hwf. }
    2:{ apply HT. apply elem_of_cons. by left. }
    apply (IH) with (P := filter (λ x, x ≠ n) P ++ [n]) in H as [Hwf' Hkids']; try done.
    2:{ intros m Hm. apply HT. apply elem_of_cons. by right. }
    2:{ rewrite H1. by rewrite <- app_assoc. }
    split; [done|]. rewrite Hkids', filter_app, list_filter_filter.
    rewrite (filter_cons_True _ n []) by done. rewrite filter_nil, <- !app_assoc. simpl.
    f_equal. apply list_filter_iff. intros x. rewrite not_elem_of_cons. tauto.
Qed.

Lemma nodes_of_snoc cs c : nodes_of (cs ++ [c]) = nodes_of cs ++ getDomNodes c.
Proof. rewrite nodes_of_app. simpl. by rewrite app_nil_r. Qed.

(** The last pass over the children [rs], read from the last to the first:
    their nodes end up in the order of [rs], right before [T]. *)
Lemma placeChildren_order p (rs : list (option Instance)) :
  Forall opt_shaped rs → NoDup (nodes_of rs) →
  ∀ anchor (T P : list nat) d u d',
    dom_wf d → kidsOf d p = P ++ T → anchor = head T →
    (∀ n, n ∈ nodes_of rs → n ∉ T) →
    placeChildren p (rev rs) anchor d = Ret u d' →
    kidsOf d' p = filter (λ x, x ∉ nodes_of rs) P ++ nodes_of rs ++ T.
Proof.
  induction rs as [|c rs IH] using rev_ind; intros Hs Hnd anchor T P d u d' Hwf Hkids Ha HT H.
  - simpl in H. minv H. rewrite Hkids. simpl. f_equal. symmetry. apply filter_notin_nil.
  - rewrite rev_unit in H. simpl in H.
    apply Forall_app in Hs as [Hs Hc]. apply Forall_cons in Hc as [Hc _].
    rewrite nodes_of_snoc in Hnd, HT |- *.
    apply NoDup_app in Hnd as (Hnd1 & Hdisj & Hnd2).
    assert (Hskip : getDomNodes c = [] →
              placeChildren p (rev rs) anchor d = Ret u d' →
              kidsOf d' p = filter (λ x, x ∉ nodes_of rs ++ getDomNodes c) P
                            ++ (nodes_of rs ++ getDomNodes c) ++ T).
    { intros Hnil H'. rewrite Hnil, !app_nil_r. eapply IH; try done.
      intros n Hn. apply HT. apply elem_of_app. by left. }
    destruct c as [c|]; [|by apply Hskip].
    pose proof (getFirstDom_of_head c Hc) as Hfirst. simpl in Hskip.
    destruct (getFirstDom_of c) as [f|] eqn:Hf.
    2:{ apply Hskip; [|done]. by destruct (getDomNodes_of c). }
    clear Hskip. apply bind_Ret in H as (u1 & d1 & H1 & H).
    unfold insertInstance in H1.
    apply (place_nodes p anchor T) with (P := P) in H1 as [Hwf1 Hkids1]; try done.
    2:{ intros n Hn. apply HT. apply elem_of_app. by right. }
    apply IH with (T := getDomNodes (Some c) ++ T)
                  (P := filter (λ x, x ∉ getDomNodes (Some c)) P) in H; try done.
    + rewrite H, list_filter_filter, <- !app_assoc. f_equal.
      apply list_filter_iff. intros x. rewrite elem_of_app. tauto.
    + simpl. destruct (getDomNodes_of c); [done|]. simpl in *. congruence.
    + intros n Hn Hin. apply elem_of_app in Hin as [Hin|Hin].
      * by apply (Hdisj n).
      * apply (HT n); [|done]. apply elem_of_app. by left.
Qed.

End Placing.

(* --------------------------------------------------------------------- *)
(** ** Keyed children, reordered *)
(* --------------------------------------------------------------------- *)

Section Keyed.
Import Dom Reconciler TreeSpec.
Local Open Scope nat_scope.

Variable has_prop : string → string → bool.
Variable read_only : string → string → bool.
Variable comps : nat → list (string * Js.Value) → list VNode → M Hooks.Ctx (option VNode).
Variable createChildPath :
  string → option string → nat → option NodeType → option (list VNode) → string.

Lemma NoDup_key_inj (olds : list Instance) o o' :
  NoDup (i_key <$> olds) → o ∈ olds → o' ∈ olds → i_key o = i_key o' → o = o'.
Proof.
  induction olds as [|x olds IH]; intros Hnd Ho Ho' Hk; [by apply elem_of_nil in Ho|].
  rewrite fmap_cons in Hnd. apply NoDup_cons in Hnd as [Hx Hnd].
  apply elem_of_cons in Ho as [->|Ho], Ho' as [->|Ho'].
  - done.
  - exfalso. apply Hx. rewrite Hk. by apply list_elem_of_fmap_2.
  - exfalso. apply Hx. rewrite <- Hk. by apply list_elem_of_fmap_2.
  - by apply IH.
Qed.

Lemma find_key (olds : list Instance) o :
  NoDup (i_key <$> olds) → o ∈ olds →
  List.find (λ o', bool_decide (i_key o' = i_key o)) olds = Some o.
Proof.
  induction olds as [|x olds IH]; intros Hnd Ho; [by apply elem_of_nil in Ho|].
  rewrite fmap_cons in Hnd. apply NoDup_cons in Hnd as [Hx Hnd]. simpl.
  apply elem_of_cons in Ho as [->|Ho].
  - by rewrite bool_decide_true.
  - rewrite bool_decide_false; [by apply IH|].
    intros Hk. apply Hx. rewrite Hk. by apply list_elem_of_fmap_2.
Qed.

Lemma removal_noop p (olds : list (option Instance)) used (w : World) :
  (∀ c, Some c ∈ olds → i_ref c ∈ used) →
  for_each olds (λ oldChild,
    match oldChild with
    | Some c => if negb (used_has used c)
                then inDom (removeInstance p oldChild)
                else ret tt
    | None => ret tt
    end) w = Ret tt w.
Proof.
  induction olds as [|c olds IH]; intros Hused; [done|].
  simpl. unfold bind at 1.
  assert (Hhd : match c with
                | Some c0 => if negb (used_has used c0)
                             then inDom (removeInstance p c)
                             else ret tt
                | None => ret tt
                end w = Ret tt w).
  { destruct c as [c|]; [|done]. unfold used_has.
    rewrite bool_decide_true; [done|]. apply Hused. apply elem_of_cons. by left. }
  rewrite Hhd. apply IH. intros c' Hc'. apply Hused. apply elem_of_cons. by right.
Qed.

Lemma Forall2_Some {A B} (Q : A → B → Prop) (vs : list A) (rs : list (option B)) :
  Forall2 (λ v r, ∃ n, r = Some n ∧ Q v n) vs rs →
  ∃ news, rs = Some <$> news ∧ Forall2 Q vs news.
Proof.
  induction 1 as [|v r vs rs (n & -> & Hq) _ (news & -> & IH)].
  - by exists [].
  - exists (n :: news). split; [done|by constructor].
Qed.

Lemma Forall2_impl_elem {A B} (P Q : A → B → Prop) (l : list A) (k : list B) :
  Forall2 P l k → (∀ x y, x ∈ l → P x y → Q x y) → Forall2 Q l k.
Proof.
  induction 1 as [|x y l k Hxy _ IH]; intros HPQ; constructor.
  - apply HPQ; [by apply elem_of_cons; left|done].
  - apply IH. intros x' y' Hx'. apply HPQ. apply elem_of_cons. by right.
Qed.

Section WithReconcile.
Variable reconcile :
  nat → option Instance → option VNode → string → M World (option Instance).
Hypothesis reconcile_updates : updates reconcile.

Lemma reconcileChildren_keyed p inst node path w inst' w' olds :
  dom_wf (dm w) → wf w inst → keys_ok node →
  i_children inst = Some <$> olds →
  Forall (λ o, is_Some (i_key o)) olds → NoDup (i_key <$> olds) →
  (λ o, (vtype (i_node o), i_key o)) <$> olds
    ≡ₚ (λ v, (vtype v, vkey v)) <$> vchildren node →
  reconcileChildren createChildPath reconcile p inst node path w = Ret inst' w' →
  ∃ news,
    inst' = set_children (Some <$> news) inst
    ∧ Forall2 (λ v n, i_node n = v ∧ i_key n = vkey v
                      ∧ ∃ o, o ∈ olds ∧ i_key o = vkey v ∧ i_ref n = i_ref o)
              (vchildren node) news
    ∧ ∃ rest, kidsOf (dm w') p = rest ++ nodes_of (Some <$> news)
              ∧ ∀ n, n ∈ nodes_of (Some <$> news) → n ∉ rest.
Proof.
  intros Hd Hwf Hk Hcs Hkeyed Hndk Hperm H. unfold reconcileChildren in H. minv H.
  destruct (wf_children_all _ _ Hwf) as [Hnd Hwfcs].
  apply keys_ok_children in Hk as [Hnk Hk].
  set (keyMap := keyMap_of (i_children inst) []) in *.
  assert (HK : ∀ k o, JsMap.get keyMap k = Some o → Some o ∈ i_children inst ∧ i_key o = Some k).
  { intros k o Hget. apply keyMap_of_get in Hget as [?|?]; done. }
  (* every new child has its old child, and every old child its new one *)
  assert (Hold : ∀ v, v ∈ vchildren node →
            ∃ o k, o ∈ olds ∧ vkey v = Some k ∧ i_key o = Some k
                   ∧ vtype (i_node o) = vtype v ∧ JsMap.get keyMap k = Some o).
  { intros v Hv.
    assert (Hin : (vtype v, vkey v) ∈ (λ o, (vtype (i_node o), i_key o)) <$> olds).
    { rewrite Hperm. by apply (list_elem_of_fmap_2 (λ v, (vtype v, vkey v))). }
    apply list_elem_of_fmap in Hin as (o & [= Ht Hkey] & Ho).
    rewrite Forall_forall in Hkeyed. destruct (Hkeyed o Ho) as [k Hko].
    exists o, k. split_and!; try done; [congruence|].
    assert (Hino : Some o ∈ i_children inst) by (rewrite Hcs; by apply list_elem_of_fmap_2).
    destruct (keyMap_of_has (i_children inst) [] o k Hino Hko) as [o' Hget].
    destruct (HK _ _ Hget) as [Hino' Hko'].
    rewrite Hcs in Hino'. apply list_elem_of_fmap in Hino' as (o'' & [= <-] & Ho'').
    assert (o' = o) as -> by (apply (NoDup_key_inj olds); congruence).
    done. }
  assert (Hnew : ∀ o, o ∈ olds → ∃ v, v ∈ vchildren node ∧ vkey v = i_key o).
  { intros o Ho.
    assert (Hin : (vtype (i_node o), i_key o) ∈ (λ v, (vtype v, vkey v)) <$> vchildren node).
    { rewrite <- Hperm. by apply (list_elem_of_fmap_2 (λ o, (vtype (i_node o), i_key o))). }
    apply list_elem_of_fmap in Hin as (v & [= Ht Hkey] & Hv). by exists v. }
  eapply matchChildren_updated with (olds := i_children inst) in H0
    as (G0 & D0 & Hwf0 & Hnd0 & Hids0 & _ & Hall); try done.
  2:{ intros o Ho. by apply elem_of_keyless_of. }
  2:{ intros v k o _ _ _ Hin. by apply elem_of_nil in Hin. }
  (* no old child is removed *)
  rewrite removal_noop in H1.
  2:{ intros c Hc. rewrite Hcs in Hc. apply list_elem_of_fmap in Hc as (o & [= ->] & Ho).
      destruct (Hnew o Ho) as (v & Hv & Hvk).
      destruct (Hold v Hv) as (o' & k & Ho' & Hvk' & Hko' & _ & Hget).
      assert (o' = o) as -> by (apply (NoDup_key_inj olds); congruence).
      apply list_elem_of_lookup in Hv as [j Hj].
      destruct (Forall2_lookup_l _ _ _ _ _ Hall Hj) as (r & _ & i' & _ & _ & _ & Hr).
      by destruct (Hr k o Hvk' Hget). }
  simplify_eq.
  (* the new children *)
  assert (Hall' : Forall2 (λ v r, ∃ n, r = Some n ∧
                    (i_node n = v ∧ i_key n = vkey v
                     ∧ ∃ o, o ∈ olds ∧ i_key o = vkey v ∧ i_ref n = i_ref o))
                    (vchildren node) a.1).
  { eapply Forall2_impl_elem; [exact Hall|].
    intros v r Hv (i' & -> & Hnode & Hkey & Hr).
    exists i'. split; [done|]. split_and!; try done.
    destruct (Hold v Hv) as (o & k & Ho & Hvk & Hko & Ht & Hget).
    exists o. split_and!; [done|congruence|]. by apply (Hr k o Hvk Hget). }
  destruct (Forall2_Some _ _ _ Hall') as (news & Hrs & Hnews).
  apply zoom_Ret in H2 as (d' & Hplace & ->).
  lazymatch type of Hplace with
  | placeChildren _ _ _ (dm ?st) = _ =>
      apply (placeChildren_order p a.1) with (T := []) (P := kidsOf (dm st) p) in Hplace
  end.
  - exists news. rewrite <- Hrs. split; [done|]. split; [done|]. simpl.
    rewrite Hplace, app_nil_r. eexists. split; [reflexivity|].
    intros n Hn Hin. by apply list_elem_of_filter in Hin as [Hnot _].
  - eapply Forall_impl; [exact Hwf0|]. intros [c|]; [apply wf_shaped|done].
  - by apply NoDup_nodes_of_ids.
  - done.
  - by rewrite app_nil_r.
  - done.
  - intros n _. apply not_elem_of_nil.
Qed.

End WithReconcile.
(** The instance that held a key, by its reference. *)
Lemma refs_by_key (olds news : list Instance) (vs : list VNode) :
  NoDup (i_key <$> olds) →
  Forall2 (λ v n, i_node n = v ∧ i_key n = vkey v
                  ∧ ∃ o, o ∈ olds ∧ i_key o = vkey v ∧ i_ref n = i_ref o) vs news →
  i_key <$> olds ≡ₚ vkey <$> vs →
  i_ref <$> news ≡ₚ i_ref <$> olds.
Proof.
  intros Hnd Hall Hperm.
  set (f := λ k : option string,
              from_option i_ref 0 (List.find (λ o, bool_decide (i_key o = k)) olds)).
  assert (Hf : ∀ o, o ∈ olds → f (i_key o) = i_ref o).
  { intros o Ho. unfold f. by rewrite find_key. }
  assert (Holds : i_ref <$> olds = f <$> (i_key <$> olds)).
  { rewrite <- list_fmap_compose. apply Forall_fmap_ext, Forall_forall.
    intros o Ho. simpl. by rewrite Hf. }
  assert (Hnews : i_ref <$> news = f <$> (vkey <$> vs)).
  { clear Hperm. induction Hall as [|v n vs news (_ & _ & o & Ho & Hk & Href) _ IH]; [done|].
    rewrite !fmap_cons, IH. f_equal. by rewrite Href, <- Hk, Hf. }
  rewrite Holds, Hnews. by rewrite Hperm.
Qed.

(** C1, X9: a Fragment or Host instance whose children all carry keys, no key
    twice, reconciled against a node of its type and key whose children are
    those of the instance up to their order (the same keys with the same
    types): the result is the instance itself; each new child is taken by
    the instance object that held its key, so the children of the result
    are the old instance objects, none missing and none new, in the order
    of the new children; and the surface nodes of these children are the
    last children of their host parent, in that order. *)
Theorem reconcile_keyed_permutation fuel hostParent instance node path w r w' olds :
  comps_keys_ok comps →
  dom_wf (dm w) → wf w instance → keys_ok node →
  i_kind instance = FRAGMENT ∨ i_kind instance = HOST →
  vtype (i_node instance) = vtype node → i_key instance = vkey node →
  i_children instance = Some <$> olds →
  Forall (λ o, is_Some (i_key o)) olds → NoDup (i_key <$> olds) →
  (λ o, (vtype (i_node o), i_key o)) <$> olds
    ≡ₚ (λ v, (vtype v, vkey v)) <$> vchildren node →
  reconcile has_prop read_only comps createChildPath fuel
    hostParent (Some instance) (Some node) path w = Ret r w' →
  ∃ i news,
    r = Some i ∧ i_ref i = i_ref instance ∧ i_node i = node
    ∧ i_children i = Some <$> news
    ∧ Forall2 (λ v n, i_node n = v ∧ i_key n = vkey v
                      ∧ ∃ o, o ∈ olds ∧ i_key o = vkey v ∧ i_ref n = i_ref o)
              (vchildren node) news
    ∧ i_ref <$> news ≡ₚ i_ref <$> olds
    ∧ ∃ rest, kidsOf (dm w') (children_host hostParent instance)
              = rest ++ nodes_of (Some <$> news)
              ∧ ∀ n, n ∈ nodes_of (Some <$> news) → n ∉ rest.
Proof.
  intros Hcomps Hd Hwf Hk Hkind Htype Hkey Hcs Hkeyed Hndk Hperm H.
  destruct fuel as [|fuel]; [done|]. cbn [reconcile] in H. unfold reconcile_body in H.
  rewrite (bool_decide_true _ Htype), (bool_decide_true _ Hkey) in H. simpl in H.
  minv H. unfold updateInstance in H0.
  pose proof (reconcile_updates has_prop read_only comps createChildPath Hcomps fuel) as Hrec.
  assert (Hkeys : i_key <$> olds ≡ₚ vkey <$> vchildren node).
  { apply (fmap_Permutation snd) in Hperm. by rewrite <- !list_fmap_compose in Hperm. }
  destruct Hkind as [Hkind|Hkind]; rewrite Hkind in H0.
  - (* a fragment *)
    minv H0.
    apply (reconcileChildren_keyed _ Hrec) with (olds := olds) in H1
      as (news & -> & Hall & Hkids); try done.
    eexists _, news. split; [done|]. split_and!; try done.
    + by destruct instance.
    + by destruct instance.
    + by destruct instance.
    + by eapply refs_by_key.
    + unfold children_host. by rewrite Hkind.
  - (* a host element *)
    destruct (i_dom instance) as [dom|] eqn:Hdom; [|done]. minv H0.
    apply world_keeps_updateDomProps in H1 as [G0 D0].
    apply (reconcileChildren_keyed _ Hrec) with (olds := olds) in H2
      as (news & -> & Hall & Hkids); try done; [|by auto|by eapply wf_grows].
    eexists _, news. split; [done|]. split_and!; try done.
    + by destruct instance.
    + by destruct instance.
    + by destruct instance.
    + by eapply refs_by_key.
    + unfold children_host. by rewrite Hkind, Hdom.
Qed.

End Keyed.

(* --------------------------------------------------------------------- *)
(** ** A reordering, rendered *)
(* --------------------------------------------------------------------- *)

Section KeyedWitness.
Import Dom Reconciler TreeSpec Examples.
Local Open Scope nat_scope.

Lemma no_comps_keys_ok : comps_keys_ok no_comps.
Proof. intros fid attrs children h v h' _ H. unfold no_comps in H. by minv H. Qed.

Lemma page_wf : dom_wf (dm world0).
Proof.
  intros p. unfold kidsOf. simpl. destruct (decide (p = 0)) as [->|Hp].
  - rewrite lookup_singleton_eq. constructor.
  - rewrite lookup_singleton_ne by done. constructor.
Qed.

Lemma keyed_before_keys_ok : keys_ok keyed_before.
Proof.
  unfold keyed_before, el, text. cbn [keys_ok omap vkey].
  repeat split; try exact I; try apply NoDup_nil_2.
  apply NoDup_cons. split; [|apply NoDup_singleton].
  intros H. apply list_elem_of_singleton in H. discriminate H.
Qed.

Lemma keyed_after_keys_ok : keys_ok keyed_after.
Proof.
  unfold keyed_after, el, text. cbn [keys_ok omap vkey].
  repeat split; try exact I; try apply NoDup_nil_2.
  apply NoDup_cons. split; [|apply NoDup_singleton].
  intros H. apply list_elem_of_singleton in H. discriminate H.
Qed.

(** What the first render leaves is a tree over a document without
    repetitions. *)
Lemma keyed_mounted :
  dom_wf (dm world_keyed) ∧ wf world_keyed old_keyed.
Proof.
  assert (H : Reconciler.reconcile has_prop read_only no_comps ElementsDoc.createChildPath 20
                0 None (Some keyed_before) "0" world0 = Ret (Some old_keyed) world_keyed).
  { vm_compute. reflexivity. }
  apply (reconcile_updates _ _ _ _ no_comps_keys_ok) in H as [_ Hd Hwf _ _ _].
  - split; [exact Hd|exact Hwf].
  - apply page_wf.
  - exact I.
  - apply keyed_before_keys_ok.
Qed.

Lemma reconcile_keyed_permutation_witness :
  ∃ i news,
    result_of keyed_rerender = Some i ∧ i_ref i = i_ref old_keyed ∧ i_node i = keyed_after
    ∧ i_children i = Some <$> news
    ∧ Forall2 (λ v n, i_node n = v ∧ i_key n = vkey v
                      ∧ ∃ o, o ∈ keyed_olds ∧ i_key o = vkey v ∧ i_ref n = i_ref o)
              (vchildren keyed_after) news
    ∧ i_ref <$> news ≡ₚ i_ref <$> keyed_olds
    ∧ ∃ rest, kidsOf (dm (world_of keyed_rerender)) (children_host 0 old_keyed)
              = rest ++ nodes_of (Some <$> news)
              ∧ ∀ n, n ∈ nodes_of (Some <$> news) → n ∉ rest.
Proof.
  destruct keyed_mounted as [Hd Hwf].
  apply (reconcile_keyed_permutation has_prop read_only no_comps ElementsDoc.createChildPath
           20 0 old_keyed keyed_after "0" world_keyed _ _ keyed_olds).
  - apply no_comps_keys_ok.
  - exact Hd.
  - exact Hwf.
  - apply keyed_after_keys_ok.
  - right. vm_compute. reflexivity.
  - vm_compute. reflexivity.
  - vm_compute. reflexivity.
  - vm_compute. reflexivity.
  - apply (bool_decide_unpack _). by vm_compute.
  - apply (bool_decide_unpack _). by vm_compute.
  - vm_compute. apply perm_swap.
  - vm_compute. reflexivity.
Defined.

End KeyedWitness.

(* ===================================================================== *)
(** * Further properties of the reconciler and of the DOM helpers *)
(* ===================================================================== *)

Section TreeExtras.
Import Dom Reconciler MountSpec TreeSpec.
Local Open Scope nat_scope.

Variable has_prop : string → string → bool.
Variable read_only : string → string → bool.
Variable comps : nat → list (string * Js.Value) → list VNode → M Hooks.Ctx (option VNode).
Variable createChildPath :
  string → option string → nat → option NodeType → option (list VNode) → string.

(** The child list of [p] after the removal of [nodes], one by one. *)
Lemma remove_nodes_exact p (nodes : list nat) d :
  ∃ d', for_each nodes (λ node,
          (let* d := get_state in
           if isChildOf d node p then removeChild p node else ret tt)) d = Ret tt d'
        ∧ next d' = next d ∧ nodeValue d' = nodeValue d ∧ tags d' = tags d
        ∧ kidsOf d' p = filter (λ x, x ∉ nodes) (kidsOf d p)
        ∧ ∀ q, q ≠ p → kidsOf d' q = kidsOf d q.
Proof.
  revert d. induction nodes as [|n nodes IH]; intros d; simpl.
  - exists d. split_and!; try done. by rewrite filter_notin_nil.
  - assert (∃ d1, (let* d := get_state in
                   if isChildOf d n p then removeChild p n else ret tt) d = Ret tt d1
                  ∧ next d1 = next d ∧ nodeValue d1 = nodeValue d ∧ tags d1 = tags d
                  ∧ kidsOf d1 p = filter (λ x, x ≠ n) (kidsOf d p)
                  ∧ ∀ q, q ≠ p → kidsOf d1 q = kidsOf d q)
      as (d1 & H1 & Hn1 & Hv1 & Ht1 & Hp1 & Hq1).
    { unfold bind at 1, get_state. destruct (isChildOf d n p) eqn:Hc.
      - destruct (removeChild p n d) as [[] d1|e d1|] eqn:Hr.
        + apply removeChild_Ret in Hr as (_ & ? & ? & ? & _ & ? & ?). by exists d1.
        + unfold removeChild, bind, log, get_state in Hr. simpl in Hr.
          unfold isChildOf, kidsOf in *. simpl in Hr. by rewrite Hc in Hr.
        + unfold removeChild, bind, log, get_state in Hr. simpl in Hr.
          unfold isChildOf, kidsOf in *. simpl in Hr. by rewrite Hc in Hr.
      - exists d. split_and!; try done. symmetry. apply filter_ne_notin.
        unfold isChildOf in Hc. by apply bool_decide_eq_false in Hc. }
    destruct (IH d1) as (d' & H2 & Hn2 & Hv2 & Ht2 & Hp2 & Hq2).
    exists d'. split_and!; try congruence.
    + apply bind_Ret. by exists tt, d1.
    + rewrite Hp2, Hp1, list_filter_filter. apply list_filter_iff.
      intros x. rewrite not_elem_of_cons. tauto.
    + intros q Hq. by rewrite Hq2, Hq1.
Qed.

(** X1: [removeInstance] never fails.  It takes the surface nodes of the
    instance out of the child list of the parent, keeps the other children
    of the parent in their order, and leaves every other child list, the
    texts and the tags as they are. *)
Theorem removeInstance_removes parentDom instance d :
  ∃ d', removeInstance parentDom (Some instance) d = Ret tt d'
        ∧ kidsOf d' parentDom
          = filter (λ x, x ∉ getDomNodes_of instance) (kidsOf d parentDom)
        ∧ (∀ q, q ≠ parentDom → kidsOf d' q = kidsOf d q)
        ∧ next d' = next d ∧ nodeValue d' = nodeValue d ∧ tags d' = tags d.
Proof.
  destruct (remove_nodes_exact parentDom (getDomNodes_of instance) d)
    as (d' & H & Hn & Hv & Ht & Hp & Hq).
  exists d'. by split_and!.
Qed.

(** X2: [reconcile] on an instance and the node [null] never fails and
    returns [null].  It does what [removeInstance] does and nothing else:
    the hook context, with its stored effects and its trace of calls, and
    the instances are as before, so no effect cleanup runs at this point. *)
Theorem reconcile_unmounts fuel parentDom instance path w :
  ∃ w', reconcile has_prop read_only comps createChildPath (S fuel)
          parentDom (Some instance) None path w = Ret None w'
        ∧ hk w' = hk w ∧ nextInstance w' = nextInstance w
        ∧ removeInstance parentDom (Some instance) (dm w) = Ret tt (dm w')
        ∧ kidsOf (dm w') parentDom
          = filter (λ x, x ∉ getDomNodes_of instance) (kidsOf (dm w) parentDom).
Proof.
  destruct (remove_nodes_exact parentDom (getDomNodes_of instance) (dm w))
    as (d' & H & _ & _ & _ & Hp & _).
  exists (mkWorld d' (hk w) (nextInstance w)). cbn [reconcile]. unfold reconcile_body.
  split_and!; try done.
  apply bind_Ret. exists tt, (mkWorld d' (hk w) (nextInstance w)). split; [|done].
  apply inDom_Ret. by exists d'.
Qed.

(** X3: a mount makes new things only.  When [reconcile] without an old
    instance returns, the instance is a new object for the node at the
    path, its surface nodes did not exist before, and every child list of
    the document holds its old children or nodes made by this mount: no
    node that existed is inserted anywhere. *)
Theorem reconcile_mount_is_new fuel parentDom node path w r w' :
  reconcile has_prop read_only comps createChildPath fuel
    parentDom None (Some node) path w = Ret r w' →
  ∃ i, r = Some i ∧ i_node i = node ∧ i_path i = path ∧ i_key i = vkey node
       ∧ nextInstance w ≤ i_ref i < nextInstance w'
       ∧ (∀ m, m ∈ getDomNodes_of i → next (dm w) ≤ m)
       ∧ ∀ q m, m ∈ kidsOf (dm w') q → m ∈ kidsOf (dm w) q ∨ next (dm w) ≤ m.
Proof.
  intros H. apply reconcile_mounts in H.
  destruct r as [i|]; [|done]. destruct H as [Hnode Hpath Hkey Href Hdoms [Hnext _ Hadds]].
  exists i. split_and!; try done; apply Href.
Qed.

(** The anchor of an insertion that is taken in place is a child. *)
Lemma next_in_elem (l : list nat) n a : next_in l n = Some a → a ∈ l.
Proof.
  induction l as [|x l IH]; simpl; [done|].
  destruct (decide (x = n)).
  - intros H. destruct l as [|y l]; simpl in H; [done|]. injection H as ->.
    apply elem_of_cons. right. apply elem_of_cons. by left.
  - intros H. apply elem_of_cons. right. by apply IH.
Qed.


(** An insertion before a child, or at the end, returns. *)
Lemma place_node_Ret p n anchor (P T : list nat) d :
  kidsOf d p = P ++ T → anchor = head T →
  ∃ d', (let* d := get_state in
         if isChildOf d n p && bool_decide (nextSibling d p n = anchor)
         then ret tt
         else match anchor with
              | Some a => insertBefore p n a
              | None => appendChild p n
              end) d = Ret tt d'.
Proof.
  intros Hkids ->. unfold bind at 1, get_state.
  destruct (_ && _); [by exists d|].
  destruct T as [|a T]; simpl.
  - unfold appendChild, bind, log, modify. by eexists.
  - unfold insertBefore, bind, log, get_state, isChildOf, modify. simpl.
    rewrite bool_decide_true.
    2:{ unfold kidsOf in *. simpl. rewrite Hkids. apply elem_of_app. right.
        apply elem_of_cons. by left. }
    simpl. destruct (bool_decide (n = a)); by eexists.
Qed.

Lemma place_nodes_Ret p anchor (T ns : list nat) :
  NoDup ns → (∀ n, n ∈ ns → n ∉ T) → anchor = head T →
  ∀ (P : list nat) d,
    dom_wf d → kidsOf d p = P ++ T →
    ∃ d', for_each ns (λ node,
      (let* d := get_state in
       if isChildOf d node p && bool_decide (nextSibling d p node = anchor)
       then ret tt
       else match anchor with
            | Some a => insertBefore p node a
            | None => appendChild p node
            end)) d = Ret tt d'.
Proof.
  intros Hnd HT Hanchor. induction ns as [|n ns IH]; intros P d Hwf Hkids; simpl.
  - by exists d.
  - destruct (place_node_Ret p n anchor P T d Hkids Hanchor) as (d1 & H1).
    apply NoDup_cons in Hnd as [Hn Hnd].
    assert (Hwf1 : dom_wf d1).
    { destruct (place_step_keeps p n anchor _ _ _ H1) as [_ Hd1]. by apply Hd1. }
    pose proof H1 as Hk1. apply (place_node p n anchor P T) in Hk1; try done.
    2:{ rewrite <- Hkids. apply Hwf. }
    2:{ apply HT. apply elem_of_cons. by left. }
    destruct (IH Hnd) with (P := filter (λ x, x ≠ n) P ++ [n]) (d := d1) as (d' & H2).
    + intros m Hm. apply HT. apply elem_of_cons. by right.
    + done.
    + rewrite Hk1. by rewrite <- app_assoc.
    + exists d'. apply bind_Ret. by exists tt, d1.
Qed.


(** X6: the first surface node that [getFirstDom] finds is the first of
    the surface nodes that [getDomNodes] lists, for every instance whose
    host and text instances have their node; so is the one that
    [getFirstDomFromChildren] finds among children. *)
Theorem getFirstDom_is_first_node instance :
  shaped instance →
  getFirstDom (Some instance) = head (getDomNodes (Some instance))
  ∧ getFirstDomFromChildren (i_children instance) = head (nodes_of (i_children instance)).
Proof.
  intros Hs. split; [by apply getFirstDom_of_head|].
  apply getFirstDomFromChildren_head. by apply shaped_eq in Hs as [_ ?].
Qed.

(** X7: every call of [reconcile] that returns keeps the instance tree and
    the document in shape.  Given an old instance that holds no instance
    object and no surface node twice, all of them made before, a document
    in which no parent has a child twice, and a new tree in which no
    sibling list repeats a key, the result is a tree of this kind again;
    what it holds was held by the old instance or was made by this call;
    it is the old object when type and key agree. *)
Theorem reconcile_keeps_tree fuel parentDom old node path w r w' :
  comps_keys_ok comps →
  dom_wf (dm w) → opt_wf w old → opt_keys_ok node →
  reconcile has_prop read_only comps createChildPath fuel parentDom old node path w
  = Ret r w' →
  updated w old node r w'.
Proof. intros Hcomps Hd Hwf Hk H. by eapply reconcile_updates. Qed.

Section WithReconcile.
Variable reconcile :
  nat → option Instance → option VNode → string → M World (option Instance).
Hypothesis reconcile_updates : updates reconcile.

Lemma reconcileChildren_order p inst node path w inst' w' :
  dom_wf (dm w) → wf w inst → keys_ok node →
  reconcileChildren createChildPath reconcile p inst node path w = Ret inst' w' →
  ∃ rs, inst' = set_children rs inst
        ∧ Forall2 (λ v c, ∃ ci, c = Some ci ∧ i_node ci = v ∧ i_key ci = vkey v)
                  (vchildren node) rs
        ∧ ∃ rest, kidsOf (dm w') p = rest ++ nodes_of rs
                  ∧ ∀ n, n ∈ nodes_of rs → n ∉ rest.
Proof.
  intros Hd Hwf Hk H. unfold reconcileChildren in H. minv H.
  destruct (wf_children_all _ _ Hwf) as [Hnd Hwfcs].
  apply keys_ok_children in Hk as [Hnk Hk].
  eapply matchChildren_updated with (olds := i_children inst) in H0
    as (G0 & D0 & Hwf0 & Hnd0 & Hids0 & _ & Hall); try done.
  2:{ intros k o Hget. apply keyMap_of_get in Hget as [?|?]; done. }
  2:{ intros o Ho. by apply elem_of_keyless_of. }
  2:{ intros v k o _ _ _ Hin. by apply elem_of_nil in Hin. }
  apply removal_keeps in H1 as [G1 D1].
  apply zoom_Ret in H2 as (d' & Hplace & ->).
  lazymatch type of Hplace with
  | placeChildren _ _ _ (dm ?st) = _ =>
      apply (placeChildren_order p a.1) with (T := []) (P := kidsOf (dm st) p) in Hplace
  end.
  - exists a.1. split; [done|]. split.
    + eapply Forall2_impl; [exact Hall|]. intros v c (ci & -> & Hnode & Hkey & _).
      by exists ci.
    + simpl. rewrite Hplace, app_nil_r. eexists. split; [reflexivity|].
      intros n Hn Hin. by apply list_elem_of_filter in Hin as [Hnot _].
  - eapply Forall_impl; [exact Hwf0|]. intros [c|]; [apply wf_shaped|done].
  - by apply NoDup_nodes_of_ids.
  - by apply D1.
  - by rewrite app_nil_r.
  - done.
  - intros n _. apply not_elem_of_nil.
Qed.

End WithReconcile.


End TreeExtras.

Section TreeExtrasWitnesses.
Import Dom Reconciler MountSpec TreeSpec Examples.
Local Open Scope nat_scope.

Lemma reconcile_mount_is_new_witness :
  ∃ i, result_of (mount0 paragraph) = Some i
       ∧ i_node i = paragraph ∧ i_path i = "0" ∧ i_key i = vkey paragraph
       ∧ nextInstance world0 ≤ i_ref i < nextInstance (world_of (mount0 paragraph))
       ∧ (∀ m, m ∈ getDomNodes_of i → next (dm world0) ≤ m)
       ∧ ∀ q m, m ∈ kidsOf (dm (world_of (mount0 paragraph))) q →
                m ∈ kidsOf (dm world0) q ∨ next (dm world0) ≤ m.
Proof.
  apply (reconcile_mount_is_new has_prop read_only no_comps ElementsDoc.createChildPath
           20 0 paragraph "0" world0).
  vm_compute. reflexivity.
Defined.



Lemma getFirstDom_is_first_node_witness :
  getFirstDom (Some old_keyed) = head (getDomNodes (Some old_keyed))
  ∧ getFirstDomFromChildren (i_children old_keyed) = head (nodes_of (i_children old_keyed)).
Proof.
  apply getFirstDom_is_first_node. exact (wf_shaped _ _ (proj2 keyed_mounted)).
Defined.

Lemma reconcile_keeps_tree_witness :
  updated world_keyed (Some old_keyed) (Some keyed_after)
          (result_of keyed_rerender) (world_of keyed_rerender).
Proof.
  apply (reconcile_keeps_tree has_prop read_only no_comps ElementsDoc.createChildPath
           20 0 (Some old_keyed) (Some keyed_after) "0").
  - apply no_comps_keys_ok.
  - exact (proj1 keyed_mounted).
  - exact (proj2 keyed_mounted).
  - apply keyed_after_keys_ok.
  - vm_compute. reflexivity.
Defined.


End TreeExtrasWitnesses.

(* ===================================================================== *)
(** * Further properties of utils/equals.ts *)
(* ===================================================================== *)

Section EqualsExtras.
Import Equals DeepEquals.
Import EqualsSpec.
Local Open Scope nat_scope.
Variable objs : nat → Js.JsObj.

(** [Object.keys] lists no key twice. *)
Hypothesis keys_unique : ∀ r fs, objs r = Js.ORec fs → NoDup fs.*1.

Lemma Object_is_sym a b : Js.Object_is a b = Js.Object_is b a.
Proof. unfold Js.Object_is. apply bool_decide_ext. split; congruence. Qed.

Lemma all_Object_is_sym xs ys : all_Object_is xs ys = all_Object_is ys xs.
Proof.
  revert ys. induction xs as [|x xs IH]; intros [|y ys]; simpl; try done.
  rewrite (Object_is_sym y x). destruct (Js.Object_is x y); [apply IH|done].
Qed.

Lemma hasOwnProperty_elem (fs : list (string * Js.Value)) k :
  hasOwnProperty fs k = true ↔ k ∈ fs.*1.
Proof.
  unfold hasOwnProperty. rewrite existsb_exists, list_elem_of_fmap. split.
  - intros (kv & Hin & Hk). apply bool_decide_eq_true in Hk. exists kv.
    split; [done|]. by apply list_elem_of_In.
  - intros (kv & -> & Hin). exists kv. split; [by apply list_elem_of_In|].
    by apply bool_decide_eq_true.
Qed.

Lemma fields_NoDup v : NoDup (fields objs v).*1.
Proof.
  unfold fields. destruct v as [| |r]; try constructor.
  destruct (objs r) as [|fs] eqn:Hr; [constructor|]. by eapply keys_unique.
Qed.

(** Two key lists of one length, the first within the second, hold the same
    keys. *)
Lemma keys_within (ka kb : list string) :
  NoDup ka → length ka = length kb → (∀ k, k ∈ ka → k ∈ kb) → ∀ k, k ∈ kb → k ∈ ka.
Proof.
  intros Hnd Hlen Hsub k Hk.
  assert (Hperm : ka ≡ₚ kb).
  { apply submseteq_length_Permutation; [by apply NoDup_submseteq|lia]. }
  by rewrite Hperm.
Qed.

Lemma shallow_fields_sym (fa fb : list (string * Js.Value)) :
  NoDup fa.*1 → length fa.*1 = length fb.*1 →
  forallb (λ key, hasOwnProperty fb key
                  && Js.Object_is (getProperty fa key) (getProperty fb key)) fa.*1 = true →
  forallb (λ key, hasOwnProperty fa key
                  && Js.Object_is (getProperty fb key) (getProperty fa key)) fb.*1 = true.
Proof.
  intros Hnd Hlen H. rewrite forallb_forall in H. apply forallb_forall. intros k Hk.
  apply list_elem_of_In in Hk.
  assert (Hka : k ∈ fa.*1).
  { apply (keys_within fa.*1 fb.*1); try done. intros k' Hk'.
    apply list_elem_of_In, H, andb_prop in Hk' as [Hk' _]. by apply hasOwnProperty_elem. }
  pose proof Hka as Hk'. apply list_elem_of_In, H, andb_prop in Hk' as [_ Hv].
  apply andb_true_intro. split; [by apply hasOwnProperty_elem|]. by rewrite Object_is_sym.
Qed.

Lemma shallowEquals_symmetric a b : shallowEquals objs a b = shallowEquals objs b a.
Proof.
  unfold shallowEquals. rewrite (Object_is_sym b a).
  destruct (Js.Object_is a b); [done|].
  rewrite (bool_decide_ext (Js.typeof b = Js.typeof a) (Js.typeof a = Js.typeof b))
    by (split; congruence).
  destruct (negb (bool_decide (Js.typeof a = Js.typeof b))); [done|].
  rewrite (orb_comm (bool_decide (b = _))).
  destruct (bool_decide (a = Js.VPrim Js.PNull) || bool_decide (b = Js.VPrim Js.PNull)); [done|].
  rewrite (orb_comm (isArray objs b)), (orb_comm (negb (isArray objs b))).
  destruct (isArray objs a || isArray objs b).
  - destruct (negb (isArray objs a) || negb (isArray objs b)); [done|].
    rewrite (Nat.eqb_sym (length (elements objs b))).
    destruct (negb _); [done|]. apply all_Object_is_sym.
  - rewrite (andb_comm (bool_decide (Js.typeof b = _))).
    destruct (bool_decide (Js.typeof a = Js.TyObject) && bool_decide (Js.typeof b = Js.TyObject));
      [|done].
    cbv zeta. rewrite (Nat.eqb_sym (length (fields objs b).*1)).
    destruct (length (fields objs a).*1 =? length (fields objs b).*1)%nat eqn:Hlen; [|done].
    apply Nat.eqb_eq in Hlen. simpl. apply eq_true_iff_eq. split; intros H.
    + apply shallow_fields_sym; try done. apply fields_NoDup.
    + apply shallow_fields_sym; try done. apply fields_NoDup.
Qed.

Lemma all_Object_is_eq xs ys :
  length xs = length ys → all_Object_is xs ys = true → xs = ys.
Proof.
  revert ys. induction xs as [|x xs IH]; intros [|y ys] Hlen H; simpl in *; try done.
  unfold Js.Object_is in H. case_bool_decide as Hxy; [|done]. subst y.
  f_equal. apply IH; [lia|done].
Qed.

Lemma all_Object_is_same xs : all_Object_is xs xs = true.
Proof.
  induction xs as [|x xs IH]; [done|]. simpl. unfold Js.Object_is.
  by rewrite bool_decide_true.
Qed.

Lemma shallowEquals_true a b :
  shallowEquals objs a b = true ↔
  a = b
  ∨ (isArray objs a = true ∧ isArray objs b = true ∧ elements objs a = elements objs b)
  ∨ (∃ ra rb fa fb, a = Js.VRef ra ∧ b = Js.VRef rb
                    ∧ objs ra = Js.ORec fa ∧ objs rb = Js.ORec fb ∧ EqualsSpec.same_fields fa fb).
Proof.
  unfold shallowEquals, Js.Object_is. case_bool_decide as Hab.
  { split; [by left|done]. }
  case_bool_decide as Hty; simpl.
  2:{ split; [done|]. intros [?|[(Ha & Hb & _)|(ra & rb & fa & fb & -> & -> & _)]]; try done.
      - destruct a as [| |ra], b as [| |rb]; done. }
  destruct (bool_decide (a = Js.VPrim Js.PNull) || bool_decide (b = Js.VPrim Js.PNull)) eqn:Hnull.
  { split; [done|]. intros [?|[(Ha & Hb & _)|(ra & rb & fa & fb & -> & -> & _)]]; try done.
    destruct a as [[]| |], b as [[]| |]; done. }
  destruct (isArray objs a) eqn:Ha, (isArray objs b) eqn:Hb; simpl.
  - destruct (length (elements objs a) =? length (elements objs b))%nat eqn:Hlen; simpl.
    + apply Nat.eqb_eq in Hlen. split.
      * intros H. right. left. split_and!; try done. by apply all_Object_is_eq.
      * intros [?|[(_ & _ & ->)|(ra & rb & fa & fb & -> & -> & Hra & _)]]; try done.
        -- apply all_Object_is_same.
        -- simpl in Ha. by rewrite Hra in Ha.
    + apply Nat.eqb_neq in Hlen. split; [done|].
      intros [?|[(_ & _ & Heq)|(ra & rb & fa & fb & -> & -> & Hra & _)]]; try done.
      * by rewrite Heq in Hlen.
      * simpl in Ha. by rewrite Hra in Ha.
  - split; [done|].
    intros [?|[(_ & ? & _)|(ra & rb & fa & fb & -> & -> & Hra & _)]]; try done.
    simpl in Ha. by rewrite Hra in Ha.
  - split; [done|].
    intros [?|[(? & _)|(ra & rb & fa & fb & -> & -> & _ & Hrb & _)]]; try done.
    simpl in Hb. by rewrite Hrb in Hb.
  - destruct (bool_decide (Js.typeof a = Js.TyObject)
              && bool_decide (Js.typeof b = Js.TyObject)) eqn:Hobj.
    + apply andb_prop in Hobj as [Hoa Hob]. apply bool_decide_eq_true in Hoa, Hob.
      apply orb_false_elim in Hnull as [Hna Hnb]. apply bool_decide_eq_false in Hna, Hnb.
      destruct a as [[]| |ra]; try done. destruct b as [[]| |rb]; try done.
      simpl in Ha, Hb. cbv zeta. unfold fields.
      destruct (objs ra) as [|fa] eqn:Hra; [done|].
      destruct (objs rb) as [|fb] eqn:Hrb; [done|].
      destruct (length fa.*1 =? length fb.*1)%nat eqn:Hlen; simpl.
      * apply Nat.eqb_eq in Hlen. rewrite forallb_forall. split.
        -- intros H. right. right. exists ra, rb, fa, fb. split_and!; try done.
           split; [done|]. intros k Hk. apply list_elem_of_In, H, andb_prop in Hk as [Hin Hv].
           split; [by apply hasOwnProperty_elem|]. by apply bool_decide_eq_true in Hv.
        -- intros [?|[(? & _)|(ra' & rb' & fa' & fb' & [= <-] & [= <-] & Hra' & Hrb' & _ & H)]];
             try done.
           rewrite Hra in Hra'. rewrite Hrb in Hrb'. simplify_eq.
           intros k Hk. apply list_elem_of_In, H in Hk as [Hin Hv].
           apply andb_true_intro. split; [by apply hasOwnProperty_elem|].
           by apply bool_decide_eq_true.
      * apply Nat.eqb_neq in Hlen. split; [done|].
        intros [?|[(? & _)|(ra' & rb' & fa' & fb' & [= <-] & [= <-] & Hra' & Hrb' & Hl & _)]];
          try done.
        rewrite Hra in Hra'. rewrite Hrb in Hrb'. by simplify_eq.
    + split; [done|].
      intros [?|[(Ha' & _)|(ra & rb & fa & fb & -> & -> & _)]]; [done|congruence|].
      simpl in Hobj. done.
Qed.

(** X10: [shallowEquals] is an equivalence: every value equals itself,
    [NaN] too; the order of the arguments does not matter; and two values
    that equal a third equal each other. *)
Theorem shallowEquals_equivalence a b c :
  shallowEquals objs a a = true
  ∧ shallowEquals objs a b = shallowEquals objs b a
  ∧ (shallowEquals objs a b = true → shallowEquals objs b c = true →
     shallowEquals objs a c = true).
Proof.
  split_and!.
  - unfold shallowEquals, Js.Object_is. by rewrite bool_decide_true.
  - apply shallowEquals_symmetric.
  - rewrite !shallowEquals_true. intros Hab Hbc.
    destruct Hab as [->|[(Ha & Hb & Hab)
                        |(ra & rb & fa & fb & -> & -> & Hra & Hrb & Hlab & Hab)]].
    + done.
    + destruct Hbc as [<-|[(Hb' & Hc & Hbc)
                          |(rb' & rc & fb' & fc & -> & -> & Hrb' & _)]].
      * right. by left.
      * right. left. split_and!; [done|done|congruence].
      * simpl in Hb. by rewrite Hrb' in Hb.
    + destruct Hbc as [<-|[(Hb' & Hc & Hbc)
                          |(rb' & rc & fb' & fc & Hb' & -> & Hrb' & Hrc & Hlbc & Hbc)]].
      * right. right. exists ra, rb, fa, fb. by split_and!.
      * simpl in Hb'. by rewrite Hrb in Hb'.
      * injection Hb' as <-. rewrite Hrb in Hrb'. injection Hrb' as <-.
        right. right. exists ra, rc, fa, fc. split_and!; try done. split; [congruence|].
        intros k Hk. destruct (Hab k Hk) as [Hkb Hv]. destruct (Hbc k Hkb) as [Hkc Hv'].
        split; [done|congruence].
Qed.

(** *** deepEquals *)

(** One more level of nesting, whatever the calls below do. *)
Lemma deepEquals_refines_step g :
  (∀ x y, Js.Object_is x y = true → deepEquals objs g x y = Some true) →
  ∀ a b, shallowEquals objs a b = true → deepEquals objs (S g) a b = Some true.
Proof.
  intros Hg a b H. unfold shallowEquals in H. cbn [deepEquals].
  destruct (Js.Object_is a b); [done|].
  destruct (negb (bool_decide (Js.typeof a = Js.typeof b))); [done|].
  destruct (bool_decide (a = Js.VPrim Js.PNull) || bool_decide (b = Js.VPrim Js.PNull)); [done|].
  destruct (isArray objs a || isArray objs b).
  - destruct (negb (isArray objs a) || negb (isArray objs b)); [done|].
    destruct (negb _); [done|].
    revert H. generalize (elements objs b). induction (elements objs a) as [|x xs IH];
      intros [|y ys] H; simpl in *; try done.
    destruct (Js.Object_is x y) eqn:Hxy; [|done]. rewrite (Hg x y Hxy). by apply IH.
  - destruct (bool_decide (Js.typeof a = Js.TyObject) && bool_decide (Js.typeof b = Js.TyObject));
      [|done].
    cbv zeta in *. destruct (negb _); [done|].
    revert H. induction ((fields objs a).*1) as [|k ks IH]; intros H; simpl in *; [done|].
    apply andb_prop in H as [Hk H]. apply andb_prop in Hk as [Hhas Hv].
    rewrite Hhas, (Hg _ _ Hv). simpl. by apply IH.
Qed.

(** X11: [deepEquals] accepts whatever [shallowEquals] accepts, and needs
    no more than one level of nesting for it. *)
Theorem deepEquals_refines_shallowEquals fuel a b :
  shallowEquals objs a b = true → deepEquals objs (S (S fuel)) a b = Some true.
Proof.
  apply deepEquals_refines_step. intros x y Hxy. simpl. by rewrite Hxy.
Qed.

(** More nesting allowed changes no answer. *)
Lemma deepEquals_mono_step g g' :
  (∀ x y r, deepEquals objs g x y = Some r → deepEquals objs g' x y = Some r) →
  ∀ a b r, deepEquals objs (S g) a b = Some r → deepEquals objs (S g') a b = Some r.
Proof.
  intros Hg a b r. cbn [deepEquals].
  destruct (Js.Object_is a b); [done|].
  destruct (negb (bool_decide (Js.typeof a = Js.typeof b))); [done|].
  destruct (bool_decide (a = Js.VPrim Js.PNull) || bool_decide (b = Js.VPrim Js.PNull)); [done|].
  destruct (isArray objs a || isArray objs b).
  - destruct (negb (isArray objs a) || negb (isArray objs b)); [done|].
    destruct (negb _); [done|].
    generalize (elements objs b). induction (elements objs a) as [|x xs IH];
      intros [|y ys]; simpl; try done.
    destruct (deepEquals objs g x y) as [[]|] eqn:Hxy; [| |done].
    + rewrite (Hg _ _ _ Hxy). apply IH.
    + by rewrite (Hg _ _ _ Hxy).
  - destruct (bool_decide (Js.typeof a = Js.TyObject) && bool_decide (Js.typeof b = Js.TyObject));
      [|done].
    cbv zeta. destruct (negb _); [done|].
    induction ((fields objs a).*1) as [|k ks IH]; simpl; [done|].
    destruct (negb (hasOwnProperty (fields objs b) k)); [done|].
    destruct (deepEquals objs g _ _) as [[]|] eqn:Hxy; [| |done].
    + rewrite (Hg _ _ _ Hxy). apply IH.
    + by rewrite (Hg _ _ _ Hxy).
Qed.

Lemma deepEquals_mono f f' a b r :
  f ≤ f' → deepEquals objs f a b = Some r → deepEquals objs f' a b = Some r.
Proof.
  intros Hle. revert f' Hle a b r. induction f as [|f IH]; intros f' Hle a b r H; [done|].
  destruct f' as [|f']; [lia|]. revert H. apply deepEquals_mono_step.
  intros x y r'. apply IH. lia.
Qed.

(** The two loops over the keys. *)
Lemma keys_loop_true g (fa fb : list (string * Js.Value)) (keys : list string) :
  (fix loop (keys : list string) : option bool :=
     match keys with
     | [] => Some true
     | key :: keys' =>
         if negb (hasOwnProperty fb key) then Some false
         else match deepEquals objs g (getProperty fa key) (getProperty fb key) with
              | Some true => loop keys'
              | other => other
              end
     end) keys = Some true →
  ∀ k, k ∈ keys →
       hasOwnProperty fb k = true
       ∧ deepEquals objs g (getProperty fa k) (getProperty fb k) = Some true.
Proof.
  induction keys as [|key keys IH]; intros H k Hk; [by apply elem_of_nil in Hk|].
  destruct (hasOwnProperty fb key) eqn:Hhas; simpl in H; [|done].
  destruct (deepEquals objs g (getProperty fa key) (getProperty fb key)) as [[]|] eqn:Hv;
    try done.
  apply elem_of_cons in Hk as [->|Hk]; [done|by apply IH].
Qed.

Lemma keys_loop_false g (fa fb : list (string * Js.Value)) (keys : list string) :
  (fix loop (keys : list string) : option bool :=
     match keys with
     | [] => Some true
     | key :: keys' =>
         if negb (hasOwnProperty fb key) then Some false
         else match deepEquals objs g (getProperty fa key) (getProperty fb key) with
              | Some true => loop keys'
              | other => other
              end
     end) keys = Some false →
  ∃ k, k ∈ keys
       ∧ (hasOwnProperty fb k = false
          ∨ deepEquals objs g (getProperty fa k) (getProperty fb k) = Some false).
Proof.
  induction keys as [|key keys IH]; intros H; [done|].
  destruct (hasOwnProperty fb key) eqn:Hhas; simpl in H.
  - destruct (deepEquals objs g (getProperty fa key) (getProperty fb key)) as [[]|] eqn:Hv;
      try done.
    + destruct (IH H) as (k & Hk & Hbad). exists k. split; [by apply elem_of_cons; right|done].
    + exists key. split; [by apply elem_of_cons; left|by right].
  - exists key. split; [by apply elem_of_cons; left|by left].
Qed.

Lemma deepEquals_sym_step g :
  (∀ x y r r', deepEquals objs g x y = Some r → deepEquals objs g y x = Some r' → r = r') →
  ∀ a b r r',
    deepEquals objs (S g) a b = Some r → deepEquals objs (S g) b a = Some r' → r = r'.
Proof.
  intros Hg a b r r'. cbn [deepEquals]. rewrite (Object_is_sym b a).
  destruct (Js.Object_is a b); [congruence|].
  rewrite (bool_decide_ext (Js.typeof b = Js.typeof a) (Js.typeof a = Js.typeof b))
    by (split; congruence).
  destruct (negb (bool_decide (Js.typeof a = Js.typeof b))); [congruence|].
  rewrite (orb_comm (bool_decide (b = _))).
  destruct (bool_decide (a = Js.VPrim Js.PNull) || bool_decide (b = Js.VPrim Js.PNull));
    [congruence|].
  rewrite (orb_comm (isArray objs b)), (orb_comm (negb (isArray objs b))).
  destruct (isArray objs a || isArray objs b).
  - destruct (negb (isArray objs a) || negb (isArray objs b)); [congruence|].
    rewrite (Nat.eqb_sym (length (elements objs b))).
    destruct (negb _); [congruence|].
    generalize (elements objs b). induction (elements objs a) as [|x xs IH];
      intros [|y ys]; simpl; try congruence.
    destruct (deepEquals objs g x y) as [[]|] eqn:Hxy,
             (deepEquals objs g y x) as [[]|] eqn:Hyx; try done;
      try (pose proof (Hg _ _ _ _ Hxy Hyx); congruence).
    apply IH.
  - rewrite (andb_comm (bool_decide (Js.typeof b = _))).
    destruct (bool_decide (Js.typeof a = Js.TyObject) && bool_decide (Js.typeof b = Js.TyObject));
      [|congruence].
    cbv zeta. rewrite (Nat.eqb_sym (length (fields objs b).*1)).
    destruct (length (fields objs a).*1 =? length (fields objs b).*1)%nat eqn:Hlen;
      simpl; [|congruence].
    apply Nat.eqb_eq in Hlen. intros Hab Hba.
    destruct r, r'; try done; exfalso.
    + pose proof (keys_loop_true _ _ _ _ Hab) as Ha.
      destruct (keys_loop_false _ _ _ _ Hba) as (k & Hk & Hbad).
      assert (Hka : k ∈ (fields objs a).*1).
      { apply (keys_within _ (fields objs b).*1); try done; [apply fields_NoDup|].
        intros k' Hk'. apply hasOwnProperty_elem. by apply Ha. }
      destruct Hbad as [Hhas|Hv].
      * apply hasOwnProperty_elem in Hka. congruence.
      * destruct (Ha k Hka) as [_ Hv']. by pose proof (Hg _ _ _ _ Hv' Hv).
    + pose proof (keys_loop_true _ _ _ _ Hba) as Hb.
      destruct (keys_loop_false _ _ _ _ Hab) as (k & Hk & Hbad).
      assert (Hkb : k ∈ (fields objs b).*1).
      { apply (keys_within _ (fields objs a).*1); try done; [apply fields_NoDup|].
        intros k' Hk'. apply hasOwnProperty_elem. by apply Hb. }
      destruct Hbad as [Hhas|Hv].
      * apply hasOwnProperty_elem in Hkb. congruence.
      * destruct (Hb k Hkb) as [_ Hv']. by pose proof (Hg _ _ _ _ Hv Hv').
Qed.

Lemma deepEquals_sym_fuel f a b r r' :
  deepEquals objs f a b = Some r → deepEquals objs f b a = Some r' → r = r'.
Proof.
  revert a b r r'. induction f as [|f IH]; [done|]. by apply deepEquals_sym_step.
Qed.

(** X12: [deepEquals] gives one answer for a pair of values, in whichever
    order they are passed and however much nesting each run is allowed:
    two runs that return agree. *)
Theorem deepEquals_sym fuel fuel' a b r r' :
  deepEquals objs fuel a b = Some r → deepEquals objs fuel' b a = Some r' → r = r'.
Proof.
  intros Hab Hba.
  apply (deepEquals_mono _ (fuel `max` fuel')) in Hab; [|lia].
  apply (deepEquals_mono _ (fuel `max` fuel')) in Hba; [|lia].
  by eapply deepEquals_sym_fuel.
Qed.

(** X13: on two different arrays that each hold themselves, [deepEquals]
    never returns: the recursion of the source goes on for ever (in
    JavaScript, until the call stack overflows), whatever nesting is
    allowed. *)
Theorem deepEquals_cyclic fuel ra rb :
  objs ra = Js.OArr [Js.VRef ra] → objs rb = Js.OArr [Js.VRef rb] → ra ≠ rb →
  deepEquals objs fuel (Js.VRef ra) (Js.VRef rb) = None.
Proof.
  intros Ha Hb Hne. induction fuel as [|fuel IH]; [done|].
  cbn [deepEquals]. unfold Js.Object_is.
  rewrite bool_decide_false by congruence. simpl. rewrite Ha, Hb. simpl. by rewrite IH.
Qed.

End EqualsExtras.

Section EqualsExtrasWitnesses.
Import Equals DeepEquals.

Lemma example_keys_unique r fs : EqualsExamples.objs r = Js.ORec fs → NoDup fs.*1.
Proof.
  do 6 (destruct r as [|r]; [done|]). simpl. intros [= <-]. apply NoDup_singleton.
Qed.

Lemma shallowEquals_equivalence_witness :
  shallowEquals EqualsExamples.objs (Js.VRef 0) (Js.VRef 0) = true
  ∧ shallowEquals EqualsExamples.objs (Js.VRef 0) (Js.VRef 1)
    = shallowEquals EqualsExamples.objs (Js.VRef 1) (Js.VRef 0)
  ∧ (shallowEquals EqualsExamples.objs (Js.VRef 0) (Js.VRef 1) = true →
     shallowEquals EqualsExamples.objs (Js.VRef 1) (Js.VRef 0) = true →
     shallowEquals EqualsExamples.objs (Js.VRef 0) (Js.VRef 0) = true).
Proof.
  exact (shallowEquals_equivalence EqualsExamples.objs example_keys_unique
           (Js.VRef 0) (Js.VRef 1) (Js.VRef 0)).
Defined.

Lemma deepEquals_refines_shallowEquals_witness :
  deepEquals EqualsExamples.objs 2 (Js.VRef 0) (Js.VRef 1) = Some true.
Proof.
  apply (deepEquals_refines_shallowEquals EqualsExamples.objs 0). vm_compute. reflexivity.
Defined.

Lemma deepEquals_sym_witness :
  deepEquals EqualsExamples.objs 3 (Js.VRef 2) (Js.VRef 3) = Some true
  ∧ deepEquals EqualsExamples.objs 5 (Js.VRef 3) (Js.VRef 2) = Some true
  ∧ true = true.
Proof.
  split; [vm_compute; reflexivity|]. split; [vm_compute; reflexivity|].
  apply (deepEquals_sym EqualsExamples.objs example_keys_unique 3 5 (Js.VRef 2) (Js.VRef 3));
    vm_compute; reflexivity.
Defined.

Lemma deepEquals_cyclic_witness :
  deepEquals EqualsExamples.objs 10 (Js.VRef 4) (Js.VRef 5) = None.
Proof.
  apply (deepEquals_cyclic EqualsExamples.objs 10 4 5); [reflexivity|reflexivity|].
  intros H. discriminate H.
Defined.

End EqualsExtrasWitnesses.

(* ===================================================================== *)
(** * Further properties of createChildPath *)
(* ===================================================================== *)

Section PathExtras.
Import PathSpec PathFacts.
Local Open Scope nat_scope.

(** *** Strings *)

Lemma path_inj p t t' : path p t = path p t' → t = t'.
Proof.
  unfold path. destruct p as [|c p]; [done|]. intros H.
  apply (inj (String.append (String c p))) in H. by apply (inj (String.append ".")) in H.
Qed.

Lemma nat_of_ascii_inj c c' : nat_of_ascii c = nat_of_ascii c' → c = c'.
Proof. intros H. by rewrite <- (ascii_nat_embedding c), H, ascii_nat_embedding. Qed.

Lemma hex_digit_code a :
  a < 16 → nat_of_ascii (ElementsDoc.hex_digit a) = if a <? 10 then 48 + a else 55 + a.
Proof. intros Ha. do 16 (destruct a as [|a]; [reflexivity|]). lia. Qed.

Lemma hex_digit_inj a b :
  a < 16 → b < 16 → ElementsDoc.hex_digit a = ElementsDoc.hex_digit b → a = b.
Proof.
  intros Ha Hb H. apply (f_equal nat_of_ascii) in H.
  rewrite !hex_digit_code in H by done.
  destruct (Nat.ltb_spec a 10), (Nat.ltb_spec b 10); lia.
Qed.

Lemma percent_app_inj c c' r r' :
  ElementsDoc.percent c +:+ r = ElementsDoc.percent c' +:+ r' → c = c' ∧ r = r'.
Proof.
  unfold ElementsDoc.percent.
  pose proof (nat_ascii_bounded c) as Hc. pose proof (nat_ascii_bounded c') as Hc'.
  pose proof (Nat.div_mod_eq (nat_of_ascii c) 16) as E.
  pose proof (Nat.div_mod_eq (nat_of_ascii c') 16) as E'.
  pose proof (Nat.mod_upper_bound (nat_of_ascii c) 16) as M.
  pose proof (Nat.mod_upper_bound (nat_of_ascii c') 16) as M'.
  cbv zeta.
  generalize dependent (nat_of_ascii c / 16). generalize dependent (nat_of_ascii c mod 16).
  generalize dependent (nat_of_ascii c' / 16). generalize dependent (nat_of_ascii c' mod 16).
  intros m' M' q' E' m M q E [= H1 H2 H].
  apply hex_digit_inj in H1; [|lia..]. apply hex_digit_inj in H2; [|lia..].
  split; [|done]. apply nat_of_ascii_inj. lia.
Qed.

Lemma percent_head c r : ∃ r', ElementsDoc.percent c +:+ r = String "%" r'.
Proof. by eexists. Qed.

(** [encodeURIComponent] tells any two keys apart. *)
Lemma encodeURIComponent_inj s s' :
  ElementsDoc.encodeURIComponent s = ElementsDoc.encodeURIComponent s' → s = s'.
Proof.
  revert s'. induction s as [|c s IH]; intros [|c' s'] H;
    cbn [ElementsDoc.encodeURIComponent] in H; [done|..].
  - destruct (ElementsDoc.is_unreserved c'); [discriminate H|].
    destruct (percent_head c' (ElementsDoc.encodeURIComponent s')) as [r E].
    rewrite E in H. discriminate H.
  - destruct (ElementsDoc.is_unreserved c); [discriminate H|].
    destruct (percent_head c (ElementsDoc.encodeURIComponent s)) as [r E].
    rewrite E in H. discriminate H.
  - destruct (ElementsDoc.is_unreserved c) eqn:Hc, (ElementsDoc.is_unreserved c') eqn:Hc'.
    + injection H as -> H. f_equal. by apply IH.
    + destruct (percent_head c' (ElementsDoc.encodeURIComponent s')) as [r E].
      rewrite E in H. injection H as -> _. done.
    + destruct (percent_head c (ElementsDoc.encodeURIComponent s)) as [r E].
      rewrite E in H. injection H as <- _. done.
    + apply percent_app_inj in H as [-> H]. f_equal. by apply IH.
Qed.

(** *** The digits of a count *)

Lemma pretty_N_char_digit x :
  pretty_N_char x ∈ String.list_ascii_of_string "0123456789".
Proof. unfold pretty_N_char. repeat case_match; apply list_elem_of_In; simpl; tauto. Qed.

Lemma pretty_N_go_chars x s c :
  c ∈ String.list_ascii_of_string (pretty_N_go x s) →
  c ∈ String.list_ascii_of_string s ∨ c ∈ String.list_ascii_of_string "0123456789".
Proof.
  revert s. induction (N.lt_wf_0 x) as [x _ IH]; intros s.
  destruct (decide (0 < x)%N) as [Hx|Hx].
  - rewrite pretty_N_go_step by done. intros H.
    apply IH in H; [|by apply N.div_lt]. destruct H as [H|H]; [|by right].
    simpl in H. apply elem_of_cons in H as [->|H]; [|by left].
    right. apply pretty_N_char_digit.
  - assert (x = 0%N) as -> by lia. rewrite pretty_N_go_0. by left.
Qed.

(** A count is written with digits alone. *)
Lemma pretty_nat_chars (n : nat) c :
  c ∈ String.list_ascii_of_string (pretty n) → c ∈ String.list_ascii_of_string "0123456789".
Proof.
  unfold pretty at 1, pretty_nat, pretty, pretty_N.
  destruct (decide (N.of_nat n = 0%N)) as [_|_].
  - intros H. apply list_elem_of_singleton in H as ->. left.
  - intros H. apply pretty_N_go_chars in H as [H|H]; [|done]. by apply elem_of_nil in H.
Qed.

Lemma pretty_nat_no_underscore (n : nat) : "_"%char ∉ String.list_ascii_of_string (pretty n).
Proof.
  intros H%pretty_nat_chars. apply list_elem_of_In in H. simpl in H.
  repeat (destruct H as [H|H]; [discriminate H|]). done.
Qed.

Lemma pretty_nat_no_f (n : nat) r : pretty n ≠ String "f" r.
Proof.
  intros E. assert ("f"%char ∈ String.list_ascii_of_string (pretty n)) as H.
  { rewrite E. left. }
  apply pretty_nat_chars, list_elem_of_In in H. simpl in H.
  repeat (destruct H as [H|H]; [discriminate H|]). done.
Qed.

Lemma underscore_in s d : "_"%char ∈ String.list_ascii_of_string (s +:+ "_" +:+ d).
Proof. induction s as [|c s IH]; [left | by right]. Qed.

(** A name, an underscore and a count come apart at the last underscore. *)
Lemma name_count_inj s s' d d' :
  "_"%char ∉ String.list_ascii_of_string d → "_"%char ∉ String.list_ascii_of_string d' →
  s +:+ "_" +:+ d = s' +:+ "_" +:+ d' → s = s' ∧ d = d'.
Proof.
  intros Hd Hd'. revert s'. induction s as [|c s IH]; intros [|c' s'] H.
  - injection H as H. by split.
  - injection H as _ H. change (d = s' +:+ "_" +:+ d') in H.
    destruct Hd. rewrite H. apply underscore_in.
  - injection H as _ H. change (s +:+ "_" +:+ d = d') in H.
    destruct Hd'. rewrite <- H. apply underscore_in.
  - injection H as -> H. apply IH in H as [-> ->]. done.
Qed.

(** *** Counting the earlier siblings *)

Lemma keyless_before_le same i j l :
  i ≤ j → keyless_before same i l ≤ keyless_before same j l.
Proof.
  intros Hij. unfold keyless_before.
  replace j with (i + (j - i)) by lia. rewrite seq_app, List.filter_app, length_app. lia.
Qed.

Lemma keyless_before_S same i l v :
  l !! i = Some v → same (vtype v) = true → vkey v = None →
  keyless_before same (S i) l = S (keyless_before same i l).
Proof.
  intros Hv Hs Hk. unfold keyless_before.
  rewrite seq_S, List.filter_app, length_app. simpl. rewrite Hv, Hs, Hk. simpl. lia.
Qed.

(** Two keyless siblings of one kind with the same count are one child. *)
Lemma keyless_before_inj same i j l vi vj :
  l !! i = Some vi → l !! j = Some vj →
  same (vtype vi) = true → same (vtype vj) = true → vkey vi = None → vkey vj = None →
  keyless_before same i l = keyless_before same j l → i = j.
Proof.
  intros Hi Hj Si Sj Ki Kj H.
  destruct (Nat.lt_trichotomy i j) as [L|[->|L]]; [|done|].
  - pose proof (keyless_before_le same (S i) j l L) as Hle.
    rewrite (keyless_before_S same i l vi) in Hle by done. lia.
  - pose proof (keyless_before_le same (S j) i l L) as Hle.
    rewrite (keyless_before_S same j l vj) in Hle by done. lia.
Qed.

(** Among children with distinct keys a key names one position. *)
Lemma key_position (l : list VNode) i j vi vj k :
  NoDup (omap vkey l) → l !! i = Some vi → l !! j = Some vj →
  vkey vi = Some k → vkey vj = Some k → i = j.
Proof.
  revert i j. induction l as [|v l IH]; intros i j ND Hi Hj Ki Kj; [done|].
  assert (∀ n w, l !! n = Some w → vkey w = Some k → k ∈ omap vkey l) as In.
  { intros n w Hn Hw. apply list_elem_of_omap. exists w. split; [|done].
    by eapply list_elem_of_lookup_2. }
  simpl in ND. destruct i as [|i], j as [|j]; simplify_eq/=.
  - done.
  - rewrite Ki in ND. apply NoDup_cons in ND as [ND _]. destruct ND. by eapply In.
  - rewrite Kj in ND. apply NoDup_cons in ND as [ND _]. destruct ND. by eapply In.
  - f_equal. eapply IH; try done. destruct (vkey v); [by apply NoDup_cons in ND as [_ ND]|done].
Qed.

(** X14: in the copy of createChildPath that encodes the key and names the
    positional tokens, two children of one parent never get the same path,
    provided the keys of the children are distinct and two keyless
    components that show the same name are the same component. *)
Theorem createChildPath_doc_siblings_apart parentPath siblings i j vi vj :
  NoDup (omap vkey siblings) → named_apart siblings →
  siblings !! i = Some vi → siblings !! j = Some vj →
  child_path ElementsDoc.createChildPath parentPath siblings i vi
  = child_path ElementsDoc.createChildPath parentPath siblings j vj →
  i = j.
Proof.
  intros ND NA Hi Hj. unfold child_path. rewrite !createChildPath_doc_token.
  intros H%path_inj. change (default [] (Some siblings)) with siblings in H.
  destruct (vkey vi) as [k|] eqn:Ki, (vkey vj) as [k'|] eqn:Kj.
  - cbn [token] in H. apply (inj (String.append "k")), encodeURIComponent_inj in H as <-.
    by eapply key_position.
  - pose proof (key_token_not_positional ElementsDoc.encodeURIComponent k i
                  (Some (vtype vi)) siblings j (Some (vtype vj)) siblings) as F.
    by rewrite bool_decide_eq_false in F.
  - pose proof (key_token_not_positional ElementsDoc.encodeURIComponent k' j
                  (Some (vtype vj)) siblings i (Some (vtype vi)) siblings) as F.
    by rewrite bool_decide_eq_false in F.
  - destruct (vtype vi) as [tag| | |fid name] eqn:Ti, (vtype vj) as [tag'| | |fid' name'] eqn:Tj;
      cbn [token] in H; try discriminate H.
    + by apply (inj (String.append "i")), (inj pretty) in H.
    + by apply (inj (String.append "i")), (inj pretty) in H.
    + by apply (inj (String.append "i")), (inj pretty) in H.
    + by apply (inj (String.append "i")), (inj pretty) in H.
    + apply (inj (String.append "f")), (inj pretty) in H.
      eapply (keyless_before_inj _ i j siblings vi vj); try done.
      * rewrite Ti. by apply bool_decide_eq_true.
      * rewrite Tj. by apply bool_decide_eq_true.
    + apply (inj (String.append "c")), name_count_inj in H as [Hn H];
        [|apply pretty_nat_no_underscore..].
      apply (inj pretty) in H.
      assert (TComponent fid name = TComponent fid' name') as [= <- <-].
      { eapply (NA vi vj); try done; by eapply list_elem_of_lookup_2. }
      eapply (keyless_before_inj _ i j siblings vi vj); try done.
      * rewrite Ti. by apply bool_decide_eq_true.
      * rewrite Tj. by apply bool_decide_eq_true.
Qed.

(** X15: in the packaged copy of createChildPath a keyless child's path is
    settled by whether it is a Fragment and by the number of keyless
    siblings of its own type before it: two keyless children of one parent
    get the same path exactly when they agree on both, whatever their
    types are. *)
Theorem createChildPath_plain_counts parentPath siblings i j vi vj :
  vkey vi = None → vkey vj = None →
  child_path Elements.createChildPath parentPath siblings i vi
  = child_path Elements.createChildPath parentPath siblings j vj
  ↔ bool_decide (vtype vi = TFragment) = bool_decide (vtype vj = TFragment)
    ∧ keyless_before (λ t, bool_decide (t = vtype vi)) i siblings
      = keyless_before (λ t, bool_decide (t = vtype vj)) j siblings.
Proof.
  intros Ki Kj. unfold child_path. rewrite !createChildPath_plain_token, Ki, Kj.
  change (default [] (Some siblings)) with siblings. split.
  - intros H%path_inj.
    destruct (vtype vi) as [tag| | |fid name], (vtype vj) as [tag'| | |fid' name'];
      cbn [plain_token] in H;
      try (by apply (inj pretty) in H);
      try (by apply (inj (String.append "f")), (inj pretty) in H);
      try (by apply pretty_nat_no_f in H);
      try (by symmetry in H; apply pretty_nat_no_f in H).
  - intros [F H].
    destruct (vtype vi) as [tag| | |fid name], (vtype vj) as [tag'| | |fid' name'];
      cbn [plain_token]; try discriminate F; by rewrite H.
Qed.

End PathExtras.

Section PathExtrasWitnesses.
Import PathFacts PathExamples.

Lemma mixed_named_apart : named_apart mixed.
Proof.
  intros v v' fid fid' name name' Hv Hv' _ _ Tv Tv' Hn.
  apply list_elem_of_In in Hv, Hv'. unfold mixed in Hv, Hv'. cbn [In] in Hv, Hv'.
  repeat (destruct Hv as [<-|Hv]; [|]); try (by destruct Hv); try discriminate Tv;
    repeat (destruct Hv' as [<-|Hv']; [|]); try (by destruct Hv'); try discriminate Tv';
    injection Tv as <- <-; injection Tv' as <- <-; try reflexivity;
    vm_compute in Hn; discriminate Hn.
Qed.

Lemma createChildPath_doc_siblings_apart_witness :
  NoDup (omap vkey mixed) ∧ named_apart mixed
  ∧ mixed !! 3 = Some (comp 1 "Item") ∧ mixed !! 3 = Some (comp 1 "Item")
  ∧ child_path ElementsDoc.createChildPath "0" mixed 3 (comp 1 "Item")
    = child_path ElementsDoc.createChildPath "0" mixed 3 (comp 1 "Item")
  ∧ 3 = 3.
Proof.
  assert (NoDup (omap vkey mixed)) as ND.
  { unfold mixed. cbn [omap list_omap vkey Examples.el Examples.frag comp].
    apply NoDup_singleton. }
  split; [exact ND|]. split; [exact mixed_named_apart|]. do 3 (split; [reflexivity|]).
  exact (createChildPath_doc_siblings_apart "0" mixed 3 3 (comp 1 "Item") (comp 1 "Item")
           ND mixed_named_apart eq_refl eq_refl eq_refl).
Defined.

Lemma createChildPath_plain_counts_witness :
  vkey (comp 1 "Item") = None ∧ vkey (comp 2 "Badge") = None
  ∧ (child_path Elements.createChildPath "0" mixed 2 (comp 1 "Item")
     = child_path Elements.createChildPath "0" mixed 4 (comp 2 "Badge")
     ↔ bool_decide (vtype (comp 1 "Item") = TFragment)
       = bool_decide (vtype (comp 2 "Badge") = TFragment)
       ∧ PathSpec.keyless_before (λ t, bool_decide (t = vtype (comp 1 "Item"))) 2 mixed
         = PathSpec.keyless_before (λ t, bool_decide (t = vtype (comp 2 "Badge"))) 4 mixed).
Proof.
  do 2 (split; [reflexivity|]).
  exact (createChildPath_plain_counts "0" mixed 2 4 (comp 1 "Item") (comp 2 "Badge")
           eq_refl eq_refl).
Defined.

End PathExtrasWitnesses.

(* ===================================================================== *)
(** * Further properties of createElement *)
(* ===================================================================== *)

Section ElementsExtras.
Import ElementsSpec.

Lemma flat_all_no_array (l : list Raw.t) :
  (∀ y, y ∈ l → Raw.isArray y = false) → Raw.flat_all l = l.
Proof.
  induction l as [|y l IH]; intros H; [done|].
  unfold Raw.flat_all in *. simpl. rewrite IH.
  - assert (Raw.isArray y = false) as Hy by (apply H; left). by destruct y.
  - intros z Hz. apply H. by right.
Qed.

Lemma flat_all_elem (xs : list Raw.t) y : y ∈ Raw.flat_all xs → Raw.isArray y = false.
Proof.
  unfold Raw.flat_all. intros Hy. apply list_elem_of_In, in_flat_map in Hy as (x & _ & Hy).
  apply (flat_no_array x). by apply list_elem_of_In.
Qed.

Lemma rendered_flat xs : Raw.flat_all (rendered xs) = rendered xs.
Proof.
  apply flat_all_no_array. intros y Hy. unfold rendered in Hy.
  apply list_elem_of_In, filter_In in Hy as [Hy _].
  apply (flat_all_elem xs). by apply list_elem_of_In.
Qed.

(** [normalizeNode] gives [null] for the empty values and for nothing else. *)
Lemma normalizeNode_null y : Raw.is_null (Elements.normalizeNode y) = Elements.isEmptyValue y.
Proof. by destruct y. Qed.

Lemma kept_children (l : list Raw.t) :
  List.filter (λ node, negb (Raw.is_null node)) (List.map Elements.normalizeNode l)
  = List.map Elements.normalizeNode (List.filter (λ c, negb (Elements.isEmptyValue c)) l).
Proof.
  induction l as [|y l IH]; [done|]. simpl. rewrite normalizeNode_null, IH.
  by destruct (Elements.isEmptyValue y).
Qed.

Lemma filter_idem {A} (f : A → bool) l : List.filter f (List.filter f l) = List.filter f l.
Proof.
  induction l as [|x l IH]; [done|]. simpl. destruct (f x) eqn:E; [|done].
  simpl. by rewrite E, IH.
Qed.

Lemma Raw_get_filter_ne fs k k' :
  k ≠ k' → Raw.get (List.filter (λ kv, negb (bool_decide (kv.1 = k))) fs) k' = Raw.get fs k'.
Proof.
  intros Hne. induction fs as [|[k0 v0] fs IH]; [done|]. simpl.
  destruct (bool_decide (k0 = k)) eqn:E; simpl.
  - apply bool_decide_eq_true_1 in E. subst k0. by rewrite bool_decide_eq_false_2.
  - by rewrite IH.
Qed.

Lemma Raw_get_filter_eq fs k :
  Raw.get (List.filter (λ kv, negb (bool_decide (kv.1 = k))) fs) k = Raw.Undefined.
Proof.
  induction fs as [|[k0 v0] fs IH]; [done|]. simpl.
  destruct (bool_decide (k0 = k)) eqn:E; simpl; [done|]. by rewrite E.
Qed.

Lemma normalizeNode_is_node y :
  Raw.isArray y = false → Elements.isEmptyValue y = false → is_node (Elements.normalizeNode y).
Proof.
  intros Ha He. destruct y as [| |b|n|s|d|src|xs|fs]; try done;
    try (eexists; split; [reflexivity|]; by split).
  rewrite normalizeNode_Obj. eexists. split; [done|]. split.
  - rewrite Raw_get_set_eq. by destruct (Raw.get fs "key").
  - rewrite (Raw_get_set_ne _ "key" "props"), Raw_get_set_eq by done.
    by destruct (Raw.get fs "props").
Qed.

(** The key of the element is [key ?? null] of the props. *)
Lemma createElement_with_key normalizeNode type originProps rawChildren :
  Elements.createElement_with normalizeNode type originProps rawChildren
  = Raw.Obj [("type", type); ("key", Raw.or_null (Raw.get (default [] originProps) "key"));
             ("props",
              Raw.Obj
                match List.filter (λ node, negb (Raw.is_null node))
                        (List.map normalizeNode (Raw.flat_all rawChildren)) with
                | [] => List.filter (λ kv, negb (bool_decide (kv.1 = "key")))
                          (default [] originProps)
                | children =>
                    Raw.set (List.filter (λ kv, negb (bool_decide (kv.1 = "key")))
                               (default [] originProps))
                      "children" (Raw.Arr children)
                end)].
Proof.
  unfold Elements.createElement_with.
  by destruct (Raw.get (default [] originProps) "key"),
       (List.filter _ (List.map normalizeNode (Raw.flat_all rawChildren))).
Qed.

(** X16: [createElement] sees its children through [flat(Infinity)] and
    drops the empty values: children handed over in arrays, however deep,
    give the element that the same children give one by one, and a [null],
    an [undefined] or a boolean among them leaves no trace. *)
Theorem createElement_children_flat type originProps rawChildren :
  Elements.createElement type originProps rawChildren
  = Elements.createElement type originProps (rendered rawChildren).
Proof.
  unfold Elements.createElement, Elements.createElement_with.
  rewrite rendered_flat, !kept_children. unfold rendered. by rewrite filter_idem.
Qed.

(** X17: what [createElement] returns, read property by property.  The key
    of the props becomes the key of the element, [null] when there is none,
    and is no prop of the element; every other prop is passed on.  With a
    child left to render, [props.children] is the array of the normalized
    children, each an object with [key] and [props] set, and a [children]
    prop is overwritten; with none left, [props.children] is whatever the
    props held, as it was handed over. *)
Theorem createElement_result type originProps rawChildren :
  ∃ props,
    Elements.createElement type originProps rawChildren
    = Raw.Obj [("type", type); ("key", Raw.or_null (Raw.get (default [] originProps) "key"));
               ("props", Raw.Obj props)]
    ∧ Raw.get props "key" = Raw.Undefined
    ∧ Raw.get props "children"
      = match rendered rawChildren with
        | [] => Raw.get (default [] originProps) "children"
        | _ => Raw.Arr (List.map Elements.normalizeNode (rendered rawChildren))
        end
    ∧ (∀ k, k ≠ "key" → k ≠ "children" →
            Raw.get props k = Raw.get (default [] originProps) k)
    ∧ Forall is_node (List.map Elements.normalizeNode (rendered rawChildren)).
Proof.
  unfold Elements.createElement. rewrite createElement_with_key.
  rewrite kept_children. fold (rendered rawChildren).
  set (origin := default [] originProps).
  set (kids := List.map Elements.normalizeNode (rendered rawChildren)).
  assert (Forall is_node kids) as Hk.
  { apply Forall_forall. intros c Hc. apply list_elem_of_In, in_map_iff in Hc as (y & <- & Hy).
    unfold rendered in Hy. apply filter_In in Hy as [Hy He].
    apply normalizeNode_is_node; [|by destruct (Elements.isEmptyValue y)].
    by apply (flat_all_elem rawChildren), list_elem_of_In. }
  eexists. split; [reflexivity|].
  destruct (rendered rawChildren) as [|c cs] eqn:E.
  - subst kids. cbn [List.map]. split_and!; try done.
    + apply Raw_get_filter_eq.
    + by apply Raw_get_filter_ne.
    + intros k Hkey _. by apply Raw_get_filter_ne.
  - subst kids. cbn [List.map] in *. split_and!; try done.
    + rewrite Raw_get_set_ne by done. apply Raw_get_filter_eq.
    + apply Raw_get_set_eq.
    + intros k Hkey Hch. rewrite Raw_get_set_ne by done. by apply Raw_get_filter_ne.
Qed.

End ElementsExtras.

(* ===================================================================== *)
(** * Further properties of the effect queue *)
(* ===================================================================== *)

Section EffectExtras.
Import Hooks EffectSpec.
Variable funs : nat → Js.Value → Js.Value.

Lemma getProperty_fields_set_ne fs k k' v :
  k ≠ k' → Equals.getProperty (fields_set fs k v) k' = Equals.getProperty fs k'.
Proof.
  intros Hne. unfold Equals.getProperty.
  induction fs as [|[k0 v0] fs IH]; simpl.
  - by rewrite bool_decide_eq_false_2.
  - destruct (bool_decide (k0 = k)) eqn:E; simpl.
    + apply bool_decide_eq_true_1 in E. subst k0. by rewrite !bool_decide_eq_false_2.
    + destruct (bool_decide (k0 = k')); [done|]. apply IH.
Qed.

Lemma fields_set_twice fs k v v' : fields_set (fields_set fs k v) k v' = fields_set fs k v'.
Proof.
  induction fs as [|[k0 v0] fs IH]; simpl.
  - by rewrite bool_decide_eq_true_2.
  - destruct (bool_decide (k0 = k)) eqn:E; simpl.
    + by rewrite bool_decide_eq_true_2.
    + by rewrite E, IH.
Qed.

(** A hook that the loop skips has no effect to run. *)
Lemma falsy_no_effect c e : Js.truthy (queued_hook c e) = false → due_effect c e = None.
Proof. unfold due_effect. by destruct (queued_hook c e) as [[]| |]. Qed.

Lemma loop_skip e q c :
  Js.truthy (queued_hook c e) = false →
  flushEffects_loop funs (e :: q) c = flushEffects_loop funs q (with_queue q c).
Proof.
  destruct e as [path cur]. unfold queued_hook. cbn [fst snd flushEffects_loop].
  unfold bind at 1, modify at 1. unfold bind at 1, get_state at 1.
  change (state (with_queue q c)) with (state c).
  destruct (JsMap.get (state c) path) as [r|]; [|done].
  change (array_at (with_queue q c) r) with (array_at c r). by intros ->.
Qed.

Lemma loop_run e q c h f :
  queued_hook c e = Js.VRef h → getProp c (Js.VRef h) "effect" = Js.VFun f →
  flushEffects_loop funs (e :: q) c = flushEffects_loop funs q (ran funs h f (with_queue q c)).
Proof.
  destruct e as [path cur]. unfold queued_hook. cbn [fst snd flushEffects_loop].
  unfold bind at 1, modify at 1. unfold bind at 1, get_state at 1.
  change (state (with_queue q c)) with (state c).
  destruct (JsMap.get (state c) path) as [r|]; [|done].
  change (array_at (with_queue q c) r) with (array_at c r). intros -> Hf.
  change (getProp (with_queue q c) (Js.VRef h) "effect") with (getProp c (Js.VRef h) "effect").
  rewrite Hf. reflexivity.
Qed.

Lemma loop_throw e q c :
  Js.truthy (queued_hook c e) = true → due_effect c e = None →
  ∃ what, flushEffects_loop funs (e :: q) c = Throw (TypeError what) (with_queue q c).
Proof.
  destruct e as [path cur]. unfold due_effect, queued_hook. cbn [fst snd flushEffects_loop].
  unfold bind at 1, modify at 1. unfold bind at 1, get_state at 1.
  change (state (with_queue q c)) with (state c).
  destruct (JsMap.get (state c) path) as [r|]; [|done].
  change (array_at (with_queue q c) r) with (array_at c r). intros -> Hf.
  change (getProp (with_queue q c) (array_get (array_at c r) cur) "effect")
    with (getProp c (array_get (array_at c r) cur) "effect").
  eexists. destruct (getProp c (array_get (array_at c r) cur) "effect") as [p|g|r']; try done.
Qed.

(** A truthy hook with an effect is a record. *)
Lemma due_effect_record c e f :
  due_effect c e = Some f →
  ∃ h fs, queued_hook c e = Js.VRef h ∧ heap c !! h = Some (Js.ORec fs)
          ∧ Equals.getProperty fs "effect" = Js.VFun f.
Proof.
  unfold due_effect. intros H.
  destruct (getProp c (queued_hook c e) "effect") as [p|g|r] eqn:E; try done.
  injection H as ->.
  destruct (getProp_defined c (queued_hook c e) "effect") as (h & fs & Hq & Hh & Hp).
  { by rewrite E. }
  exists h, fs. split_and!; try done. by rewrite <- Hp.
Qed.

(** Running an effect changes no array, no hook array and no property but
    the cleanup of its record. *)
Section Ran.
Variables (c : Ctx) (h f : nat) (fs : list (string * Js.Value)).
Hypothesis Hh : heap c !! h = Some (Js.ORec fs).

Lemma ran_heap :
  heap (ran funs h f c)
  = <[h := Js.ORec (fields_set fs "cleanup" (cleanup_from (funs f undefined)))]> (heap c).
Proof. unfold ran, objs. cbn. by rewrite Hh. Qed.

Lemma ran_array_at r : array_at (ran funs h f c) r = array_at c r.
Proof.
  unfold array_at, objs. rewrite ran_heap.
  destruct (decide (r = h)) as [->|Hne].
  - by rewrite lookup_insert_eq, Hh.
  - by rewrite lookup_insert_ne.
Qed.

Lemma ran_getProp v k : k ≠ "cleanup" → getProp (ran funs h f c) v k = getProp c v k.
Proof.
  intros Hk. unfold getProp. destruct v as [p|g|r]; try done.
  unfold Equals.fields, objs. rewrite ran_heap.
  destruct (decide (r = h)) as [->|Hne].
  - rewrite lookup_insert_eq, Hh. simpl. by apply getProperty_fields_set_ne.
  - by rewrite lookup_insert_ne.
Qed.

Lemma ran_queued_hook e : queued_hook (ran funs h f c) e = queued_hook c e.
Proof.
  unfold queued_hook. change (state (ran funs h f c)) with (state c).
  destruct (JsMap.get (state c) e.1); [|done]. by rewrite ran_array_at.
Qed.

Lemma ran_due_effect e : due_effect (ran funs h f c) e = due_effect c e.
Proof. unfold due_effect. by rewrite ran_queued_hook, ran_getProp. Qed.

Lemma ran_runnable e : runnable c e → runnable (ran funs h f c) e.
Proof. unfold runnable. by rewrite ran_queued_hook, ran_due_effect. Qed.
End Ran.

(** The loop over a run of entries that can be run: where it stands when
    it reaches what follows them. *)
Lemma flushEffects_loop_prefix q1 : ∀ q2 c,
  Forall (runnable c) q1 →
  ∃ c1, flushEffects_loop funs (q1 ++ q2) c = flushEffects_loop funs q2 c1
    ∧ queue c1 = match q1 with [] => queue c | _ => q2 end
    ∧ trace c1 = trace c ++ omap (due_effect c) q1
    ∧ state c1 = state c
    ∧ flushScheduled c1 = flushScheduled c
    ∧ (∀ e, queued_hook c1 e = queued_hook c e)
    ∧ (∀ e, due_effect c1 e = due_effect c e)
    ∧ (∀ h, Js.VRef h ∉ queued_hook c <$> q1 → heap c1 !! h = heap c !! h)
    ∧ (∀ h, Js.VRef h ∈ queued_hook c <$> q1 →
         ∃ fs f, heap c !! h = Some (Js.ORec fs)
                 ∧ Equals.getProperty fs "effect" = Js.VFun f
                 ∧ heap c1 !! h
                   = Some (Js.ORec (fields_set fs "cleanup" (cleanup_from (funs f undefined))))).
Proof.
  induction q1 as [|e q1 IH]; intros q2 c HF.
  { exists c. cbn [omap list_omap fmap list_fmap app]. rewrite app_nil_r.
    split_and!; try done. intros h Hin. by apply elem_of_nil in Hin. }
  apply Forall_cons in HF as [Hr HF]. cbn [app].
  destruct (Js.truthy (queued_hook c e)) eqn:T.
  - destruct (Hr T) as [f Hf].
    destruct (due_effect_record c e f Hf) as (h & fs & Hq & Hh & Hp).
    rewrite (loop_run e (q1 ++ q2) c h f Hq) by (by rewrite (getProp_record c h fs)).
    set (c0 := with_queue (q1 ++ q2) c).
    assert (heap c0 !! h = Some (Js.ORec fs)) as Hh0 by exact Hh.
    assert (∀ e', queued_hook (ran funs h f c0) e' = queued_hook c e') as Hqh.
    { intros e'. by rewrite (ran_queued_hook c0 h f fs Hh0). }
    assert (∀ e', due_effect (ran funs h f c0) e' = due_effect c e') as Hde.
    { intros e'. by rewrite (ran_due_effect c0 h f fs Hh0). }
    destruct (IH q2 (ran funs h f c0)) as (c1 & -> & Hqu & Htr & Hst & Hfl & Hq1 & Hd1 & B1 & B2).
    { eapply Forall_impl; [exact HF|]. intros e' He'. unfold runnable. by rewrite Hqh, Hde. }
    rewrite (list_fmap_ext _ (queued_hook c) q1 (λ _ e' _, Hqh e')) in B1, B2.
    exists c1. split; [done|]. split_and!.
    + rewrite Hqu. by destruct q1.
    + rewrite Htr. cbn [omap list_omap]. rewrite Hf. cbn [trace ran with_heap with_trace].
      rewrite <- app_assoc. cbn [app]. f_equal. f_equal. by apply omap_ext_all.
    + by rewrite Hst.
    + by rewrite Hfl.
    + intros e'. by rewrite Hq1.
    + intros e'. by rewrite Hd1.
    + intros h' Hnot. rewrite fmap_cons, Hq in Hnot. apply not_elem_of_cons in Hnot as [Hne Hnot].
      rewrite (B1 h' Hnot), (ran_heap c0 h f fs Hh0). rewrite lookup_insert_ne; [done|congruence].
    + intros h' Hin. rewrite fmap_cons, Hq in Hin.
      destruct (decide (Js.VRef h' ∈ queued_hook c <$> q1)) as [Hin'|Hnot].
      * destruct (B2 h' Hin') as (fs1 & f1 & Hh1 & Hp1 & Hc1).
        rewrite (ran_heap c0 h f fs Hh0) in Hh1.
        destruct (decide (h' = h)) as [->|Hne].
        -- rewrite lookup_insert_eq in Hh1. injection Hh1 as <-.
           rewrite getProperty_fields_set_ne in Hp1 by done.
           rewrite fields_set_twice in Hc1. by exists fs, f1.
        -- rewrite lookup_insert_ne in Hh1 by done. by exists fs1, f1.
      * apply elem_of_cons in Hin as [[= ->]|Hin]; [|done].
        exists fs, f. split_and!; try done.
        rewrite (B1 h Hnot), (ran_heap c0 h f fs Hh0). by rewrite lookup_insert_eq.
  - rewrite (loop_skip e (q1 ++ q2) c T).
    destruct (IH q2 (with_queue (q1 ++ q2) c)) as (c1 & -> & Hqu & Htr & Hst & Hfl & Hq1 & Hd1 & B1 & B2).
    { exact HF. }
    exists c1. split; [done|]. split_and!.
    + rewrite Hqu. by destruct q1.
    + rewrite Htr. cbn [omap list_omap]. by rewrite (falsy_no_effect c e T).
    + by rewrite Hst.
    + by rewrite Hfl.
    + intros e'. by rewrite Hq1.
    + intros e'. by rewrite Hd1.
    + intros h' Hnot. rewrite fmap_cons in Hnot. apply not_elem_of_cons in Hnot as [_ Hnot].
      by rewrite (B1 h' Hnot).
    + intros h' Hin. rewrite fmap_cons in Hin. apply elem_of_cons in Hin as [Hin|Hin].
      * rewrite <- Hin in T. done.
      * by apply (B2 h' Hin).
Qed.


(** X19: the run of [flushEffects] stops at the first entry whose slot holds
    something that is no effect record (a state value, say): it throws a
    [TypeError] after the effects before that entry ran, in order, and the
    entries after the one that failed stay in the queue. *)
Theorem flushEffects_stops_at_bad_hook c q1 e q2 :
  queue c = q1 ++ e :: q2 →
  Forall (runnable c) q1 →
  Js.truthy (queued_hook c e) = true →
  due_effect c e = None →
  ∃ what c', flushEffects_run funs c = Throw (TypeError what) c'
    ∧ queue c' = q2
    ∧ trace c' = trace c ++ omap (due_effect c) q1
    ∧ state c' = state c.
Proof.
  intros Hq HF T Hd.
  destruct (flushEffects_loop_prefix q1 (e :: q2) c HF)
    as (c1 & Hrun & _ & Htr & Hst & _ & Hq1 & Hd1 & _ & _).
  destruct (loop_throw e q2 c1) as [what Hthrow]; [by rewrite Hq1|by rewrite Hd1|].
  exists what, (with_flushScheduled false (with_queue q2 c1)).
  unfold flushEffects_run, bind, get_state, finally. rewrite Hq, Hrun, Hthrow.
  by split_and!.
Qed.

End EffectExtras.

Section EffectExtrasWitnesses.
Import Hooks EffectSpec EffectExamples.

Lemma queued_store_runnable : Forall (runnable queued_store) (queue queued_store).
Proof.
  repeat apply Forall_cons_2; [| | |apply Forall_nil_2].
  - intros _. exists 8. vm_compute. reflexivity.
  - intros T. vm_compute in T. discriminate T.
  - intros T. vm_compute in T. discriminate T.
Qed.


Lemma bad_store_runnable : Forall (runnable bad_store) [("0", 0)].
Proof.
  apply Forall_cons_2; [|apply Forall_nil_2].
  intros _. exists 8. vm_compute. reflexivity.
Qed.

Lemma flushEffects_stops_at_bad_hook_witness :
  queue bad_store = [("0", 0)] ++ ("0", 1) :: [("gone", 0)]
  ∧ Forall (runnable bad_store) [("0", 0)]
  ∧ Js.truthy (queued_hook bad_store ("0", 1)) = true
  ∧ due_effect bad_store ("0", 1) = None
  ∧ ∃ what c', flushEffects_run funs bad_store = Throw (TypeError what) c'
    ∧ queue c' = [("gone", 0)]
    ∧ trace c' = trace bad_store ++ omap (due_effect bad_store) [("0", 0)]
    ∧ state c' = state bad_store.
Proof.
  assert (Js.truthy (queued_hook bad_store ("0", 1)) = true) as T by (vm_compute; reflexivity).
  assert (due_effect bad_store ("0", 1) = None) as D by (vm_compute; reflexivity).
  split; [reflexivity|]. split; [exact bad_store_runnable|].
  split; [exact T|]. split; [exact D|].
  exact (flushEffects_stops_at_bad_hook funs bad_store [("0", 0)] ("0", 1) [("gone", 0)]
           eq_refl bad_store_runnable T D).
Defined.

End EffectExtrasWitnesses.

(* ===================================================================== *)
(** * Further properties of updateDomProps *)
(* ===================================================================== *)

Section PropsExtras.
Import DomSpec.
Variable has_prop : string → string → bool.
Variable read_only : string → string → bool.
Variable objs : nat → Js.JsObj.

Lemma getProperty_NoDup (fs : list (string * Js.Value)) k v :
  NoDup fs.*1 → (k, v) ∈ fs → Equals.getProperty fs k = v.
Proof.
  unfold Equals.getProperty. induction fs as [|[k0 v0] fs IH]; intros ND Hin.
  - by apply elem_of_nil in Hin.
  - simpl in *. apply NoDup_cons in ND as [Hk0 ND].
    apply elem_of_cons in Hin as [[= -> ->]|Hin].
    + by rewrite bool_decide_eq_true_2.
    + rewrite bool_decide_eq_false_2; [by apply IH|].
      intros ->. apply Hk0. apply list_elem_of_fmap. by exists (k, v).
Qed.

Lemma hasOwnProperty_in (fs : list (string * Js.Value)) k v :
  (k, v) ∈ fs → Equals.hasOwnProperty fs k = true.
Proof.
  intros Hin. unfold Equals.hasOwnProperty. apply existsb_exists.
  exists (k, v). split; [by apply list_elem_of_In|]. by apply bool_decide_eq_true_2.
Qed.

Lemma getProperty_no_NaN (fs : list (string * Js.Value)) k :
  no_NaN fs → Js.strict_eq (Equals.getProperty fs k) (Equals.getProperty fs k) = true.
Proof.
  unfold Equals.getProperty, no_NaN. induction fs as [|[k0 v0] fs IH]; intros HN; [done|].
  apply Forall_cons in HN as [Hv HN]. simpl.
  destruct (bool_decide (k0 = k)); [exact Hv|by apply IH].
Qed.

(** A loop whose rounds do nothing does nothing. *)
Lemma for_each_skip {S A} (l : list A) (body : A → M S unit) s :
  (∀ x s', x ∈ l → body x s' = Ret tt s') → for_each l body s = Ret tt s.
Proof.
  induction l as [|x l IH]; intros H; [done|]. cbn [for_each].
  unfold bind. rewrite H by left. apply IH. intros y s' Hy. apply H. by right.
Qed.

(** The document with some more calls made. *)
Lemma calls_nil d : d = Dom.mk (Dom.next d) (Dom.kids d) (Dom.nodeValue d) (Dom.tags d) (Dom.calls d ++ []).
Proof. destruct d. by rewrite app_nil_r. Qed.

Section Unchanged.
Variables (dom : nat) (props : list (string * Js.Value)) (d : Dom.t).
Hypothesis Hkeys : NoDup props.*1.
Hypothesis Hprops : no_NaN props.
Hypothesis Hstyle : no_NaN (Dom.entries objs (Dom.getProperty props "style")).

Lemma own_value key v :
  (key, v) ∈ props →
  Dom.getProperty props key = v ∧ Dom.hasOwnProperty props key = true ∧ Js.strict_eq v v = true.
Proof.
  intros Hin. split_and!.
  - by apply getProperty_NoDup.
  - by eapply hasOwnProperty_in.
  - unfold no_NaN in Hprops. rewrite Forall_forall in Hprops. by apply (Hprops (key, v)).
Qed.

(** One round of the last loop of [updateDomProps] on a property that did
    not change. *)
Lemma unchanged_round key v d0 :
  (key, v) ∈ props → Dom.tags d0 = Dom.tags d →
  (if bool_decide (key = "children") || bool_decide (key = "style") then ret tt
   else
     let prevValue := Dom.getProperty props key in
     let isUnchanged := Js.strict_eq v prevValue in
     if Dom.startsWith key "on" && Dom.is_fun v then
       (if Dom.is_fun prevValue && negb (Js.strict_eq prevValue v)
        then Dom.log (Dom.RemoveEventListener dom (Dom.eventName key) prevValue) else ret tt) ;;
       Dom.log (Dom.AddEventListener dom (Dom.eventName key) v)
     else if Dom.startsWith key "on" && Dom.is_fun prevValue
             && (Js.is_nullish v || negb (Dom.is_fun v)) then
       Dom.log (Dom.RemoveEventListener dom (Dom.eventName key) prevValue)
     else if bool_decide (key = "className") then
       if negb isUnchanged then Dom.log (Dom.SetClassName dom (Dom.or_empty v)) else ret tt
     else if Dom.startsWith key "data-" then
       if Js.is_nullish v then Dom.log (Dom.RemoveAttribute dom key)
       else if negb isUnchanged then Dom.log (Dom.SetAttribute dom key (Js.String_ v))
       else ret tt
     else if Dom.is_boolean v then
       let* d := get_state in
       if Dom.in_dom has_prop d dom key then
         if negb isUnchanged then Dom.assign read_only dom key v else ret tt
       else if Js.truthy v then Dom.log (Dom.SetAttribute dom key "")
       else Dom.log (Dom.RemoveAttribute dom key)
     else if Js.is_nullish v || isUnchanged then ret tt
     else
       let* d := get_state in
       if Dom.in_dom has_prop d dom key then Dom.assign read_only dom key v
       else Dom.log (Dom.SetAttribute dom key (Js.String_ v))) d0
  = Ret tt (Dom.mk (Dom.next d0) (Dom.kids d0) (Dom.nodeValue d0) (Dom.tags d0)
              (Dom.calls d0 ++ repeated has_prop d dom (key, v))).
Proof.
  intros Hin Htags. destruct (own_value key v Hin) as (Hget & _ & Hv).
  unfold repeated. cbv zeta. rewrite Hget, Hv.
  assert (Dom.in_dom has_prop d0 dom key = Dom.in_dom has_prop d dom key) as Hin_dom.
  { unfold Dom.in_dom, Dom.tagOf. by rewrite Htags. }
  destruct (bool_decide (key = "children") || bool_decide (key = "style"));
    [unfold ret; f_equal; apply calls_nil|].
  destruct (Dom.startsWith key "on" && Dom.is_fun v) eqn:E2.
  { rewrite andb_false_r. reflexivity. }
  cbn [andb negb].
  destruct (bool_decide (key = "className")); [unfold ret; f_equal; apply calls_nil|].
  destruct (Dom.startsWith key "data-").
  { destruct (Js.is_nullish v); [reflexivity|]. unfold ret; f_equal; apply calls_nil. }
  destruct (Dom.is_boolean v).
  { unfold bind, get_state. rewrite Hin_dom.
    destruct (Dom.in_dom has_prop d dom key); [unfold ret; f_equal; apply calls_nil|].
    by destruct (Js.truthy v). }
  rewrite orb_true_r. unfold ret; f_equal; apply calls_nil.
Qed.

End Unchanged.

(** A loop whose rounds only log calls logs them all, in order. *)
Lemma for_each_logs {A} (tags : gmap nat string) (l : list A) (body : A → M Dom.t unit)
    (out : A → list Dom.Call) :
  (∀ x d0, x ∈ l → Dom.tags d0 = tags →
           body x d0 = Ret tt (Dom.mk (Dom.next d0) (Dom.kids d0) (Dom.nodeValue d0) (Dom.tags d0)
                                 (Dom.calls d0 ++ out x))) →
  ∀ d0, Dom.tags d0 = tags →
        for_each l body d0
        = Ret tt (Dom.mk (Dom.next d0) (Dom.kids d0) (Dom.nodeValue d0) (Dom.tags d0)
                    (Dom.calls d0 ++ flat_map out l)).
Proof.
  induction l as [|x l IH]; intros H d0 Ht.
  - unfold for_each, ret. f_equal. apply calls_nil.
  - cbn [for_each flat_map]. unfold bind. rewrite H by (done || left).
    rewrite IH; [|intros y d1 Hy; apply H; by right|done].
    cbn [Dom.next Dom.kids Dom.nodeValue Dom.tags Dom.calls]. by rewrite app_assoc.
Qed.


End PropsExtras.

Section PropsExtrasWitnesses.
Import DomSpec.

Lemma sample_props_keys : NoDup sample_props.*1.
Proof.
  unfold sample_props. cbn [fmap list_fmap fst].
  repeat (apply NoDup_cons_2;
          [intros H; apply list_elem_of_In in H; cbn [In] in H;
           repeat (destruct H as [H|H]; [discriminate H|]); exact H|]).
  apply NoDup_nil_2.
Qed.

Lemma sample_props_no_NaN : no_NaN sample_props.
Proof. repeat (apply Forall_cons_2; [reflexivity|]). apply Forall_nil_2. Qed.


End PropsExtrasWitnesses.

(* ===================================================================== *)
(** * A mount appends, and the document mirrors the new tree *)
(* ===================================================================== *)

Section SyncFacts.
Import Dom Reconciler MountSpec TreeSpec SyncSpec.
Local Open Scope nat_scope.

(** The invariant reads the document through its child lists and its
    counter alone. *)
Lemma doc_ok_same d d' :
  next d' = next d → (∀ q, kidsOf d' q = kidsOf d q) → doc_ok d → doc_ok d'.
Proof.
  intros Hn Hk [ND B P]. split.
  - intros q. rewrite Hk. apply ND.
  - intros q m. rewrite Hk, Hn. apply B.
  - intros q q' m. rewrite !Hk. apply P.
Qed.

Lemma synced_eq d i :
  synced d i ↔
  match i_kind i, i_dom i with
  | HOST, Some n => kidsOf d n = nodes_of (i_children i)
  | _, _ => True
  end ∧ Forall (opt_synced d) (i_children i).
Proof.
  destruct i as [r kind dom node children key path]. cbn [synced i_kind i_dom i_children].
  apply and_iff_compat_l.
  induction children as [|c cs IH]; [by split; [constructor|]|].
  rewrite Forall_cons, <- IH. by destruct c.
Qed.

Lemma hosts_eq i :
  hosts i = match i_kind i, i_dom i with
            | HOST, Some n => [n]
            | _, _ => []
            end ++ flat_map opt_hosts (i_children i).
Proof. by destruct i. Qed.

(** A tree stays mirrored as long as its host nodes keep their children. *)
Lemma synced_frame d d' : ∀ i,
  (∀ n, n ∈ hosts i → kidsOf d' n = kidsOf d n) → synced d i → synced d' i.
Proof.
  apply (Instance_children_ind (λ i, (∀ n, n ∈ hosts i → kidsOf d' n = kidsOf d n) →
                                     synced d i → synced d' i)).
  intros r kind dom node children key path IH Hk.
  rewrite !synced_eq. cbn [i_kind i_dom i_children]. intros [Hown Hcs]. split.
  - destruct kind; try done. destruct dom as [n|]; [|done].
    rewrite Hk; [done|]. rewrite hosts_eq. cbn [i_kind i_dom]. apply elem_of_app. left. left.
  - rewrite Forall_forall in IH, Hcs. apply Forall_forall. intros [c|] Hc; [|done].
    apply (IH _ Hc); [|by apply (Hcs _ Hc)].
    intros n Hn. apply Hk. rewrite hosts_eq. apply elem_of_app. right.
    cbn [i_children]. apply elem_of_flat_map. by exists (Some c).
Qed.

Lemma opt_synced_frame d d' r :
  (∀ n, n ∈ opt_hosts r → kidsOf d' n = kidsOf d n) → opt_synced d r → opt_synced d' r.
Proof. destruct r as [i|]; [apply synced_frame|done]. Qed.

(** *** The primitives *)

(** A node that is nowhere yet goes last under its parent, and nothing
    else moves. *)
Lemma appendChild_new p n d u d' :
  doc_ok d → n < next d → (∀ q, n ∉ kidsOf d q) →
  appendChild p n d = Ret u d' →
  doc_ok d' ∧ next d' = next d
  ∧ kidsOf d' p = kidsOf d p ++ [n] ∧ ∀ q, q ≠ p → kidsOf d' q = kidsOf d q.
Proof.
  intros [ND B P] Hn Hnew H. apply appendChild_Ret in H as (Hnext & _ & _ & _ & Hp & Hq).
  rewrite filter_ne_notin in Hp by apply Hnew.
  assert (Hq' : ∀ q, q ≠ p → kidsOf d' q = kidsOf d q).
  { intros q Hne. rewrite Hq by done. apply filter_ne_notin, Hnew. }
  split; [|done]. split.
  - intros q. destruct (decide (q = p)) as [->|Hne]; [|rewrite Hq' by done; apply ND].
    rewrite Hp. apply NoDup_app. split; [apply ND|]. split; [|apply NoDup_singleton].
    intros m Hm ->%list_elem_of_singleton. by apply (Hnew p).
  - intros q m. rewrite Hnext. destruct (decide (q = p)) as [->|Hne].
    + rewrite Hp. intros [Hm| ->%list_elem_of_singleton]%elem_of_app; [by eapply B|done].
    + rewrite Hq' by done. apply B.
  - assert (∀ q m, m ∈ kidsOf d' q → m ≠ n → m ∈ kidsOf d q) as Hold.
    { intros q m Hm Hne. destruct (decide (q = p)) as [->|Hqp].
      - rewrite Hp in Hm. apply elem_of_app in Hm as [Hm|Hm%list_elem_of_singleton]; done.
      - by rewrite Hq' in Hm. }
    assert (∀ q, n ∈ kidsOf d' q → q = p) as Hn'.
    { intros q Hm. destruct (decide (q = p)) as [->|Hqp]; [done|].
      rewrite Hq' in Hm by done. by apply Hnew in Hm. }
    intros q q' m Hm Hm'. destruct (decide (m = n)) as [->|Hne].
    + by rewrite (Hn' q), (Hn' q').
    + eapply P; by apply Hold.
Qed.

Lemma createElement_ok tag d n d' :
  doc_ok d → createElement tag d = Ret n d' →
  n = next d ∧ next d' = S (next d) ∧ doc_ok d'
  ∧ kidsOf d' n = [] ∧ ∀ q, q ≠ n → kidsOf d' q = kidsOf d q.
Proof.
  intros [ND B P] H. apply createElement_Ret in H as (-> & Hnext & _ & _ & _ & Hnew & Hold).
  split_and!; try done. split.
  - intros q. destruct (decide (q = next d)) as [->|Hne].
    + rewrite Hnew. apply NoDup_nil_2.
    + rewrite Hold by done. apply ND.
  - intros q m. rewrite Hnext. destruct (decide (q = next d)) as [->|Hne].
    + rewrite Hnew. by intros ?%elem_of_nil.
    + rewrite Hold by done. intros Hm%B. lia.
  - intros q q' m.
    destruct (decide (q = next d)) as [->|Hne]; [rewrite Hnew; by intros ?%elem_of_nil|].
    destruct (decide (q' = next d)) as [->|Hne']; [rewrite Hnew; by intros _ ?%elem_of_nil|].
    rewrite !Hold by done. apply P.
Qed.

Lemma createTextNode_ok data d n d' :
  doc_ok d → createTextNode data d = Ret n d' →
  n = next d ∧ next d' = S (next d) ∧ doc_ok d' ∧ ∀ q, kidsOf d' q = kidsOf d q.
Proof.
  intros [ND B P] H. apply createTextNode_Ret in H as (-> & Hnext & _ & _ & _ & Hk).
  assert (∀ q, kidsOf d' q = kidsOf d q) as Hq by (intros q; unfold kidsOf; by rewrite Hk).
  split_and!; try done. split.
  - intros q. rewrite Hq. apply ND.
  - intros q m. rewrite Hq, Hnext. intros Hm%B. lia.
  - intros q q' m. rewrite !Hq. apply P.
Qed.

Lemma filter_notin_disjoint (ns l : list nat) :
  (∀ x, x ∈ l → x ∉ ns) → filter (λ x, x ∉ ns) l = l.
Proof.
  induction l as [|x l IH]; intros H; [done|].
  rewrite filter_cons. destruct (decide (x ∉ ns)) as [_|Hx].
  - f_equal. apply IH. intros y Hy. apply H. by right.
  - destruct Hx. apply H. left.
Qed.

Lemma filter_notin_self (ns l : list nat) :
  (∀ x, x ∈ l → x ∈ ns) → filter (λ x, x ∉ ns) l = [].
Proof.
  induction l as [|x l IH]; intros H; [done|].
  rewrite filter_cons. destruct (decide (x ∉ ns)) as [Hx|_].
  - destruct Hx. apply H. left.
  - apply IH. intros y Hy. apply H. by right.
Qed.

(** Placing at the end of a parent the nodes that are its last children
    already, in their order, changes no child list. *)
Lemma insertInstance_last p ci (K : list nat) d u d' :
  doc_ok d → kidsOf d p = K ++ getDomNodes ci →
  insertInstance p ci None d = Ret u d' →
  next d' = next d ∧ ∀ q, kidsOf d' q = kidsOf d q.
Proof.
  intros Hok Hk H. unfold insertInstance in H.
  destruct ci as [c|]; [|by apply ret_Ret in H as [_ <-]].
  set (ns := getDomNodes (Some c)) in *.
  assert (NoDup (K ++ ns)) as ND by (rewrite <- Hk; apply Hok).
  apply NoDup_app in ND as (_ & Hdisj & NDns).
  (* the other parents *)
  lazymatch type of H with
  | for_each _ ?body _ = _ =>
      assert (Hframe : ∀ l d0 d1 u0,
        for_each l body d0 = Ret u0 d1 →
        next d1 = next d0
        ∧ ∀ q, q ≠ p → (∀ n, n ∈ l → n ∉ kidsOf d0 q) → kidsOf d1 q = kidsOf d0 q)
  end.
  { induction l as [|n l IH]; intros d0 d1 u0 Hrun; cbn [for_each] in Hrun.
    - by apply ret_Ret in Hrun as [_ <-].
    - apply bind_Ret in Hrun as (u1 & d2 & Hstep & Hrun).
      apply bind_Ret in Hstep as (a & s & Hget & Hstep).
      apply get_state_Ret in Hget as [-> ->].
      apply IH in Hrun as [Hn1 Hq1].
      destruct (isChildOf d0 n p && bool_decide (nextSibling d0 p n = None)).
      + apply ret_Ret in Hstep as [_ <-]. split; [done|].
        intros q Hne Hnot. apply Hq1; [done|]. intros m Hm. apply Hnot. by right.
      + apply appendChild_Ret in Hstep as (Hn2 & _ & _ & _ & _ & Hq2).
        split; [congruence|]. intros q Hne Hnot.
        assert (kidsOf d2 q = kidsOf d0 q) as E.
        { rewrite Hq2 by done. apply filter_ne_notin, Hnot. left. }
        rewrite Hq1, E; [done|done|]. intros m Hm. rewrite E. apply Hnot. by right. }
  destruct (Hframe _ _ _ _ H) as [Hnext Hothers]. split; [done|].
  intros q. destruct (decide (q = p)) as [->|Hne].
  - apply (place_nodes p None [] ns NDns) with (P := K ++ ns) in H as [_ Hp].
    + rewrite Hp, Hk, app_nil_r, filter_app.
      rewrite (filter_notin_self ns ns) by done. rewrite app_nil_r.
      f_equal. apply filter_notin_disjoint. intros x Hx Hin. by apply (Hdisj x).
    + intros n _ Hn. by apply elem_of_nil in Hn.
    + done.
    + intros q. apply Hok.
    + by rewrite app_nil_r.
  - apply Hothers; [done|]. intros n Hn Hq.
    apply Hne. apply (ok_parent d Hok q p n Hq). rewrite Hk. apply elem_of_app. by right.
Qed.

(** *** The mount *)

Lemma appended_refl p w : doc_ok (dm w) → appended p w None w.
Proof.
  intros Hok. split; try done.
  - cbn [getDomNodes]. by rewrite app_nil_r.
  - intros q m Hm. by left.
  - intros n Hn. by apply elem_of_nil in Hn.
Qed.

(** Only the document counts. *)
Lemma appended_dm p w0 w r w' w0' :
  dm w0 = dm w → dm w0' = dm w' → appended p w r w' → appended p w0 r w0'.
Proof. intros E E' [? ? ? ? ? ? ?]. split; rewrite ?E, ?E'; done. Qed.

Section Mounts.
Variable has_prop : string → string → bool.
Variable read_only : string → string → bool.
Variable comps : nat → list (string * Js.Value) → list VNode → M Hooks.Ctx (option VNode).
Variable createChildPath :
  string → option string → nat → option NodeType → option (list VNode) → string.

Section WithReconcile.
Variable reconcile :
  nat → option Instance → option VNode → string → M World (option Instance).
Hypothesis reconcile_appends : appends reconcile.

Lemma mountChildren_appends p path children after :
  (∀ ci w0 u w1 K,
     doc_ok (dm w0) → kidsOf (dm w0) p = K ++ getDomNodes ci → after ci w0 = Ret u w1 →
     next (dm w1) = next (dm w0) ∧ ∀ q, kidsOf (dm w1) q = kidsOf (dm w0) q) →
  ∀ rest i w cis w',
    doc_ok (dm w) → p < next (dm w) →
    mountChildren createChildPath reconcile p path children after i rest w = Ret cis w' →
    doc_ok (dm w') ∧ next (dm w) ≤ next (dm w')
    ∧ kidsOf (dm w') p = kidsOf (dm w) p ++ nodes_of cis
    ∧ (∀ q, q ≠ p → q < next (dm w) → kidsOf (dm w') q = kidsOf (dm w) q)
    ∧ (∀ q m, m ∈ kidsOf (dm w') q → m ∈ kidsOf (dm w) q ∨ next (dm w) ≤ m)
    ∧ Forall (opt_synced (dm w')) cis
    ∧ (∀ n, n ∈ flat_map opt_hosts cis → next (dm w) ≤ n < next (dm w')).
Proof.
  intros Hafter. induction rest as [|child rest IH]; intros i w cis w' Hok Hp H;
    cbn [mountChildren] in H.
  - apply ret_Ret in H as [<- <-]. split_and!; try done.
    + by rewrite app_nil_r.
    + intros q m Hm. by left.
    + intros n Hn. by apply elem_of_nil in Hn.
  - apply bind_Ret in H as (ci & w1 & Hrec & H).
    apply bind_Ret in H as (u & w2 & Haft & H).
    apply bind_Ret in H as (cs & w3 & Hrest & H).
    apply ret_Ret in H as [<- <-].
    apply reconcile_appends in Hrec as [Hok1 Hn1 Hk1 Hf1 Hnew1 Hs1 Hh1]; [|done..].
    destruct (Hafter ci w1 u w2 _ Hok1 Hk1 Haft) as [Hn2 Hk2].
    assert (doc_ok (dm w2)) as Hok2 by (by apply (doc_ok_same (dm w1))).
    destruct (IH (S i) w2 cs w3 Hok2) as (Hok3 & Hn3 & Hk3 & Hf3 & Hnew3 & Hs3 & Hh3);
      [lia|done|].
    split_and!.
    + done.
    + lia.
    + rewrite Hk3, Hk2, Hk1, nodes_of_cons. by rewrite app_assoc.
    + intros q Hq Hlt. rewrite Hf3, Hk2, Hf1; [done..|lia].
    + intros q m Hm. apply Hnew3 in Hm as [Hm|Hm]; [|right; lia].
      rewrite Hk2 in Hm. apply Hnew1 in Hm as [Hm|Hm]; [by left|by right].
    + apply Forall_cons. split; [|done].
      apply (opt_synced_frame (dm w1)); [|done].
      intros n Hn. apply Hh1 in Hn. rewrite Hf3, Hk2; [done|lia|lia].
    + intros n Hn. cbn [flat_map] in Hn. apply elem_of_app in Hn as [Hn|Hn].
      * apply Hh1 in Hn. lia.
      * apply Hh3 in Hn. lia.
Qed.

Lemma mountNode_appends p node path w i w' :
  doc_ok (dm w) → p < next (dm w) →
  mountNode has_prop read_only comps createChildPath reconcile p node path w = Ret i w' →
  appended p w (Some i) w'.
Proof.
  intros Hok Hp H. unfold mountNode in H.
  destruct (vtype node) as [tag| | |fid name] eqn:Ht.
  - (* a host element *)
    apply bind_Ret in H as (dom & w1 & Hcreate & H).
    destruct (vprops node) as [props|] eqn:Hprops; [|done].
    apply bind_Ret in H as (u & w2 & Hset & H).
    apply bind_Ret in H as (cs & w3 & Hkids & H).
    apply bind_Ret in H as (u' & w4 & Happ & H).
    apply newInstance_Ret in H as [-> ->].
    apply inDom_Ret in Hcreate as (d1 & Hcreate & ->).
    apply createElement_ok in Hcreate as (-> & Hn1 & Hok1 & Hnew1 & Hold1); [|done].
    unfold Reconciler.setDomProps in Hset. apply inDom_Ret in Hset as (d2 & Hset & ->).
    apply keeps_setDomProps in Hset as [Hn2 Hk2]. cbn [dm] in Hn2, Hk2.
    assert (∀ q, kidsOf d2 q = kidsOf d1 q) as Hq2 by (intros q; unfold kidsOf; by rewrite Hk2).
    assert (doc_ok d2) as Hok2 by (by apply (doc_ok_same d1)).
    set (dom := next (dm w)) in *.
    apply mountChildren_appends in Hkids.
    2:{ intros [c|] w0 u0 w0' K Hok0 HK Hrun.
        - apply inDom_Ret in Hrun as (d0 & Hrun & ->). cbn [dm].
          by apply (insertInstance_last _ _ K) in Hrun.
        - by apply ret_Ret in Hrun as [_ <-]. }
    2:{ done. }
    2:{ cbn [dm]. lia. }
    cbn [dm] in Hkids. destruct Hkids as (Hok3 & Hn3 & Hk3 & Hf3 & Hnew3 & Hs3 & Hh3).
    assert (∀ q, dom ∉ kidsOf (dm w3) q) as Hnowhere.
    { intros q Hin. apply Hnew3 in Hin as [Hin|Hin]; [|lia].
      rewrite Hq2 in Hin. destruct (decide (q = dom)) as [->|Hne].
      - rewrite Hnew1 in Hin. by apply elem_of_nil in Hin.
      - rewrite Hold1 in Hin by done. apply (ok_bounded _ Hok) in Hin. unfold dom in Hin. lia. }
    apply inDom_Ret in Happ as (d4 & Happ & ->).
    apply appendChild_new in Happ as (Hok4 & Hn4 & Hk4 & Hf4); [|done|lia|done].
    assert (p ≠ dom) as Hpd by (unfold dom; lia).
    split; cbn [dm getDomNodes getDomNodes_of opt_synced opt_hosts].
    + done.
    + lia.
    + rewrite Hk4, Hf3, Hq2, Hold1 by (done || lia). done.
    + intros q Hq Hlt. assert (q ≠ dom) by (unfold dom; lia).
      rewrite Hf4, Hf3, Hq2, Hold1 by (done || lia). done.
    + intros q m Hm. destruct (decide (q = p)) as [->|Hne].
      * rewrite Hk4, Hf3, Hq2, Hold1 in Hm by (done || lia).
        apply elem_of_app in Hm as [Hm|Hm%list_elem_of_singleton]; [by left|right; lia].
      * rewrite Hf4 in Hm by done. apply Hnew3 in Hm as [Hm|Hm]; [|right; lia].
        rewrite Hq2 in Hm. destruct (decide (q = dom)) as [->|Hqd].
        -- rewrite Hnew1 in Hm. by apply elem_of_nil in Hm.
        -- rewrite Hold1 in Hm by done. by left.
    + apply synced_eq. cbn [i_kind i_dom i_children]. split.
      * rewrite Hf4 by done. by rewrite Hk3, Hq2, Hnew1.
      * rewrite Forall_forall in Hs3. apply Forall_forall. intros c Hc.
        apply (opt_synced_frame (dm w3)); [|by apply Hs3].
        intros n Hn. apply Hf4. intros ->.
        assert (p ∈ flat_map opt_hosts cs) as Hin by (apply elem_of_flat_map; by exists c).
        apply Hh3 in Hin. lia.
    + intros n Hn. rewrite hosts_eq in Hn. cbn [i_kind i_dom i_children] in Hn.
      apply elem_of_app in Hn as [Hn%list_elem_of_singleton|Hn]; [lia|].
      apply Hh3 in Hn. lia.
  - (* a text *)
    apply bind_Ret in H as (dom & w1 & Hcreate & H).
    apply bind_Ret in H as (inst & w2 & Hnew & H).
    apply bind_Ret in H as (u & w3 & Happ & H).
    apply ret_Ret in H as [<- <-].
    apply newInstance_Ret in Hnew as [-> ->].
    apply inDom_Ret in Hcreate as (d1 & Hcreate & ->).
    apply createTextNode_ok in Hcreate as (-> & Hn1 & Hok1 & Hq1); [|done].
    apply inDom_Ret in Happ as (d3 & Happ & ->). cbn [dm] in Happ.
    apply appendChild_new in Happ as (Hok3 & Hn3 & Hk3 & Hf3); [|done|lia|].
    2:{ intros q Hin. rewrite Hq1 in Hin. apply (ok_bounded _ Hok) in Hin. lia. }
    split; cbn [dm getDomNodes getDomNodes_of opt_synced opt_hosts].
    + done.
    + lia.
    + by rewrite Hk3, Hq1.
    + intros q Hq _. by rewrite Hf3, Hq1.
    + intros q m Hm. destruct (decide (q = p)) as [->|Hne].
      * rewrite Hk3, Hq1 in Hm.
        apply elem_of_app in Hm as [Hm|Hm%list_elem_of_singleton]; [by left|right; lia].
      * rewrite Hf3, Hq1 in Hm by done. by left.
    + by apply synced_eq.
    + intros n Hn. rewrite hosts_eq in Hn. by apply elem_of_nil in Hn.
  - (* a fragment *)
    apply bind_Ret in H as (cs & w1 & Hkids & H).
    apply newInstance_Ret in H as [-> ->].
    apply mountChildren_appends in Hkids; [| |done..].
    2:{ intros ci w0 u0 w0' K _ _ Hrun. by apply ret_Ret in Hrun as [_ <-]. }
    destruct Hkids as (Hok1 & Hn1 & Hk1 & Hf1 & Hnew1 & Hs1 & Hh1).
    split; cbn [dm getDomNodes getDomNodes_of opt_synced opt_hosts].
    + done.
    + done.
    + done.
    + done.
    + done.
    + by apply synced_eq.
    + intros n Hn. rewrite hosts_eq in Hn. by apply Hh1.
  - (* a component *)
    unfold mountComponent in H.
    apply bind_Ret in H as (u & w1 & Henter & H).
    apply finally_Ret in H as (w4 & H & ->).
    apply bind_Ret in H as (childNode & w2 & Hcall & H).
    apply bind_Ret in H as (ci & w3 & Hrec & H).
    apply newInstance_Ret in H as [-> ->].
    unfold enterComponent in Henter. apply inHooks_Ret in Henter as (h1 & _ & ->).
    unfold callComponent in Hcall. rewrite Ht in Hcall.
    apply inHooks_Ret in Hcall as (h2 & _ & ->).
    apply reconcile_appends in Hrec as [Hok3 Hn3 Hk3 Hf3 Hnew3 Hs3 Hh3]; [|done..].
    cbn [dm] in *.
    assert (getDomNodes_of
              (mkInstance (nextInstance w3) COMPONENT (getFirstDom ci) node
                 (match ci with Some _ => [ci] | None => [] end) (vkey node) path)
            = getDomNodes ci) as Hnodes.
    { destruct ci; cbn [getDomNodes_of getDomNodes flat_map]; by rewrite ?app_nil_r. }
    split; cbn [dm leaveComponent getDomNodes opt_synced opt_hosts]; try done.
    + by rewrite Hnodes.
    + apply synced_eq. split; [done|]. cbn [i_children].
      destruct ci; repeat constructor. done.
    + intros n Hn. rewrite hosts_eq in Hn. cbn [i_kind i_dom i_children app] in Hn.
      apply Hh3. destruct ci; cbn [flat_map opt_hosts] in *; by rewrite ?app_nil_r in Hn.
Qed.

End WithReconcile.

Lemma reconcile_appends fuel :
  appends (reconcile has_prop read_only comps createChildPath fuel).
Proof.
  induction fuel as [|fuel IH]; intros p node path w r w' Hok Hp H; [done|].
  cbn [reconcile] in H. unfold reconcile_body in H. destruct node as [n|].
  - apply bind_Ret in H as (i & w1 & H & Hret). apply ret_Ret in Hret as [<- <-].
    by apply (mountNode_appends _ IH) in H.
  - apply bind_Ret in H as (u & w1 & H & Hret). apply ret_Ret in Hret as [<- <-].
    apply ret_Ret in H as [_ <-]. by apply appended_refl.
Qed.


End Mounts.

End SyncFacts.

Section SyncWitnesses.
Import Dom Reconciler TreeSpec SyncSpec Examples.
Local Open Scope nat_scope.

Lemma page_kids q : kidsOf page q = [].
Proof.
  unfold kidsOf, page. cbn [kids]. destruct (decide (q = 0)) as [->|Hq].
  - by rewrite lookup_singleton_eq.
  - by rewrite lookup_singleton_ne.
Qed.

Lemma page_doc_ok : doc_ok page.
Proof.
  split.
  - intros q. rewrite page_kids. apply NoDup_nil_2.
  - intros q m. rewrite page_kids. by intros ?%elem_of_nil.
  - intros q q' m. rewrite page_kids. by intros ?%elem_of_nil.
Qed.


End SyncWitnesses.

(* ===================================================================== *)
(** * A mount of a tree without components returns *)
(* ===================================================================== *)

Section TotalFacts.
Import Dom Reconciler TotalSpec.
Local Open Scope nat_scope.

(** A loop returns when its rounds do. *)
Lemma for_each_returns {S A} (l : list A) (body : A → M S unit) :
  (∀ x s, ∃ s', body x s = Ret tt s') → ∀ s, ∃ s', for_each l body s = Ret tt s'.
Proof.
  intros Hbody. induction l as [|x l IH]; intros s; [by exists s|].
  destruct (Hbody x s) as [s1 H1]. destruct (IH s1) as [s2 H2].
  exists s2. cbn [for_each]. unfold bind. by rewrite H1.
Qed.

Lemma log_returns c d : ∃ d', log c d = Ret tt d'.
Proof. by eexists. Qed.

Lemma appendChild_returns p n d : ∃ d', appendChild p n d = Ret tt d'.
Proof. by eexists. Qed.

Lemma insertInstance_returns p ci d : ∃ d', insertInstance p ci None d = Ret tt d'.
Proof.
  unfold insertInstance. destruct ci as [c|]; [|by exists d].
  apply for_each_returns. intros n d0. unfold bind, get_state.
  destruct (isChildOf d0 n p && bool_decide (nextSibling d0 p n = None));
    [by exists d0|apply appendChild_returns].
Qed.

Section Props.
Variable has_prop : string → string → bool.
Variable read_only : string → string → bool.
Variable objs : nat → Js.JsObj.
Hypothesis writable : ∀ tag key, read_only tag key = false.

Lemma assign_returns n key value d : ∃ d', assign read_only n key value d = Ret tt d'.
Proof. unfold assign, bind, get_state. rewrite writable. apply log_returns. Qed.

(** Without a read-only property, [setDomProps] cannot fail. *)
Lemma setDomProps_returns dom props d :
  ∃ d', Dom.setDomProps has_prop read_only objs dom props d = Ret tt d'.
Proof.
  unfold Dom.setDomProps. apply for_each_returns. intros [key value] d0.
  repeat match goal with
  | |- ∃ d', (if ?b then _ else _) _ = _ => destruct b
  | |- ∃ d', ret tt ?d = _ => by exists d
  | |- ∃ d', log _ _ = _ => apply log_returns
  | |- ∃ d', assign _ _ _ _ _ = _ => apply assign_returns
  | |- ∃ d', bind get_state _ _ = _ => unfold bind at 1, get_state at 1
  | |- ∃ d', for_each _ _ _ = _ => apply for_each_returns; intros [? ?] ?
  end.
Qed.
End Props.

Lemma depth_child t k props cs c :
  c ∈ cs → depth c < depth (VN t k props cs).
Proof.
  intros Hc. cbn [depth]. apply Nat.lt_succ_r.
  induction cs as [|x cs IH]; [by apply elem_of_nil in Hc|].
  cbn [List.map list_max foldr]. apply elem_of_cons in Hc as [->|Hc]; [lia|].
  apply IH in Hc. unfold list_max in Hc. lia.
Qed.

Section Mounts.
Variable has_prop : string → string → bool.
Variable read_only : string → string → bool.
Variable comps : nat → list (string * Js.Value) → list VNode → M Hooks.Ctx (option VNode).
Variable createChildPath :
  string → option string → nat → option NodeType → option (list VNode) → string.
Hypothesis writable : ∀ tag key, read_only tag key = false.

Section WithReconcile.
Variable reconcile :
  nat → option Instance → option VNode → string → M World (option Instance).

Lemma mountChildren_returns p path children after rest :
  (∀ c, c ∈ rest → ∀ p path w,
        ∃ i w', reconcile p None (Some c) path w = Ret (Some i) w' ∧ hk w' = hk w) →
  (∀ ci w, ∃ w', after ci w = Ret tt w' ∧ hk w' = hk w) →
  ∀ i w, ∃ cis w',
    mountChildren createChildPath reconcile p path children after i rest w = Ret cis w'
    ∧ hk w' = hk w.
Proof.
  intros Hrec Hafter. induction rest as [|child rest IH]; intros i w.
  - by exists [], w.
  - destruct (Hrec child ltac:(left) p
                (createChildPath path (vkey child) i (Some (vtype child)) (Some children)) w)
      as (ci & w1 & H1 & E1).
    destruct (Hafter (Some ci) w1) as (w2 & H2 & E2).
    destruct IH with (i := S i) (w := w2) as (cis & w3 & H3 & E3).
    { intros c Hc. apply Hrec. by right. }
    exists (Some ci :: cis), w3. split; [|congruence].
    cbn [mountChildren]. unfold bind. by rewrite H1, H2, H3.
Qed.

Lemma mountNode_returns p node path w :
  mountable node = true →
  (vtype node ≠ TText →
   ∀ c, c ∈ vchildren node → ∀ p path w,
        ∃ i w', reconcile p None (Some c) path w = Ret (Some i) w' ∧ hk w' = hk w) →
  ∃ i w', mountNode has_prop read_only comps createChildPath reconcile p node path w = Ret i w'
          ∧ hk w' = hk w.
Proof.
  intros Hm Hrec. destruct node as [t k props cs]. unfold mountNode. cbn [vtype vprops vkey].
  destruct t as [tag| | |fid name]; cbn [mountable] in Hm.
  - (* a host element *)
    destruct props as [props|]; [|done].
    destruct (setDomProps_returns has_prop read_only (Hooks.objs (hk w)) writable
                (next (dm w)) props
                (mk (S (next (dm w))) (<[next (dm w) := []]> (kids (dm w))) (nodeValue (dm w))
                    (<[next (dm w) := tag]> (tags (dm w)))
                    (calls (dm w) ++ [CreateElement (next (dm w)) tag])))
      as [d2 H2].
    set (dom := next (dm w)) in *.
    set (w2 := mkWorld d2 (hk w) (nextInstance w)).
    destruct (mountChildren_returns dom path (vchildren (VN (THost tag) k (Some props) cs))
                (λ childInstance, match childInstance with
                                  | Some _ => inDom (insertInstance dom childInstance None)
                                  | None => ret tt
                                  end)
                (vchildren (VN (THost tag) k (Some props) cs)) (Hrec ltac:(done)))
      with (i := 0) (w := w2)
      as (cis & w3 & H3 & E3).
    { intros [c|] w0; [|by exists w0].
      destruct (insertInstance_returns dom (Some c) (dm w0)) as [d' H'].
      exists (mkWorld d' (hk w0) (nextInstance w0)). split; [|done].
      unfold inDom, zoom. by rewrite H'. }
    destruct (appendChild_returns p dom (dm w3)) as [d4 H4].
    eexists _, _. split.
    + apply bind_Ret. eexists dom, _. split.
      { apply inDom_Ret. eexists. split; reflexivity. }
      apply bind_Ret. exists tt, w2. split.
      { unfold Reconciler.setDomProps. apply inDom_Ret. exists d2. split; [exact H2|done]. }
      apply bind_Ret. exists cis, w3. split; [exact H3|].
      apply bind_Ret. eexists tt, _. split.
      { apply inDom_Ret. exists d4. split; [exact H4|reflexivity]. }
      apply newInstance_Ret. split; reflexivity.
    + cbn [hk]. exact E3.
  - (* a text *)
    eexists _, _. split; [reflexivity|done].
  - (* a fragment *)
    destruct (mountChildren_returns p path (vchildren (VN TFragment k props cs))
                (λ _, ret tt) (vchildren (VN TFragment k props cs)) (Hrec ltac:(done)))
      with (i := 0) (w := w)
      as (cis & w3 & H3 & E3).
    { intros ci w0. by exists w0. }
    eexists _, _. split.
    + apply bind_Ret. exists cis, w3. split; [exact H3|].
      apply newInstance_Ret. split; reflexivity.
    + cbn [hk]. exact E3.
  - done.
Qed.

End WithReconcile.

Lemma reconcile_returns fuel : ∀ node,
  mountable node = true → depth node ≤ fuel →
  ∀ p path w,
    ∃ i w', reconcile has_prop read_only comps createChildPath fuel p None (Some node) path w
            = Ret (Some i) w'
            ∧ hk w' = hk w.
Proof.
  induction fuel as [|fuel IH]; intros node Hm Hd p path w.
  { destruct node. cbn [depth] in Hd. lia. }
  destruct (mountNode_returns (reconcile has_prop read_only comps createChildPath fuel)
              p node path w Hm) as (i & w' & H & E).
  { intros Ht c Hc. apply IH.
    - destruct node as [t k [props|] cs]; cbn [vchildren] in Hc; [|by apply elem_of_nil in Hc].
      cbn [mountable vtype] in Hm, Ht.
      assert (forallb mountable cs = true) as Hall by (by destruct t).
      rewrite forallb_forall in Hall. by apply Hall, list_elem_of_In.
    - destruct node as [t k [props|] cs]; cbn [vchildren] in Hc; [|by apply elem_of_nil in Hc].
      pose proof (depth_child t k (Some props) cs c Hc). lia. }
  exists i, w'. split; [|done].
  cbn [reconcile]. unfold reconcile_body, bind. by rewrite H.
Qed.


End Mounts.

(** *** setup *)

Section Setup.
Import Render SyncSpec.
Variable has_prop : string → string → bool.
Variable read_only : string → string → bool.
Variable comps : nat → list (string * Js.Value) → list VNode → M Hooks.Ctx (option VNode).
Variable createChildPath :
  string → option string → nat → option NodeType → option (list VNode) → string.
Variable funs : nat → Js.Value → Js.Value.
Hypothesis writable : ∀ tag key, read_only tag key = false.

(** A document that loses children stays a document. *)
Lemma doc_ok_shrink d d' :
  next d' = next d → (∀ q, NoDup (kidsOf d' q)) →
  (∀ q m, m ∈ kidsOf d' q → m ∈ kidsOf d q) → doc_ok d → doc_ok d'.
Proof.
  intros Hn ND Hsub [_ B P]. split; [done|..].
  - intros q m Hm. rewrite Hn. eapply B. by apply Hsub.
  - intros q q' m Hm Hm'. eapply P; by apply Hsub.
Qed.

(** With no hook stored, there is nothing to clean up. *)
Lemma cleanupUnusedHooks_empty h :
  Hooks.state h = [] →
  ∃ h', Hooks.cleanupUnusedHooks funs h = Ret tt h' ∧ Hooks.state h' = [].
Proof.
  intros Hst. unfold Hooks.cleanupUnusedHooks. unfold bind at 1, get_state at 1.
  rewrite Hst. eexists. split; [reflexivity|]. exact Hst.
Qed.

Lemma inWorld_Ret {A} (m : M World A) a x a' :
  inWorld m a = Ret x a' ↔ ∃ w', m (world a) = Ret x w' ∧ a' = mkApp w' (root a).
Proof. exact (zoom_Ret world (λ w a, mkApp w (root a)) m a x a'). Qed.

(** The old tree taken out of the container, if there is one. *)
Lemma setup_removes c a :
  ∃ d1, (match instance (root a) with
         | Some _ => inWorld (inDom (removeInstance c (instance (root a))))
         | None => ret tt
         end) a
        = Ret tt (mkApp (mkWorld d1 (hk (world a)) (nextInstance (world a))) (root a))
        ∧ next d1 = next (dm (world a)) ∧ tags d1 = tags (dm (world a))
        ∧ (∀ q, NoDup (kidsOf (dm (world a)) q) → NoDup (kidsOf d1 q))
        ∧ (∀ q m, m ∈ kidsOf d1 q → m ∈ kidsOf (dm (world a)) q).
Proof.
  destruct a as [[d h n] rt]. cbn [world root dm hk nextInstance].
  destruct (instance rt) as [old|] eqn:E.
  - destruct (remove_nodes_exact comps c (getDomNodes (Some old)) d)
      as (d1 & Hrun & Hn & _ & Ht & Hc & Hq).
    exists d1. split; [|split_and!; try done].
    + apply inWorld_Ret. eexists. split; [|reflexivity].
      apply inDom_Ret. exists d1. by split.
    + intros q ND. destruct (decide (q = c)) as [->|Hne].
      * rewrite Hc. by apply NoDup_filter.
      * by rewrite Hq.
    + intros q m Hm. destruct (decide (q = c)) as [->|Hne].
      * rewrite Hc in Hm. by apply list_elem_of_filter in Hm as [_ Hm].
      * by rewrite Hq in Hm.
  - exists d. by split_and!.
Qed.

Lemma clearTextContent_Ret c d :
  ∃ d', clearTextContent c d = Ret tt d'
        ∧ next d' = next d ∧ tags d' = tags d
        ∧ kidsOf d' c = [] ∧ ∀ q, q ≠ c → kidsOf d' q = kidsOf d q.
Proof.
  eexists. split; [reflexivity|]. cbn. split_and!; try done.
  - unfold kidsOf. cbn. by rewrite lookup_insert_eq.
  - intros q Hq. unfold kidsOf. cbn. by rewrite lookup_insert_ne.
Qed.

Lemma inCtx_Ret {A} (m : M Hooks.Ctx A) a x a' :
  inCtx m a = Ret x a' ↔
  ∃ h', m (hk (world a)) = Ret x h'
        ∧ a' = mkApp (mkWorld (dm (world a)) h' (nextInstance (world a))) (root a).
Proof.
  unfold inCtx. rewrite inWorld_Ret. split.
  - intros (w' & H & ->). apply inHooks_Ret in H as (h' & H & ->). by exists h'.
  - intros (h' & H & ->). eexists. split; [|reflexivity]. apply inHooks_Ret. by exists h'.
Qed.


End Setup.

End TotalFacts.

Section TotalWitnesses.
Import Dom Reconciler Render SyncSpec TotalSpec Examples.
Local Open Scope nat_scope.

Lemma all_writable : ∀ tag key : string, read_only tag key = false.
Proof. done. Qed.



End TotalWitnesses.

(* ===================================================================== *)
(** * An update keeps the document in step with the tree *)
(* ===================================================================== *)

Section UpdateFacts.
Import Dom Reconciler MountSpec TreeSpec SyncSpec UpdateSpec.
Local Open Scope nat_scope.

Lemma single_eq i :
  single i ↔
  match i_kind i with
  | COMPONENT => length (i_children i) ≤ 1
  | _ => True
  end ∧ Forall opt_single (i_children i).
Proof.
  destruct i as [r kind dom node children key path]. cbn [single i_kind i_children].
  apply and_iff_compat_l.
  induction children as [|c cs IH]; [by split; [constructor|]|].
  rewrite Forall_cons, <- IH. by destruct c.
Qed.

(** *** The primitives keep the document sound *)

(** A node that has no parent but [p] is moved under [p]: the other child
    lists stay as they are, and [p] has the children it had, and the
    node. *)
Lemma moved_ok p n d d' :
  doc_ok d → n < next d → (∀ q, n ∈ kidsOf d q → q = p) →
  next d' = next d → NoDup (kidsOf d' p) →
  (∀ m, m ∈ kidsOf d' p ↔ m = n ∨ m ∈ kidsOf d p) →
  (∀ q, q ≠ p → kidsOf d' q = filter (λ x, x ≠ n) (kidsOf d q)) →
  doc_ok d' ∧ ∀ q, q ≠ p → kidsOf d' q = kidsOf d q.
Proof.
  intros [ND B P] Hn Honly Hnext NDp Hp Hq.
  assert (Hq' : ∀ q, q ≠ p → kidsOf d' q = kidsOf d q).
  { intros q Hne. rewrite Hq by done. apply filter_ne_notin. intros Hin.
    by apply Honly in Hin. }
  split; [|done]. split.
  - intros q. destruct (decide (q = p)) as [->|Hne]; [done|]. rewrite Hq' by done. apply ND.
  - intros q m. rewrite Hnext. destruct (decide (q = p)) as [->|Hne].
    + rewrite Hp. intros [->|Hm]; [done|by eapply B].
    + rewrite Hq' by done. apply B.
  - assert (∀ q m, m ∈ kidsOf d' q → m = n ∧ q = p ∨ m ∈ kidsOf d q) as Hold.
    { intros q m Hm. destruct (decide (q = p)) as [->|Hqp].
      - apply Hp in Hm as [->|Hm]; [by left|by right].
      - rewrite Hq' in Hm by done. by right. }
    intros q q' m Hm Hm'.
    destruct (Hold _ _ Hm) as [[E1 E2]|H1], (Hold _ _ Hm') as [[E3 E4]|H2].
    + congruence.
    + subst m q. symmetry. by apply Honly.
    + subst m q'. by apply Honly.
    + by eapply P.
Qed.

Lemma appendChild_ok p n d u d' :
  doc_ok d → n < next d → (∀ q, n ∈ kidsOf d q → q = p) →
  appendChild p n d = Ret u d' →
  doc_ok d' ∧ next d' = next d
  ∧ (∀ m, m ∈ kidsOf d' p ↔ m = n ∨ m ∈ kidsOf d p)
  ∧ ∀ q, q ≠ p → kidsOf d' q = kidsOf d q.
Proof.
  intros Hok Hn Honly H. pose proof (appendChild_keeps p n d u d' H) as [_ Hwf].
  apply appendChild_Ret in H as (Hnext & _ & _ & _ & Hp & Hq).
  assert (∀ m, m ∈ kidsOf d' p ↔ m = n ∨ m ∈ kidsOf d p) as Hp'.
  { intros m. rewrite Hp, elem_of_app, list_elem_of_filter, list_elem_of_singleton. split.
    - intros [[_ Hm]|Hm]; [by right|by left].
    - intros [->|Hm]; [by right|]. destruct (decide (m = n)) as [->|Hmn]; [by right|by left]. }
  destruct (moved_ok p n d d') as [Hok' Hq']; try done.
  { apply Hwf. intros q. apply Hok. }
Qed.

Lemma insertBefore_ok p n a d u d' :
  doc_ok d → n < next d → (∀ q, n ∈ kidsOf d q → q = p) →
  insertBefore p n a d = Ret u d' →
  doc_ok d' ∧ next d' = next d
  ∧ (∀ m, m ∈ kidsOf d' p ↔ m = n ∨ m ∈ kidsOf d p)
  ∧ ∀ q, q ≠ p → kidsOf d' q = kidsOf d q.
Proof.
  intros Hok Hn Honly H. pose proof (insertBefore_keeps p n a d u d' H) as [_ Hwf].
  apply insertBefore_Ret in H as (Ha & Hnext & _ & _ & _ & Hcase).
  destruct (decide (n = a)) as [->|Hne].
  - assert (∀ q, kidsOf d' q = kidsOf d q) as Hsame by (intros q; unfold kidsOf; by rewrite Hcase).
    split_and!; try done.
    + by apply (doc_ok_same d).
    + intros m. rewrite Hsame. split; [by right|]. by intros [->|?].
  - destruct Hcase as [Hp Hq].
    assert (∀ m, m ∈ kidsOf d' p ↔ m = n ∨ m ∈ kidsOf d p) as Hp'.
    { intros m. rewrite Hp, elem_of_insert_before, list_elem_of_filter. split.
      - intros [Hm|[_ Hm]]; [by left|by right].
      - intros [->|Hm]; [by left|].
        destruct (decide (m = n)) as [->|Hmn]; [by left|by right]. }
    destruct (moved_ok p n d d') as [Hok' Hq']; try done.
    apply Hwf. intros q. apply Hok.
Qed.

(** The body of the loop of [insertInstance], on a node that is a child of
    the parent already. *)
Lemma place_step_ok p n anchor d u d' :
  doc_ok d → n ∈ kidsOf d p →
  (let* d := get_state in
   if isChildOf d n p && bool_decide (nextSibling d p n = anchor)
   then ret tt
   else match anchor with
        | Some a => insertBefore p n a
        | None => appendChild p n
        end) d = Ret u d' →
  doc_ok d' ∧ next d' = next d
  ∧ (∀ m, m ∈ kidsOf d' p ↔ m ∈ kidsOf d p)
  ∧ ∀ q, q ≠ p → kidsOf d' q = kidsOf d q.
Proof.
  intros Hok Hin H. apply bind_Ret in H as (d0 & d1 & Hget & H).
  apply get_state_Ret in Hget as [-> ->].
  assert (n < next d) as Hn by (by eapply ok_bounded).
  assert (∀ q, n ∈ kidsOf d q → q = p) as Honly.
  { intros q Hq. by apply (ok_parent d Hok q p n). }
  assert (∀ m, m = n ∨ m ∈ kidsOf d p ↔ m ∈ kidsOf d p) as Hsame.
  { intros m. split; [by intros [->|?]|by right]. }
  destruct (isChildOf d n p && bool_decide (nextSibling d p n = anchor)).
  - apply ret_Ret in H as [_ <-]. by split_and!.
  - destruct anchor as [a|].
    + apply insertBefore_ok in H as (Hok' & Hn' & Hp & Hq); try done.
      split_and!; try done. intros m. by rewrite Hp.
    + apply appendChild_ok in H as (Hok' & Hn' & Hp & Hq); try done.
      split_and!; try done. intros m. by rewrite Hp.
Qed.

Lemma insertInstance_ok p ci anchor d u d' :
  doc_ok d → (∀ m, m ∈ getDomNodes ci → m ∈ kidsOf d p) →
  insertInstance p ci anchor d = Ret u d' →
  doc_ok d' ∧ next d' = next d
  ∧ (∀ m, m ∈ kidsOf d' p ↔ m ∈ kidsOf d p)
  ∧ ∀ q, q ≠ p → kidsOf d' q = kidsOf d q.
Proof.
  intros Hok Hloc H. unfold insertInstance in H.
  destruct ci as [c|]; [|apply ret_Ret in H as [_ <-]; by split_and!].
  revert d Hok Hloc H. generalize (getDomNodes (Some c)) as ns.
  induction ns as [|n ns IH]; intros d Hok Hloc H; cbn [for_each] in H.
  - apply ret_Ret in H as [_ <-]. by split_and!.
  - apply bind_Ret in H as (u1 & d1 & Hstep & H).
    apply place_step_ok in Hstep as (Hok1 & Hn1 & Hp1 & Hq1); [|done|apply Hloc; left].
    apply IH in H as (Hok2 & Hn2 & Hp2 & Hq2); [|done|].
    2:{ intros m Hm. apply Hp1, Hloc. by right. }
    split_and!; [done|congruence| |].
    + intros m. by rewrite Hp2, Hp1.
    + intros q Hq. by rewrite Hq2, Hq1.
Qed.

Lemma placeChildren_ok p (rs : list (option Instance)) : ∀ anchor d u d',
  doc_ok d → (∀ m, m ∈ nodes_of rs → m ∈ kidsOf d p) →
  placeChildren p rs anchor d = Ret u d' →
  doc_ok d' ∧ next d' = next d
  ∧ (∀ m, m ∈ kidsOf d' p ↔ m ∈ kidsOf d p)
  ∧ ∀ q, q ≠ p → kidsOf d' q = kidsOf d q.
Proof.
  induction rs as [|c rs IH]; intros anchor d u d' Hok Hloc H; cbn [placeChildren] in H.
  - apply ret_Ret in H as [_ <-]. by split_and!.
  - assert (∀ m, m ∈ nodes_of rs → m ∈ kidsOf d p) as Hloc'.
    { intros m Hm. apply Hloc. rewrite nodes_of_cons. apply elem_of_app. by right. }
    destruct c as [c|]; [|by apply IH in H].
    destruct (getFirstDom (Some c)) as [firstDom|]; [|by apply IH in H].
    apply bind_Ret in H as (u1 & d1 & Hins & H).
    apply insertInstance_ok in Hins as (Hok1 & Hn1 & Hp1 & Hq1); [|done|].
    2:{ intros m Hm. apply Hloc. rewrite nodes_of_cons. apply elem_of_app. by left. }
    apply IH in H as (Hok2 & Hn2 & Hp2 & Hq2); [|done|].
    2:{ intros m Hm. by apply Hp1, Hloc'. }
    split_and!; [done|congruence| |].
    + intros m. by rewrite Hp2, Hp1.
    + intros q Hq. by rewrite Hq2, Hq1.
Qed.

(** Taking the surface nodes of an instance from under a parent. *)
Lemma removeInstance_ok p old d u d' :
  doc_ok d → removeInstance p old d = Ret u d' →
  doc_ok d' ∧ next d' = next d
  ∧ kidsOf d' p = filter (λ x, x ∉ getDomNodes old) (kidsOf d p)
  ∧ ∀ q, q ≠ p → kidsOf d' q = kidsOf d q.
Proof.
  intros Hok H. unfold removeInstance in H.
  assert (∃ d1, d' = d1
    ∧ next d1 = next d
    ∧ kidsOf d1 p = filter (λ x, x ∉ getDomNodes old) (kidsOf d p)
    ∧ ∀ q, q ≠ p → kidsOf d1 q = kidsOf d q) as (d1 & -> & Hn & Hp & Hq).
  { destruct old as [c|].
    - destruct (remove_nodes_exact (λ _ _ _, ret None) p (getDomNodes (Some c)) d)
        as (d1 & Hrun & Hn & _ & _ & Hp & Hq).
      rewrite Hrun in H. injection H as <-. by exists d1.
    - apply ret_Ret in H as [_ <-]. exists d. split_and!; try done.
      cbn [getDomNodes]. by rewrite filter_notin_nil. }
  split_and!; try done.
  apply (doc_ok_shrink d); try done.
  - intros q. destruct (decide (q = p)) as [->|Hne].
    + rewrite Hp. apply NoDup_filter, Hok.
    + rewrite Hq by done. apply Hok.
  - intros q m. destruct (decide (q = p)) as [->|Hne].
    + rewrite Hp. by intros [_ ?]%list_elem_of_filter.
    + by rewrite Hq.
Qed.

(** *** A component keeps one child at most *)

Section Updates.
Variable has_prop : string → string → bool.
Variable read_only : string → string → bool.
Variable comps : nat → list (string * Js.Value) → list VNode → M Hooks.Ctx (option VNode).
Variable createChildPath :
  string → option string → nat → option NodeType → option (list VNode) → string.
Hypothesis comps_ok : comps_keys_ok comps.

Section Single.
Variable reconcile :
  nat → option Instance → option VNode → string → M World (option Instance).
Hypothesis reconcile_single : singles reconcile.

Lemma mountChildren_single p path children after rest : ∀ i w cis w',
  mountChildren createChildPath reconcile p path children after i rest w = Ret cis w' →
  Forall opt_single cis.
Proof.
  induction rest as [|child rest IH]; intros i w cis w' H; cbn [mountChildren] in H.
  - apply ret_Ret in H as [<- _]. constructor.
  - apply bind_Ret in H as (ci & w1 & Hrec & H).
    apply bind_Ret in H as (u & w2 & _ & H).
    apply bind_Ret in H as (cs & w3 & Hrest & H).
    apply ret_Ret in H as [<- _].
    constructor; [by eapply (reconcile_single _ None)|by eapply IH].
Qed.

Lemma mountNode_single p node path w i w' :
  mountNode has_prop read_only comps createChildPath reconcile p node path w = Ret i w' →
  single i.
Proof.
  intros H. unfold mountNode in H.
  destruct (vtype node) as [tag| | |fid name] eqn:Ht.
  - apply bind_Ret in H as (dom & w1 & _ & H).
    destruct (vprops node) as [props|]; [|done].
    apply bind_Ret in H as (u & w2 & _ & H).
    apply bind_Ret in H as (cs & w3 & Hkids & H).
    apply bind_Ret in H as (u' & w4 & _ & H).
    apply newInstance_Ret in H as [-> _].
    apply single_eq. split; [done|]. by eapply mountChildren_single.
  - apply bind_Ret in H as (dom & w1 & _ & H).
    apply bind_Ret in H as (inst & w2 & Hnew & H).
    apply bind_Ret in H as (u & w3 & _ & H).
    apply ret_Ret in H as [<- _]. apply newInstance_Ret in Hnew as [-> _].
    by apply single_eq.
  - apply bind_Ret in H as (cs & w1 & Hkids & H).
    apply newInstance_Ret in H as [-> _].
    apply single_eq. split; [done|]. by eapply mountChildren_single.
  - unfold mountComponent in H.
    apply bind_Ret in H as (u & w1 & _ & H).
    apply finally_Ret in H as (w4 & H & _).
    apply bind_Ret in H as (childNode & w2 & _ & H).
    apply bind_Ret in H as (ci & w3 & Hrec & H).
    apply newInstance_Ret in H as [-> _].
    apply (reconcile_single _ None) in Hrec; [|done].
    apply single_eq. cbn [i_kind i_children].
    destruct ci; split; cbn [length]; try lia; repeat constructor; done.
Qed.

Lemma matchChildren_single p path keyMap keyless newChildren olds :
  Forall opt_single olds →
  (∀ k o, JsMap.get keyMap k = Some o → Some o ∈ olds) →
  (∀ o, o ∈ keyless → Some o ∈ olds) →
  ∀ rest i used w res w',
    matchChildren createChildPath reconcile p path keyMap keyless newChildren i rest used w
    = Ret res w' →
    Forall opt_single res.1.
Proof.
  intros Holds HK HL.
  induction rest as [|v rest IH]; intros i used w res w' H; cbn [matchChildren] in H.
  - apply ret_Ret in H as [<- _]. constructor.
  - set (m := match match vkey v with Some k => JsMap.get keyMap k | None => None end with
              | Some m => Some m
              | None => scan keyless used v
              end) in H.
    apply bind_Ret in H as (r & w1 & Hrec & H).
    apply bind_Ret in H as (res' & w2 & Hrest & H).
    apply ret_Ret in H as [<- _]. cbn [fst].
    constructor; [|by eapply IH].
    eapply reconcile_single; [|exact Hrec].
    assert (∀ o, m = Some o → Some o ∈ olds) as Hm.
    { intros o Ho. unfold m in Ho. destruct (vkey v) as [k|].
      - destruct (JsMap.get keyMap k) as [o'|] eqn:Hget.
        + injection Ho as ->. by eapply HK.
        + apply scan_Some in Ho as (Hin & _). by apply HL.
      - apply scan_Some in Ho as (Hin & _). by apply HL. }
    destruct m as [o|]; [|done].
    rewrite Forall_forall in Holds. by apply (Holds (Some o)), Hm.
Qed.

Lemma reconcileChildren_single p inst node path w inst' w' :
  single inst →
  reconcileChildren createChildPath reconcile p inst node path w = Ret inst' w' →
  ∃ rs, inst' = set_children rs inst ∧ Forall opt_single rs.
Proof.
  intros Hs H. unfold reconcileChildren in H.
  apply bind_Ret in H as (res & w1 & Hmatch & H).
  apply bind_Ret in H as (u & w2 & _ & H).
  apply bind_Ret in H as (u' & w3 & _ & H).
  apply ret_Ret in H as [<- _].
  exists res.1. split; [done|].
  apply single_eq in Hs as [_ Hs].
  eapply (matchChildren_single _ _ _ _ _ (i_children inst)); [done| | |exact Hmatch].
  - intros k o Hget. apply keyMap_of_get in Hget as [[? _]|?]; done.
  - intros o Ho. by apply elem_of_keyless_of in Ho as [? _].
Qed.

Lemma updateInstance_single p inst node path w i' w' :
  single inst →
  updateInstance has_prop read_only comps createChildPath reconcile p inst node path w
  = Ret i' w' →
  single i'.
Proof.
  intros Hs H. unfold updateInstance in H.
  destruct (i_kind inst) eqn:Hkind.
  - destruct (i_dom inst) as [dom|]; [|done].
    apply bind_Ret in H as (u & w1 & _ & H).
    apply bind_Ret in H as (inst' & w2 & Hrc & H).
    apply ret_Ret in H as [<- _].
    apply reconcileChildren_single in Hrc as (rs & -> & Hrs); [|done].
    apply single_eq. destruct inst. cbn in *. subst. by split.
  - apply bind_Ret in H as (u & w1 & _ & H). apply ret_Ret in H as [<- _].
    apply single_eq in Hs. apply single_eq. by destruct inst.
  - unfold updateComponent in H.
    apply bind_Ret in H as (u & w1 & _ & H).
    apply finally_Ret in H as (w4 & H & _).
    apply bind_Ret in H as (childNode & w2 & _ & H).
    apply bind_Ret in H as (ci & w3 & Hrec & H).
    apply ret_Ret in H as [<- _].
    apply reconcile_single in Hrec.
    + apply single_eq. destruct inst. cbn in *. subst.
      destruct ci; split; cbn [length]; try lia; repeat constructor; done.
    + apply single_eq in Hs as [_ Hs]. destruct (i_children inst) as [|c cs]; [done|].
      by apply Forall_cons in Hs as [? _].
  - apply bind_Ret in H as (inst' & w1 & Hrc & H).
    apply ret_Ret in H as [<- _].
    apply reconcileChildren_single in Hrc as (rs & -> & Hrs); [|done].
    apply single_eq. destruct inst. cbn in *. subst. by split.
Qed.

End Single.

Lemma reconcile_single fuel :
  singles (reconcile has_prop read_only comps createChildPath fuel).
Proof.
  induction fuel as [|fuel IH]; intros p old node path w r w' Hs H; [done|].
  cbn [reconcile] in H. unfold reconcile_body in H. destruct node as [n|].
  - destruct old as [inst|].
    + destruct (negb _ || negb _).
      * apply bind_Ret in H as (u & w1 & _ & H).
        apply bind_Ret in H as (i & w2 & H & Hret). apply ret_Ret in Hret as [<- _].
        by apply (mountNode_single _ IH) in H.
      * apply bind_Ret in H as (i & w2 & H & Hret). apply ret_Ret in Hret as [<- _].
        by apply (updateInstance_single _ IH) in H.
    + apply bind_Ret in H as (i & w2 & H & Hret). apply ret_Ret in Hret as [<- _].
      by apply (mountNode_single _ IH) in H.
  - apply bind_Ret in H as (u & w1 & _ & H). by apply ret_Ret in H as [<- _].
Qed.

(** *** The document follows *)

(** A mount is a call that keeps the document in step. *)
Lemma appended_kept p w r w' : appended p w r w' → kept p w None r w'.
Proof.
  intros [Hok Hn Hk Hf Hnew Hs Hh]. split; try done.
  - intros m Hm. rewrite Hk. apply elem_of_app. by right.
  - intros m Hm. rewrite Hk in Hm. apply elem_of_app in Hm as [Hm|Hm]; [right|by left].
    split; [done|]. cbn [getDomNodes]. apply not_elem_of_nil.
  - intros m Hm _. rewrite Hk. apply elem_of_app. by left.
  - intros q Hq Hlt _. by apply Hf.
Qed.

(** So is a removal, and a removal with a mount after it. *)
Lemma removed_kept p w old w1 r w' :
  doc_ok (dm w) →
  inDom (removeInstance p old) w = Ret tt w1 →
  (doc_ok (dm w1) → p < next (dm w1) → appended p w1 r w') →
  p < next (dm w) →
  kept p w old r w'.
Proof.
  intros Hok Hrem Happ Hp. apply inDom_Ret in Hrem as (d1 & Hrem & ->).
  apply removeInstance_ok in Hrem as (Hok1 & Hn1 & Hp1 & Hq1); [|done].
  destruct Happ as [Hok' Hn Hk Hf Hnew Hs Hh]; cbn [dm] in *; [done|lia|].
  split; try done.
  - intros m Hm. rewrite Hk. apply elem_of_app. by right.
  - intros m Hm. rewrite Hk, Hp1 in Hm.
    apply elem_of_app in Hm as [Hm%list_elem_of_filter|Hm]; [right|by left].
    by destruct Hm.
  - intros m Hm Hnot. rewrite Hk, Hp1. apply elem_of_app. left. by apply list_elem_of_filter.
  - intros q Hq Hlt _. rewrite Hf, Hq1; [done|done|done|lia].
Qed.

(** The unused old children are taken out of the document. *)
Lemma removal_ok p (olds : list (option Instance)) used : ∀ w u w',
  doc_ok (dm w) →
  for_each olds (λ oldChild,
    match oldChild with
    | Some c => if negb (used_has used c)
                then inDom (removeInstance p oldChild)
                else ret tt
    | None => ret tt
    end) w = Ret u w' →
  doc_ok (dm w') ∧ next (dm w') = next (dm w)
  ∧ (∀ m, m ∈ kidsOf (dm w') p ↔
          m ∈ kidsOf (dm w) p
          ∧ ∀ o, Some o ∈ olds → i_ref o ∉ used → m ∉ getDomNodes_of o)
  ∧ ∀ q, q ≠ p → kidsOf (dm w') q = kidsOf (dm w) q.
Proof.
  induction olds as [|c olds IH]; intros w u w' Hok H; cbn [for_each] in H.
  - apply ret_Ret in H as [_ <-]. split_and!; try done.
    intros m. split; [|by intros [? _]]. intros Hm. split; [done|].
    intros o Ho. by apply elem_of_nil in Ho.
  - apply bind_Ret in H as (u1 & w1 & Hstep & H).
    assert (doc_ok (dm w1) ∧ next (dm w1) = next (dm w)
            ∧ (∀ m, m ∈ kidsOf (dm w1) p ↔
                    m ∈ kidsOf (dm w) p
                    ∧ ∀ o, c = Some o → i_ref o ∉ used → m ∉ getDomNodes_of o)
            ∧ ∀ q, q ≠ p → kidsOf (dm w1) q = kidsOf (dm w) q) as (Hok1 & Hn1 & Hp1 & Hq1).
    { destruct c as [o|].
      - unfold used_has in Hstep. destruct (decide (i_ref o ∈ used)) as [Hu|Hu].
        + rewrite bool_decide_eq_true_2 in Hstep by done. apply ret_Ret in Hstep as [_ <-].
          split_and!; try done. intros m. split; [|by intros [? _]].
          intros Hm. split; [done|]. by intros o' [= <-] Hno.
        + rewrite bool_decide_eq_false_2 in Hstep by done. cbn [negb] in Hstep.
          apply inDom_Ret in Hstep as (d1 & Hstep & ->).
          apply removeInstance_ok in Hstep as (Hok1 & Hn1 & Hp1 & Hq1); [|done].
          split_and!; try done. intros m. cbn [dm]. rewrite Hp1, list_elem_of_filter.
          split.
          * intros [Hnot Hm]. split; [done|]. by intros o' [= <-] _.
          * intros [Hm Hnot]. split; [|done]. by apply Hnot.
      - apply ret_Ret in Hstep as [_ <-]. split_and!; try done.
        intros m. split; [|by intros [? _]]. intros Hm. by split. }
    apply IH in H as (Hok2 & Hn2 & Hp2 & Hq2); [|done].
    split_and!; [done|congruence| |].
    + intros m. rewrite Hp2, Hp1. split.
      * intros [[Hm Hc] Hrest]. split; [done|]. intros o Ho Hu.
        apply elem_of_cons in Ho as [<-|Ho]; [by apply Hc|by apply Hrest].
      * intros [Hm Hall]. split; [split; [done|]|].
        -- intros o -> Hu. apply Hall; [left|done].
        -- intros o Ho Hu. apply Hall; [by right|done].
    + intros q Hq. by rewrite Hq2, Hq1.
Qed.

(** The node of a host instance is held by the tree. *)
Lemma hosts_ids : ∀ i n, n ∈ hosts i → Node n ∈ ids i.
Proof.
  apply (Instance_children_ind (λ i, ∀ n, n ∈ hosts i → Node n ∈ ids i)).
  intros r kind dom node children key path IH n Hn.
  rewrite hosts_eq in Hn. rewrite ids_eq. cbn [i_kind i_dom i_children i_ref] in *.
  apply elem_of_cons. right. apply elem_of_app.
  apply elem_of_app in Hn as [Hn|Hn].
  - left. destruct kind; try by apply elem_of_nil in Hn.
    destruct dom as [d|]; [|by apply elem_of_nil in Hn].
    apply list_elem_of_singleton in Hn as ->. cbn [own_node]. apply list_elem_of_fmap_2. left.
  - right. apply elem_of_flat_map in Hn as ([c|] & Hc & Hn); [|by apply elem_of_nil in Hn].
    apply elem_of_ids_of. exists c. split; [done|].
    rewrite Forall_forall in IH. by apply (IH (Some c)).
Qed.

Lemma opt_hosts_ids r n : n ∈ opt_hosts r → Node n ∈ opt_ids r.
Proof. destruct r; [apply hosts_ids|by intros ?%elem_of_nil]. Qed.

Lemma opt_getDomNodes_ids r m : m ∈ getDomNodes r → Node m ∈ opt_ids r.
Proof. destruct r; [apply getDomNodes_ids|by intros ?%elem_of_nil]. Qed.

Section Sync.
Variable reconcile :
  nat → option Instance → option VNode → string → M World (option Instance).
Hypothesis reconcile_updates : updates reconcile.
Hypothesis reconcile_appends : appends reconcile.
Hypothesis reconcile_single : singles reconcile.
Hypothesis reconcile_syncs : syncs reconcile.

Lemma matchChildren_syncs p path keyMap keyless newChildren olds :
  NoDup (ids_of olds) →
  (∀ k o, JsMap.get keyMap k = Some o → Some o ∈ olds ∧ i_key o = Some k) →
  (∀ o, o ∈ keyless → Some o ∈ olds ∧ i_key o = None) →
  Node p ∉ ids_of olds → Forall opt_single olds →
  ∀ rest i used w res w',
    doc_ok (dm w) → p < next (dm w) → Forall (opt_wf w) olds →
    Forall keys_ok rest → NoDup (omap vkey rest) →
    (∀ v k o, v ∈ rest → vkey v = Some k → JsMap.get keyMap k = Some o → i_ref o ∉ used) →
    (∀ o, Some o ∈ olds → i_ref o ∉ used →
          synced (dm w) o ∧ ∀ m, m ∈ getDomNodes_of o → m ∈ kidsOf (dm w) p) →
    matchChildren createChildPath reconcile p path keyMap keyless newChildren i rest used w
    = Ret res w' →
    doc_ok (dm w')
    ∧ Forall (opt_synced (dm w')) res.1
    ∧ (∀ m, m ∈ nodes_of res.1 → m ∈ kidsOf (dm w') p)
    ∧ (∀ m, m ∈ kidsOf (dm w') p →
            m ∈ nodes_of res.1
            ∨ (m ∈ kidsOf (dm w) p
               ∧ ∀ o, Some o ∈ olds → i_ref o ∉ used → i_ref o ∈ res.2 →
                      m ∉ getDomNodes_of o))
    ∧ (∀ m, m ∈ kidsOf (dm w) p →
            (∀ o, Some o ∈ olds → i_ref o ∉ used → m ∉ getDomNodes_of o) →
            m ∈ kidsOf (dm w') p)
    ∧ (∀ q, q ≠ p → q < next (dm w) →
            (∀ o, Some o ∈ olds → i_ref o ∉ used → Node q ∉ ids o) →
            kidsOf (dm w') q = kidsOf (dm w) q)
    ∧ (∀ x, x ∈ ids_of res.1 →
            (∃ o, Some o ∈ olds ∧ (i_ref o ∉ used) ∧ i_ref o ∈ res.2 ∧ x ∈ ids o) ∨ fresh w x)
    ∧ (∀ r, r ∈ used → r ∈ res.2).
Proof.
  intros Holds HK HL Hp Hsingle.
  induction rest as [|v rest IH];
    intros i used w res w' Hok Hlt Hwfo Hk Hnk Hfree Hintact H; cbn [matchChildren] in H.
  - apply ret_Ret in H as [<- <-]. cbn [fst snd]. split_and!.
    + done.
    + constructor.
    + intros m Hm. by apply elem_of_nil in Hm.
    + intros m Hm. right. split; [done|]. intros o _ Hu Hin. done.
    + intros m Hm _. done.
    + done.
    + intros x Hx. by apply elem_of_nil in Hx.
    + done.
  - set (m := match match vkey v with Some k => JsMap.get keyMap k | None => None end with
              | Some m => Some m
              | None => scan keyless used v
              end) in H.
    set (used1 := match m with Some m => i_ref m :: used | None => used end) in H.
    apply bind_Ret in H as (r & w1 & Hrec & H).
    apply bind_Ret in H as (res' & w2 & Hrest & H).
    apply ret_Ret in H as [<- <-]. cbn [fst snd].
    apply Forall_cons in Hk as [Hkv Hkr].
    assert (Hm : ∀ o, m = Some o →
              Some o ∈ olds ∧ (i_ref o ∉ used) ∧ (i_key o = vkey v ∨ i_key o = None)).
    { intros o Ho. unfold m in Ho. destruct (vkey v) as [k|] eqn:Hvk.
      - destruct (JsMap.get keyMap k) as [o'|] eqn:Hget.
        + injection Ho as ->. destruct (HK _ _ Hget) as [Hin Hkey].
          split_and!; [done| |by left]. eapply Hfree; [by apply elem_of_cons; left|done..].
        + apply scan_Some in Ho as (Hin & Hu & _). destruct (HL _ Hin). by split_and!; [| |right].
      - apply scan_Some in Ho as (Hin & Hu & _). destruct (HL _ Hin). by split_and!; [| |right]. }
    assert (Hused1 : ∀ r, r ∈ used → r ∈ used1).
    { intros r0 Hr. unfold used1. destruct m; [by apply elem_of_cons; right|done]. }
    assert (Hwfm : opt_wf w m).
    { destruct m as [o|] eqn:Hmo; [|done]. destruct (Hm o eq_refl) as (Hin & _).
      rewrite Forall_forall in Hwfo. by apply (Hwfo (Some o)). }
    (* an old child that is still unused is another one than the match *)
    assert (Hother : ∀ o x, Some o ∈ olds → i_ref o ∉ used1 → x ∈ opt_ids m → x ∉ ids o).
    { intros o x Ho Hu Hx Hxo. destruct m as [om|] eqn:Hmo; [|by apply elem_of_nil in Hx].
      destruct (Hm om eq_refl) as (Hin & _).
      assert (om = o) as -> by (by apply (ids_of_disjoint olds om o x)).
      apply Hu. unfold used1. apply elem_of_cons. by left. }
    assert (Hused_cases : ∀ o, Some o ∈ olds → i_ref o ∉ used → i_ref o ∈ used1 → m = Some o).
    { intros o Ho Hu Hu1. unfold used1 in Hu1. destruct m as [om|] eqn:Hmo; [|done].
      apply elem_of_cons in Hu1 as [Href|Hu1]; [|done].
      destruct (Hm om eq_refl) as (Hin & _). f_equal. by apply (ids_of_same_ref olds). }
    pose proof Hrec as Hupd.
    apply reconcile_updates in Hupd as [G1 D1 Hwf1 Hids1 _ Hsome];
      [|intros q; apply Hok|done|done].
    apply reconcile_syncs in Hrec as [Kok Ksynced Kloc Kclosed Krest Kframe]; try done.
    2:{ destruct m as [om|] eqn:Hmo; [|done]. destruct (Hm om eq_refl) as (Hin & _).
        rewrite Forall_forall in Hsingle. by apply (Hsingle (Some om)). }
    2:{ destruct m as [om|] eqn:Hmo; [|done]. destruct (Hm om eq_refl) as (Hin & Hu & _).
        by apply Hintact. }
    2:{ destruct m as [om|] eqn:Hmo; [|by intros ? ?%elem_of_nil].
        destruct (Hm om eq_refl) as (Hin & Hu & _). by apply Hintact. }
    2:{ destruct m as [om|] eqn:Hmo; [|apply not_elem_of_nil].
        destruct (Hm om eq_refl) as (Hin & _). intros Hx. apply Hp.
        apply elem_of_ids_of. by exists om. }
    assert (Hlt1 : p < next (dm w1)) by (destruct G1; lia).
    assert (Hwfo1 : Forall (opt_wf w1) olds).
    { eapply Forall_impl; [exact Hwfo|]. intros c. by apply opt_wf_grows. }
    (* what the new instance holds is held by no old child that is still unused *)
    assert (Hdisj : ∀ x o, x ∈ opt_ids r → Some o ∈ olds → i_ref o ∉ used1 → x ∉ ids o).
    { intros x o Hx Ho Hu Hxo. destruct (Hids1 x Hx) as [Hxm|Hf].
      - by apply (Hother o x).
      - eapply bounded_not_fresh; [|exact Hf]. eapply ids_of_bounded; [exact Hwfo|].
        apply elem_of_ids_of. by exists o. }
    apply IH in Hrest as (Hok2 & Hs2 & Hloc2 & Hcl2 & Hrest2 & Hfr2 & Hids2 & Hused2);
      [|done|done|done|done| | |].
    2:{ simpl in Hnk. destruct (vkey v); [by apply NoDup_cons in Hnk as [_ ?]|done]. }
    2:{ intros v' k' o' Hv' Hvk' Hget' Hin.
        assert (Hfree' : i_ref o' ∉ used).
        { eapply Hfree; [by apply elem_of_cons; right|done..]. }
        destruct (HK _ _ Hget') as [Hino' Hkey'].
        pose proof (Hused_cases o' Hino' Hfree' Hin) as Hmo.
        destruct (Hm o' Hmo) as (_ & _ & Hkey).
        rewrite Hkey' in Hkey. destruct Hkey as [Hkey|Hkey]; [|done].
        simpl in Hnk. rewrite <- Hkey in Hnk. apply NoDup_cons in Hnk as [Hnotin _].
        apply Hnotin. apply list_elem_of_omap. by exists v'. }
    2:{ intros o Ho Hu.
        assert (i_ref o ∉ used) as Hu0 by (intros Hin; by apply Hu, Hused1).
        destruct (Hintact o Ho Hu0) as [Hso Hlo]. split.
        - apply (synced_frame (dm w)); [|done]. intros n Hn. apply hosts_ids in Hn.
          apply Kframe.
          + intros ->. apply Hp. apply elem_of_ids_of. by exists o.
          + assert (bounded w (Node n)) as Hb; [|exact Hb].
            eapply ids_of_bounded; [exact Hwfo|]. apply elem_of_ids_of. by exists o.
          + intros Hx. by apply (Hother o (Node n)).
        - intros m' Hm'. apply Krest; [by apply Hlo|].
          intros Hx%opt_getDomNodes_ids. apply (Hother o (Node m')); [done..|].
          by apply getDomNodes_ids. }
    split_and!.
    + done.
    + apply Forall_cons. split; [|done].
      apply (opt_synced_frame (dm w1)); [|done].
      intros n Hn%opt_hosts_ids. apply Hfr2.
      * intros ->. destruct (Hids1 _ Hn) as [Hx|Hf].
        -- destruct m as [om|] eqn:Hmo; [|by apply elem_of_nil in Hx].
           destruct (Hm om eq_refl) as (Hin & _). apply Hp. apply elem_of_ids_of. by exists om.
        -- cbn [fresh] in Hf. lia.
      * assert (bounded w1 (Node n)) as Hb; [|exact Hb]. by eapply opt_wf_bounded_in.
      * intros o Ho Hu. by apply Hdisj.
    + intros m' Hm'. rewrite nodes_of_cons in Hm'. apply elem_of_app in Hm' as [Hm'|Hm'].
      * apply Hrest2; [by apply Kloc|]. intros o Ho Hu Hin.
        apply (Hdisj (Node m') o); [by apply opt_getDomNodes_ids|done..|by apply getDomNodes_ids].
      * by apply Hloc2.
    + intros m' Hm'. rewrite nodes_of_cons. rewrite elem_of_app.
      destruct (Hcl2 m' Hm') as [Hin|[Hin1 Hall1]]; [left; by right|].
      destruct (Kclosed m' Hin1) as [Hin|[Hin0 Hnotm]]; [left; by left|].
      right. split; [done|]. intros o Ho Hu Hend.
      destruct (decide (i_ref o ∈ used1)) as [Hu1|Hu1].
      * rewrite (Hused_cases o Ho Hu Hu1) in Hnotm. exact Hnotm.
      * by apply Hall1.
    + intros m' Hm' Hall. apply Hrest2.
      * apply Krest; [done|]. destruct m as [om|] eqn:Hmo; [|apply not_elem_of_nil].
        destruct (Hm om eq_refl) as (Hin & Hu & _). by apply Hall.
      * intros o Ho Hu. apply Hall; [done|]. intros Hin. by apply Hu, Hused1.
    + intros q Hq Hlq Hall. rewrite Hfr2; [|done|destruct G1; lia|].
      * apply Kframe; [done..|]. destruct m as [om|] eqn:Hmo; [|apply not_elem_of_nil].
        destruct (Hm om eq_refl) as (Hin & Hu & _). by apply Hall.
      * intros o Ho Hu. apply Hall; [done|]. intros Hin. by apply Hu, Hused1.
    + intros x Hx. rewrite ids_of_cons in Hx. apply elem_of_app in Hx as [Hx|Hx].
      * destruct (Hids1 x Hx) as [Hxm|Hf]; [|by right].
        destruct m as [om|] eqn:Hmo; [|by apply elem_of_nil in Hxm].
        destruct (Hm om eq_refl) as (Hin & Hu & _). left. exists om. split_and!; try done.
        apply Hused2. unfold used1. apply elem_of_cons. by left.
      * destruct (Hids2 x Hx) as [(o & Ho & Hu & Hend & Hxo)|Hf].
        -- left. exists o. split_and!; try done. intros Hin. by apply Hu, Hused1.
        -- right. by eapply fresh_grows.
    + intros r0 Hr. by apply Hused2, Hused1.
Qed.


Lemma reconcileChildren_syncs p inst node path w inst' w' :
  doc_ok (dm w) → wf w inst → keys_ok node →
  Forall opt_single (i_children inst) → Forall (opt_synced (dm w)) (i_children inst) →
  (∀ m, m ∈ nodes_of (i_children inst) → m ∈ kidsOf (dm w) p) →
  p < next (dm w) → Node p ∉ ids_of (i_children inst) →
  reconcileChildren createChildPath reconcile p inst node path w = Ret inst' w' →
  ∃ rs, inst' = set_children rs inst
        ∧ doc_ok (dm w') ∧ Forall (opt_synced (dm w')) rs
        ∧ (∃ rest, kidsOf (dm w') p = rest ++ nodes_of rs
                   ∧ ∀ m, m ∈ rest →
                          m ∈ kidsOf (dm w) p ∧ m ∉ nodes_of (i_children inst))
        ∧ (∀ m, m ∈ kidsOf (dm w) p → m ∉ nodes_of (i_children inst) →
                m ∈ kidsOf (dm w') p)
        ∧ (∀ q, q ≠ p → q < next (dm w) → Node q ∉ ids_of (i_children inst) →
                kidsOf (dm w') q = kidsOf (dm w) q).
Proof.
  intros Hok Hwf Hk Hsingle Hsynced Hloc Hlt Hp H. unfold reconcileChildren in H.
  apply bind_Ret in H as (res & w1 & Hmatch & H).
  apply bind_Ret in H as (u & w2 & Hremove & H).
  apply bind_Ret in H as (u' & w3 & Hplace & H).
  apply ret_Ret in H as [<- <-].
  set (olds := i_children inst) in *.
  destruct (wf_children_all _ _ Hwf) as [Hnd Hwfcs]. fold olds in Hnd, Hwfcs.
  apply keys_ok_children in Hk as [Hnk Hk].
  assert (HK : ∀ k o, JsMap.get (keyMap_of olds []) k = Some o → Some o ∈ olds ∧ i_key o = Some k).
  { intros k o Hget. apply keyMap_of_get in Hget as [?|?]; done. }
  assert (HL : ∀ o, o ∈ keyless_of olds → Some o ∈ olds ∧ i_key o = None).
  { intros o Ho. by apply elem_of_keyless_of. }
  pose proof Hmatch as Hupd.
  eapply matchChildren_updated with (olds := olds) in Hupd
    as (G0 & D0 & Hwf0 & Hnd0 & _ & _ & _); try done.
  2:{ intros q. apply Hok. }
  2:{ intros v k o _ _ _ Hin. by apply elem_of_nil in Hin. }
  eapply matchChildren_syncs with (olds := olds) in Hmatch
    as (Hok1 & Hs1 & Hloc1 & Hcl1 & Hrest1 & Hfr1 & Hids1 & _); try done.
  2:{ intros v k o _ _ _ Hin. by apply elem_of_nil in Hin. }
  2:{ intros o Ho _. split.
      - rewrite Forall_forall in Hsynced. by apply (Hsynced (Some o)).
      - intros m Hm. apply Hloc. apply elem_of_nodes_of. by exists o. }
  (* every old child is used, or it is taken out *)
  apply removal_ok in Hremove as (Hok2 & Hn2 & Hp2 & Hq2); [|done].
  assert (Hloc2 : ∀ m, m ∈ nodes_of res.1 → m ∈ kidsOf (dm w2) p).
  { intros m Hm. apply Hp2. split; [by apply Hloc1|]. intros o Ho Hu Hin.
    apply nodes_of_ids in Hm. destruct (Hids1 _ Hm) as [(o' & Ho' & _ & Hend & Hx)|Hf].
    - assert (o' = o) as -> by (apply (ids_of_disjoint olds o' o (Node m)); try done;
                                 by apply getDomNodes_ids).
      done.
    - eapply bounded_not_fresh; [|exact Hf]. eapply ids_of_bounded; [exact Hwfcs|].
      apply elem_of_ids_of. exists o. split; [done|]. by apply getDomNodes_ids. }
  apply inDom_Ret in Hplace as (d3 & Hplace & ->). cbn [dm].
  pose proof Hplace as Horder.
  apply placeChildren_ok in Hplace as (Hok3 & Hn3 & Hp3 & Hq3); [|done|].
  2:{ intros m Hm. apply Hloc2. apply elem_of_nodes_of in Hm as (c & Hc & Hm).
      apply elem_of_nodes_of. exists c. split; [|done].
      by apply list_elem_of_In, in_rev, list_elem_of_In. }
  apply (placeChildren_order p res.1) with (T := []) (P := kidsOf (dm w2) p) in Horder.
  2:{ eapply Forall_impl; [exact Hwf0|]. intros [c|]; [apply wf_shaped|done]. }
  2:{ by apply NoDup_nodes_of_ids. }
  2:{ intros q. apply Hok2. }
  2:{ by rewrite app_nil_r. }
  2:{ done. }
  2:{ intros n _. apply not_elem_of_nil. }
  rewrite app_nil_r in Horder.
  assert (Hsame12 : ∀ q, q ≠ p → kidsOf d3 q = kidsOf (dm w1) q).
  { intros q Hq. by rewrite Hq3, Hq2. }
  exists res.1. split_and!.
  - done.
  - done.
  - rewrite Forall_forall in Hs1. apply Forall_forall. intros c Hc.
    apply (opt_synced_frame (dm w1)); [|by apply Hs1].
    intros n Hn%opt_hosts_ids. apply Hsame12. intros ->.
    assert (Node p ∈ ids_of res.1) as Hin.
    { destruct c as [c|]; [|by apply elem_of_nil in Hn]. apply elem_of_ids_of. by exists c. }
    destruct (Hids1 _ Hin) as [(o & Ho & _ & _ & Hx)|Hf].
    + apply Hp. apply elem_of_ids_of. by exists o.
    + cbn [fresh] in Hf. lia.
  - exists (filter (λ x, x ∉ nodes_of res.1) (kidsOf (dm w2) p)). split; [done|].
    intros m [Hnot Hm]%list_elem_of_filter. apply Hp2 in Hm as [Hm Hunused].
    destruct (Hcl1 m Hm) as [Hin|[Hin0 Hused]]; [done|]. split; [done|].
    intros Hin. apply elem_of_nodes_of in Hin as (o & Ho & Hin).
    destruct (decide (i_ref o ∈ res.2)) as [Hu|Hu].
    + apply (Hused o); try done. apply not_elem_of_nil.
    + by apply (Hunused o).
  - intros m Hm Hnot. apply Hp3, Hp2. split.
    + apply Hrest1; [done|]. intros o Ho _ Hin. apply Hnot.
      apply elem_of_nodes_of. by exists o.
    + intros o Ho _ Hin. apply Hnot. apply elem_of_nodes_of. by exists o.
  - intros q Hq Hlq Hnotin. rewrite Hsame12 by done. apply Hfr1; [done..|].
    intros o Ho _ Hin. apply Hnotin. apply elem_of_ids_of. by exists o.
Qed.

(** Only the document counts. *)
Lemma kept_dm p w0 w old r w' w0' :
  dm w0 = dm w → dm w0' = dm w' → kept p w old r w' → kept p w0 old r w0'.
Proof. intros E E' [? ? ? ? ? ?]. split; rewrite ?E, ?E'; done. Qed.

(** A call that changes no child list keeps the document in step with a
    tree that has the nodes and the children of the old one. *)
Lemma kept_still p w inst i' w' :
  doc_ok (dm w) → synced (dm w) inst →
  (∀ m, m ∈ getDomNodes_of inst → m ∈ kidsOf (dm w) p) →
  next (dm w') = next (dm w) → (∀ q, kidsOf (dm w') q = kidsOf (dm w) q) →
  i_kind i' = i_kind inst → i_dom i' = i_dom inst → i_children i' = i_children inst →
  kept p w (Some inst) (Some i') w'.
Proof.
  intros Hok Hs Hloc Hn Hq Hkind Hdom Hcs.
  assert (getDomNodes_of i' = getDomNodes_of inst) as Hnodes.
  { by rewrite !getDomNodes_of_eq, Hkind, Hdom, Hcs. }
  split; cbn [getDomNodes opt_synced].
  - by apply (doc_ok_same (dm w)).
  - apply synced_eq. rewrite Hkind, Hdom, Hcs. apply synced_eq in Hs as [Hown Hall]. split.
    + destruct (i_kind inst); try done. destruct (i_dom inst); [|done]. by rewrite Hq.
    + eapply Forall_impl; [exact Hall|]. intros c. apply opt_synced_frame. intros n _. apply Hq.
  - intros m. rewrite Hnodes, Hq. apply Hloc.
  - intros m. rewrite Hnodes, Hq. intros Hm.
    destruct (decide (m ∈ getDomNodes_of inst)); [by left|by right].
  - intros m Hm _. by rewrite Hq.
  - intros q _ _ _. apply Hq.
Qed.

Lemma updateInstance_syncs p inst node path w i' w' :
  doc_ok (dm w) → wf w inst → keys_ok node → single inst → synced (dm w) inst →
  (∀ m, m ∈ getDomNodes_of inst → m ∈ kidsOf (dm w) p) →
  p < next (dm w) → Node p ∉ ids inst →
  updateInstance has_prop read_only comps createChildPath reconcile p inst node path w
  = Ret i' w' →
  kept p w (Some inst) (Some i') w'.
Proof.
  intros Hok Hwf Hk Hsingle Hsynced Hloc Hlt Hp H. unfold updateInstance in H.
  pose proof Hsynced as Hsynced'. apply synced_eq in Hsynced' as [Hown Hall].
  pose proof Hsingle as Hsingle'. apply single_eq in Hsingle' as [Hone Hsingles].
  assert (Hpcs : Node p ∉ ids_of (i_children inst)).
  { intros Hin. apply Hp. rewrite ids_eq. apply elem_of_cons. right. apply elem_of_app. by right. }
  destruct (i_kind inst) eqn:Hkind.
  - (* a host element *)
    destruct (i_dom inst) as [dom|] eqn:Hdom; [|done].
    apply bind_Ret in H as (u & w1 & Hprops & H).
    apply bind_Ret in H as (inst' & w2 & Hrc & H).
    apply ret_Ret in H as [<- <-].
    unfold Reconciler.updateDomProps in Hprops. apply inDom_Ret in Hprops as (d1 & Hprops & ->).
    apply keeps_updateDomProps in Hprops as [Hn1 Hk1].
    assert (Hq1 : ∀ q, kidsOf d1 q = kidsOf (dm w) q) by (intros q; unfold kidsOf; by rewrite Hk1).
    set (w1 := mkWorld d1 (hk w) (nextInstance w)) in *.
    assert (G1 : grows w w1) by (split; cbn; lia).
    assert (Hdomid : Node dom ∈ ids inst).
    { rewrite ids_eq, Hkind, Hdom. apply elem_of_cons. right. apply elem_of_app. left.
      apply list_elem_of_fmap_2. left. }
    assert (Hdomlt : dom < next (dm w)).
    { assert (bounded w (Node dom)) as Hb by (by eapply wf_bounded_in). exact Hb. }
    assert (Hdomcs : Node dom ∉ ids_of (i_children inst)).
    { destruct Hwf as [_ Hnd _]. rewrite ids_eq, Hkind, Hdom in Hnd. cbn [own_node fmap list_fmap] in Hnd.
      apply NoDup_cons in Hnd as [_ Hnd]. cbn [app] in Hnd. by apply NoDup_cons in Hnd as [? _]. }
    assert (Hpd : p ≠ dom) by (by intros ->).
    apply reconcileChildren_syncs in Hrc
      as (rs & -> & Hok2 & Hs2 & (rest & Hkids2 & Hrest2) & _ & Hfr2); try done.
    2:{ by apply (doc_ok_same (dm w)). }
    2:{ by eapply wf_grows. }
    2:{ eapply Forall_impl; [exact Hall|]. intros c. apply opt_synced_frame. by intros n _. }
    2:{ intros m Hm. cbn [dm w1]. by rewrite Hq1, Hown. }
    2:{ cbn [dm w1]. lia. }
    assert (rest = []) as ->.
    { destruct rest as [|m rest]; [done|]. destruct (Hrest2 m) as [Hin Hnot]; [left|].
      cbn [dm w1] in Hin. rewrite Hq1, Hown in Hin. done. }
    cbn [app] in Hkids2.
    assert (Hpsame : kidsOf (dm w2) p = kidsOf (dm w) p).
    { rewrite Hfr2; [apply Hq1|done|cbn [dm w1]; lia|done]. }
    assert (getDomNodes_of (set_node node (set_children rs inst)) = [dom]) as Hnodes.
    { rewrite getDomNodes_of_eq. destruct inst. cbn in *. by subst. }
    assert (getDomNodes_of inst = [dom]) as Hnodes0.
    { rewrite getDomNodes_of_eq. by rewrite Hkind, Hdom. }
    split; cbn [getDomNodes opt_synced opt_ids].
    + done.
    + apply synced_eq. destruct inst. cbn in *. subst. by split.
    + intros m. rewrite Hnodes, Hpsame, <- Hnodes0. apply Hloc.
    + intros m. rewrite Hnodes, Hpsame, Hnodes0. intros Hm.
      destruct (decide (m ∈ [dom])); [by left|by right].
    + intros m Hm _. by rewrite Hpsame.
    + intros q Hq Hlq Hnot. rewrite Hfr2; [apply Hq1| |cbn [dm w1]; lia|].
      * intros ->. by apply Hnot.
      * intros Hin. apply Hnot. rewrite ids_eq. apply elem_of_cons. right.
        apply elem_of_app. by right.
  - (* a text *)
    apply bind_Ret in H as (u & w1 & Hset & H). apply ret_Ret in H as [<- <-].
    assert (next (dm w1) = next (dm w) ∧ kids (dm w1) = kids (dm w)) as [Hn1 Hk1].
    { destruct (i_dom inst) as [dom|]; [|by apply ret_Ret in Hset as [_ <-]].
      apply bind_Ret in Hset as (w0 & w0' & Hget & Hset).
      apply get_state_Ret in Hget as [-> ->].
      destruct (bool_decide _); [by apply ret_Ret in Hset as [_ <-]|].
      apply inDom_Ret in Hset as (d1 & Hset & ->). by apply keeps_setNodeValue in Hset. }
    apply kept_still; try done; try by destruct inst.
    intros q. unfold kidsOf. by rewrite Hk1.
  - (* a component *)
    unfold updateComponent in H.
    apply bind_Ret in H as (u & w1 & Henter & H).
    apply finally_Ret in H as (w4 & H & ->).
    apply bind_Ret in H as (childNode & w2 & Hcall & H).
    apply bind_Ret in H as (ci & w3 & Hrec & H).
    apply ret_Ret in H as [<- <-].
    unfold enterComponent in Henter. apply inHooks_Ret in Henter as (h1 & _ & ->).
    unfold callComponent in Hcall. destruct (vtype node) as [| | |fid name] eqn:Ht; try done.
    apply inHooks_Ret in Hcall as (h2 & Hcall & ->).
    apply keys_ok_children in Hk as [_ Hk]. apply comps_ok in Hcall; [|done].
    destruct (wf_children_all _ _ Hwf) as [Hnd Hcs].
    set (old := default None (head (i_children inst))) in *.
    set (w2 := mkWorld (dm w) h2 (nextInstance w)) in *.
    assert (G2 : grows w w2) by (split; cbn; lia).
    assert (Hold : opt_wf w old ∧ opt_single old ∧ opt_synced (dm w) old
                   ∧ getDomNodes old = getDomNodes_of inst
                   ∧ ∀ x, x ∈ opt_ids old → x ∈ ids_of (i_children inst)).
    { rewrite getDomNodes_of_eq, Hkind. unfold old.
      destruct (i_children inst) as [|c [|c' cs]]; cbn [length] in Hone; [| |lia].
      - split_and!; try done. all: intros x Hx; by apply elem_of_nil in Hx.
      - apply Forall_cons in Hcs as [? _]. apply Forall_cons in Hall as [? _].
        apply Forall_cons in Hsingles as [? _].
        split_and!; try done.
        + cbn [head default nodes_of flat_map]. by rewrite app_nil_r.
        + intros x Hx. rewrite ids_of_cons. apply elem_of_app. by left. }
    destruct Hold as (Hwfold & Hsold & Hsyold & Hnold & Hidsold).
    apply reconcile_syncs in Hrec; try done.
    2:{ by eapply opt_wf_grows. }
    2:{ intros m. rewrite Hnold. apply Hloc. }
    2:{ intros Hin. by apply Hpcs, Hidsold. }
    apply (kept_dm p w w2 _ _ _ (leaveComponent w3)) in Hrec; [|done|done].
    destruct Hrec as [Kok Ksynced Kloc Kclosed Krest Kframe].
    set (r := set_node node _).
    assert (getDomNodes_of r = getDomNodes ci) as Hnodes.
    { unfold r. rewrite getDomNodes_of_eq. destruct inst. cbn in *. subst.
      destruct ci; cbn [nodes_of flat_map getDomNodes]; by rewrite ?app_nil_r. }
    split; cbn [getDomNodes opt_synced opt_ids].
    + done.
    + apply synced_eq. unfold r. destruct inst. cbn in *. subst. split; [done|].
      destruct ci; repeat constructor. done.
    + intros m. rewrite Hnodes. apply Kloc.
    + intros m Hm. rewrite Hnodes, <- Hnold. by apply Kclosed.
    + intros m Hm Hnot. apply Krest; [done|]. by rewrite Hnold.
    + intros q Hq Hlq Hnot. apply Kframe; [done..|].
      intros Hin. apply Hnot. rewrite ids_eq. apply elem_of_cons. right.
      apply elem_of_app. right. by apply Hidsold.
  - (* a fragment *)
    apply bind_Ret in H as (inst' & w1 & Hrc & H). apply ret_Ret in H as [<- <-].
    assert (Hnodes0 : getDomNodes_of inst = nodes_of (i_children inst)).
    { by rewrite getDomNodes_of_eq, Hkind. }
    apply reconcileChildren_syncs in Hrc
      as (rs & -> & Hok2 & Hs2 & (rest & Hkids2 & Hrest2) & Hkeep2 & Hfr2); try done.
    2:{ intros m. rewrite <- Hnodes0. apply Hloc. }
    set (r := set_node node _).
    assert (getDomNodes_of r = nodes_of rs) as Hnodes.
    { unfold r. rewrite getDomNodes_of_eq. destruct inst. cbn in *. by subst. }
    split; cbn [getDomNodes opt_synced opt_ids].
    + done.
    + apply synced_eq. unfold r. destruct inst. cbn in *. subst. by split.
    + intros m. rewrite Hnodes, Hkids2. intros Hm. apply elem_of_app. by right.
    + intros m. rewrite Hnodes, Hnodes0, Hkids2. intros [Hm|Hm]%elem_of_app; [right|by left].
      by apply Hrest2.
    + intros m Hm Hnot. apply Hkeep2; [done|]. by rewrite <- Hnodes0.
    + intros q Hq Hlq Hnot. apply Hfr2; [done..|].
      intros Hin. apply Hnot. rewrite ids_eq. apply elem_of_cons. right.
      apply elem_of_app. by right.
Qed.

End Sync.

Lemma reconcile_syncs fuel :
  syncs (reconcile has_prop read_only comps createChildPath fuel).
Proof.
  induction fuel as [|fuel IH];
    intros p old node path w r w' Hok Hwf Hk Hsingle Hsynced Hloc Hlt Hp H; [done|].
  cbn [reconcile] in H. unfold reconcile_body in H.
  pose proof (reconcile_appends has_prop read_only comps createChildPath fuel) as Happ.
  destruct node as [n|].
  - destruct old as [inst|].
    + destruct (negb _ || negb _).
      * apply bind_Ret in H as (u & w1 & Hrm & H).
        apply bind_Ret in H as (i & w2 & H & Hret). apply ret_Ret in Hret as [<- <-].
        destruct u. eapply removed_kept; [done|exact Hrm| |done].
        intros Hok1 Hlt1. eapply mountNode_appends; [exact Happ|done|done|exact H].
      * apply bind_Ret in H as (i & w2 & H & Hret). apply ret_Ret in Hret as [<- <-].
        eapply updateInstance_syncs; [..|exact H]; try done;
          first [exact IH | exact Happ | apply reconcile_single
                | apply reconcile_updates; exact comps_ok].
    + apply bind_Ret in H as (i & w2 & H & Hret). apply ret_Ret in Hret as [<- <-].
      apply appended_kept. eapply mountNode_appends; [exact Happ|done|done|exact H].
  - apply bind_Ret in H as (u & w1 & Hrm & H). apply ret_Ret in H as [<- <-].
    destruct old as [inst|].
    2:{ apply ret_Ret in Hrm as [_ <-]. split; try done. intros m Hm. right. split; [done|]. by intros ?%elem_of_nil. }
    apply inDom_Ret in Hrm as (d1 & Hrm & ->).
    apply removeInstance_ok in Hrm as (Hok1 & Hn1 & Hkids1 & Hfr1); [|done].
    split; cbn [dm getDomNodes opt_synced].
    + done.
    + done.
    + by intros m ?%elem_of_nil.
    + intros m. rewrite Hkids1. intros [? ?]%list_elem_of_filter. by right.
    + intros m Hm Hnot. rewrite Hkids1. by apply list_elem_of_filter.
    + intros q Hq _ _. by apply Hfr1.
Qed.


End Updates.

End UpdateFacts.

Section UpdateWitnesses.
Import Dom Reconciler TreeSpec SyncSpec UpdateSpec Examples.
Local Open Scope nat_scope.

(** The first render of the keyed example leaves the document in step
    with its tree. *)
Lemma keyed_in_step :
  doc_ok (dm world_keyed) ∧ opt_single (Some old_keyed)
  ∧ opt_synced (dm world_keyed) (Some old_keyed)
  ∧ (∀ m, m ∈ getDomNodes (Some old_keyed) → m ∈ kidsOf (dm world_keyed) 0)
  ∧ Node 0 ∉ opt_ids (Some old_keyed).
Proof.
  assert (H : Reconciler.reconcile has_prop read_only no_comps ElementsDoc.createChildPath 20
                0 None (Some keyed_before) "0" world0 = Ret (Some old_keyed) world_keyed).
  { vm_compute. reflexivity. }
  assert (Hp : 0 < next (dm world0)) by (vm_compute; lia).
  pose proof (reconcile_single has_prop read_only no_comps ElementsDoc.createChildPath 20
                0 None (Some keyed_before) "0" world0 _ _ (I : opt_single None) H) as Hs.
  pose proof (reconcile_appends has_prop read_only no_comps ElementsDoc.createChildPath 20
                0 (Some keyed_before) "0" world0 _ _ page_doc_ok Hp H)
    as [Hok _ Hkids _ _ Hsy _].
  split; [exact Hok|]. split; [exact Hs|]. split; [exact Hsy|]. split.
  - intros m Hm. rewrite Hkids. apply elem_of_app. right. exact Hm.
  - rewrite list_elem_of_In. vm_compute. intuition discriminate.
Qed.


End UpdateWitnesses.
